(** * k-engine: content migration and translation resolution

    A shallow embedding of [migrate-projects.js] (and of its twin
    [migrate-posts.js], which differs only in the name of the content
    root) and of the translation resolver and language switcher of the
    site generator ([getPostTranslations], [getProjectTranslations],
    [generateLanguageSwitcher]).

    The file system is a tree of regular files and directories.  A
    directory is an association list in enumeration order, the order in
    which [fs.readdirSync] lists it.  Entry names are single path
    components, as [readdirSync] returns them, so [path.join dir name]
    appends one component when [name] is an entry name; a string that
    comes from the caller or from the configuration is joined as
    [path.join] does on POSIX, by segments.  A path is the list of the
    names from the root of the file system.  Symbolic links, permissions
    and console output are not part of the model. *)

From Stdlib Require Import List String Ascii Bool Arith Lia NArith ZArith.
Import ListNotations.

Local Open Scope string_scope.
Local Open Scope list_scope.

Set Implicit Arguments.

(* ================================================================== *)
(** * Part I: the program *)
(* ================================================================== *)

(** ** JavaScript strings and UTF-8 *)

(** The double quote character, used by the HTML the switcher emits. *)
Definition dq : string := String (ascii_of_nat 34) EmptyString.

(** [s.endsWith(suffix)] *)
Fixpoint endsWith (s suffix : string) : bool :=
  String.eqb s suffix
  || match s with
     | EmptyString => false
     | String _ s' => endsWith s' suffix
     end.

Fixpoint drop (n : nat) (s : string) : string :=
  match n, s with
  | S n', String _ s' => drop n' s'
  | _, _ => s
  end.

(** [s.replace(pat, rep)] with a string pattern: only the first
    occurrence of [pat] is replaced. *)
Fixpoint str_replace (s pat rep : string) : string :=
  if String.prefix pat s then (rep ++ drop (String.length pat) s)%string
  else match s with
       | EmptyString => EmptyString
       | String c s' => String c (str_replace s' pat rep)
       end.

(** [arr.includes(x)] on an array of strings. *)
Definition includes (arr : list string) (x : string) : bool :=
  existsb (String.eqb x) arr.

(** A JavaScript string read from a file: its sequence of code points. *)
Definition jsstring := list N.

Definition bytes_of_string (s : string) : list N :=
  map N_of_ascii (list_ascii_of_string s).

Definition string_of_bytes (bs : list N) : string :=
  string_of_list_ascii (map ascii_of_N bs).

(** The UTF-8 decoder Node applies for the ['utf-8'] encoding (the WHATWG
    decoder): every maximal ill-formed subsequence becomes one U+FFFD.
    [needed] is the number of continuation bytes still expected, [cp] the
    code point under construction, [lower] and [upper] the range allowed
    for the next continuation byte. *)
Fixpoint utf8_decode_from (needed : nat) (cp lower upper : N) (bs : list N)
  : list N :=
  match bs with
  | [] => match needed with O => [] | S _ => [65533%N] end
  | b :: bs' =>
      let start :=
        if (b <=? 127)%N then b :: utf8_decode_from 0 0 128 191 bs'
        else if ((194 <=? b) && (b <=? 223))%N then
          utf8_decode_from 1 (N.land b 31) 128 191 bs'
        else if ((224 <=? b) && (b <=? 239))%N then
          utf8_decode_from 2 (N.land b 15)
            (if (b =? 224)%N then 160%N else 128%N)
            (if (b =? 237)%N then 159%N else 191%N) bs'
        else if ((240 <=? b) && (b <=? 244))%N then
          utf8_decode_from 3 (N.land b 7)
            (if (b =? 240)%N then 144%N else 128%N)
            (if (b =? 244)%N then 143%N else 191%N) bs'
        else 65533%N :: utf8_decode_from 0 0 128 191 bs' in
      match needed with
      | O => start
      | S n =>
          if ((lower <=? b) && (b <=? upper))%N then
            let cp' := N.lor (N.shiftl cp 6) (N.land b 63) in
            match n with
            | O => cp' :: utf8_decode_from 0 0 128 191 bs'
            | S _ => utf8_decode_from n cp' 128 191 bs'
            end
          else 65533%N :: start
      end
  end.

Definition utf8_decode (s : string) : jsstring :=
  utf8_decode_from 0 0 128 191 (bytes_of_string s).

Definition utf8_encode_cp (c : N) : list N :=
  if (c <? 128)%N then [c]
  else if (c <? 2048)%N then
    [N.lor 192 (N.shiftr c 6); N.lor 128 (N.land c 63)]
  else if (c <? 65536)%N then
    [N.lor 224 (N.shiftr c 12); N.lor 128 (N.land (N.shiftr c 6) 63);
     N.lor 128 (N.land c 63)]
  else
    [N.lor 240 (N.shiftr c 18); N.lor 128 (N.land (N.shiftr c 12) 63);
     N.lor 128 (N.land (N.shiftr c 6) 63); N.lor 128 (N.land c 63)].

Definition utf8_encode (s : jsstring) : string :=
  string_of_bytes (flat_map utf8_encode_cp s).

(** ** Insertion-ordered maps

    A JavaScript [Map] enumerates its keys in insertion order; setting an
    existing key keeps its position.  The entries of a directory are
    kept the same way, in the order in which [readdirSync] lists
    them. *)

Definition alist (V : Type) := list (string * V).

Fixpoint aget {V} (k : string) (m : alist V) : option V :=
  match m with
  | [] => None
  | (k', v) :: m' => if String.eqb k k' then Some v else aget k m'
  end.

Fixpoint aset {V} (k : string) (v : V) (m : alist V) : alist V :=
  match m with
  | [] => [(k, v)]
  | (k', v') :: m' =>
      if String.eqb k k' then (k, v) :: m' else (k', v') :: aset k v m'
  end.

Fixpoint adel {V} (k : string) (m : alist V) : alist V :=
  match m with
  | [] => []
  | (k', v') :: m' =>
      if String.eqb k k' then adel k m' else (k', v') :: adel k m'
  end.

Definition keys {V} (m : alist V) : list string := map fst m.

Definition has {V} (k : string) (m : alist V) : bool :=
  match aget k m with Some _ => true | None => false end.

(** ** Plain objects

    A plain JavaScript object whose values are strings (the table of
    translations, [langNames], [typeToPath]) is an association list kept
    in the order of [Object.keys]: first the keys that are array
    indices, in ascending numeric order, then the other keys in the
    order in which they were created. *)

Definition is_digit (c : ascii) : bool :=
  Nat.leb 48 (nat_of_ascii c) && Nat.leb (nat_of_ascii c) 57.

Fixpoint all_digits (s : string) : bool :=
  match s with
  | EmptyString => true
  | String c s' => is_digit c && all_digits s'
  end.

Fixpoint digits_value (acc : N) (s : string) : N :=
  match s with
  | EmptyString => acc
  | String c s' => digits_value (10 * acc + (N_of_ascii c - 48))%N s'
  end.

Definition index_value (s : string) : N := digits_value 0 s.

(** An array index: the canonical decimal form of an integer from 0 to
    2^32 - 2. *)
Definition is_array_index (s : string) : bool :=
  match s with
  | EmptyString => false
  | String c rest =>
      all_digits s
      && (negb (Ascii.eqb c "0") || String.eqb rest EmptyString)
      && (index_value s <=? 4294967294)%N
  end.

(** Creates the property [k], which [o] does not have, at its place in
    the order of the keys. *)
Fixpoint obj_define (k v : string) (o : alist string) : alist string :=
  match o with
  | [] => [(k, v)]
  | (k', v') :: o' =>
      if is_array_index k
         && negb (is_array_index k' && (index_value k' <? index_value k)%N)
      then (k, v) :: (k', v') :: o'
      else (k', v') :: obj_define k v o'
  end.

(** [o[k] = v] for a string [v].  The key [__proto__] is the accessor
    inherited from [Object.prototype]: its setter ignores a value that is
    neither an object nor [null], so the assignment creates no
    property. *)
Definition obj_set (k v : string) (o : alist string) : alist string :=
  if String.eqb k "__proto__" then o
  else if has k o then aset k v o
  else obj_define k v o.

Definition native_function (name : string) : string :=
  ("function " ++ name ++ "() { [native code] }")%string.

(** The properties every plain object inherits from [Object.prototype],
    each with the text it gives in a template literal: the functions
    print as native functions, and [__proto__] reads [Object.prototype]
    itself. *)
Definition object_prototype : alist string :=
  [ ("constructor", native_function "Object");
    ("__defineGetter__", native_function "__defineGetter__");
    ("__defineSetter__", native_function "__defineSetter__");
    ("hasOwnProperty", native_function "hasOwnProperty");
    ("__lookupGetter__", native_function "__lookupGetter__");
    ("__lookupSetter__", native_function "__lookupSetter__");
    ("isPrototypeOf", native_function "isPrototypeOf");
    ("propertyIsEnumerable", native_function "propertyIsEnumerable");
    ("toString", native_function "toString");
    ("valueOf", native_function "valueOf");
    ("__proto__", "[object Object]");
    ("toLocaleString", native_function "toLocaleString") ].

(** [o[k] || d], as the text it gives in a template literal: an own
    property when it is not the empty string; else [d] when the property
    is an own one; else an inherited property, which is a function or an
    object and so is truthy; else [d]. *)
Definition obj_get_or (k : string) (o : alist string) (d : string) : string :=
  match aget k o with
  | Some s => if String.eqb s EmptyString then d else s
  | None =>
      match aget k object_prototype with
      | Some text => text
      | None => d
      end
  end.

(** ** The file system *)

Definition path := list string.

#[warnings="-register-all"]
Inductive node : Type :=
| File (bytes : string)
| Dir (entries : alist node).

Definition isDirectory (n : node) : bool :=
  match n with Dir _ => true | File _ => false end.

(** [path.join(dir, name)] when [name] is a single path component: the
    name of a directory entry, or a literal such as ['posts']. *)
Definition path_join (dir : path) (name : string) : path := dir ++ [name].

(** [path.dirname(p)] *)
Definition dirname (p : path) : path := removelast p.

(** The segments of [s] between slashes. *)
Fixpoint split_slash (s : string) : list string :=
  match s with
  | EmptyString => [EmptyString]
  | String c s' =>
      if Ascii.eqb c "/" then EmptyString :: split_slash s'
      else match split_slash s' with
           | seg :: rest => String c seg :: rest
           | [] => [String c EmptyString]
           end
  end.

(** The normalisation of [path.join]: an empty segment and [.] are
    dropped, [..] removes the segment before it (at the root of the file
    system there is none, and [..] is dropped). *)
Fixpoint normalize (dir : path) (segs : list string) : path :=
  match segs with
  | [] => dir
  | seg :: rest =>
      if String.eqb seg EmptyString || String.eqb seg "." then normalize dir rest
      else if String.eqb seg ".." then normalize (removelast dir) rest
      else normalize (dir ++ [seg]) rest
  end.

(** What [path.join(dir, s)] denotes for an arbitrary string [s]: the
    path, and whether the result ends with a separator, which it does
    when [s] does. *)
Record joined : Type := mkJoined { jpath : path; trailing : bool }.

Definition path_join_str (dir : path) (s : string) : joined :=
  mkJoined (normalize dir (split_slash s)) (endsWith s "/").

Fixpoint lookup (p : path) (t : node) : option node :=
  match p with
  | [] => Some t
  | x :: p' =>
      match t with
      | Dir es => match aget x es with
                  | Some c => lookup p' c
                  | None => None
                  end
      | File _ => None
      end
  end.

(** [graft p (Some v) t] puts [v] at [p], replacing what is there;
    [graft p None t] removes the entry at [p].  The parent of [p] has to
    be an existing directory. *)
Fixpoint graft (p : path) (ov : option node) (t : node) : option node :=
  match p with
  | [] => None
  | x :: p' =>
      match t with
      | File _ => None
      | Dir es =>
          match p' with
          | [] => Some (Dir (match ov with
                             | Some v => aset x v es
                             | None => adel x es
                             end))
          | _ :: _ =>
              match aget x es with
              | Some c => match graft p' ov c with
                          | Some c' => Some (Dir (aset x c' es))
                          | None => None
                          end
              | None => None
              end
          end
      end
  end.

(** [fs.mkdirSync(p, { recursive: true })]: creates the missing
    directories along [p]; fails when a component is a regular file. *)
Fixpoint mkdirp (p : path) (t : node) : option node :=
  match t with
  | File _ => None
  | Dir es =>
      match p with
      | [] => Some t
      | x :: p' =>
          match mkdirp p' (match aget x es with
                           | Some c => c
                           | None => Dir []
                           end) with
          | Some c' => Some (Dir (aset x c' es))
          | None => None
          end
      end
  end.

Fixpoint is_prefix (p q : path) : bool :=
  match p, q with
  | [], _ => true
  | x :: p', y :: q' => String.eqb x y && is_prefix p' q'
  | _ :: _, [] => false
  end.

(** [fs.writeFileSync(p, data)]: creates or overwrites a regular file. *)
Definition write_file (p : path) (data : string) (t : node) : option node :=
  match lookup p t with
  | Some (Dir _) => None
  | _ => graft p (Some (File data)) t
  end.

(** [fs.copyFileSync(src, dest)]: [src] has to be a regular file; an
    existing regular file at [dest] is overwritten. *)
Definition copy_file (src dest : path) (t : node) : option node :=
  match lookup src t with
  | Some (File b) =>
      match lookup dest t with
      | Some (Dir _) => None
      | _ => graft dest (Some (File b)) t
      end
  | _ => None
  end.

(** [fs.renameSync(src, dest)]: moves the whole subtree.  It fails when
    [src] is missing, when [dest] lies inside [src], when [dest] is a
    non-empty directory, and when one of the two is a directory and the
    other a regular file. *)
Definition rename (src dest : path) (t : node) : option node :=
  match lookup src t with
  | None => None
  | Some v =>
      if is_prefix src dest then
        if is_prefix dest src then Some t else None
      else
        match lookup dest t, v with
        | Some (Dir (_ :: _)), _ => None
        | Some (Dir []), File _ => None
        | Some (File _), Dir _ => None
        | _, _ => match graft src None t with
                  | Some t1 => graft dest (Some v) t1
                  | None => None
                  end
        end
  end.

(** [fs.rmSync(p, { recursive: true, force: true })] *)
Definition rm_rf (p : path) (t : node) : option node := graft p None t.

(** What a system call finds at a joined path: a path that ends with a
    separator leads to a directory or to nothing. *)
Definition stat (j : joined) (t : node) : option node :=
  match lookup (jpath j) t with
  | Some n => if trailing j && negb (isDirectory n) then None else Some n
  | None => None
  end.

(** Every directory lists each name once. *)
Fixpoint nodupb (l : list string) : bool :=
  match l with
  | [] => true
  | x :: l' => negb (existsb (String.eqb x) l') && nodupb l'
  end.

Fixpoint wf (t : node) : bool :=
  match t with
  | File _ => true
  | Dir es => nodupb (keys es) && forallb (fun e => wf (snd e)) es
  end.

(** ** The process: state, exceptions and [process.exit]

    A world is the file system together with the schedule of faults of
    its environment: the head of [faults] tells whether the next mutating
    system call fails for a reason outside the tree (disk full,
    permission denied, ...).  A failing call throws and changes
    nothing. *)

Record World : Type := mkWorld { tree : node; faults : list bool }.

Inductive outcome (A : Type) : Type :=
| Ret (a : A) (w : World)
| Throw (w : World)
| Exit (code : nat) (w : World).

Arguments Throw {A} w.
Arguments Exit {A} code w.

Definition world_of {A} (o : outcome A) : World :=
  match o with Ret _ w => w | Throw w => w | Exit _ w => w end.

Definition M (A : Type) : Type := World -> outcome A.

Definition ret {A} (a : A) : M A := fun w => Ret a w.

Definition bind {A B} (m : M A) (f : A -> M B) : M B :=
  fun w => match m w with
           | Ret a w' => f a w'
           | Throw w' => Throw w'
           | Exit c w' => Exit c w'
           end.

Definition throw {A} : M A := fun w => Throw w.

(** [process.exit(code)] *)
Definition exit {A} (code : nat) : M A := fun w => Exit code w.

(** [m.catch(handler)] *)
Definition catch {A} (m : M A) (handler : M A) : M A :=
  fun w => match m w with
           | Throw w' => handler w'
           | o => o
           end.

Declare Scope monad_scope.
Delimit Scope monad_scope with monad.
Notation "x <- m ;; k" := (bind m (fun x => k))
  (at level 61, m at next level, right associativity) : monad_scope.
Notation "m ;; k" := (bind m (fun _ => k))
  (at level 61, right associativity) : monad_scope.
Local Open Scope monad_scope.

(** [if (c) { m }] *)
Definition when (c : bool) (m : M unit) : M unit :=
  if c then m else ret tt.

(** [for (const x of l) { body }] *)
Fixpoint forM_ {A} (l : list A) (body : A -> M unit) : M unit :=
  match l with
  | [] => ret tt
  | x :: l' => body x ;; forM_ l' body
  end.

(** A loop that updates a local variable [acc]. *)
Fixpoint foldM {A B} (body : B -> A -> M B) (acc : B) (l : list A) : M B :=
  match l with
  | [] => ret acc
  | x :: l' => acc' <- body acc x ;; foldM body acc' l'
  end.

(** [l.filter(pred)] with a callback that reads the file system. *)
Fixpoint filterM {A} (pred : A -> M bool) (l : list A) : M (list A) :=
  match l with
  | [] => ret []
  | x :: l' =>
      keep <- pred x ;;
      rest <- filterM pred l' ;;
      ret (if keep then x :: rest else rest)
  end.

(** [l.some(pred)]: stops at the first element that satisfies [pred]. *)
Fixpoint someM {A} (pred : A -> M bool) (l : list A) : M bool :=
  match l with
  | [] => ret false
  | x :: l' => found <- pred x ;; if found then ret true else someM pred l'
  end.

(** *** System calls *)

Definition mutate (op : node -> option node) : M unit :=
  fun w =>
    match faults w with
    | true :: rest => Throw (mkWorld (tree w) rest)
    | _ =>
        match op (tree w) with
        | Some t' => Ret tt (mkWorld t' (tl (faults w)))
        | None => Throw (mkWorld (tree w) (tl (faults w)))
        end
    end.

Definition fs_existsSync (p : path) : M bool :=
  fun w => Ret (match lookup p (tree w) with
                | Some _ => true
                | None => false
                end) w.

(** [fs.existsSync(p)] for a joined path. *)
Definition fs_existsSync_joined (j : joined) : M bool :=
  fun w => Ret (match stat j (tree w) with
                | Some _ => true
                | None => false
                end) w.

(** A [fs.Dirent]: [e.name] and [e.isDirectory()]. *)
Record Dirent : Type := mkDirent { d_name : string; d_isDirectory : bool }.

Definition dirent_of (e : string * node) : Dirent :=
  mkDirent (fst e) (isDirectory (snd e)).

(** [fs.readdirSync(p, { withFileTypes: true })] *)
Definition fs_readdirSync_withFileTypes (p : path) : M (list Dirent) :=
  fun w => match lookup p (tree w) with
           | Some (Dir es) => Ret (map dirent_of es) w
           | _ => Throw w
           end.

(** [fs.readdirSync(p)] *)
Definition fs_readdirSync (p : path) : M (list string) :=
  fun w => match lookup p (tree w) with
           | Some (Dir es) => Ret (keys es) w
           | _ => Throw w
           end.

(** [fs.readFileSync(p, 'utf-8')] *)
Definition fs_readFileSync (p : path) : M jsstring :=
  fun w => match lookup p (tree w) with
           | Some (File b) => Ret (utf8_decode b) w
           | _ => Throw w
           end.

(** [fs.writeFileSync(p, data)] with a string [data], written as UTF-8. *)
Definition fs_writeFileSync (p : path) (data : jsstring) : M unit :=
  mutate (write_file p (utf8_encode data)).

Definition fs_mkdirSync_recursive (p : path) : M unit := mutate (mkdirp p).
Definition fs_renameSync (src dest : path) : M unit := mutate (rename src dest).
Definition fs_copyFileSync (src dest : path) : M unit :=
  mutate (copy_file src dest).
Definition fs_rmSync_recursive_force (p : path) : M unit := mutate (rm_rf p).

(** ** The migration script ([migrate-projects.js])

    [dryRun] is the [--dry-run] flag and [projectsDir] the content root
    [path.join(contentDir, 'projects')] ([postsDir] in
    [migrate-posts.js], whose functions are the same line for line). *)

(** The value stored per slug and language by [collectProjects]. *)
Record ProjectData : Type := mkProjectData {
  content : jsstring;
  files : list string;
  sourcePath : path
}.

(** [Map<slug, Map<lang, data>>] *)
Definition Projects := alist (alist ProjectData).

Section Migrator.

Variable dryRun : bool.
Variable projectsDir : path.

(** Helper to create directory recursively *)
Definition mkdirSync (dir : path) : M unit :=
  e <- fs_existsSync dir ;;
  if negb e then fs_mkdirSync_recursive dir else ret tt.

(** Helper to move/rename *)
Definition moveSync (src dest : path) : M unit :=
  mkdirSync (dirname dest) ;;
  fs_renameSync src dest.

(** Helper to copy file *)
Definition copyFileSync (src dest : path) : M unit :=
  mkdirSync (dirname dest) ;;
  fs_copyFileSync src dest.

(** Helper to remove directory recursively *)
Definition removeSync (dir : path) : M unit :=
  e <- fs_existsSync dir ;;
  if e then fs_rmSync_recursive_force dir else ret tt.

(** The callback of the second [filter] of [detectLanguages]: does the
    directory look like a language folder? *)
Definition looksLikeLanguage (e : Dirent) : M bool :=
  let langDir := path_join projectsDir (d_name e) in
  ents <- fs_readdirSync_withFileTypes langDir ;;
  let subdirs := filter d_isDirectory ents in
  someM (fun d =>
           let indexPath := path_join (path_join langDir (d_name d)) "index.md" in
           fs_existsSync indexPath)
        subdirs.

(** Detect languages from existing directory structure *)
Definition detectLanguages : M (list string) :=
  e <- fs_existsSync projectsDir ;;
  if negb e then exit 1
  else
    entries <- fs_readdirSync_withFileTypes projectsDir ;;
    langs <- filterM looksLikeLanguage (filter d_isDirectory entries) ;;
    ret (map d_name langs).

(** The body of the inner loop of [collectProjects]. *)
Definition collectSlug (lang : string) (langDir : path)
    (projects : Projects) (slug : string) : M Projects :=
  let projectDir := path_join langDir slug in
  let indexPath := path_join projectDir "index.md" in
  e <- fs_existsSync indexPath ;;
  if negb e then ret projects
  else
    files <- fs_readdirSync projectDir ;;
    content <- fs_readFileSync indexPath ;;
    let projects :=
      if negb (has slug projects) then aset slug [] projects else projects in
    let versions :=
      match aget slug projects with Some m => m | None => [] end in
    ret (aset slug
           (aset lang
              (mkProjectData content
                 (filter (fun f => negb (String.eqb f "index.md")) files)
                 projectDir)
              versions)
           projects).

(** The body of the outer loop of [collectProjects]. *)
Definition collectLang (projects : Projects) (lang : string) : M Projects :=
  let langDir := path_join projectsDir lang in
  e <- fs_existsSync langDir ;;
  if negb e then ret projects
  else
    ents <- fs_readdirSync_withFileTypes langDir ;;
    let slugDirs := map d_name (filter d_isDirectory ents) in
    foldM (collectSlug lang langDir) projects slugDirs.

(** Collect all projects from old structure *)
Definition collectProjects (languages : list string) : M Projects :=
  foldM collectLang [] languages.

(** The elements of [allMedia]: [{ file, source }].  Each [add] inserts a
    fresh object, so the set keeps every element, in insertion order. *)
Definition Media : Type := (string * path)%type.

(** The loop over the language versions of one item: writes
    [{lang}.md] and collects the media files. *)
Definition stageVersion (newProjectDir : path) (allMedia : list Media)
    (v : string * ProjectData) : M (list Media) :=
  let (lang, data) := v in
  let newFilePath := path_join newProjectDir (lang ++ ".md")%string in
  when (negb dryRun) (fs_writeFileSync newFilePath (content data)) ;;
  ret (allMedia
         ++ map (fun file => (file, path_join (sourcePath data) file))
                (files data)).

(** Copy media files (only once, even if present in multiple language
    dirs) *)
Definition copyMedia (newProjectDir : path) (copiedMedia : list string)
    (m : Media) : M (list string) :=
  let (file, source) := m in
  if includes copiedMedia file then ret copiedMedia
  else
    let dest := path_join newProjectDir file in
    when (negb dryRun) (copyFileSync source dest) ;;
    ret (copiedMedia ++ [file]).

(** The body of the loop over [projects] in [migrate]. *)
Definition stageProject (tempDir : path)
    (item : string * alist ProjectData) : M unit :=
  let (slug, langVersions) := item in
  let newProjectDir := path_join tempDir slug in
  when (negb dryRun) (mkdirSync newProjectDir) ;;
  allMedia <- foldM (stageVersion newProjectDir) [] langVersions ;;
  _ <- foldM (copyMedia newProjectDir) [] allMedia ;;
  ret tt.

Definition tempName : string := "_new_structure".
Definition backupName : string := "_old_structure_backup".

(** [migrate], lines 129-173: the new structure is built in
    [_new_structure]. *)
Definition staging (projects : Projects) : M unit :=
  let tempDir := path_join projectsDir tempName in
  when (negb dryRun) (mkdirSync tempDir) ;;
  forM_ projects (stageProject tempDir).

(** Create backup of old structure *)
Definition backupLang (backupDir : path) (lang : string) : M unit :=
  let langDir := path_join projectsDir lang in
  e <- fs_existsSync langDir ;;
  if e then moveSync langDir (path_join backupDir lang) else ret tt.

(** Move new structure to projects/ *)
Definition promote (tempDir : path) (slug : string) : M unit :=
  moveSync (path_join tempDir slug) (path_join projectsDir slug).

(** [migrate], lines 181-206: backup of the old structure, promotion of
    the new one, removal of the temporary directory. *)
Definition destructive (languages : list string) : M unit :=
  let tempDir := path_join projectsDir tempName in
  let backupDir := path_join projectsDir backupName in
  forM_ languages (backupLang backupDir) ;;
  ents <- fs_readdirSync_withFileTypes tempDir ;;
  let newProjectDirs := map d_name (filter d_isDirectory ents) in
  forM_ newProjectDirs (promote tempDir) ;;
  removeSync tempDir.

(** Migrate projects to new structure *)
Definition migrate (languages : list string) (projects : Projects) : M unit :=
  staging projects ;;
  if dryRun then ret tt else destructive languages.

(** [main] together with its [.catch] handler. *)
Definition main : M unit :=
  catch
    (languages <- detectLanguages ;;
     if Nat.eqb (List.length languages) 0 then exit 0
     else
       projects <- collectProjects languages ;;
       migrate languages projects)
    (exit 1).

End Migrator.

(** ** The site generator: translations and the language switcher *)

(** [config.languages] (possibly undefined) and [config.sourceDir]. *)
Record Config : Type := mkConfig {
  cfg_languages : option (list string);
  sourceDir : path
}.

(** The attributes of a document's front matter that the resolver
    reads: [attributes.slug], when declared. *)
Record Attributes : Type := mkAttributes { attr_slug : option string }.

(** [a || b] on strings: the empty string is falsy. *)
Definition str_or (a b : string) : string :=
  if String.eqb a EmptyString then b else a.

(** [a || b] where [a] may be [undefined] or [null]. *)
Definition opt_or (a : option string) (b : string) : string :=
  match a with Some s => str_or s b | None => b end.

Section Site.

Variable config : Config.

(** The [front-matter] package: [frontMatter(text)] parses the YAML
    header of a document; [None] when it throws. *)
Variable frontMatter : jsstring -> option Attributes.

(** [String.prototype.toUpperCase] *)
Variable toUpperCase : string -> string.

(** [config.languages || []] *)
Definition configured_languages : list string :=
  match cfg_languages config with Some l => l | None => [] end.

(** The body of the [try] / [catch] of the resolver: the public slug of
    the document at [mdPath]. *)
Definition publicSlug (mdPath : path) (folderSlug : string) : M string :=
  catch
    (mdContent <- fs_readFileSync mdPath ;;
     match frontMatter mdContent with
     | Some attributes => ret (opt_or (attr_slug attributes) folderSlug)
     | None => throw
     end)
    (ret folderSlug).

(** The body of the loop over the files of the item directory. *)
Definition addTranslation (languages : list string) (dir : path)
    (folderSlug : string) (translations : alist string) (file : string)
  : M (alist string) :=
  if negb (endsWith file ".md") then ret translations
  else
    let lang := str_replace file ".md" EmptyString in
    if negb (includes languages lang) then ret translations
    else
      let mdPath := path_join dir file in
      s <- publicSlug mdPath folderSlug ;;
      ret (obj_set lang s translations).

(** [getPostTranslations] ([section] is ["posts"]) and
    [getProjectTranslations] ([section] is ["projects"]). *)
Definition getTranslations (section : string) (folderSlug : string)
  : M (alist string) :=
  let languages := configured_languages in
  if Nat.eqb (List.length languages) 0 then ret []
  else
    let dir :=
      path_join_str (path_join (sourceDir config) section) folderSlug in
    e <- fs_existsSync_joined dir ;;
    if negb e then ret []
    else
      names <- fs_readdirSync (jpath dir) ;;
      foldM (addTranslation languages (jpath dir) folderSlug) [] names.

Definition getPostTranslations := getTranslations "posts".
Definition getProjectTranslations := getTranslations "projects".

Definition langNames : alist string :=
  [ ("en", "English"); ("ru", "Русский"); ("de", "Deutsch"); ("zh", "中文");
    ("es", "Español"); ("fr", "Français"); ("ja", "日本語"); ("ko", "한국어") ].

Definition typeToPath : alist string :=
  [ ("post", "posts"); ("project", "projects") ].

(** The callback of [availableLangs.map] in [generateLanguageSwitcher]. *)
Definition switcherLink (defaultLang currentLang slug pathSegment : string)
    (translations : alist string) (lang : string) : string :=
  let isDefault := String.eqb lang defaultLang in
  let isCurrent := String.eqb lang currentLang in
  let urlPrefix := if isDefault then EmptyString else ("/" ++ lang)%string in
  let langSlug := obj_get_or lang translations slug in
  let href :=
    if negb (String.eqb pathSegment EmptyString)
    then (urlPrefix ++ "/" ++ pathSegment ++ "/" ++ langSlug ++ "/")%string
    else (urlPrefix ++ "/")%string in
  let name := obj_get_or lang langNames (toUpperCase lang) in
  if isCurrent
  then ("<span class=" ++ dq ++ "lang-current" ++ dq ++ ">" ++ name
          ++ "</span>")%string
  else ("<a href=" ++ dq ++ href ++ dq ++ " class=" ++ dq ++ "lang-link" ++ dq
          ++ ">" ++ name ++ "</a>")%string.

(** Generate language switcher HTML *)
Definition generateLanguageSwitcher (currentLang slug type : string)
    (folderSlug : option string) : M string :=
  let languages := configured_languages in
  if Nat.leb (List.length languages) 1 then ret EmptyString
  else
    let defaultLang := hd EmptyString languages in
    ta <-
      (if String.eqb type "post" then
         let lookupSlug := opt_or folderSlug slug in
         translations <- getPostTranslations lookupSlug ;;
         ret (translations, keys translations)
       else if String.eqb type "project" then
         let lookupSlug := opt_or folderSlug slug in
         translations <- getProjectTranslations lookupSlug ;;
         ret (translations, keys translations)
       else ret ([], languages)) ;;
    let translations := fst ta in
    let availableLangs := snd ta in
    if Nat.leb (List.length availableLangs) 1 then ret EmptyString
    else
      let pathSegment := obj_get_or type typeToPath EmptyString in
      let links :=
        map (switcherLink defaultLang currentLang slug pathSegment translations)
            availableLangs in
      ret ("<div class=" ++ dq ++ "lang-switcher" ++ dq ++ ">"
             ++ String.concat " | " links ++ "</div>")%string.

End Site.

(** ** The site generator: the languages of a post *)

Section PostLanguages.

Variable config : Config.

(** Get available languages for a post (for language switcher) *)
Definition getPostLanguages (folderSlug : string) : M (list string) :=
  let languages := configured_languages config in
  if Nat.eqb (List.length languages) 0 then ret []
  else
    let postDir :=
      path_join_str (path_join (sourceDir config) "posts") folderSlug in
    e <- fs_existsSync_joined postDir ;;
    if negb e then ret []
    else
      filterM (fun lang =>
                 let mdPath :=
                   path_join_str (jpath postDir) (lang ++ ".md")%string in
                 fs_existsSync_joined mdPath)
              languages.

End PostLanguages.

(** ** The site generator: templates

    [cwd] is [process.cwd()] and [moduleDir] is [__dirname], the
    directory of the module.  The name of a partial is a single path
    component ([loadTemplate] passes [page], [processPartials] the
    names that match [\w+]), and a template path is relative. *)

Section Templates.

Variable cwd : path.
Variable moduleDir : path.

(** [path.resolve(__dirname, '..', ...rel)] *)
Definition modulePath (rel : path) : path := dirname moduleDir ++ rel.

(** Reads a partial: the one of the working directory if there is one,
    else the one of the module. *)
Definition loadPartial (partialName : string) : M jsstring :=
  let file := (partialName ++ ".html")%string in
  let localPath := cwd ++ ["templates"; file] in
  e <- fs_existsSync localPath ;;
  if e then catch (fs_readFileSync localPath) (ret [])
  else catch (fs_readFileSync (modulePath ["templates"; file])) (ret []).

Definition loadTemplate : M jsstring := loadPartial "page".

Definition getTemplatePath (templatePath : path) : M path :=
  let localPath := cwd ++ templatePath in
  e <- fs_existsSync localPath ;;
  if e then ret localPath else ret (modulePath templatePath).

End Templates.

(** ** The site generator: links *)

(** [s.slice(0, -n)] *)
Definition slice_end (s : string) (n : nat) : string :=
  String.substring 0 (String.length s - n) s.

(** The [href] that [renderer.link] hands to the link renderer of
    [marked]. *)
Definition link_href (href : string) : string :=
  let href := if String.prefix "/" href then drop 1 href else href in
  if endsWith href "index.html"
  then slice_end href (String.length "index.html")
  else href.

(** ** Notions used to state the properties *)

(** The media file names recorded for one item, in the order in which
    [migrate] meets them. *)
Definition media_of (langVersions : alist ProjectData) : list string :=
  flat_map (fun v => files (snd v)) langVersions.

(** The first language version, in enumeration order, that lists the
    media file [file]. *)
Definition first_source (file : string) (langVersions : alist ProjectData)
  : option (string * ProjectData) :=
  find (fun v => includes (files (snd v)) file) langVersions.

(** The first language, in the order of [languages], that has a version
    of the item listing the media file [file]. *)
Definition first_language (file : string) (versions : alist ProjectData)
    (languages : list string) : option string :=
  find (fun lang => match aget lang versions with
                    | Some d => includes (files d) file
                    | None => false
                    end) languages.

(** [ks] lists, in the order of [order], the elements of [order] it
    contains, and nothing else. *)
Definition ordered_by (order ks : list string) : Prop :=
  ks = filter (includes ks) order.

(** A directory qualifies as a legacy language folder when one of its
    immediate subdirectories holds an entry [index.md]. *)
Definition is_language_folder (n : node) : bool :=
  match n with
  | File _ => false
  | Dir subs =>
      existsb (fun e => match snd e with
                        | Dir fs => has "index.md" fs
                        | File _ => false
                        end) subs
  end.

(** The language folders of the content root, in directory order. *)
Definition legacy_languages (projectsDir : path) (t : node) : list string :=
  match lookup projectsDir t with
  | Some (Dir es) => keys (filter (fun e => is_language_folder (snd e)) es)
  | _ => []
  end.

(** The legacy tree has a version of the item [slug] in the language
    folder [lang]: the folder [{lang}/{slug}] holds an entry
    [index.md]. *)
Definition has_version (projectsDir : path) (t : node) (slug lang : string)
  : bool :=
  match lookup (projectsDir ++ [lang; slug]) t with
  | Some (Dir fs) => has "index.md" fs
  | _ => false
  end.

(** The version of the item [slug] in the language folder [lang] comes
    with a media file [file]: an entry of its folder other than
    [index.md]. *)
Definition has_media (projectsDir : path) (t : node) (slug file lang : string)
  : bool :=
  match lookup (projectsDir ++ [lang; slug]) t with
  | Some (Dir fs) =>
      has "index.md" fs && has file fs && negb (String.eqb file "index.md")
  | _ => false
  end.

(** The languages in which the legacy tree has the item [slug], in
    directory order. *)
Definition item_languages (projectsDir : path) (t : node) (slug : string)
  : list string :=
  filter (has_version projectsDir t slug) (legacy_languages projectsDir t).

(** [pat] occurs in [s]. *)
Fixpoint occurs (pat s : string) : bool :=
  String.prefix pat s
  || match s with
     | EmptyString => false
     | String _ s' => occurs pat s'
     end.

(** A single path component, as the name of a directory entry is: not
    empty, without a slash, and neither [.] nor [..]. *)
Definition plain_name (s : string) : bool :=
  negb (String.eqb s EmptyString) && negb (occurs "/" s)
  && negb (String.eqb s ".") && negb (String.eqb s "..").

(** Two paths diverge when they differ at a position both have: neither
    is an ancestor of the other. *)
Fixpoint diverge (p q : path) : bool :=
  match p, q with
  | x :: p', y :: q' => if String.eqb x y then diverge p' q' else true
  | _, _ => false
  end.

(** [same_outside d t t']: every path that diverges from [d] leads to the
    same node in [t'] as in [t]. *)
Definition same_outside (d : path) (t t' : node) : Prop :=
  forall q, diverge d q = true -> lookup q t' = lookup q t.

(** [persists t t']: every path of [t] is still a path of [t'], to a node
    of the same kind: nothing was removed or moved away. *)
Definition persists (t t' : node) : Prop :=
  forall p n, lookup p t = Some n ->
    exists n', lookup p t' = Some n' /\ isDirectory n' = isDirectory n.

(** [keeps R m]: however [m] ends (return, exception or exit), the tree
    it leaves is related by [R] to the tree it started from. *)
Definition keeps (R : node -> node -> Prop) {A} (m : M A) : Prop :=
  forall w, R (tree w) (tree (world_of (m w))).

(** [readonly m]: however [m] ends, the world is the one it started
    from. *)
Definition readonly {A} (m : M A) : Prop := forall w, world_of (m w) = w.

(** The bytes a document has after being read as UTF-8 text and written
    back. *)
Definition utf8_recode (b : string) : string := utf8_encode (utf8_decode b).

(** A Unicode scalar value: a code point that is not a surrogate. *)
Definition is_scalar_value (c : N) : bool :=
  ((c <? 55296) || ((57344 <=? c) && (c <? 1114112)))%N.

(** Well-formed UTF-8: the encoding of a sequence of scalar values. *)
Definition well_formed_utf8 (b : string) : Prop :=
  exists text : jsstring,
    forallb is_scalar_value text = true /\ b = utf8_encode text.

(** What [collectProjects] records for the version of [slug] in the
    language folder [lang] of the tree [t]: where it is, the text of its
    [index.md] and the names of the other entries of its folder. *)
Definition collected (projectsDir : path) (t : node) (slug lang : string)
    (d : ProjectData) : Prop :=
  sourcePath d = projectsDir ++ [lang; slug]
  /\ exists b fs,
       lookup (projectsDir ++ [lang; slug; "index.md"]) t = Some (File b)
       /\ content d = utf8_decode b
       /\ lookup (projectsDir ++ [lang; slug]) t = Some (Dir fs)
       /\ files d = filter (fun f => negb (String.eqb f "index.md")) (keys fs).

Definition collection_of (projectsDir : path) (t : node)
    (languages : list string) (projects : Projects) : Prop :=
  NoDup (keys projects)
  /\ forall slug versions,
       In (slug, versions) projects ->
       NoDup (keys versions)
       /\ versions <> []
       /\ forall lang d,
            In (lang, d) versions ->
            In lang languages /\ collected projectsDir t slug lang d.

(** The pairs [{ file, source }] that [migrate] adds to [allMedia] for
    one language version. *)
Definition media_pairs (v : string * ProjectData) : list (string * path) :=
  map (fun file => (file, path_join (sourcePath (snd v)) file)) (files (snd v)).

(** [n] is the staged directory of an item with the language versions
    [versions], built over [old] (what was at that place in the staging
    directory before, if anything) from the sources of the tree [t0]:
    every media file holds the bytes of its first source; every document
    [{lang}.md] whose name is not also a media file name holds the text of
    the version; every other name is as it was in [old]. *)
Definition staged_item (t0 : node) (old : option node)
    (versions : alist ProjectData) (n : node) : Prop :=
  (forall f, In f (media_of versions) ->
     exists lang d b,
       first_source f versions = Some (lang, d)
       /\ lookup (path_join (sourcePath d) f) t0 = Some (File b)
       /\ lookup [f] n = Some (File b))
  /\ (forall lang d,
        In (lang, d) versions ->
        ~ In (lang ++ ".md")%string (media_of versions) ->
        lookup [(lang ++ ".md")%string] n
        = Some (File (utf8_encode (content d))))
  /\ (forall x,
        ~ In x (media_of versions) ->
        (forall lang, In lang (keys versions) -> x <> (lang ++ ".md")%string) ->
        lookup [x] n = match old with
                       | Some o => lookup [x] o
                       | None => None
                       end).

(** The slug a document declares in its front matter: a non-empty [slug]
    attribute of a readable document whose front matter parses. *)
Definition declared_slug (frontMatter : jsstring -> option Attributes)
    (n : node) : option string :=
  match n with
  | File b =>
      match frontMatter (utf8_decode b) with
      | Some a =>
          match attr_slug a with
          | Some s => if String.eqb s EmptyString then None else Some s
          | None => None
          end
      | None => None
      end
  | Dir _ => None
  end.

(** The public slug of a language version: the declared slug, else the
    folder slug. *)
Definition expected_slug (frontMatter : jsstring -> option Attributes)
    (n : node) (folderSlug : string) : string :=
  match declared_slug frontMatter n with
  | Some s => s
  | None => folderSlug
  end.

(** The translation table after one more file of the item directory
    [es] has been looked at. *)
Definition translation_step (frontMatter : jsstring -> option Attributes)
    (languages : list string) (es : alist node) (folderSlug : string)
    (translations : alist string) (file : string) : alist string :=
  if endsWith file ".md"
     && includes languages (str_replace file ".md" EmptyString)
  then obj_set (str_replace file ".md" EmptyString)
               (match aget file es with
                | Some n => expected_slug frontMatter n folderSlug
                | None => folderSlug
                end)
               translations
  else translations.

(** The entry of the language switcher for [lang], as the navigation
    rule describes it: plain text for the current language, else a link
    whose URL has no language prefix for the default language, the
    prefix [/{lang}] otherwise, and the slug the translation table gives
    for [lang]. *)
Definition display_name (toUpperCase : string -> string) (lang : string)
  : string :=
  obj_get_or lang langNames (toUpperCase lang).

Definition url_prefix (defaultLang lang : string) : string :=
  if String.eqb lang defaultLang then EmptyString else ("/" ++ lang)%string.

Definition expected_entry (toUpperCase : string -> string)
    (defaultLang currentLang section : string) (translations : alist string)
    (lang : string) : string :=
  if String.eqb lang currentLang
  then ("<span class=" ++ dq ++ "lang-current" ++ dq ++ ">"
          ++ display_name toUpperCase lang ++ "</span>")%string
  else ("<a href=" ++ dq
          ++ (url_prefix defaultLang lang ++ "/" ++ section ++ "/"
                ++ match aget lang translations with
                   | Some s => s
                   | None => EmptyString
                   end ++ "/")
          ++ dq ++ " class=" ++ dq ++ "lang-link" ++ dq ++ ">"
          ++ display_name toUpperCase lang ++ "</a>")%string.

Definition expected_switcher (toUpperCase : string -> string)
    (defaultLang currentLang section : string) (translations : alist string)
  : string :=
  ("<div class=" ++ dq ++ "lang-switcher" ++ dq ++ ">"
     ++ String.concat " | "
          (map (expected_entry toUpperCase defaultLang currentLang section
                  translations)
               (keys translations))
     ++ "</div>")%string.

(** The entry of the language switcher of a page for [lang]: plain text
    for the current language, else a link to the home of the language. *)
Definition expected_page_entry (toUpperCase : string -> string)
    (defaultLang currentLang lang : string) : string :=
  if String.eqb lang currentLang
  then ("<span class=" ++ dq ++ "lang-current" ++ dq ++ ">"
          ++ display_name toUpperCase lang ++ "</span>")%string
  else ("<a href=" ++ dq ++ (url_prefix defaultLang lang ++ "/")
          ++ dq ++ " class=" ++ dq ++ "lang-link" ++ dq ++ ">"
          ++ display_name toUpperCase lang ++ "</a>")%string.

(** A directory whose entries are all regular files. *)
Definition flat (n : node) : bool :=
  match n with
  | File _ => false
  | Dir fs => forallb (fun e => negb (isDirectory (snd e))) fs
  end.

(** An item of the legacy layout: a directory that holds an entry
    [index.md]. *)
Definition is_item_folder (n : node) : bool :=
  match n with
  | File _ => false
  | Dir fs => has "index.md" fs
  end.

(** The names of the items of a language folder. *)
Definition item_names (n : node) : list string :=
  match n with
  | File _ => []
  | Dir subs => keys (filter (fun e => is_item_folder (snd e)) subs)
  end.

(** Every item of the language folder holds regular files only. *)
Definition items_flat (n : node) : bool :=
  match n with
  | File _ => true
  | Dir subs =>
      forallb (fun e => implb (is_item_folder (snd e)) (flat (snd e))) subs
  end.

(** A content root [es] in the legacy layout on which a live migration
    meets no obstacle: it has a language folder; it has no entry
    [_new_structure] or [_old_structure_backup]; the items of its
    language folders hold regular files only; and no item is named like
    an entry of the root that is not a language folder, or like the
    staging or backup directory. *)
Definition ready_to_migrate (es : alist node) : bool :=
  let langs := filter (fun e => is_language_folder (snd e)) es in
  let others :=
    keys (filter (fun e => negb (is_language_folder (snd e))) es) in
  negb (Nat.eqb (List.length langs) 0)
  && negb (has tempName es)
  && negb (has backupName es)
  && forallb (fun e => items_flat (snd e)) langs
  && forallb (fun e =>
                forallb (fun slug =>
                           negb (includes others slug)
                           && negb (String.eqb slug tempName)
                           && negb (String.eqb slug backupName))
                        (item_names (snd e)))
             langs.

(** [dir_kept d t t']: when [d] is a non-empty directory of [t], every
    path through [d] leads in [t'] to what it led to in [t]. *)
Definition dir_kept (d : path) (t t' : node) : Prop :=
  (exists e es, lookup d t = Some (Dir (e :: es))) ->
  forall rest, lookup (d ++ rest) t' = lookup (d ++ rest) t.

(** [no_exit m]: [m] never ends the process: it returns or throws. *)
Definition no_exit {A} (m : M A) : Prop :=
  forall w c w', m w <> Exit c w'.

(** ** Example inputs *)

Definition content_root : path := ["content"; "projects"].

Definition nl : string := String (ascii_of_nat 10) EmptyString.

(** The Russian document of the examples: its front matter declares the
    slug [nastroyka-ssh]. *)
Definition ru_document : string :=
  ("---" ++ nl ++ "slug: nastroyka-ssh" ++ nl ++ "---" ++ nl ++ "SSH")%string.

(** A legacy tree: the item [setup-ssh] in English and Russian, with a
    media file [diagram.png] in both language folders. *)
Definition legacy_tree : node :=
  Dir [("content", Dir [("projects", Dir [
    ("en", Dir [("setup-ssh", Dir [
       ("index.md", File "Setting up SSH");
       ("diagram.png", File "PNG-en")])]);
    ("ru", Dir [("setup-ssh", Dir [
       ("diagram.png", File "PNG-ru");
       ("index.md", File ru_document);
       ("notes.txt", File "notes")])])])])].

Definition legacy_world : World := mkWorld legacy_tree [].

Definition migrated_world : World :=
  world_of (main false content_root legacy_world).

(** A legacy tree whose item folder holds a subdirectory: copying it as a
    media file fails. *)
Definition nested_tree : node :=
  Dir [("content", Dir [("projects", Dir [
    ("en", Dir [("setup-ssh", Dir [
       ("index.md", File "Setting up SSH");
       ("images", Dir [("diagram.png", File "PNG-en")])])])])])].

Definition nested_world : World := mkWorld nested_tree [].

Definition nested_projects : Projects :=
  match collectProjects content_root ["en"] nested_world with
  | Ret projects _ => projects
  | _ => []
  end.

Definition nested_failure : World :=
  world_of (staging false content_root nested_projects nested_world).

(** A tree whose content root is absent, and an empty content root. *)
Definition no_root_world : World := mkWorld (Dir [("content", Dir [])]) [].

(** A legacy document that is not UTF-8: the bytes of a Russian word in
    the Windows-1251 encoding. *)
Definition cp1251_bytes : string :=
  string_of_bytes [207; 240; 232; 226; 229; 242]%N.

Definition cp1251_tree : node :=
  Dir [("content", Dir [("projects", Dir [
    ("ru", Dir [("privet", Dir [("index.md", File cp1251_bytes)])])])])].

Definition cp1251_world : World := mkWorld cp1251_tree [].

(** A legacy tree with a language folder, [de], that the site no longer
    configures. *)
Definition three_language_tree : node :=
  Dir [("content", Dir [("projects", Dir [
    ("en", Dir [("setup-ssh", Dir [("index.md", File "Setting up SSH")])]);
    ("ru", Dir [("setup-ssh", Dir [("index.md", File ru_document)])]);
    ("de", Dir [("setup-ssh", Dir [("index.md", File "SSH einrichten")])])])])].

Definition three_language_world : World := mkWorld three_language_tree [].

Definition two_language_config : Config :=
  mkConfig (Some ["en"; "ru"]) ["content"].

(** A site in the current layout: a post in two configured languages,
    with a draft and a language that is not configured, and a post in one
    language. *)
Definition site_tree : node :=
  Dir [("content", Dir [("posts", Dir [
    ("setup-ssh", Dir [
       ("en.md", File "Setting up SSH");
       ("draft.md", File "draft");
       ("ru.md", File ru_document);
       ("de.md", File "SSH einrichten");
       ("diagram.png", File "PNG")]);
    ("only-one", Dir [("en.md", File "Only one")])])])].

Definition site_world : World := mkWorld site_tree [].

(** The front matter of the example documents: only the Russian one has
    a front-matter block, which declares a slug; the others have no
    attributes. *)
Definition example_frontMatter (text : jsstring) : option Attributes :=
  Some (mkAttributes
          (if list_eq_dec N.eq_dec text (utf8_decode ru_document)
           then Some "nastroyka-ssh"
           else None)).

(** A site with unusual language codes: [__proto__], two array indices,
    and a code that contains [.md]. *)
Definition odd_config : Config :=
  mkConfig (Some ["en"; "__proto__"; "7"; "3"; "xy.md"]) ["content"].

Definition odd_site_tree : node :=
  Dir [("content", Dir [("posts", Dir [
    ("en.md", File "a document beside the posts");
    ("setup-ssh", Dir [
       ("en.md", File "Setting up SSH");
       ("__proto__.md", File "prototype");
       ("7.md", File "seven");
       ("3.md", File "three");
       ("x.mdy.md", File "x")])])])].

Definition odd_site_world : World := mkWorld odd_site_tree [].

(** A site whose post path [broken] is a regular file. *)
Definition broken_site_tree : node :=
  Dir [("content", Dir [("posts", Dir [("broken", File "not a folder")])])].

Definition broken_site_world : World := mkWorld broken_site_tree [].

(** A project with templates of its own beside those of the module: its
    [footer.html] is a directory. *)
Definition site_cwd : path := ["site"].
Definition site_moduleDir : path := ["node_modules"; "k-engine"; "src"].

Definition templates_tree : node :=
  Dir [("site", Dir [("templates", Dir [
          ("page.html", File "local page");
          ("footer.html", Dir [])])]);
       ("node_modules", Dir [("k-engine", Dir [
          ("src", Dir []);
          ("templates", Dir [
             ("page.html", File "module page");
             ("footer.html", File "module footer");
             ("header.html", File "module header")])])])].

Definition templates_world : World := mkWorld templates_tree [].

(** A legacy tree whose item [broken] has a directory named [index.md]. *)
Definition dir_index_tree : node :=
  Dir [("content", Dir [("projects", Dir [
    ("en", Dir [("broken", Dir [("index.md", Dir [])])])])])].

Definition dir_index_world : World := mkWorld dir_index_tree [].

(** The legacy tree together with the backup of an earlier run. *)
Definition rerun_tree : node :=
  Dir [("content", Dir [("projects", Dir [
    ("en", Dir [("setup-ssh", Dir [("index.md", File "Setting up SSH")])]);
    ("_old_structure_backup", Dir [
       ("en", Dir [("setup-ssh", Dir [("index.md", File "first draft")])])])])])].

Definition rerun_world : World := mkWorld rerun_tree [].

(** A small tree for the helpers of the script. *)
Definition helpers_tree : node :=
  Dir [("a", Dir [("x.txt", File "x")]); ("b", File "b")].

Definition helpers_world : World := mkWorld helpers_tree [].

(** A tree next to the content root. *)
Definition neighbours_tree : node :=
  Dir [("content", Dir [
         ("projects", Dir [
            ("en", Dir [("setup-ssh", Dir [("index.md", File "Setting up SSH")])]);
            ("drafts", Dir [("todo.txt", File "todo")])]);
         ("pages", Dir [("about.md", File "About")])])].

Definition neighbours_world : World := mkWorld neighbours_tree [].

(* ================================================================== *)
(** * Part II: properties *)
(* ================================================================== *)

Unset Implicit Arguments.

(** ** Strings *)

Lemma eqb_refl' (s : string) : String.eqb s s = true.
Proof. apply String.eqb_refl. Qed.

Lemma eqb_true (a b : string) : String.eqb a b = true -> a = b.
Proof. apply String.eqb_eq. Qed.

Lemma eqb_false (a b : string) : String.eqb a b = false -> a <> b.
Proof. apply String.eqb_neq. Qed.

Lemma neq_eqb (a b : string) : a <> b -> String.eqb a b = false.
Proof. apply String.eqb_neq. Qed.

Lemma includes_In (l : list string) (x : string) :
  includes l x = true <-> In x l.
Proof.
  unfold includes. rewrite existsb_exists. split.
  - intros [y [Hy E]]. apply eqb_true in E. now subst.
  - intros H. exists x. split; [assumption | apply eqb_refl'].
Qed.

Lemma includes_false (l : list string) (x : string) :
  includes l x = false <-> ~ In x l.
Proof.
  rewrite <- includes_In. destruct (includes l x); split; congruence.
Qed.

(** ** Insertion-ordered maps *)

Section AListFacts.

Context {V : Type}.
Implicit Types (m : alist V) (k : string) (v : V).

Lemma aget_aset_same k v m : aget k (aset k v m) = Some v.
Proof.
  induction m as [| [k' v'] m IH]; simpl.
  - now rewrite eqb_refl'.
  - destruct (String.eqb k k') eqn:E; simpl.
    + now rewrite eqb_refl'.
    + now rewrite E.
Qed.

Lemma aget_aset_other k k' v m : k' <> k -> aget k' (aset k v m) = aget k' m.
Proof.
  intros N. induction m as [| [k1 v1] m IH]; simpl.
  - now rewrite (neq_eqb _ _ N).
  - destruct (String.eqb k k1) eqn:E; simpl.
    + apply eqb_true in E. subst k1. now rewrite (neq_eqb _ _ N).
    + now rewrite IH.
Qed.

Lemma aget_adel_same k m : aget k (adel k m) = None.
Proof.
  induction m as [| [k' v'] m IH]; simpl; [reflexivity |].
  destruct (String.eqb k k') eqn:E; simpl; [assumption | now rewrite E].
Qed.

Lemma aget_adel_other k k' m : k' <> k -> aget k' (adel k m) = aget k' m.
Proof.
  intros N. induction m as [| [k1 v1] m IH]; simpl; [reflexivity |].
  destruct (String.eqb k k1) eqn:E; simpl.
  - apply eqb_true in E. subst k1. now rewrite (neq_eqb _ _ N).
  - now rewrite IH.
Qed.

Lemma aget_In k v m : aget k m = Some v -> In (k, v) m.
Proof.
  induction m as [| [k' v'] m IH]; simpl; [discriminate |].
  destruct (String.eqb k k') eqn:E.
  - apply eqb_true in E. intros [= ->]. left. now subst.
  - intros H. right. auto.
Qed.

Lemma aget_None_keys k m : aget k m = None <-> ~ In k (keys m).
Proof.
  induction m as [| [k' v'] m IH]; simpl.
  - tauto.
  - destruct (String.eqb k k') eqn:E.
    + apply eqb_true in E. subst. split; [discriminate | tauto].
    + apply eqb_false in E. rewrite IH. split.
      * intros H [H1 | H1]; [congruence | tauto].
      * tauto.
Qed.

Lemma aget_Some_keys k m : (exists v, aget k m = Some v) <-> In k (keys m).
Proof.
  destruct (aget k m) as [v |] eqn:E.
  - split; [| eauto]. intros _.
    apply aget_In in E. unfold keys. now apply (in_map fst) in E.
  - split.
    + intros [v H]. discriminate.
    + intros H. now apply aget_None_keys in E.
Qed.

Lemma has_keys k m : has k m = true <-> In k (keys m).
Proof.
  unfold has. rewrite <- aget_Some_keys.
  destruct (aget k m); split; eauto; try discriminate.
  intros [v H]. discriminate.
Qed.

Lemma In_aget k v m : NoDup (keys m) -> In (k, v) m -> aget k m = Some v.
Proof.
  induction m as [| [k' v'] m IH]; simpl; [tauto |].
  intros ND [H | H].
  - injection H as -> ->. now rewrite eqb_refl'.
  - inversion ND as [| ? ? Hn ND']; subst.
    destruct (String.eqb k k') eqn:E.
    + apply eqb_true in E. subst k'. exfalso. apply Hn.
      unfold keys. now apply (in_map fst) in H.
    + auto.
Qed.

Lemma keys_aset_In k k' v m : In k' (keys (aset k v m)) <-> k' = k \/ In k' (keys m).
Proof.
  induction m as [| [k1 v1] m IH]; simpl.
  - intuition.
  - destruct (String.eqb k k1) eqn:E; simpl.
    + apply eqb_true in E. subst. intuition.
    + rewrite IH. intuition.
Qed.

Lemma keys_aset_has k v v0 m : aget k m = Some v0 -> keys (aset k v m) = keys m.
Proof.
  induction m as [| [k1 v1] m IH]; simpl; [discriminate |].
  destruct (String.eqb k k1) eqn:E; simpl.
  - apply eqb_true in E. now subst.
  - intros H. now rewrite IH.
Qed.

Lemma keys_aset_new k v m : aget k m = None -> keys (aset k v m) = keys m ++ [k].
Proof.
  induction m as [| [k1 v1] m IH]; simpl; [reflexivity |].
  destruct (String.eqb k k1) eqn:E; simpl; [discriminate |].
  intros H. now rewrite IH.
Qed.

Lemma keys_adel_In k k' m : In k' (keys (adel k m)) <-> k' <> k /\ In k' (keys m).
Proof.
  induction m as [| [k1 v1] m IH]; simpl.
  - tauto.
  - destruct (String.eqb k k1) eqn:E; simpl.
    + apply eqb_true in E. subst k1. rewrite IH. intuition congruence.
    + apply eqb_false in E. rewrite IH. intuition congruence.
Qed.

Lemma NoDup_keys_aset k v m : NoDup (keys m) -> NoDup (keys (aset k v m)).
Proof.
  intros ND. destruct (aget k m) as [v0 |] eqn:E.
  - now rewrite (keys_aset_has k v v0 m E).
  - rewrite (keys_aset_new k v m E).
    apply NoDup_app; [assumption | repeat constructor; simpl; tauto |].
    intros x Hx [-> | []]. now apply aget_None_keys in E.
Qed.

Lemma NoDup_keys_adel k m : NoDup (keys m) -> NoDup (keys (adel k m)).
Proof.
  induction m as [| [k1 v1] m IH]; simpl; [trivial |].
  intros ND. inversion ND as [| ? ? Hn ND']; subst.
  destruct (String.eqb k k1); simpl; [auto |].
  constructor; [| auto].
  intros H. apply keys_adel_In in H. tauto.
Qed.

End AListFacts.

Lemma NoDup_keys_filter {V} (p : string * V -> bool) (m : alist V) :
  NoDup (keys m) -> NoDup (keys (filter p m)).
Proof.
  induction m as [| [k v] m IH]; simpl; [trivial |].
  intros ND. inversion ND as [| ? ? Hn ND']; subst.
  destruct (p (k, v)); simpl; [| auto].
  constructor; [| auto]. intros Hi. apply Hn.
  unfold keys in *. apply in_map_iff in Hi. destruct Hi as [[k' v'] [E Hi]].
  apply filter_In in Hi. destruct Hi as [Hi _]. simpl in E. subst k'.
  now apply (in_map fst) in Hi.
Qed.

(** ** Plain objects *)

Lemma keys_obj_define_In (k v : string) (o : alist string) (x : string) :
  In x (keys (obj_define k v o)) <-> x = k \/ In x (keys o).
Proof.
  induction o as [| [k' v'] o IH]; simpl.
  - intuition.
  - destruct (is_array_index k && negb _); simpl.
    + intuition.
    + rewrite IH. intuition.
Qed.

Lemma aget_obj_define_same (k v : string) (o : alist string) :
  aget k o = None -> aget k (obj_define k v o) = Some v.
Proof.
  induction o as [| [k' v'] o IH]; simpl.
  - now rewrite eqb_refl'.
  - destruct (String.eqb k k') eqn:E; [discriminate |]. intros H.
    destruct (is_array_index k && negb _); simpl.
    + now rewrite eqb_refl'.
    + rewrite E. auto.
Qed.

Lemma aget_obj_define_other (k v : string) (o : alist string) (x : string) :
  x <> k -> aget x (obj_define k v o) = aget x o.
Proof.
  intros N. induction o as [| [k' v'] o IH]; simpl.
  - now rewrite (neq_eqb _ _ N).
  - destruct (is_array_index k && negb _); simpl.
    + now rewrite (neq_eqb _ _ N).
    + now rewrite IH.
Qed.

Lemma NoDup_keys_obj_define (k v : string) (o : alist string) :
  ~ In k (keys o) -> NoDup (keys o) -> NoDup (keys (obj_define k v o)).
Proof.
  induction o as [| [k' v'] o IH]; simpl; intros Hn ND.
  - repeat constructor. simpl. tauto.
  - destruct (is_array_index k && negb _); simpl.
    + constructor; [simpl; tauto | exact ND].
    + inversion ND as [| ? ? Hk ND']; subst. constructor.
      * rewrite keys_obj_define_In. intros [-> | H]; tauto.
      * apply IH; tauto.
Qed.

Lemma keys_obj_set_In (k v : string) (o : alist string) (x : string) :
  In x (keys (obj_set k v o))
  <-> (x = k /\ k <> "__proto__") \/ In x (keys o).
Proof.
  unfold obj_set. destruct (String.eqb k "__proto__") eqn:E.
  - apply eqb_true in E. intuition.
  - apply eqb_false in E. destruct (has k o).
    + rewrite keys_aset_In. intuition.
    + rewrite keys_obj_define_In. intuition.
Qed.

Lemma aget_obj_set_same (k v : string) (o : alist string) :
  k <> "__proto__" -> aget k (obj_set k v o) = Some v.
Proof.
  intros N. unfold obj_set, has. rewrite (neq_eqb _ _ N).
  destruct (aget k o) eqn:E.
  - apply aget_aset_same.
  - now apply aget_obj_define_same.
Qed.

Lemma aget_obj_set_other (k v : string) (o : alist string) (x : string) :
  x <> k -> aget x (obj_set k v o) = aget x o.
Proof.
  intros N. unfold obj_set. destruct (String.eqb k "__proto__"); [reflexivity |].
  destruct (has k o).
  - now apply aget_aset_other.
  - now apply aget_obj_define_other.
Qed.

Lemma NoDup_keys_obj_set (k v : string) (o : alist string) :
  NoDup (keys o) -> NoDup (keys (obj_set k v o)).
Proof.
  intros ND. unfold obj_set. destruct (String.eqb k "__proto__"); [exact ND |].
  destruct (has k o) eqn:E.
  - now apply NoDup_keys_aset.
  - apply NoDup_keys_obj_define; [| exact ND].
    intros H. apply has_keys in H. congruence.
Qed.

Lemma aget_obj_set_inv (k v : string) (o : alist string) (x s : string) :
  aget x (obj_set k v o) = Some s -> (x = k /\ s = v) \/ aget x o = Some s.
Proof.
  destruct (String.eqb x k) eqn:E.
  - apply eqb_true in E. subst x.
    destruct (String.eqb k "__proto__") eqn:Ep.
    + unfold obj_set. rewrite Ep. auto.
    + apply eqb_false in Ep. rewrite aget_obj_set_same by exact Ep.
      intros [= <-]. auto.
  - apply eqb_false in E. rewrite aget_obj_set_other by exact E. auto.
Qed.


Lemma nodupb_NoDup (l : list string) : nodupb l = true <-> NoDup l.
Proof.
  induction l as [| x l IH]; simpl.
  - split; [constructor | trivial].
  - rewrite andb_true_iff, negb_true_iff, IH. split.
    + intros [H1 H2]. constructor; [| assumption].
      intros HIn. apply includes_In in HIn. unfold includes in HIn. congruence.
    + intros ND. inversion ND as [| ? ? Hn ND']; subst. split; [| assumption].
      apply includes_false in Hn. exact Hn.
Qed.

(** ** Paths *)

Lemma diverge_sym (p q : path) : diverge p q = diverge q p.
Proof.
  revert q. induction p as [| x p IH]; intros [| y q]; simpl; try reflexivity.
  rewrite String.eqb_sym. destruct (String.eqb y x); auto.
Qed.

Lemma diverge_app_same (b p q : path) : diverge (b ++ p) (b ++ q) = diverge p q.
Proof.
  induction b as [| x b IH]; simpl; [reflexivity |].
  now rewrite eqb_refl'.
Qed.

Lemma diverge_extend_l (p q r : path) :
  diverge p q = true -> diverge (p ++ r) q = true.
Proof.
  revert q. induction p as [| x p IH]; intros [| y q]; simpl; try discriminate.
  destruct (String.eqb x y); auto.
Qed.

Lemma diverge_extend_r (p q r : path) :
  diverge p q = true -> diverge p (q ++ r) = true.
Proof.
  intros H. rewrite diverge_sym. apply diverge_extend_l. now rewrite diverge_sym.
Qed.

Lemma diverge_heads (b : path) (x y : string) (p q : path) :
  x <> y -> diverge (b ++ x :: p) (b ++ y :: q) = true.
Proof.
  intros N. rewrite diverge_app_same. simpl. now rewrite (neq_eqb _ _ N).
Qed.

Lemma diverge_self_app (p r : path) : diverge p (p ++ r) = false.
Proof.
  induction p as [| x p IH]; simpl; [reflexivity |].
  now rewrite eqb_refl'.
Qed.

Lemma is_prefix_spec (p q : path) :
  is_prefix p q = true <-> exists r, q = p ++ r.
Proof.
  revert q. induction p as [| x p IH]; intros q; simpl.
  - split; eauto.
  - destruct q as [| y q].
    + split; [discriminate | intros [r H]; discriminate].
    + rewrite andb_true_iff, IH. split.
      * intros [E [r ->]]. apply eqb_true in E. subst. eauto.
      * intros [r H]. injection H as -> ->. rewrite eqb_refl'. eauto.
Qed.

Lemma is_prefix_antisym (p q : path) :
  is_prefix p q = true -> is_prefix q p = true -> p = q.
Proof.
  rewrite !is_prefix_spec. intros [r ->] [r' H].
  rewrite <- app_assoc in H. rewrite <- (app_nil_r p) in H at 1.
  apply app_inv_head in H. symmetry in H. apply app_eq_nil in H.
  destruct H as [-> _]. now rewrite app_nil_r.
Qed.

Lemma not_prefix_diverge (p q : path) :
  is_prefix p q = false -> is_prefix q p = false -> diverge p q = true.
Proof.
  revert q. induction p as [| x p IH]; intros [| y q]; simpl; try discriminate.
  rewrite (String.eqb_sym y x).
  destruct (String.eqb x y); simpl; auto.
Qed.

(** ** The tree *)

Lemma lookup_app (p q : path) (t : node) :
  lookup (p ++ q) t =
  match lookup p t with Some n => lookup q n | None => None end.
Proof.
  revert t. induction p as [| x p IH]; intros t; simpl; [reflexivity |].
  destruct t as [b | es]; [reflexivity |].
  destruct (aget x es); [apply IH | reflexivity].
Qed.

Lemma lookup_File_app (p q : path) (t : node) (b : string) :
  lookup p t = Some (File b) -> q <> [] -> lookup (p ++ q) t = None.
Proof.
  intros H N. rewrite lookup_app, H. destruct q; [congruence | reflexivity].
Qed.

Lemma wf_Dir (es : alist node) :
  wf (Dir es) = true <->
  NoDup (keys es) /\ forall k n, In (k, n) es -> wf n = true.
Proof.
  simpl. rewrite andb_true_iff, nodupb_NoDup, forallb_forall. split.
  - intros [H1 H2]. split; [assumption |]. intros k n H. apply (H2 _ H).
  - intros [H1 H2]. split; [assumption |]. intros [k n] H. apply (H2 _ _ H).
Qed.

Lemma wf_child (es : alist node) (x : string) (c : node) :
  wf (Dir es) = true -> aget x es = Some c -> wf c = true.
Proof.
  intros W H. apply wf_Dir in W. destruct W as [_ W].
  apply (W x). now apply aget_In.
Qed.

Lemma In_aset_inv {V} (k k' : string) (v v' : V) (m : alist V) :
  In (k', v') (aset k v m) -> (k' = k /\ v' = v) \/ In (k', v') m.
Proof.
  induction m as [| [k1 v1] m IH]; simpl.
  - intros [H | []]. injection H as <- <-. auto.
  - destruct (String.eqb k k1); simpl.
    + intros [H | H]; [injection H as <- <-; auto | auto].
    + intros [H | H]; [auto | ]. destruct (IH H); auto.
Qed.

Lemma In_adel_inv {V} (k k' : string) (v' : V) (m : alist V) :
  In (k', v') (adel k m) -> In (k', v') m.
Proof.
  induction m as [| [k1 v1] m IH]; simpl; [trivial |].
  destruct (String.eqb k k1); simpl; [auto |].
  intros [H | H]; auto.
Qed.

Lemma In_aset_strong {V} (k k' : string) (v v' : V) (m : alist V) :
  NoDup (keys m) -> In (k', v') (aset k v m) ->
  (k' = k /\ v' = v) \/ (k' <> k /\ In (k', v') m).
Proof.
  induction m as [| [k1 v1] m IH]; simpl; intros ND.
  - intros [H | []]. injection H as <- <-. auto.
  - inversion ND as [| ? ? Hn ND']; subst.
    destruct (String.eqb k k1) eqn:E; simpl.
    + apply eqb_true in E. subst k1.
      intros [H | H]; [injection H as <- <-; auto |].
      right. split; [| auto]. intros ->. apply Hn.
      now apply (in_map fst) in H.
    + apply eqb_false in E.
      intros [H | H]; [injection H as <- <-; auto |].
      destruct (IH ND' H) as [? | [? ?]]; auto.
Qed.

Lemma wf_aset (es : alist node) (x : string) (c : node) :
  wf (Dir es) = true -> wf c = true -> wf (Dir (aset x c es)) = true.
Proof.
  rewrite !wf_Dir. intros [ND W] Wc. split.
  - now apply NoDup_keys_aset.
  - intros k n H. apply In_aset_inv in H. destruct H as [[_ ->] | H]; eauto.
Qed.

Lemma wf_adel (es : alist node) (x : string) :
  wf (Dir es) = true -> wf (Dir (adel x es)) = true.
Proof.
  rewrite !wf_Dir. intros [ND W]. split.
  - now apply NoDup_keys_adel.
  - intros k n H. apply In_adel_inv in H. eauto.
Qed.

Lemma wf_lookup (p : path) (t n : node) :
  wf t = true -> lookup p t = Some n -> wf n = true.
Proof.
  revert t. induction p as [| x p IH]; intros t W; simpl.
  - now intros [= <-].
  - destruct t as [b | es]; [discriminate |].
    destruct (aget x es) as [c |] eqn:E; [| discriminate].
    apply IH. eapply wf_child; eauto.
Qed.

Lemma wf_lookup_NoDup (p : path) (t : node) (es : alist node) :
  wf t = true -> lookup p t = Some (Dir es) -> NoDup (keys es).
Proof.
  intros W H. apply (wf_lookup _ _ _ W) in H. now apply wf_Dir in H.
Qed.

(** *** [graft] *)

Lemma graft_cons (x : string) (p : path) (ov : option node) (t : node) :
  graft (x :: p) ov t =
  match t with
  | File _ => None
  | Dir es =>
      match p with
      | [] => Some (Dir (match ov with Some v => aset x v es | None => adel x es end))
      | _ :: _ =>
          match aget x es with
          | Some c => match graft p ov c with
                      | Some c' => Some (Dir (aset x c' es))
                      | None => None
                      end
          | None => None
          end
      end
  end.
Proof. reflexivity. Qed.

Lemma graft_same (p : path) (ov : option node) (t t' : node) :
  graft p ov t = Some t' -> lookup p t' = ov.
Proof.
  revert t t'. induction p as [| x p IH]; intros t t'; [discriminate |].
  rewrite graft_cons. destruct t as [b | es]; [discriminate |].
  destruct p as [| y p].
  - intros [= <-]. simpl. destruct ov as [v |].
    + now rewrite aget_aset_same.
    + now rewrite aget_adel_same.
  - destruct (aget x es) as [c |] eqn:E; [| discriminate].
    destruct (graft (y :: p) ov c) as [c' |] eqn:G; [| discriminate].
    intros [= <-]. change (lookup (x :: y :: p) (Dir (aset x c' es)))
      with (match aget x (aset x c' es) with
            | Some c0 => lookup (y :: p) c0 | None => None end).
    rewrite aget_aset_same. eapply IH; eauto.
Qed.

Lemma graft_diverge (p q : path) (ov : option node) (t t' : node) :
  graft p ov t = Some t' -> diverge p q = true -> lookup q t' = lookup q t.
Proof.
  revert q t t'. induction p as [| x p IH]; intros q t t'; [discriminate |].
  rewrite graft_cons. destruct t as [b | es]; [discriminate |].
  destruct q as [| y q]; [discriminate |]. simpl diverge.
  destruct (String.eqb x y) eqn:Exy.
  - apply eqb_true in Exy. subst y. destruct p as [| z p].
    + destruct q; discriminate.
    + destruct (aget x es) as [c |] eqn:E; [| discriminate].
      destruct (graft (z :: p) ov c) as [c' |] eqn:G; [| discriminate].
      intros [= <-] D. simpl lookup at 1 2. rewrite aget_aset_same, E.
      eapply IH; eauto.
  - apply eqb_false in Exy. intros G _.
    assert (Hy : forall es', aget y es' = aget y es ->
                 lookup (y :: q) (Dir es') = lookup (y :: q) (Dir es)).
    { intros es' H. simpl. now rewrite H. }
    destruct p as [| z p].
    + injection G as <-. apply Hy. destruct ov.
      * apply aget_aset_other. congruence.
      * apply aget_adel_other. congruence.
    + destruct (aget x es) as [c |] eqn:E; [| discriminate].
      destruct (graft (z :: p) ov c) as [c' |] eqn:G'; [| discriminate].
      injection G as <-. apply Hy. apply aget_aset_other. congruence.
Qed.

(** Grafting below [q] grafts inside the node at [q]. *)
Lemma graft_ancestor (q r : path) (ov : option node) (t t' : node) :
  r <> [] -> graft (q ++ r) ov t = Some t' ->
  exists n n', lookup q t = Some n /\ graft r ov n = Some n'
               /\ lookup q t' = Some n'.
Proof.
  intros Nr. revert t t'. induction q as [| x q IH]; intros t t'.
  - simpl. intros G. exists t, t'. auto.
  - change ((x :: q) ++ r) with (x :: (q ++ r)). rewrite graft_cons.
    destruct t as [b | es]; [discriminate |].
    destruct (q ++ r) as [| z s] eqn:Eqr.
    + apply app_eq_nil in Eqr. tauto.
    + destruct (aget x es) as [c |] eqn:E; [| discriminate].
      destruct (graft (z :: s) ov c) as [c' |] eqn:G; [| discriminate].
      intros [= <-]. destruct (IH _ _ G) as [n [n' [H1 [H2 H3]]]].
      exists n, n'. simpl. now rewrite E, aget_aset_same.
Qed.

Lemma graft_wf (p : path) (ov : option node) (t t' : node) :
  wf t = true -> (forall v, ov = Some v -> wf v = true) ->
  graft p ov t = Some t' -> wf t' = true.
Proof.
  intros W Wv. revert t t' W. induction p as [| x p IH]; intros t t' W;
    [discriminate |].
  rewrite graft_cons. destruct t as [b | es]; [discriminate |].
  destruct p as [| y p].
  - intros [= <-]. destruct ov as [v |].
    + apply wf_aset; auto.
    + now apply wf_adel.
  - destruct (aget x es) as [c |] eqn:E; [| discriminate].
    destruct (graft (y :: p) ov c) as [c' |] eqn:G; [| discriminate].
    intros [= <-]. apply wf_aset; [assumption |].
    eapply IH; [| exact G]. eapply wf_child; eauto.
Qed.

(** [graft] succeeds exactly when the parent is a directory. *)
Lemma graft_parent (d : path) (x : string) (ov : option node) (t t' : node) :
  graft (d ++ [x]) ov t = Some t' ->
  exists es, lookup d t = Some (Dir es)
             /\ lookup d t' = Some (Dir (match ov with
                                         | Some v => aset x v es
                                         | None => adel x es
                                         end)).
Proof.
  intros G. apply graft_ancestor in G; [| discriminate].
  destruct G as [n [n' [H1 [H2 H3]]]].
  rewrite graft_cons in H2. destruct n as [b | es]; [discriminate |].
  injection H2 as <-. eauto.
Qed.

(** *** [mkdirp] *)

Lemma mkdirp_diverge (p q : path) (t t' : node) :
  mkdirp p t = Some t' -> diverge p q = true -> lookup q t' = lookup q t.
Proof.
  revert q t t'. induction p as [| x p IH]; intros q t t'.
  - discriminate 2.
  - destruct t as [b | es]; [discriminate |]. simpl mkdirp.
    destruct (mkdirp p _) as [c' |] eqn:G; [| discriminate].
    intros [= <-]. destruct q as [| y q]; [discriminate |]. simpl diverge.
    destruct (String.eqb x y) eqn:Exy.
    + apply eqb_true in Exy. subst y. intros D. simpl lookup.
      rewrite aget_aset_same. rewrite (IH _ _ _ G D).
      destruct (aget x es) as [c |]; [reflexivity |].
      destruct q; [destruct p; discriminate | reflexivity].
    + apply eqb_false in Exy. intros _. simpl.
      rewrite aget_aset_other by congruence. reflexivity.
Qed.

Lemma mkdirp_lookup (p : path) (t t' : node) :
  mkdirp p t = Some t' ->
  lookup p t' = Some (match lookup p t with Some n => n | None => Dir [] end).
Proof.
  revert t t'. induction p as [| x p IH]; intros t t'.
  - destruct t; simpl; [discriminate | now intros [= <-]].
  - destruct t as [b | es]; [discriminate |]. simpl mkdirp.
    destruct (mkdirp p _) as [c' |] eqn:G; [| discriminate].
    intros [= <-]. simpl. rewrite aget_aset_same. rewrite (IH _ _ G).
    destruct (aget x es) as [c |]; [reflexivity |].
    destruct p; reflexivity.
Qed.

Lemma mkdirp_wf (p : path) (t t' : node) :
  wf t = true -> mkdirp p t = Some t' -> wf t' = true.
Proof.
  revert t t'. induction p as [| x p IH]; intros t t' W.
  - destruct t; simpl; [discriminate | now intros [= <-]].
  - destruct t as [b | es]; [discriminate |]. simpl mkdirp.
    destruct (mkdirp p _) as [c' |] eqn:G; [| discriminate].
    intros [= <-]. apply wf_aset; [assumption |].
    destruct (aget x es) as [c |] eqn:E.
    + eapply IH; [| exact G]. eapply wf_child; eauto.
    + eapply IH; [| exact G]. reflexivity.
Qed.

(** ** The process monad *)

Lemma bind_Ret_inv {A B} (m : M A) (f : A -> M B) (w w' : World) (b : B) :
  bind m f w = Ret b w' -> exists a w1, m w = Ret a w1 /\ f a w1 = Ret b w'.
Proof.
  unfold bind. destruct (m w) as [a w1 | w1 | c w1]; try discriminate. eauto.
Qed.

Lemma bind_Ret {A B} (m : M A) (f : A -> M B) (w w1 : World) (a : A) :
  m w = Ret a w1 -> bind m f w = f a w1.
Proof. unfold bind. now intros ->. Qed.

Lemma bind_Throw {A B} (m : M A) (f : A -> M B) (w w1 : World) :
  m w = Throw w1 -> bind m f w = Throw w1.
Proof. unfold bind. now intros ->. Qed.

Lemma mutate_Ret_inv (op : node -> option node) (w w' : World) (u : unit) :
  mutate op w = Ret u w' ->
  op (tree w) = Some (tree w') /\ faults w' = tl (faults w).
Proof.
  destruct u. unfold mutate.
  destruct (faults w) as [| [|] rest]; simpl; try discriminate;
    destruct (op (tree w)); try discriminate; intros [= <-]; simpl; auto.
Qed.

Lemma forM__Ret_inv {A} (body : A -> M unit) (x : A) (l : list A)
    (w w' : World) (u : unit) :
  forM_ (x :: l) body w = Ret u w' ->
  exists w1, body x w = Ret tt w1 /\ forM_ l body w1 = Ret u w'.
Proof.
  simpl. intros H. apply bind_Ret_inv in H. destruct H as [[] [w1 [H1 H2]]]. eauto.
Qed.

(** *** Computations that keep the tree within a relation *)

Section Keeps.

Variable R : node -> node -> Prop.
Hypothesis R_refl : forall t, R t t.
Hypothesis R_trans : forall t1 t2 t3, R t1 t2 -> R t2 t3 -> R t1 t3.

Lemma keeps_ret {A} (a : A) : keeps R (ret a).
Proof. intros w. apply R_refl. Qed.

Lemma keeps_throw {A} : keeps R (@throw A).
Proof. intros w. apply R_refl. Qed.

Lemma keeps_exit {A} (c : nat) : keeps R (@exit A c).
Proof. intros w. apply R_refl. Qed.

Lemma keeps_bind {A B} (m : M A) (f : A -> M B) :
  keeps R m -> (forall a, keeps R (f a)) -> keeps R (bind m f).
Proof.
  intros Hm Hf w. unfold bind. specialize (Hm w).
  destruct (m w) as [a w1 | w1 | c w1]; simpl in *; try assumption.
  eapply R_trans; [exact Hm | apply Hf].
Qed.

Lemma keeps_catch {A} (m h : M A) :
  keeps R m -> keeps R h -> keeps R (catch m h).
Proof.
  intros Hm Hh w. unfold catch. specialize (Hm w).
  destruct (m w) as [a w1 | w1 | c w1]; simpl in *; try assumption.
  eapply R_trans; [exact Hm | apply Hh].
Qed.

Lemma keeps_when (c : bool) (m : M unit) : keeps R m -> keeps R (when c m).
Proof. destruct c; simpl; [trivial | intros _; apply keeps_ret]. Qed.

Lemma keeps_forM_ {A} (body : A -> M unit) (l : list A) :
  (forall x, keeps R (body x)) -> keeps R (forM_ l body).
Proof.
  intros H. induction l as [| x l IH]; simpl.
  - apply keeps_ret.
  - apply keeps_bind; auto.
Qed.

Lemma keeps_foldM {A B} (body : B -> A -> M B) (acc : B) (l : list A) :
  (forall acc x, keeps R (body acc x)) -> keeps R (foldM body acc l).
Proof.
  intros H. revert acc. induction l as [| x l IH]; intros acc; simpl.
  - apply keeps_ret.
  - apply keeps_bind; auto.
Qed.

Lemma keeps_filterM {A} (pred : A -> M bool) (l : list A) :
  (forall x, keeps R (pred x)) -> keeps R (filterM pred l).
Proof.
  intros H. induction l as [| x l IH]; simpl.
  - apply keeps_ret.
  - apply keeps_bind; [auto | intros k].
    apply keeps_bind; [auto | intros r]. apply keeps_ret.
Qed.

Lemma keeps_someM {A} (pred : A -> M bool) (l : list A) :
  (forall x, keeps R (pred x)) -> keeps R (someM pred l).
Proof.
  intros H. induction l as [| x l IH]; simpl.
  - apply keeps_ret.
  - apply keeps_bind; [auto | intros [|]]; [apply keeps_ret | assumption].
Qed.

Lemma keeps_mutate (op : node -> option node) :
  (forall t t', op t = Some t' -> R t t') -> keeps R (mutate op).
Proof.
  intros H w. unfold mutate.
  destruct (faults w) as [| [|] rest]; simpl; try apply R_refl;
    destruct (op (tree w)) eqn:E; simpl; auto.
Qed.

Lemma keeps_existsSync (p : path) : keeps R (fs_existsSync p).
Proof. intros w. apply R_refl. Qed.

Lemma keeps_readdirSync_withFileTypes (p : path) :
  keeps R (fs_readdirSync_withFileTypes p).
Proof.
  intros w. unfold fs_readdirSync_withFileTypes.
  destruct (lookup p (tree w)) as [[|] |]; apply R_refl.
Qed.

Lemma keeps_readdirSync (p : path) : keeps R (fs_readdirSync p).
Proof.
  intros w. unfold fs_readdirSync.
  destruct (lookup p (tree w)) as [[|] |]; apply R_refl.
Qed.

Lemma keeps_readFileSync (p : path) : keeps R (fs_readFileSync p).
Proof.
  intros w. unfold fs_readFileSync.
  destruct (lookup p (tree w)) as [[|] |]; apply R_refl.
Qed.

End Keeps.

(** *** Computations that only read *)

Lemma readonly_ret {A} (a : A) : readonly (ret a).
Proof. now intros w. Qed.

Lemma readonly_exit {A} (c : nat) : readonly (@exit A c).
Proof. now intros w. Qed.

Lemma readonly_throw {A} : readonly (@throw A).
Proof. now intros w. Qed.

Lemma readonly_bind {A B} (m : M A) (f : A -> M B) :
  readonly m -> (forall a, readonly (f a)) -> readonly (bind m f).
Proof.
  intros Hm Hf w. unfold bind. specialize (Hm w).
  destruct (m w) as [a w1 | w1 | c w1]; simpl in *; subst; auto. apply Hf.
Qed.

Lemma readonly_catch {A} (m h : M A) :
  readonly m -> readonly h -> readonly (catch m h).
Proof.
  intros Hm Hh w. unfold catch. specialize (Hm w).
  destruct (m w) as [a w1 | w1 | c w1]; simpl in *; subst; auto.
Qed.

Lemma readonly_forM_ {A} (body : A -> M unit) (l : list A) :
  (forall x, readonly (body x)) -> readonly (forM_ l body).
Proof.
  intros H. induction l as [| x l IH]; simpl.
  - apply readonly_ret.
  - apply readonly_bind; auto.
Qed.

Lemma readonly_foldM {A B} (body : B -> A -> M B) (acc : B) (l : list A) :
  (forall acc x, readonly (body acc x)) -> readonly (foldM body acc l).
Proof.
  intros H. revert acc. induction l as [| x l IH]; intros acc; simpl.
  - apply readonly_ret.
  - apply readonly_bind; auto.
Qed.

Lemma readonly_filterM {A} (pred : A -> M bool) (l : list A) :
  (forall x, readonly (pred x)) -> readonly (filterM pred l).
Proof.
  intros H. induction l as [| x l IH]; simpl.
  - apply readonly_ret.
  - apply readonly_bind; [auto | intros k].
    apply readonly_bind; [auto | intros r]. apply readonly_ret.
Qed.

Lemma readonly_someM {A} (pred : A -> M bool) (l : list A) :
  (forall x, readonly (pred x)) -> readonly (someM pred l).
Proof.
  intros H. induction l as [| x l IH]; simpl.
  - apply readonly_ret.
  - apply readonly_bind; [auto | intros [|]]; [apply readonly_ret | assumption].
Qed.

Lemma readonly_existsSync (p : path) : readonly (fs_existsSync p).
Proof. now intros w. Qed.

Lemma readonly_existsSync_joined (j : joined) :
  readonly (fs_existsSync_joined j).
Proof. now intros w. Qed.

Lemma readonly_readdirSync_withFileTypes (p : path) :
  readonly (fs_readdirSync_withFileTypes p).
Proof.
  intros w. unfold fs_readdirSync_withFileTypes.
  now destruct (lookup p (tree w)) as [[|] |].
Qed.

Lemma readonly_readdirSync (p : path) : readonly (fs_readdirSync p).
Proof.
  intros w. unfold fs_readdirSync. now destruct (lookup p (tree w)) as [[|] |].
Qed.

Lemma readonly_readFileSync (p : path) : readonly (fs_readFileSync p).
Proof.
  intros w. unfold fs_readFileSync. now destruct (lookup p (tree w)) as [[|] |].
Qed.

Create HintDb ro discriminated.
#[export] Hint Resolve readonly_ret readonly_exit readonly_throw
  readonly_existsSync readonly_existsSync_joined
  readonly_readdirSync_withFileTypes
  readonly_readdirSync readonly_readFileSync : ro.

Ltac ro :=
  repeat first
    [ apply readonly_bind; [| intro]
    | apply readonly_catch
    | apply readonly_foldM; intros
    | apply readonly_forM_; intros
    | apply readonly_filterM; intros
    | apply readonly_someM; intros
    | solve [auto with ro]
    | match goal with
      | |- readonly (if ?c then _ else _) => destruct c
      | |- readonly (match ?x with Some _ => _ | None => _ end) => destruct x
      | |- readonly (let (_, _) := ?x in _) => destruct x
      end ].

(** A result obtained by a read-only computation leaves the world as it
    was. *)
Lemma readonly_Ret {A} (m : M A) (w w' : World) (a : A) :
  readonly m -> m w = Ret a w' -> w' = w.
Proof. intros H E. specialize (H w). now rewrite E in H. Qed.

(** ** The migration script reads before it writes *)

Lemma detectLanguages_readonly (projectsDir : path) :
  readonly (detectLanguages projectsDir).
Proof. unfold detectLanguages, looksLikeLanguage. ro. Qed.

Lemma collectProjects_readonly (projectsDir : path) (languages : list string) :
  readonly (collectProjects projectsDir languages).
Proof. unfold collectProjects, collectLang, collectSlug. ro. Qed.

(** ** Dry run *)

Lemma stageVersion_dry (dir : path) (vs : alist ProjectData)
    (acc : list Media) (w : World) :
  exists acc', foldM (stageVersion true dir) acc vs w = Ret acc' w.
Proof.
  revert acc. induction vs as [| [lang data] vs IH]; intros acc; simpl.
  - eexists. reflexivity.
  - unfold bind at 1. simpl. apply IH.
Qed.

Lemma copyMedia_dry (dir : path) (ms : list Media) (acc : list string)
    (w : World) :
  exists acc', foldM (copyMedia true dir) acc ms w = Ret acc' w.
Proof.
  revert acc. induction ms as [| [file source] ms IH]; intros acc; simpl.
  - eexists. reflexivity.
  - unfold bind at 1. simpl. destruct (includes acc file); simpl; apply IH.
Qed.

Lemma stageProject_dry (tempDir : path) (item : string * alist ProjectData)
    (w : World) :
  stageProject true tempDir item w = Ret tt w.
Proof.
  destruct item as [slug vs]. unfold stageProject. simpl.
  unfold bind at 1. simpl.
  destruct (stageVersion_dry (path_join tempDir slug) vs [] w) as [am E].
  rewrite (bind_Ret _ _ _ _ _ E).
  destruct (copyMedia_dry (path_join tempDir slug) am [] w) as [cm E'].
  now rewrite (bind_Ret _ _ _ _ _ E').
Qed.

Lemma staging_dry (projectsDir : path) (projects : Projects) (w : World) :
  staging true projectsDir projects w = Ret tt w.
Proof.
  unfold staging. simpl. unfold bind at 1. simpl.
  induction projects as [| item projects IH]; simpl; [reflexivity |].
  now rewrite (bind_Ret _ _ _ _ _ (stageProject_dry _ item w)).
Qed.

(** C5.  In dry-run mode [migrate] returns normally and leaves the world
    exactly as it found it, and so does the whole run of [main]: the
    tree before and after are the same, whatever the input. *)
Theorem dry_run_no_mutation (projectsDir : path) (w : World) :
  (forall languages projects,
      migrate true projectsDir languages projects w = Ret tt w)
  /\ world_of (main true projectsDir w) = w.
Proof.
  split.
  - intros languages projects. unfold migrate.
    now rewrite (bind_Ret _ _ _ _ _ (staging_dry projectsDir projects w)).
  - assert (H : readonly (main true projectsDir)); [| apply H].
    unfold main. apply readonly_catch; [| apply readonly_exit].
    apply readonly_bind; [apply detectLanguages_readonly | intros languages].
    destruct (Nat.eqb _ _); [apply readonly_exit |].
    apply readonly_bind; [apply collectProjects_readonly | intros projects].
    intros w0. unfold migrate.
    now rewrite (bind_Ret _ _ _ _ _ (staging_dry projectsDir projects w0)).
Qed.

(** ** Staging stays inside the staging directory *)

Lemma same_outside_refl (d : path) (t : node) : same_outside d t t.
Proof. now intros q _. Qed.

Lemma same_outside_trans (d : path) (t1 t2 t3 : node) :
  same_outside d t1 t2 -> same_outside d t2 t3 -> same_outside d t1 t3.
Proof. intros H1 H2 q D. now rewrite (H2 q D), (H1 q D). Qed.

Lemma dirname_path_join (d : path) (x : string) : dirname (path_join d x) = d.
Proof. apply removelast_last. Qed.

Lemma write_file_inv (p : path) (data : string) (t t' : node) :
  write_file p data t = Some t' -> graft p (Some (File data)) t = Some t'.
Proof.
  unfold write_file. destruct (lookup p t) as [[b | es] |]; trivial; discriminate.
Qed.

Lemma copy_file_inv (src dest : path) (t t' : node) :
  copy_file src dest t = Some t' ->
  exists b, lookup src t = Some (File b)
            /\ graft dest (Some (File b)) t = Some t'.
Proof.
  unfold copy_file. destruct (lookup src t) as [[b | es] |]; try discriminate.
  intros H. exists b. split; [reflexivity |].
  destruct (lookup dest t) as [[b' | es'] |]; trivial; discriminate.
Qed.

Lemma keeps_mkdirSync (d dir : path) (r : path) :
  dir = d ++ r -> keeps (same_outside d) (mkdirSync dir).
Proof.
  intros ->. unfold mkdirSync.
  pose proof (same_outside_refl d) as Rr.
  pose proof (same_outside_trans d) as Rt.
  apply keeps_bind; trivial; [now apply keeps_existsSync | intros e].
  destruct (negb e); [| now apply keeps_ret].
  apply keeps_mutate; trivial.
  intros t t' H q D. eapply mkdirp_diverge; [exact H |].
  now apply diverge_extend_l.
Qed.

Lemma related_paths (p q : path) :
  diverge p q = false ->
  (exists r, q = p ++ r) \/ (exists r, r <> [] /\ p = q ++ r).
Proof.
  intros D. destruct (is_prefix p q) eqn:P1.
  - left. now apply is_prefix_spec.
  - destruct (is_prefix q p) eqn:P2.
    + right. apply is_prefix_spec in P2. destruct P2 as [r ->].
      exists r. split; [| reflexivity]. intros ->.
      rewrite app_nil_r in P1.
      assert (is_prefix q q = true) by (apply is_prefix_spec; exists []; now rewrite app_nil_r).
      congruence.
    + rewrite (not_prefix_diverge _ _ P1 P2) in D. discriminate.
Qed.

Lemma persists_refl (t : node) : persists t t.
Proof. intros p n H. eauto. Qed.

Lemma persists_trans (t1 t2 t3 : node) :
  persists t1 t2 -> persists t2 t3 -> persists t1 t3.
Proof.
  intros H1 H2 p n H. destruct (H1 _ _ H) as [n' [H' E']].
  destruct (H2 _ _ H') as [n'' [H'' E'']]. exists n''. split; [exact H'' | congruence].
Qed.

Lemma graft_Dir (r : path) (ov : option node) (n n' : node) :
  graft r ov n = Some n' -> isDirectory n = true /\ isDirectory n' = true.
Proof.
  destruct r as [| x r]; [discriminate |]. rewrite graft_cons.
  destruct n as [b | es]; [discriminate |].
  destruct r as [| y r].
  - intros [= <-]. auto.
  - destruct (aget x es); [| discriminate].
    destruct (graft (y :: r) ov n); [| discriminate]. intros [= <-]. auto.
Qed.

(** Writing a regular file where there is no directory removes nothing. *)
Lemma graft_file_persists (p : path) (b : string) (t t' : node) :
  (forall es, lookup p t <> Some (Dir es)) ->
  graft p (Some (File b)) t = Some t' -> persists t t'.
Proof.
  intros Hnd G q n Hq. destruct (diverge p q) eqn:D.
  - exists n. split; [| reflexivity]. now rewrite (graft_diverge _ _ _ _ _ G D).
  - apply related_paths in D. destruct D as [[r ->] | [r [Hr ->]]].
    + rewrite lookup_app in Hq.
      destruct (lookup p t) as [[b0 | es] |] eqn:E; try discriminate.
      * destruct r; [| discriminate]. injection Hq as <-.
        exists (File b). rewrite app_nil_r. split; [| reflexivity].
        eapply graft_same; eauto.
      * exfalso. now apply (Hnd es).
    + destruct (graft_ancestor _ _ _ _ _ Hr G) as [n0 [n' [H1 [H2 H3]]]].
      exists n'. split; [exact H3 |].
      apply graft_Dir in H2. destruct H2 as [H2 H2'].
      rewrite Hq in H1. injection H1 as <-. congruence.
Qed.

Lemma mkdirp_Dir (r : path) (n n' : node) :
  mkdirp r n = Some n' -> isDirectory n = true /\ isDirectory n' = true.
Proof.
  destruct n as [b | es]; [destruct r; discriminate |].
  destruct r as [| x r]; simpl.
  - intros [= <-]. auto.
  - destruct (mkdirp r _); [| discriminate]. intros [= <-]. auto.
Qed.

Lemma mkdirp_ancestor (q r : path) (t t' n : node) :
  mkdirp (q ++ r) t = Some t' -> lookup q t = Some n ->
  exists n', lookup q t' = Some n' /\ mkdirp r n = Some n'.
Proof.
  revert t t'. induction q as [| x q IH]; intros t t'; simpl.
  - intros H [= <-]. eauto.
  - destruct t as [b | es]; [discriminate |].
    destruct (aget x es) as [c |] eqn:E; [| discriminate].
    destruct (mkdirp (q ++ r) c) as [c' |] eqn:G; [| discriminate].
    intros [= <-] Hq. destruct (IH _ _ G Hq) as [n' [H1 H2]].
    exists n'. simpl. now rewrite aget_aset_same.
Qed.

Lemma mkdirp_persists (p : path) (t t' : node) :
  mkdirp p t = Some t' -> persists t t'.
Proof.
  intros G q n Hq. destruct (diverge p q) eqn:D.
  - exists n. split; [| reflexivity]. now rewrite (mkdirp_diverge _ _ _ _ G D).
  - apply related_paths in D. destruct D as [[r ->] | [r [Hr ->]]].
    + pose proof (mkdirp_lookup _ _ _ G) as L.
      rewrite lookup_app in Hq. rewrite lookup_app, L.
      destruct (lookup p t) as [m |]; [| discriminate]. eauto.
    + destruct (mkdirp_ancestor _ _ _ _ _ G Hq) as [n' [H1 H2]].
      exists n'. split; [exact H1 |].
      apply mkdirp_Dir in H2. destruct H2. congruence.
Qed.

Lemma keeps_persists_mkdirSync (dir : path) : keeps persists (mkdirSync dir).
Proof.
  pose proof persists_refl as Rr. pose proof persists_trans as Rt.
  unfold mkdirSync.
  apply keeps_bind; trivial; [now apply keeps_existsSync | intros e].
  destruct (negb e); [| now apply keeps_ret].
  apply keeps_mutate; trivial. intros t t'. apply mkdirp_persists.
Qed.

(** The staging phase removes nothing. *)
Lemma keeps_persists_staging (projectsDir : path) (projects : Projects) :
  keeps persists (staging false projectsDir projects).
Proof.
  pose proof persists_refl as Rr. pose proof persists_trans as Rt.
  pose proof keeps_persists_mkdirSync as Km.
  unfold staging. apply keeps_bind; trivial.
  { apply keeps_when; trivial. }
  intros _. apply keeps_forM_; trivial. intros [slug vs].
  unfold stageProject. apply keeps_bind; trivial.
  { apply keeps_when; trivial. }
  intros _. apply keeps_bind; trivial.
  { apply keeps_foldM; trivial. intros acc [lang data]. unfold stageVersion.
    apply keeps_bind; trivial; [| intros; now apply keeps_ret].
    apply keeps_when; trivial. apply keeps_mutate; trivial.
    intros t t' H. unfold write_file in H.
    destruct (lookup _ t) as [[b | es] |] eqn:E; try discriminate;
      (eapply graft_file_persists; [| exact H]); intros es'; congruence. }
  intros am. apply keeps_bind; trivial; [| intros; now apply keeps_ret].
  apply keeps_foldM; trivial. intros acc [file source]. unfold copyMedia.
  destruct (includes acc file); [now apply keeps_ret |].
  apply keeps_bind; trivial; [| intros; now apply keeps_ret].
  apply keeps_when; trivial. unfold copyFileSync.
  apply keeps_bind; trivial.
  intros _. apply keeps_mutate; trivial.
  intros t t' H. unfold copy_file in H.
  destruct (lookup source t) as [[b | es0] |]; try discriminate.
  destruct (lookup _ t) as [[b' | es] |] eqn:E; try discriminate;
    (eapply graft_file_persists; [| exact H]); intros es'; congruence.
Qed.

Lemma keeps_staging (projectsDir : path) (projects : Projects) :
  keeps (same_outside (path_join projectsDir tempName))
        (staging false projectsDir projects).
Proof.
  set (d := path_join projectsDir tempName).
  pose proof (same_outside_refl d) as Rr.
  pose proof (same_outside_trans d) as Rt.
  unfold staging. fold d. apply keeps_bind; trivial.
  { apply keeps_when; trivial. apply keeps_mkdirSync with (r := []).
    now rewrite app_nil_r. }
  intros _. apply keeps_forM_; trivial. intros [slug vs].
  unfold stageProject. apply keeps_bind; trivial.
  { apply keeps_when; trivial. now apply keeps_mkdirSync with (r := [slug]). }
  intros _. apply keeps_bind; trivial.
  { apply keeps_foldM; trivial. intros acc [lang data]. unfold stageVersion.
    apply keeps_bind; trivial; [| intros; now apply keeps_ret].
    apply keeps_when; trivial. apply keeps_mutate; trivial.
    intros t t' H q D. apply write_file_inv in H.
    eapply graft_diverge; [exact H |].
    unfold path_join. rewrite <- app_assoc. now apply diverge_extend_l. }
  intros am. apply keeps_bind; trivial; [| intros; now apply keeps_ret].
  apply keeps_foldM; trivial. intros acc [file source]. unfold copyMedia.
  destruct (includes acc file); [now apply keeps_ret |].
  apply keeps_bind; trivial; [| intros; now apply keeps_ret].
  apply keeps_when; trivial. unfold copyFileSync.
  rewrite dirname_path_join. apply keeps_bind; trivial.
  { now apply keeps_mkdirSync with (r := [slug]). }
  intros _. apply keeps_mutate; trivial.
  intros t t' H q D. apply copy_file_inv in H. destruct H as [b [_ H]].
  eapply graft_diverge; [exact H |].
  unfold path_join. rewrite <- app_assoc. now apply diverge_extend_l.
Qed.

(** C1.  When the staging phase of a live run throws, [migrate] ends with
    that exception in the world staging left, so the destructive phase
    never starts.  In that world every path of the tree before the run
    still leads to a node of the same kind (nothing was deleted or moved),
    and every path outside the staging directory [_new_structure] leads
    to exactly what it led to before: every entry of the content root
    other than the staging directory (each language folder, each item
    directory, the backup directory) is where and what it was. *)
Theorem staging_failure_leaves_original (projectsDir : path)
    (languages : list string) (projects : Projects) (w w' : World) :
  staging false projectsDir projects w = Throw w' ->
  migrate false projectsDir languages projects w = Throw w'
  /\ (forall p n, lookup p (tree w) = Some n ->
        exists n', lookup p (tree w') = Some n'
                   /\ isDirectory n' = isDirectory n)
  /\ (forall q, diverge (path_join projectsDir tempName) q = true ->
                lookup q (tree w') = lookup q (tree w))
  /\ (forall name rest, name <> tempName ->
        lookup (projectsDir ++ name :: rest) (tree w')
        = lookup (projectsDir ++ name :: rest) (tree w)).
Proof.
  intros H.
  assert (F : same_outside (path_join projectsDir tempName) (tree w) (tree w')).
  { pose proof (keeps_staging projectsDir projects w) as K.
    now rewrite H in K. }
  assert (P : persists (tree w) (tree w')).
  { pose proof (keeps_persists_staging projectsDir projects w) as K.
    now rewrite H in K. }
  split; [| split; [| split]].
  - unfold migrate. now apply bind_Throw.
  - exact P.
  - exact F.
  - intros name rest N. apply F. unfold path_join.
    apply diverge_heads. congruence.
Qed.

(** The run of [main] then ends with exit code 1 in that world. *)
Lemma main_staging_failure (projectsDir : path) (languages : list string)
    (projects : Projects) (w w' : World) :
  detectLanguages projectsDir w = Ret languages w ->
  languages <> [] ->
  collectProjects projectsDir languages w = Ret projects w ->
  staging false projectsDir projects w = Throw w' ->
  main false projectsDir w = Exit 1 w'.
Proof.
  intros Hd Hne Hc Hs. unfold main, catch.
  rewrite (bind_Ret _ _ _ _ _ Hd).
  destruct languages as [| l0 languages]; [congruence |].
  change (Nat.eqb (List.length (l0 :: languages)) 0) with false. cbv iota.
  rewrite (bind_Ret _ _ _ _ _ Hc). unfold migrate.
  now rewrite (bind_Throw _ _ _ _ Hs).
Qed.

(** ** Layout detection *)

Lemma someM_pure {A} (pred : A -> M bool) (f : A -> bool) (l : list A)
    (w : World) :
  (forall x, In x l -> pred x w = Ret (f x) w) ->
  someM pred l w = Ret (existsb f l) w.
Proof.
  induction l as [| x l IH]; intros H; simpl; [reflexivity |].
  rewrite (bind_Ret _ _ _ _ _ (H x (or_introl eq_refl))).
  destruct (f x); simpl; [reflexivity |]. apply IH. intros y Hy. apply H. now right.
Qed.

Lemma filterM_pure {A} (pred : A -> M bool) (f : A -> bool) (l : list A)
    (w : World) :
  (forall x, In x l -> pred x w = Ret (f x) w) ->
  filterM pred l w = Ret (filter f l) w.
Proof.
  induction l as [| x l IH]; intros H; simpl; [reflexivity |].
  rewrite (bind_Ret _ _ _ _ _ (H x (or_introl eq_refl))).
  rewrite (bind_Ret _ _ _ _ _ (IH (fun y Hy => H y (or_intror Hy)))).
  reflexivity.
Qed.

Lemma lookup_child (d : path) (x : string) (t : node) (es : alist node) :
  lookup d t = Some (Dir es) -> lookup (path_join d x) t = aget x es.
Proof.
  intros H. unfold path_join. rewrite lookup_app, H. simpl.
  now destruct (aget x es).
Qed.

Lemma lookup_entry (d : path) (x : string) (n : node) (t : node)
    (es : alist node) :
  wf t = true -> lookup d t = Some (Dir es) -> In (x, n) es ->
  lookup (path_join d x) t = Some n.
Proof.
  intros W H HIn. rewrite (lookup_child _ _ _ _ H).
  apply In_aget; [| assumption]. eapply wf_lookup_NoDup; eauto.
Qed.

Lemma filter_isDirectory_dirents (es : alist node) :
  filter d_isDirectory (map dirent_of es)
  = map dirent_of (filter (fun e => isDirectory (snd e)) es).
Proof.
  induction es as [| [x n] es IH]; simpl; [reflexivity |].
  destruct (isDirectory n); simpl; now rewrite IH.
Qed.

Lemma map_d_name_dirents (es : alist node) : map d_name (map dirent_of es) = keys es.
Proof. unfold keys. rewrite map_map. reflexivity. Qed.

Lemma existsb_map_in {A B} (f : B -> bool) (h : A -> B) (l : list A) :
  existsb f (map h l) = existsb (fun x => f (h x)) l.
Proof. induction l as [| x l IH]; simpl; [reflexivity | now rewrite IH]. Qed.

Lemma existsb_filter_in {A} (g p : A -> bool) (l : list A) :
  (forall x, g x = true -> p x = true) ->
  existsb g (filter p l) = existsb g l.
Proof.
  intros H. induction l as [| x l IH]; simpl; [reflexivity |].
  destruct (p x) eqn:Ep; simpl; rewrite IH; [reflexivity |].
  destruct (g x) eqn:Eg; [| reflexivity]. apply H in Eg. congruence.
Qed.

Lemma existsb_ext_in {A} (f g : A -> bool) (l : list A) :
  (forall x, In x l -> f x = g x) -> existsb f l = existsb g l.
Proof.
  induction l as [| x l IH]; intros H; simpl; [reflexivity |].
  rewrite (H x (or_introl eq_refl)), IH; [reflexivity |].
  intros y Hy. apply H. now right.
Qed.

(** The test [detectLanguages] applies to a directory of the content
    root is the one of [is_language_folder]. *)
Lemma looksLikeLanguage_spec (projectsDir : path) (w : World)
    (es : alist node) (x : string) (n : node) :
  wf (tree w) = true -> lookup projectsDir (tree w) = Some (Dir es) ->
  In (x, n) es -> isDirectory n = true ->
  looksLikeLanguage projectsDir (dirent_of (x, n)) w
  = Ret (is_language_folder n) w.
Proof.
  intros W Hroot HIn Hdir. destruct n as [b | subs]; [discriminate |].
  unfold looksLikeLanguage. simpl d_name.
  pose proof (lookup_entry _ _ _ _ _ W Hroot HIn) as Hl.
  assert (ND : NoDup (keys subs)) by (eapply wf_lookup_NoDup; eauto).
  unfold bind at 1, fs_readdirSync_withFileTypes. rewrite Hl.
  rewrite filter_isDirectory_dirents.
  rewrite someM_pure
    with (f := fun d => match aget (d_name d) subs with
                        | Some (Dir fs) => has "index.md" fs
                        | _ => false
                        end).
  - f_equal. unfold is_language_folder.
    rewrite existsb_map_in. simpl d_name.
    rewrite existsb_ext_in
      with (g := fun e => match snd e with
                          | Dir fs => has "index.md" fs
                          | File _ => false
                          end).
    + apply existsb_filter_in. intros [y [b | fs]]; simpl; [discriminate | trivial].
    + intros [y c] Hy. apply filter_In in Hy. destruct Hy as [Hy _]. simpl.
      now rewrite (In_aget _ _ _ ND Hy).
  - intros d Hd. unfold fs_existsSync.
    pose proof (lookup_child _ (d_name d) _ _ Hl) as Hd'.
    unfold path_join at 1. rewrite lookup_app, Hd'.
    destruct (aget (d_name d) subs) as [[b | fs] |]; simpl; try reflexivity.
    unfold has. now destruct (aget "index.md" fs).
Qed.

Lemma existsSync_Some (p : path) (w : World) (n : node) :
  lookup p (tree w) = Some n -> fs_existsSync p w = Ret true w.
Proof. unfold fs_existsSync. now intros ->. Qed.

Lemma existsSync_None (p : path) (w : World) :
  lookup p (tree w) = None -> fs_existsSync p w = Ret false w.
Proof. unfold fs_existsSync. now intros ->. Qed.

Lemma readdirSync_withFileTypes_Dir (p : path) (w : World) (es : alist node) :
  lookup p (tree w) = Some (Dir es) ->
  fs_readdirSync_withFileTypes p w = Ret (map dirent_of es) w.
Proof. unfold fs_readdirSync_withFileTypes. now intros ->. Qed.

Lemma readdirSync_Dir (p : path) (w : World) (es : alist node) :
  lookup p (tree w) = Some (Dir es) -> fs_readdirSync p w = Ret (keys es) w.
Proof. unfold fs_readdirSync. now intros ->. Qed.

Lemma readFileSync_File (p : path) (w : World) (b : string) :
  lookup p (tree w) = Some (File b) ->
  fs_readFileSync p w = Ret (utf8_decode b) w.
Proof. unfold fs_readFileSync. now intros ->. Qed.

Lemma filter_map_in {A B} (f : B -> bool) (g : A -> bool) (h : A -> B)
    (l : list A) :
  (forall x, In x l -> f (h x) = g x) ->
  filter f (map h l) = map h (filter g l).
Proof.
  induction l as [| x l IH]; intros H; simpl; [reflexivity |].
  rewrite (H x (or_introl eq_refl)), IH by (intros y Hy; apply H; now right).
  now destruct (g x).
Qed.

Lemma filter_filter_absorb {A} (g p : A -> bool) (l : list A) :
  (forall x, g x = true -> p x = true) -> filter g (filter p l) = filter g l.
Proof.
  intros H. induction l as [| x l IH]; simpl; [reflexivity |].
  destruct (p x) eqn:Ep; simpl; rewrite IH; [reflexivity |].
  destruct (g x) eqn:Eg; [| reflexivity]. apply H in Eg. congruence.
Qed.

Lemma is_language_folder_isDirectory (n : node) :
  is_language_folder n = true -> isDirectory n = true.
Proof. now destruct n. Qed.

(** [detectLanguages] returns, in enumeration order, the names of the
    entries of the content root that are legacy language folders. *)
Lemma detectLanguages_spec (projectsDir : path) (w : World) (es : alist node) :
  wf (tree w) = true -> lookup projectsDir (tree w) = Some (Dir es) ->
  detectLanguages projectsDir w
  = Ret (keys (filter (fun e => is_language_folder (snd e)) es)) w.
Proof.
  intros W Hroot. unfold detectLanguages.
  rewrite (bind_Ret _ _ _ _ _ (existsSync_Some _ _ _ Hroot)).
  cbv beta iota delta [negb].
  rewrite (bind_Ret _ _ _ _ _ (readdirSync_withFileTypes_Dir _ _ _ Hroot)).
  rewrite filter_isDirectory_dirents.
  assert (ND : NoDup (keys es)) by (eapply wf_lookup_NoDup; eauto).
  assert (F : filterM (looksLikeLanguage projectsDir)
                (map dirent_of
                   (filter (fun e => isDirectory (snd e)) es)) w
              = Ret (filter (fun d => match aget (d_name d) es with
                                      | Some n => is_language_folder n
                                      | None => false
                                      end)
                       (map dirent_of
                          (filter (fun e => isDirectory (snd e)) es))) w).
  { apply filterM_pure. intros d Hd.
    apply in_map_iff in Hd. destruct Hd as [[x n] [<- Hx]].
    apply filter_In in Hx. destruct Hx as [Hx Dn]. simpl in Dn.
    rewrite (looksLikeLanguage_spec _ _ _ _ _ W Hroot Hx Dn). simpl.
    now rewrite (In_aget _ _ _ ND Hx). }
  rewrite (bind_Ret _ _ _ _ _ F). unfold ret. f_equal.
  rewrite filter_map_in with (g := fun e => is_language_folder (snd e)).
  - rewrite map_d_name_dirents. f_equal.
    apply filter_filter_absorb. intros [x n]. apply is_language_folder_isDirectory.
  - intros [x n] Hx. apply filter_In in Hx. destruct Hx as [Hx _]. simpl.
    now rewrite (In_aget _ _ _ ND Hx).
Qed.

(** C8.  When the content root is absent, [detectLanguages] ends the
    process with exit code 1 before anything is read or written.  When the
    root is a directory none of whose entries is a legacy language
    folder, it returns the empty list, and the whole run (dry or live)
    ends with exit code 0 in the world it started from: nothing was
    written. *)
Theorem detect_absent_or_empty (dryRun : bool) (projectsDir : path) (w : World) :
  (lookup projectsDir (tree w) = None ->
   detectLanguages projectsDir w = Exit 1 w
   /\ main dryRun projectsDir w = Exit 1 w)
  /\ (forall es,
        wf (tree w) = true ->
        lookup projectsDir (tree w) = Some (Dir es) ->
        (forall x n, In (x, n) es -> is_language_folder n = false) ->
        detectLanguages projectsDir w = Ret [] w
        /\ main dryRun projectsDir w = Exit 0 w).
Proof.
  split.
  - intros H.
    assert (E : detectLanguages projectsDir w = Exit 1 w).
    { unfold detectLanguages.
      now rewrite (bind_Ret _ _ _ _ _ (existsSync_None _ _ H)). }
    split; [exact E |]. unfold main, catch, bind. now rewrite E.
  - intros es W H Hnone.
    assert (E : detectLanguages projectsDir w = Ret [] w).
    { rewrite (detectLanguages_spec _ _ _ W H). f_equal. clear H.
      induction es as [| [x n] es IH]; simpl; [reflexivity |].
      rewrite (Hnone x n (or_introl eq_refl)).
      apply IH. intros y c Hy. apply (Hnone y c). now right. }
    split; [exact E |]. unfold main, catch, bind. now rewrite E.
Qed.

(** ** Joined paths *)

Lemma stat_lookup (j : joined) (t : node) (n : node) :
  stat j t = Some n -> lookup (jpath j) t = Some n.
Proof.
  unfold stat. destruct (lookup (jpath j) t) as [m |]; [| discriminate].
  destruct (trailing j && negb (isDirectory m)); [discriminate | trivial].
Qed.

Lemma stat_Dir (j : joined) (t : node) (es : alist node) :
  lookup (jpath j) t = Some (Dir es) -> stat j t = Some (Dir es).
Proof. unfold stat. intros ->. simpl. now rewrite andb_false_r. Qed.

Lemma stat_plain (p : path) (t : node) :
  stat (mkJoined p false) t = lookup p t.
Proof. unfold stat. simpl. now destruct (lookup p t). Qed.

Lemma existsSync_joined_Some (j : joined) (w : World) (n : node) :
  stat j (tree w) = Some n -> fs_existsSync_joined j w = Ret true w.
Proof. unfold fs_existsSync_joined. now intros ->. Qed.


(** ** File names and language codes

    [file.endsWith('.md')] and [file.replace('.md', '')] single out the
    file [{lang}.md] for every language code in which [.md] does not
    occur. *)

Lemma prefix_split (p s : string) :
  String.prefix p s = true -> s = (p ++ drop (String.length p) s)%string.
Proof.
  revert s. induction p as [| a p IH]; intros s.
  - destruct s; reflexivity.
  - destruct s as [| b s]; simpl; [discriminate |].
    destruct (ascii_dec a b) as [-> |]; [| discriminate].
    intros H. f_equal. now apply IH.
Qed.

Lemma endsWith_cons (c : ascii) (s suffix : string) :
  endsWith (String c s) suffix
  = (String.eqb (String c s) suffix || endsWith s suffix).
Proof. reflexivity. Qed.

Lemma occurs_cons (pat : string) (c : ascii) (s : string) :
  occurs pat (String c s) = (String.prefix pat (String c s) || occurs pat s).
Proof. reflexivity. Qed.

Lemma str_replace_cons (c : ascii) (s pat rep : string) :
  str_replace (String c s) pat rep
  = if String.prefix pat (String c s)
    then (rep ++ drop (String.length pat) (String c s))%string
    else String c (str_replace s pat rep).
Proof. reflexivity. Qed.

Lemma endsWith_md_append (l : string) : endsWith (l ++ ".md") ".md" = true.
Proof.
  induction l as [| c l IH]; [reflexivity |].
  change ((String c l ++ ".md")%string) with (String c (l ++ ".md")).
  rewrite endsWith_cons, IH. apply orb_true_r.
Qed.

Lemma endsWith_occurs (s : string) :
  endsWith s ".md" = true -> occurs ".md" s = true.
Proof.
  induction s as [| c s IH]; [discriminate |].
  rewrite endsWith_cons, occurs_cons. intros H. apply orb_true_iff in H.
  destruct H as [H | H].
  - apply eqb_true in H. rewrite H. reflexivity.
  - rewrite (IH H). apply orb_true_r.
Qed.

Lemma prefix_cons (a b : ascii) (p s : string) :
  String.prefix (String a p) (String b s) = (Ascii.eqb a b && String.prefix p s).
Proof.
  change (String.prefix (String a p) (String b s))
    with (if ascii_dec a b then String.prefix p s else false).
  destruct (ascii_dec a b) as [-> | N].
  - now rewrite Ascii.eqb_refl.
  - apply Ascii.eqb_neq in N. now rewrite N.
Qed.

Lemma prefix_nil_r (a : ascii) (p : string) :
  String.prefix (String a p) EmptyString = false.
Proof. reflexivity. Qed.

Lemma prefix_md_append (l : string) :
  String.prefix ".md" (l ++ ".md") = true ->
  l = EmptyString \/ String.prefix ".md" l = true.
Proof.
  destruct l as [| c1 [| c2 [| c3 r]]]; [auto | | |].
  - change ((String c1 EmptyString ++ ".md")%string) with (String c1 ".md").
    rewrite !prefix_cons.
    destruct (Ascii.eqb "." c1); [| discriminate].
    change (Ascii.eqb "m" ".") with false. discriminate.
  - change ((String c1 (String c2 EmptyString) ++ ".md")%string)
      with (String c1 (String c2 ".md")).
    rewrite !prefix_cons.
    destruct (Ascii.eqb "." c1); [| discriminate].
    destruct (Ascii.eqb "m" c2); [| discriminate].
    change (Ascii.eqb "d" ".") with false. discriminate.
  - change ((String c1 (String c2 (String c3 r)) ++ ".md")%string)
      with (String c1 (String c2 (String c3 (r ++ ".md")))).
    rewrite !prefix_cons. intros H. right.
    destruct (Ascii.eqb "." c1); [| discriminate].
    destruct (Ascii.eqb "m" c2); [| discriminate].
    destruct (Ascii.eqb "d" c3); [| discriminate].
    destruct r; reflexivity.
Qed.

Lemma str_replace_md_append (l : string) :
  occurs ".md" l = false -> str_replace (l ++ ".md") ".md" EmptyString = l.
Proof.
  induction l as [| c l IH]; [reflexivity |].
  rewrite occurs_cons. intros H.
  apply orb_false_iff in H. destruct H as [H1 H2].
  change ((String c l ++ ".md")%string) with (String c (l ++ ".md")).
  rewrite str_replace_cons.
  destruct (String.prefix ".md" (String c (l ++ ".md"))) eqn:P.
  - apply (prefix_md_append (String c l)) in P. destruct P; congruence.
  - now rewrite IH.
Qed.

Lemma endsWith_md_tail (v : string) :
  endsWith (".md" ++ v) ".md" = true ->
  v = EmptyString \/ endsWith v ".md" = true.
Proof.
  destruct v as [| c v]; [auto |]. intros H. right.
  simpl in H. exact H.
Qed.

Lemma lang_file_unique (f l : string) :
  occurs ".md" l = false -> endsWith f ".md" = true ->
  str_replace f ".md" EmptyString = l -> f = (l ++ ".md")%string.
Proof.
  revert l. induction f as [| c f IH]; intros l Hl He Hr; [discriminate |].
  rewrite str_replace_cons in Hr.
  destruct (String.prefix ".md" (String c f)) eqn:P.
  - apply prefix_split in P.
    change (String.length ".md") with 3 in P, Hr.
    change ((EmptyString ++ drop 3 (String c f))%string)
      with (drop 3 (String c f)) in Hr.
    rewrite Hr in P. rewrite P in He.
    apply endsWith_md_tail in He. destruct He as [-> | He]; [exact P |].
    apply endsWith_occurs in He. congruence.
  - subst l. rewrite occurs_cons in Hl.
    apply orb_false_iff in Hl. destruct Hl as [_ Hl].
    rewrite endsWith_cons in He.
    apply orb_true_iff in He. destruct He as [He | He].
    + apply eqb_true in He. rewrite He in P. discriminate.
    + simpl. f_equal. now apply IH.
Qed.

Lemma append_md_injective (a b : string) :
  (a ++ ".md")%string = (b ++ ".md")%string -> a = b.
Proof.
  revert b. induction a as [| c a IH]; intros [| d b]; simpl; trivial.
  - destruct b as [| ? [| ? [| ? ?]]]; discriminate.
  - destruct a as [| ? [| ? [| ? ?]]]; discriminate.
  - intros [= -> H]. f_equal. auto.
Qed.

(** ** Joining a string to a path *)

Lemma prefix_refl (p : string) : String.prefix p p = true.
Proof.
  induction p as [| c p IH]; [reflexivity |].
  now rewrite prefix_cons, Ascii.eqb_refl.
Qed.

Lemma endsWith_occurs_gen (s suffix : string) :
  endsWith s suffix = true -> occurs suffix s = true.
Proof.
  induction s as [| c s IH].
  - destruct suffix; [reflexivity | discriminate].
  - rewrite endsWith_cons, occurs_cons. intros H. apply orb_true_iff in H.
    destruct H as [H | H].
    + apply eqb_true in H. rewrite <- H, prefix_refl. reflexivity.
    + rewrite (IH H). apply orb_true_r.
Qed.

Lemma occurs_slash_cons (c : ascii) (s : string) :
  occurs "/" (String c s) = (Ascii.eqb "/" c || occurs "/" s).
Proof.
  rewrite occurs_cons, prefix_cons. f_equal.
  destruct s; now rewrite andb_true_r.
Qed.

Lemma occurs_slash_app (a b : string) :
  occurs "/" (a ++ b) = (occurs "/" a || occurs "/" b).
Proof.
  induction a as [| c a IH]; [reflexivity |].
  change ((String c a ++ b)%string) with (String c (a ++ b)).
  now rewrite !occurs_slash_cons, IH, orb_assoc.
Qed.

Lemma split_slash_plain (s : string) :
  occurs "/" s = false -> split_slash s = [s].
Proof.
  induction s as [| c s IH]; [reflexivity |].
  rewrite occurs_slash_cons. intros H. apply orb_false_iff in H.
  destruct H as [H1 H2]. simpl.
  rewrite Ascii.eqb_sym, H1. now rewrite (IH H2).
Qed.

Lemma path_join_str_plain (dir : path) (s : string) :
  plain_name s = true -> path_join_str dir s = mkJoined (dir ++ [s]) false.
Proof.
  unfold plain_name. intros H.
  apply andb_true_iff in H. destruct H as [H H4].
  apply andb_true_iff in H. destruct H as [H H3].
  apply andb_true_iff in H. destruct H as [H1 H2].
  apply negb_true_iff in H1, H2, H3, H4.
  unfold path_join_str. rewrite (split_slash_plain _ H2). simpl.
  rewrite H1, H3, H4. simpl. f_equal.
  destruct (endsWith s "/") eqn:E; [| reflexivity].
  apply endsWith_occurs_gen in E. congruence.
Qed.

Lemma plain_name_md (lang : string) :
  occurs "/" lang = false -> plain_name (lang ++ ".md") = true.
Proof.
  intros H. unfold plain_name.
  rewrite occurs_slash_app, H.
  pose proof (endsWith_md_append lang) as E.
  destruct (String.eqb (lang ++ ".md") EmptyString) eqn:E1;
    [apply eqb_true in E1; rewrite E1 in E; discriminate |].
  destruct (String.eqb (lang ++ ".md") ".") eqn:E2;
    [apply eqb_true in E2; rewrite E2 in E; discriminate |].
  destruct (String.eqb (lang ++ ".md") "..") eqn:E3;
    [apply eqb_true in E3; rewrite E3 in E; discriminate |].
  reflexivity.
Qed.

(** ** The translation resolver *)

Lemma foldM_pure {A B} (body : B -> A -> M B) (f : B -> A -> B) (l : list A)
    (acc : B) (w : World) :
  (forall acc x, In x l -> body acc x w = Ret (f acc x) w) ->
  foldM body acc l w = Ret (fold_left f l acc) w.
Proof.
  revert acc. induction l as [| x l IH]; intros acc H; simpl; [reflexivity |].
  rewrite (bind_Ret _ _ _ _ _ (H acc x (or_introl eq_refl))).
  apply IH. intros acc' y Hy. apply H. now right.
Qed.

Lemma foldM_invariant {A B} (P : B -> Prop) (body : B -> A -> M B) (l : list A) :
  (forall acc x w acc' w', P acc -> body acc x w = Ret acc' w' -> P acc') ->
  forall acc w acc' w',
    P acc -> foldM body acc l w = Ret acc' w' -> P acc'.
Proof.
  intros Hb. induction l as [| x l IH]; intros acc w acc' w' HP; simpl.
  - now intros [= <- _].
  - intros H. apply bind_Ret_inv in H. destruct H as [a [w1 [H1 H2]]].
    eapply IH; [| exact H2]. eapply Hb; eauto.
Qed.

Section Resolver.

Variable config : Config.
Variable frontMatter : jsstring -> option Attributes.

Let languages := configured_languages config.

Lemma publicSlug_spec (mdPath : path) (folderSlug : string) (w : World) :
  publicSlug frontMatter mdPath folderSlug w
  = Ret (match lookup mdPath (tree w) with
         | Some n => expected_slug frontMatter n folderSlug
         | None => folderSlug
         end) w.
Proof.
  unfold publicSlug, catch, bind, fs_readFileSync, expected_slug, declared_slug.
  destruct (lookup mdPath (tree w)) as [[b | es] |]; try reflexivity.
  destruct (frontMatter (utf8_decode b)) as [a |]; [| reflexivity].
  unfold ret, opt_or, str_or. destruct (attr_slug a) as [s |]; [| reflexivity].
  now destruct (String.eqb s EmptyString).
Qed.

Lemma publicSlug_readonly (mdPath : path) (folderSlug : string) :
  readonly (publicSlug frontMatter mdPath folderSlug).
Proof. intros w. now rewrite publicSlug_spec. Qed.

Lemma getTranslations_readonly (section folderSlug : string) :
  readonly (getTranslations config frontMatter section folderSlug).
Proof.
  unfold getTranslations, addTranslation.
  pose proof publicSlug_readonly. ro.
Qed.

Lemma addTranslation_spec (dir : path) (es : alist node) (folderSlug : string)
    (translations : alist string) (file : string) (w : World) :
  lookup dir (tree w) = Some (Dir es) ->
  addTranslation frontMatter languages dir folderSlug translations file w
  = Ret (translation_step frontMatter languages es folderSlug translations file) w.
Proof.
  intros Hd. unfold addTranslation, translation_step.
  destruct (endsWith file ".md"); simpl; [| reflexivity].
  destruct (includes languages _); simpl; [| reflexivity].
  rewrite (bind_Ret _ _ _ _ _ (publicSlug_spec _ _ _)).
  now rewrite (lookup_child _ _ _ _ Hd).
Qed.

(** The table [getTranslations] returns for an item directory [es]. *)
Lemma getTranslations_Dir (section folderSlug : string) (es : alist node)
    (w : World) :
  stat (path_join_str (path_join (sourceDir config) section) folderSlug) (tree w)
  = Some (Dir es) ->
  getTranslations config frontMatter section folderSlug w
  = Ret (if Nat.eqb (List.length languages) 0 then []
         else fold_left (translation_step frontMatter languages es folderSlug)
                (keys es) []) w.
Proof.
  intros Hs. pose proof (stat_lookup _ _ _ Hs) as Hd.
  unfold getTranslations. fold languages.
  destruct (Nat.eqb (List.length languages) 0); [reflexivity |].
  rewrite (bind_Ret _ _ _ _ _ (existsSync_joined_Some _ _ _ Hs)).
  cbv beta iota delta [negb].
  rewrite (bind_Ret _ _ _ _ _ (readdirSync_Dir _ _ _ Hd)).
  apply foldM_pure. intros acc x _. now apply addTranslation_spec.
Qed.



(** A regular file at the item path: [existsSync] answers [true] and
    [readdirSync] throws. *)
Lemma getTranslations_File (section folderSlug : string) (b : string)
    (w : World) :
  languages <> [] ->
  stat (path_join_str (path_join (sourceDir config) section) folderSlug) (tree w)
  = Some (File b) ->
  getTranslations config frontMatter section folderSlug w = Throw w.
Proof.
  intros Hl Hs. pose proof (stat_lookup _ _ _ Hs) as Hd.
  unfold getTranslations. fold languages.
  destruct languages as [| l0 ls]; [congruence |]. cbn [List.length Nat.eqb].
  rewrite (bind_Ret _ _ _ _ _ (existsSync_joined_Some _ _ _ Hs)).
  cbv beta iota delta [negb].
  unfold bind at 1. unfold fs_readdirSync at 1. now rewrite Hd.
Qed.

(** Keys of the table built from a list of file names. *)
Lemma translation_fold_keys (es : alist node) (folderSlug : string)
    (names : list string) (acc : alist string) (lang : string) :
  In lang (keys (fold_left (translation_step frontMatter languages es folderSlug)
                   names acc))
  <-> In lang (keys acc)
      \/ exists file, In file names /\ endsWith file ".md" = true
                      /\ str_replace file ".md" EmptyString = lang
                      /\ includes languages lang = true
                      /\ lang <> "__proto__".
Proof.
  revert acc. induction names as [| f names IH]; intros acc; simpl.
  - split; [auto | intros [H | [file [[] _]]]; exact H].
  - rewrite IH. unfold translation_step.
    destruct (endsWith f ".md") eqn:E1; simpl.
    + destruct (includes languages (str_replace f ".md" EmptyString)) eqn:E2.
      * rewrite keys_obj_set_In. split.
        -- intros [[[-> Np] | H] | [file [H1 H2]]]; auto.
           ++ right. exists f. auto.
           ++ right. exists file. tauto.
        -- intros [H | [file [[-> | H1] [H2 [H3 [H4 H5]]]]]]; auto.
           ++ left. left. split; [now symmetry | now rewrite H3].
           ++ right. exists file. auto.
      * split.
        -- intros [H | [file [H1 H2]]]; auto. right. exists file. tauto.
        -- intros [H | [file [[-> | H1] [H2 [H3 [H4 H5]]]]]]; auto.
           ++ congruence.
           ++ right. exists file. auto.
    + split.
      * intros [H | [file [H1 H2]]]; auto. right. exists file. tauto.
      * intros [H | [file [[-> | H1] [H2 [H3 [H4 H5]]]]]]; auto.
        -- congruence.
        -- right. exists file. auto.
Qed.



End Resolver.


Lemma getTranslations_keys (config : Config)
    (frontMatter : jsstring -> option Attributes)
    (section folderSlug : string) (w w' : World) (T : alist string) :
  getTranslations config frontMatter section folderSlug w = Ret T w' ->
  forall lang, In lang (keys T) -> In lang (configured_languages config).
Proof.
  unfold getTranslations.
  destruct (Nat.eqb _ 0); [intros [= <- _] lang [] |].
  intros H. apply bind_Ret_inv in H. destruct H as [e [w1 [_ H]]].
  destruct (negb e); [injection H as <- _; intros lang [] |].
  apply bind_Ret_inv in H. destruct H as [names [w2 [_ H]]].
  refine (foldM_invariant
            (fun T => forall lang, In lang (keys T) ->
                                   In lang (configured_languages config))
            _ _ _ _ _ _ _ _ H); [| intros lang []].
  intros acc file w0 acc' w0' HP. unfold addTranslation.
  destruct (negb (endsWith file ".md")); [now intros [= <- _] |].
  destruct (includes _ _) eqn:E; simpl; [| now intros [= <- _]].
  intros Hb. apply bind_Ret_inv in Hb. destruct Hb as [s [w3 [_ Hb]]].
  injection Hb as <- _. intros lang Hl. apply keys_obj_set_In in Hl.
  destruct Hl as [[-> _] | Hl]; [now apply includes_In | auto].
Qed.

(** C10.  Every key of the table the resolver returns is a configured
    language: a file of the item directory whose name without [.md] is
    not a configured language code never becomes a key. *)
Theorem resolver_keys_configured (config : Config)
    (frontMatter : jsstring -> option Attributes)
    (section folderSlug : string) (w w' : World) (T : alist string) :
  getTranslations config frontMatter section folderSlug w = Ret T w' ->
  (forall lang, In lang (keys T) -> In lang (configured_languages config))
  /\ (forall file,
        ~ In (str_replace file ".md" EmptyString) (configured_languages config) ->
        ~ In (str_replace file ".md" EmptyString) (keys T)).
Proof.
  intros H. pose proof (getTranslations_keys _ _ _ _ _ _ _ H) as K.
  split; [exact K |]. intros file Hn Hk. apply Hn, K, Hk.
Qed.

(** ** The language switcher *)

Lemma expected_slug_nonempty (frontMatter : jsstring -> option Attributes)
    (n : node) (folderSlug : string) :
  folderSlug <> EmptyString ->
  expected_slug frontMatter n folderSlug <> EmptyString.
Proof.
  intros N. unfold expected_slug, declared_slug.
  destruct n as [b | es]; [| exact N].
  destruct (frontMatter (utf8_decode b)) as [a |]; [| exact N].
  destruct (attr_slug a) as [s |]; [| exact N].
  destruct (String.eqb s EmptyString) eqn:E; [exact N |].
  now apply eqb_false.
Qed.

Lemma getTranslations_table (config : Config)
    (frontMatter : jsstring -> option Attributes)
    (section folderSlug : string) (w w' : World) (T : alist string) :
  getTranslations config frontMatter section folderSlug w = Ret T w' ->
  NoDup (keys T)
  /\ (folderSlug <> EmptyString ->
      forall lang s, aget lang T = Some s -> s <> EmptyString).
Proof.
  unfold getTranslations.
  destruct (Nat.eqb _ 0);
    [intros [= <- _]; split; [constructor | discriminate] |].
  intros H. apply bind_Ret_inv in H. destruct H as [e [w1 [_ H]]].
  destruct (negb e);
    [injection H as <- _; split; [constructor | discriminate] |].
  apply bind_Ret_inv in H. destruct H as [names [w2 [_ H]]].
  refine (foldM_invariant
            (fun T => NoDup (keys T)
                      /\ (folderSlug <> EmptyString ->
                          forall lang s, aget lang T = Some s ->
                                         s <> EmptyString))
            _ _ _ _ _ _ _ _ H); [| split; [constructor | discriminate]].
  intros acc file w0 acc' w0' [ND HV]. unfold addTranslation.
  destruct (negb (endsWith file ".md")); [now intros [= <- _] |].
  destruct (negb (includes _ _)); [now intros [= <- _] |].
  rewrite (bind_Ret _ _ _ _ _ (publicSlug_spec _ _ _ _)).
  intros [= <- _]. split; [now apply NoDup_keys_obj_set |].
  intros N lang s Hs. apply aget_obj_set_inv in Hs.
  destruct Hs as [[_ ->] | Hs]; [| now apply (HV N lang)].
  destruct (lookup _ (tree w0)); [now apply expected_slug_nonempty | exact N].
Qed.

Lemma switcherLink_expected (toUpperCase : string -> string)
    (defaultLang currentLang slug section : string) (T : alist string)
    (lang s : string) :
  section <> EmptyString -> aget lang T = Some s -> s <> EmptyString ->
  switcherLink toUpperCase defaultLang currentLang slug section T lang
  = expected_entry toUpperCase defaultLang currentLang section T lang.
Proof.
  intros Hsec HT Hs. unfold switcherLink, expected_entry, display_name, url_prefix.
  assert (E : obj_get_or lang T slug = s)
    by (unfold obj_get_or; now rewrite HT, (neq_eqb _ _ Hs)).
  now rewrite E, HT, (neq_eqb _ _ Hsec).
Qed.

(** C9.  For a post or a project whose translation table has fewer than
    two languages the switcher is the empty string, however many
    languages are configured. *)
Theorem switcher_empty_below_two (config : Config)
    (frontMatter : jsstring -> option Attributes)
    (toUpperCase : string -> string)
    (currentLang slug type section : string) (folderSlug : option string)
    (w : World) (T : alist string) :
  (type = "post" /\ section = "posts")
  \/ (type = "project" /\ section = "projects") ->
  getTranslations config frontMatter section (opt_or folderSlug slug) w
  = Ret T w ->
  List.length (keys T) < 2 ->
  generateLanguageSwitcher config frontMatter toUpperCase currentLang slug type
    folderSlug w
  = Ret EmptyString w.
Proof.
  intros Hty HT Hlen. unfold generateLanguageSwitcher.
  destruct (Nat.leb (List.length (configured_languages config)) 1);
    [reflexivity |].
  assert (L : Nat.leb (List.length (keys T)) 1 = true)
    by (apply Nat.leb_le; lia).
  assert (I : forall sec,
             getTranslations config frontMatter sec (opt_or folderSlug slug) w
             = Ret T w ->
             (translations <- getTranslations config frontMatter sec
                                (opt_or folderSlug slug) ;;
              ret (translations, keys translations)) w
             = Ret (T, keys T) w).
  { intros sec E. now rewrite (bind_Ret _ _ _ _ _ E). }
  destruct Hty as [[-> ->] | [-> ->]]; simpl String.eqb; cbv iota;
    unfold getPostTranslations, getProjectTranslations;
    rewrite (bind_Ret _ _ _ _ _ (I _ HT)); cbn [fst snd];
    now rewrite L.
Qed.


(** C7.  For a post or a project whose translation table [T] has at
    least two languages, the switcher is the list of the entries of the
    keys of [T], in order: the entry of the current language is plain
    text; the entry of any other language is a link whose URL carries no
    language prefix when that language is the first configured one and
    the prefix [/{lang}] otherwise, followed by the section and the slug
    [T] gives for that very language. *)
Theorem switcher_links (config : Config)
    (frontMatter : jsstring -> option Attributes)
    (toUpperCase : string -> string)
    (currentLang slug type section : string) (folderSlug : option string)
    (w : World) (T : alist string) (defaultLang : string)
    (others : list string) :
  cfg_languages config = Some (defaultLang :: others) ->
  (type = "post" /\ section = "posts")
  \/ (type = "project" /\ section = "projects") ->
  opt_or folderSlug slug <> EmptyString ->
  getTranslations config frontMatter section (opt_or folderSlug slug) w
  = Ret T w ->
  2 <= List.length (keys T) ->
  generateLanguageSwitcher config frontMatter toUpperCase currentLang slug type
    folderSlug w
  = Ret (expected_switcher toUpperCase defaultLang currentLang section T) w.
Proof.
  intros Hcfg Hty Hslug HT Hlen.
  destruct (getTranslations_table _ _ _ _ _ _ _ HT) as [ND HV].
  specialize (HV Hslug).
  pose proof (getTranslations_keys _ _ _ _ _ _ _ HT) as HK.
  assert (Hl : configured_languages config = defaultLang :: others)
    by (unfold configured_languages; now rewrite Hcfg).
  assert (L2 : 2 <= List.length (configured_languages config)).
  { apply Nat.le_trans with (1 := Hlen). apply NoDup_incl_length; assumption. }
  unfold generateLanguageSwitcher.
  destruct (Nat.leb (List.length (configured_languages config)) 1) eqn:E1;
    [apply Nat.leb_le in E1; lia |].
  assert (L : Nat.leb (List.length (keys T)) 1 = false)
    by (apply Nat.leb_gt; lia).
  assert (I : forall sec,
             getTranslations config frontMatter sec (opt_or folderSlug slug) w
             = Ret T w ->
             (translations <- getTranslations config frontMatter sec
                                (opt_or folderSlug slug) ;;
              ret (translations, keys translations)) w
             = Ret (T, keys T) w).
  { intros sec E. now rewrite (bind_Ret _ _ _ _ _ E). }
  assert (Mp : forall sec, sec <> EmptyString ->
             map (switcherLink toUpperCase defaultLang currentLang slug sec T)
                 (keys T)
             = map (expected_entry toUpperCase defaultLang currentLang sec T)
                   (keys T)).
  { intros sec Hsec. apply map_ext_in. intros lang Hin.
    apply aget_Some_keys in Hin. destruct Hin as [s Hs].
    apply switcherLink_expected with (s := s); eauto. }
  rewrite Hl. cbn [hd].
  destruct Hty as [[-> ->] | [-> ->]]; simpl String.eqb; cbv iota;
    unfold getPostTranslations, getProjectTranslations;
    rewrite (bind_Ret _ _ _ _ _ (I _ HT)); cbn [fst snd];
    rewrite L; unfold ret, expected_switcher; cbn [aget typeToPath];
    simpl String.eqb; cbv iota; rewrite Mp by discriminate; reflexivity.
Qed.

(** ** Collection *)

Lemma foldM_inv {A B} (P : B -> World -> Prop) (body : B -> A -> M B)
    (l : list A) :
  (forall acc x w acc' w',
      In x l -> P acc w -> body acc x w = Ret acc' w' -> P acc' w') ->
  forall acc w acc' w',
    P acc w -> foldM body acc l w = Ret acc' w' -> P acc' w'.
Proof.
  induction l as [| x l IH]; intros Hb acc w acc' w' HP; simpl.
  - now intros [= <- <-].
  - intros H. apply bind_Ret_inv in H. destruct H as [a [w1 [H1 H2]]].
    eapply IH; [| | exact H2].
    + intros acc0 y w0 acc0' w0' Hy. apply Hb. now right.
    + eapply Hb; eauto. now left.
Qed.

Lemma forM__inv {A} (P : World -> Prop) (body : A -> M unit) (l : list A) :
  (forall x w w', In x l -> P w -> body x w = Ret tt w' -> P w') ->
  forall w w', P w -> forM_ l body w = Ret tt w' -> P w'.
Proof.
  induction l as [| x l IH]; intros Hb w w' HP; simpl.
  - now intros [= <-].
  - intros H. apply bind_Ret_inv in H. destruct H as [[] [w1 [H1 H2]]].
    eapply IH; [| | exact H2].
    + intros y w0 w0' Hy. apply Hb. now right.
    + eapply Hb; eauto. now left.
Qed.

Lemma existsSync_inv (p : path) (w w' : World) (e : bool) :
  fs_existsSync p w = Ret e w' ->
  w' = w /\ (e = true <-> lookup p (tree w) <> None).
Proof.
  unfold fs_existsSync. intros [= <- <-]. split; [reflexivity |].
  destruct (lookup p (tree w)); split; congruence.
Qed.

Lemma readdirSync_withFileTypes_inv (p : path) (w w' : World)
    (ents : list Dirent) :
  fs_readdirSync_withFileTypes p w = Ret ents w' ->
  w' = w /\ exists es, lookup p (tree w) = Some (Dir es)
                       /\ ents = map dirent_of es.
Proof.
  unfold fs_readdirSync_withFileTypes.
  destruct (lookup p (tree w)) as [[b | es] |]; try discriminate.
  intros [= <- <-]. eauto.
Qed.

Lemma readdirSync_inv (p : path) (w w' : World) (names : list string) :
  fs_readdirSync p w = Ret names w' ->
  w' = w /\ exists es, lookup p (tree w) = Some (Dir es) /\ names = keys es.
Proof.
  unfold fs_readdirSync.
  destruct (lookup p (tree w)) as [[b | es] |]; try discriminate.
  intros [= <- <-]. eauto.
Qed.

Lemma readFileSync_inv (p : path) (w w' : World) (s : jsstring) :
  fs_readFileSync p w = Ret s w' ->
  w' = w /\ exists b, lookup p (tree w) = Some (File b) /\ s = utf8_decode b.
Proof.
  unfold fs_readFileSync.
  destruct (lookup p (tree w)) as [[b | es] |]; try discriminate.
  intros [= <- <-]. eauto.
Qed.

Lemma path_join_app (d p : path) (x : string) :
  path_join (d ++ p) x = d ++ (p ++ [x]).
Proof. unfold path_join. now rewrite app_assoc. Qed.

Lemma path_join_base (d : path) (x : string) : path_join d x = d ++ [x].
Proof. reflexivity. Qed.

(** Normal form of the paths of the script: the content root followed
    by explicit components. *)
Ltac norm_paths :=
  repeat rewrite path_join_app in *;
  repeat rewrite path_join_base in *;
  repeat rewrite <- app_assoc in *;
  cbn [app] in *.

Lemma collectSlug_inv (projectsDir : path) (languages : list string)
    (lang slug : string) (projects projects' : Projects) (w w' : World) :
  In lang languages ->
  collection_of projectsDir (tree w) languages projects ->
  collectSlug lang (path_join projectsDir lang) projects slug w
  = Ret projects' w' ->
  w' = w /\ collection_of projectsDir (tree w) languages projects'.
Proof.
  intros Hlang [ND Hall]. unfold collectSlug.
  intros H. apply bind_Ret_inv in H. destruct H as [e [w1 [H1 H]]].
  apply existsSync_inv in H1. destruct H1 as [-> _].
  destruct (negb e); [injection H as <- <-; split; [reflexivity | now split] |].
  apply bind_Ret_inv in H. destruct H as [names [w1 [H1 H]]].
  apply readdirSync_inv in H1. destruct H1 as [-> [fs [Hfs ->]]].
  apply bind_Ret_inv in H. destruct H as [txt [w1 [H1 H]]].
  apply readFileSync_inv in H1. destruct H1 as [-> [b [Hb ->]]].
  injection H as <- <-. split; [reflexivity |].
  set (d := mkProjectData _ _ _).
  assert (Hd : collected projectsDir (tree w) slug lang d).
  { split; [subst d; simpl; now norm_paths |].
    exists b, fs. norm_paths. auto. }
  set (projects1 := if negb (has slug projects) then aset slug [] projects
                    else projects).
  assert (ND1 : NoDup (keys projects1)).
  { subst projects1. destruct (negb (has slug projects));
      [now apply NoDup_keys_aset | assumption]. }
  assert (Hall1 : forall s vs, In (s, vs) projects1 ->
             NoDup (keys vs)
             /\ (s <> slug -> vs <> [])
             /\ forall l d0, In (l, d0) vs ->
                  In l languages /\ collected projectsDir (tree w) s l d0).
  { intros s vs Hin. subst projects1.
    destruct (negb (has slug projects)).
    - apply In_aset_inv in Hin. destruct Hin as [[-> ->] | Hin].
      + split; [constructor | split; [congruence | intros l d0 []]].
      + destruct (Hall _ _ Hin) as [H1 [H2 H3]]. auto.
    - destruct (Hall _ _ Hin) as [H1 [H2 H3]]. auto. }
  split; [now apply NoDup_keys_aset |].
  intros s vs Hin. apply In_aset_strong in Hin; [| exact ND1].
  destruct Hin as [[-> ->] | [Hne Hin]].
  - assert (Hv : NoDup (keys match aget slug projects1 with
                              | Some m => m | None => [] end)
                 /\ forall l d0,
                      In (l, d0) match aget slug projects1 with
                                 | Some m => m | None => [] end ->
                      In l languages
                      /\ collected projectsDir (tree w) slug l d0).
    { destruct (aget slug projects1) as [m |] eqn:E.
      - apply aget_In in E. destruct (Hall1 _ _ E) as [H1 [_ H3]]. auto.
      - split; [constructor | intros l d0 []]. }
    destruct Hv as [Hv1 Hv2].
    split; [now apply NoDup_keys_aset |]. split.
    + destruct (match aget slug projects1 with Some m => m | None => [] end)
        as [| [k v] m]; simpl; [discriminate |].
      destruct (String.eqb lang k); discriminate.
    + intros l d0 Hl. apply In_aset_inv in Hl.
      destruct Hl as [[-> ->] | Hl]; [auto | now apply Hv2].
  - destruct (Hall1 _ _ Hin) as [H1 [H2 H3]]. auto.
Qed.

Lemma collectLang_inv (projectsDir : path) (languages : list string)
    (lang : string) (projects projects' : Projects) (w w' : World) :
  In lang languages ->
  collection_of projectsDir (tree w) languages projects ->
  collectLang projectsDir projects lang w = Ret projects' w' ->
  w' = w /\ collection_of projectsDir (tree w) languages projects'.
Proof.
  intros Hlang Hc. unfold collectLang.
  intros H. apply bind_Ret_inv in H. destruct H as [e [w1 [H1 H]]].
  apply existsSync_inv in H1. destruct H1 as [-> _].
  destruct (negb e); [injection H as <- <-; auto |].
  apply bind_Ret_inv in H. destruct H as [ents [w1 [H1 H]]].
  apply readdirSync_withFileTypes_inv in H1. destruct H1 as [-> _].
  refine (foldM_inv
            (fun ps w0 => w0 = w
                          /\ collection_of projectsDir (tree w) languages ps)
            _ _ _ _ _ _ _ _ H); [| auto].
  intros acc slug w0 acc' w0' _ [-> Hacc] Hb.
  eapply collectSlug_inv; eauto.
Qed.

(** What [collectProjects] returns describes the tree it read. *)
Lemma collectProjects_inv (projectsDir : path) (languages : list string)
    (projects : Projects) (w w' : World) :
  collectProjects projectsDir languages w = Ret projects w' ->
  w' = w /\ collection_of projectsDir (tree w) languages projects.
Proof.
  unfold collectProjects. intros H.
  refine (foldM_inv
            (fun ps w0 => w0 = w
                          /\ collection_of projectsDir (tree w) languages ps)
            _ _ _ _ _ _ _ _ H).
  - intros acc lang w0 acc' w0' Hl [-> Hacc] Hb.
    eapply collectLang_inv; eauto.
  - split; [reflexivity |]. split; [constructor | intros s vs []].
Qed.

(** *** The versions of an item are kept in the order of the languages *)

Lemma ordered_by_In (order ks : list string) (x : string) :
  ordered_by order ks -> In x ks -> In x order.
Proof.
  unfold ordered_by. intros E H. rewrite E in H. apply filter_In in H. tauto.
Qed.

Lemma ordered_by_nil (order : list string) : ordered_by order [].
Proof.
  unfold ordered_by. induction order as [| x order IH]; simpl; auto.
Qed.

Lemma ordered_by_snoc_new (done ks : list string) (lang : string) :
  ordered_by done ks -> ~ In lang done -> ordered_by (done ++ [lang]) ks.
Proof.
  intros E Hn. unfold ordered_by. rewrite filter_app. simpl.
  assert (H : includes ks lang = false).
  { apply includes_false. intros Hi. apply Hn. eapply ordered_by_In; eauto. }
  rewrite H, app_nil_r. exact E.
Qed.

Lemma ordered_by_snoc_add (done ks : list string) (lang : string) :
  ordered_by done ks -> ~ In lang done ->
  ordered_by (done ++ [lang]) (ks ++ [lang]).
Proof.
  intros E Hn. unfold ordered_by. rewrite filter_app. simpl.
  assert (H : includes (ks ++ [lang]) lang = true).
  { apply includes_In. apply in_or_app. right. now left. }
  rewrite H. f_equal. unfold ordered_by in E. rewrite E at 1.
  apply filter_ext_in.
  intros x Hx. unfold includes. rewrite existsb_app. simpl.
  assert (Nx : String.eqb x lang = false).
  { apply neq_eqb. intros ->. contradiction. }
  now rewrite Nx, orb_false_r.
Qed.

Lemma ordered_by_drop_last (done ks : list string) (lang : string) :
  ordered_by (done ++ [lang]) ks -> ~ In lang ks -> ordered_by done ks.
Proof.
  unfold ordered_by. rewrite filter_app. simpl. intros E Hn.
  apply includes_false in Hn. now rewrite Hn, app_nil_r in E.
Qed.

Lemma ordered_by_aset (done : list string) (lang : string) (d : ProjectData)
    (vs : alist ProjectData) :
  ~ In lang done ->
  ordered_by (done ++ [lang]) (keys vs) ->
  ordered_by (done ++ [lang]) (keys (aset lang d vs)).
Proof.
  intros Hn E. destruct (aget lang vs) as [d0 |] eqn:G.
  - now rewrite (keys_aset_has _ _ _ _ G).
  - rewrite (keys_aset_new _ _ _ G). apply ordered_by_snoc_add; [| exact Hn].
    apply ordered_by_drop_last with (lang := lang); [exact E |].
    now apply aget_None_keys.
Qed.

Lemma collectSlug_order (done : list string) (lang : string) (langDir : path)
    (projects projects' : Projects) (slug : string) (w w' : World) :
  ~ In lang done ->
  (forall s vs, In (s, vs) projects -> ordered_by (done ++ [lang]) (keys vs)) ->
  collectSlug lang langDir projects slug w = Ret projects' w' ->
  forall s vs, In (s, vs) projects' -> ordered_by (done ++ [lang]) (keys vs).
Proof.
  intros Hn Hall. unfold collectSlug.
  intros H. apply bind_Ret_inv in H. destruct H as [e [w1 [_ H]]].
  destruct (negb e); [now injection H as <- _ |].
  apply bind_Ret_inv in H. destruct H as [names [w2 [_ H]]].
  apply bind_Ret_inv in H. destruct H as [txt [w3 [_ H]]].
  injection H as <- _.
  set (projects1 := if negb (has slug projects) then aset slug [] projects
                    else projects).
  assert (Hall1 : forall s vs, In (s, vs) projects1 ->
                               ordered_by (done ++ [lang]) (keys vs)).
  { intros s vs Hin. subst projects1.
    destruct (negb (has slug projects)); [| eauto].
    apply In_aset_inv in Hin. destruct Hin as [[-> ->] | Hin]; [| eauto].
    apply ordered_by_nil. }
  intros s vs Hin. apply In_aset_inv in Hin.
  destruct Hin as [[-> ->] | Hin]; [| eauto].
  apply ordered_by_aset; [exact Hn |].
  destruct (aget slug projects1) as [m |] eqn:E.
  - apply aget_In in E. eauto.
  - apply ordered_by_nil.
Qed.

Lemma collectLang_order (projectsDir : path) (done : list string)
    (lang : string) (projects projects' : Projects) (w w' : World) :
  ~ In lang done ->
  (forall s vs, In (s, vs) projects -> ordered_by done (keys vs)) ->
  collectLang projectsDir projects lang w = Ret projects' w' ->
  forall s vs, In (s, vs) projects' -> ordered_by (done ++ [lang]) (keys vs).
Proof.
  intros Hn Hall.
  assert (Hall' : forall s vs, In (s, vs) projects ->
                               ordered_by (done ++ [lang]) (keys vs)).
  { intros s vs Hin. apply ordered_by_snoc_new; eauto. }
  unfold collectLang.
  intros H. apply bind_Ret_inv in H. destruct H as [e [w1 [_ H]]].
  destruct (negb e); [now injection H as <- _ |].
  apply bind_Ret_inv in H. destruct H as [ents [w2 [_ H]]].
  refine (foldM_inv
            (fun ps _ => forall s vs, In (s, vs) ps ->
                                      ordered_by (done ++ [lang]) (keys vs))
            _ _ _ _ _ _ _ Hall' H).
  intros acc slug w0 acc' w0' _ Hacc Hb.
  eapply collectSlug_order; eauto.
Qed.

Lemma collect_loop_order (projectsDir : path) (rest done : list string)
    (projects projects' : Projects) (w w' : World) :
  NoDup (done ++ rest) ->
  (forall s vs, In (s, vs) projects -> ordered_by done (keys vs)) ->
  foldM (collectLang projectsDir) projects rest w = Ret projects' w' ->
  forall s vs, In (s, vs) projects' -> ordered_by (done ++ rest) (keys vs).
Proof.
  revert done projects w. induction rest as [| lang rest IH];
    intros done projects w ND Hall; simpl.
  - intros [= <- _]. now rewrite app_nil_r.
  - intros H. apply bind_Ret_inv in H. destruct H as [ps [w1 [H1 H]]].
    change (done ++ lang :: rest) with (done ++ [lang] ++ rest) in *.
    rewrite app_assoc in *.
    eapply IH; [exact ND | | exact H].
    eapply collectLang_order; [| exact Hall | exact H1].
    intros Hi. apply NoDup_app_remove_r in ND.
    apply NoDup_remove_2 with (l' := []) in ND.
    apply ND. now rewrite app_nil_r.
Qed.

(** The versions of every collected item are in the order of the
    languages. *)
Lemma collectProjects_order (projectsDir : path) (languages : list string)
    (projects : Projects) (w w' : World) :
  NoDup languages ->
  collectProjects projectsDir languages w = Ret projects w' ->
  forall s vs, In (s, vs) projects -> ordered_by languages (keys vs).
Proof.
  intros ND H. apply (collect_loop_order projectsDir languages [] [] projects w w');
    [exact ND | intros s vs [] | exact H].
Qed.

Lemma find_filter_absorb {A} (q r : A -> bool) (l : list A) :
  (forall x, q x = true -> r x = true) -> find q (filter r l) = find q l.
Proof.
  intros H. induction l as [| x l IH]; simpl; [reflexivity |].
  destruct (r x) eqn:Er; simpl.
  - destruct (q x); [reflexivity | exact IH].
  - destruct (q x) eqn:Eq; [| exact IH]. apply H in Eq. congruence.
Qed.

Lemma first_source_first_language (file : string) (vs : alist ProjectData)
    (languages : list string) (lang : string) (d : ProjectData) :
  NoDup (keys vs) -> ordered_by languages (keys vs) ->
  first_source file vs = Some (lang, d) ->
  first_language file vs languages = Some lang.
Proof.
  intros ND Ord Hfs. unfold first_language.
  rewrite <- find_filter_absorb with (r := includes (keys vs)).
  - rewrite <- Ord. unfold first_source in Hfs.
    assert (G : forall l, (forall k v, In (k, v) l -> aget k vs = Some v) ->
               find (fun lang0 => match aget lang0 vs with
                                  | Some d0 => includes (files d0) file
                                  | None => false
                                  end) (keys l)
               = option_map fst
                   (find (fun v => includes (files (snd v)) file) l)).
    { induction l as [| [k v] l IH]; intros Hl; simpl; [reflexivity |].
      rewrite (Hl k v (or_introl eq_refl)).
      destruct (includes (files v) file); [reflexivity |].
      apply IH. intros k' v' Hi. apply Hl. now right. }
    rewrite G, Hfs; [reflexivity |].
    intros k v Hi. now apply In_aget.
  - intros x Hx. destruct (aget x vs) as [d0 |] eqn:E; [| discriminate].
    apply includes_In. apply aget_Some_keys. eauto.
Qed.

Lemma detectLanguages_NoDup (projectsDir : path) (w w' : World)
    (languages : list string) :
  wf (tree w) = true ->
  detectLanguages projectsDir w = Ret languages w' ->
  NoDup languages.
Proof.
  intros W Hd.
  assert (Hes : exists es, lookup projectsDir (tree w) = Some (Dir es)).
  { unfold detectLanguages in Hd.
    apply bind_Ret_inv in Hd. destruct Hd as [e [w2 [He Hd]]].
    apply existsSync_inv in He. destruct He as [-> He].
    destruct e; [| discriminate]. simpl in Hd.
    apply bind_Ret_inv in Hd. destruct Hd as [ents [w2 [Hr Hd]]].
    apply readdirSync_withFileTypes_inv in Hr.
    destruct Hr as [_ [es [Hes _]]]. eauto. }
  destruct Hes as [es Hes].
  rewrite (detectLanguages_spec _ _ _ W Hes) in Hd. injection Hd as <- _.
  apply NoDup_keys_filter. eapply wf_lookup_NoDup; eauto.
Qed.

(** ** The helpers of the script *)

Lemma mkdirSync_inv (dir : path) (w w' : World) (u : unit) :
  mkdirSync dir w = Ret u w' ->
  (lookup dir (tree w) <> None /\ tree w' = tree w)
  \/ (lookup dir (tree w) = None /\ mkdirp dir (tree w) = Some (tree w')).
Proof.
  unfold mkdirSync. intros H.
  apply bind_Ret_inv in H. destruct H as [e [w1 [H1 H]]].
  apply existsSync_inv in H1. destruct H1 as [-> He].
  destruct e; simpl in H.
  - injection H as _ <-. left. split; [now apply He | reflexivity].
  - apply mutate_Ret_inv in H. destruct H as [H _]. right.
    split; [| exact H]. destruct (lookup dir (tree w)); [| reflexivity].
    assert (false = true) by (apply He; discriminate). discriminate.
Qed.

Lemma mkdirSync_diverge (dir q : path) (w w' : World) (u : unit) :
  mkdirSync dir w = Ret u w' -> diverge dir q = true ->
  lookup q (tree w') = lookup q (tree w).
Proof.
  intros H D. apply mkdirSync_inv in H. destruct H as [[_ ->] | [_ H]];
    [reflexivity |]. eapply mkdirp_diverge; eauto.
Qed.

Lemma mkdirSync_lookup (dir : path) (w w' : World) (u : unit) :
  mkdirSync dir w = Ret u w' ->
  lookup dir (tree w')
  = Some (match lookup dir (tree w) with Some n => n | None => Dir [] end).
Proof.
  intros H. apply mkdirSync_inv in H. destruct H as [[N ->] | [_ H]].
  - destruct (lookup dir (tree w)); congruence.
  - now apply mkdirp_lookup.
Qed.

(** Below [dir] nothing changes: what [mkdirSync] creates is empty. *)
Lemma mkdirSync_below (dir q : path) (w w' : World) (u : unit) :
  mkdirSync dir w = Ret u w' -> q <> [] ->
  lookup (dir ++ q) (tree w') = lookup (dir ++ q) (tree w).
Proof.
  intros H Nq. pose proof (mkdirSync_lookup _ _ _ _ H) as L.
  apply mkdirSync_inv in H. destruct H as [[_ ->] | [N _]]; [reflexivity |].
  rewrite !lookup_app, L, N. destruct q; [congruence | reflexivity].
Qed.

Lemma mkdirSync_wf (dir : path) (w w' : World) (u : unit) :
  mkdirSync dir w = Ret u w' -> wf (tree w) = true -> wf (tree w') = true.
Proof.
  intros H W. apply mkdirSync_inv in H. destruct H as [[_ ->] | [_ H]];
    [assumption |]. eapply mkdirp_wf; eauto.
Qed.

Lemma writeFileSync_inv (p : path) (data : jsstring) (w w' : World) (u : unit) :
  fs_writeFileSync p data w = Ret u w' ->
  graft p (Some (File (utf8_encode data))) (tree w) = Some (tree w').
Proof.
  unfold fs_writeFileSync. intros H. apply mutate_Ret_inv in H.
  destruct H as [H _]. now apply write_file_inv.
Qed.

Lemma copyFileSync_inv (src d : path) (x : string) (w w' : World) (u : unit) :
  copyFileSync src (path_join d x) w = Ret u w' ->
  exists w1 b,
    mkdirSync d w = Ret tt w1
    /\ lookup src (tree w1) = Some (File b)
    /\ graft (path_join d x) (Some (File b)) (tree w1) = Some (tree w').
Proof.
  unfold copyFileSync. rewrite dirname_path_join. intros H.
  apply bind_Ret_inv in H. destruct H as [[] [w1 [H1 H]]].
  unfold fs_copyFileSync in H. apply mutate_Ret_inv in H. destruct H as [H _].
  apply copy_file_inv in H. destruct H as [b [Hb Hg]]. eauto.
Qed.

(** *** [rename] *)

Lemma rename_inv (src dest : path) (t t' : node) :
  rename src dest t = Some t' -> List.length src <> List.length dest ->
  exists v t1,
    lookup src t = Some v
    /\ diverge src dest = true
    /\ graft src None t = Some t1
    /\ graft dest (Some v) t1 = Some t'
    /\ (forall y rest, lookup (dest ++ y :: rest) t = None).
Proof.
  unfold rename. intros H Hlen.
  destruct (lookup src t) as [v |] eqn:Hs; [| discriminate].
  destruct (is_prefix src dest) eqn:P1.
  { destruct (is_prefix dest src) eqn:P2; [| discriminate].
    exfalso. apply Hlen. f_equal. now apply is_prefix_antisym. }
  assert (P2 : is_prefix dest src = false).
  { destruct (is_prefix dest src) eqn:P2; [| reflexivity]. exfalso.
    apply is_prefix_spec in P2. destruct P2 as [r ->].
    destruct r as [| y r].
    - rewrite app_nil_r in Hlen. congruence.
    - rewrite lookup_app in Hs.
      destruct (lookup dest t) as [[b | [| e es]] |]; simpl in Hs;
        discriminate. }
  assert (E : forall y rest, lookup (dest ++ y :: rest) t = None).
  { intros y rest. rewrite lookup_app.
    destruct (lookup dest t) as [[b | [| e es]] |]; try reflexivity.
    destruct v; discriminate. }
  exists v. destruct (graft src None t) as [t1 |] eqn:G1.
  - exists t1. repeat split; auto.
    + now apply not_prefix_diverge.
    + destruct (lookup dest t) as [[b | [| e es]] |]; destruct v;
        try discriminate; exact H.
  - exfalso. destruct (lookup dest t) as [[b | [| e es]] |]; destruct v;
      discriminate.
Qed.

Lemma rename_spec (src dest : path) (t t' : node) :
  rename src dest t = Some t' -> List.length src <> List.length dest ->
  diverge src dest = true
  /\ lookup dest t' = lookup src t
  /\ lookup src t <> None
  /\ lookup src t' = None
  /\ (forall q, diverge src q = true -> diverge dest q = true ->
                lookup q t' = lookup q t)
  /\ (forall y rest, lookup (dest ++ y :: rest) t = None)
  /\ (wf t = true -> wf t' = true).
Proof.
  intros H Hlen. destruct (rename_inv _ _ _ _ H Hlen)
    as [v [t1 [Hs [D [G1 [G2 E]]]]]].
  split; [exact D |]. split; [| split; [| split; [| split; [| split]]]].
  - rewrite Hs. eapply graft_same; eauto.
  - congruence.
  - rewrite (graft_diverge _ _ _ _ _ G2) by (now rewrite diverge_sym).
    eapply graft_same; eauto.
  - intros q D1 D2. rewrite (graft_diverge _ _ _ _ _ G2 D2).
    eapply graft_diverge; eauto.
  - exact E.
  - intros W. eapply graft_wf; [| | exact G2].
    + eapply graft_wf; [exact W | | exact G1]. discriminate.
    + intros v0 [= <-]. eapply wf_lookup; eauto.
Qed.

Lemma moveSync_inv (src d : path) (x : string) (w w' : World) (u : unit) :
  moveSync src (path_join d x) w = Ret u w' ->
  exists w1,
    mkdirSync d w = Ret tt w1
    /\ rename src (path_join d x) (tree w1) = Some (tree w').
Proof.
  unfold moveSync. rewrite dirname_path_join. intros H.
  apply bind_Ret_inv in H. destruct H as [[] [w1 [H1 H]]].
  unfold fs_renameSync in H. apply mutate_Ret_inv in H. destruct H as [H _].
  eauto.
Qed.

(** ** Staging of one item *)

Lemma same_outside_extend (d r : path) (t t' : node) :
  same_outside (d ++ r) t t' -> same_outside d t t'.
Proof. intros H q D. apply H. now apply diverge_extend_l. Qed.

(** The loop that writes the documents [{lang}.md] of an item. *)
Lemma write_loop_inv (dir : path) (vs : alist ProjectData)
    (am0 am : list Media) (w w' : World) :
  foldM (stageVersion false dir) am0 vs w = Ret am w' ->
  am = am0 ++ flat_map media_pairs vs
  /\ same_outside dir (tree w) (tree w')
  /\ (forall x rest,
        (forall lang, In lang (keys vs) -> x <> (lang ++ ".md")%string) ->
        lookup (dir ++ x :: rest) (tree w')
        = lookup (dir ++ x :: rest) (tree w))
  /\ (NoDup (keys vs) ->
      forall lang d, In (lang, d) vs ->
        lookup (dir ++ [(lang ++ ".md")%string]) (tree w')
        = Some (File (utf8_encode (content d))))
  /\ (wf (tree w) = true -> wf (tree w') = true).
Proof.
  revert am0 w. induction vs as [| [lang0 d0] vs IH]; intros am0 w; simpl.
  - intros [= <- <-]. rewrite app_nil_r.
    repeat split; auto. intros _ lang d [].
  - intros H. apply bind_Ret_inv in H. destruct H as [am1 [w1 [H1 H]]].
    unfold stageVersion in H1. simpl when in H1.
    apply bind_Ret_inv in H1. destruct H1 as [[] [w2 [H1 H2]]].
    injection H2 as <- <-.
    apply writeFileSync_inv in H1. unfold path_join in H1.
    destruct (IH _ _ H) as [Ham [Hout [Hoth [Hdoc Hwf]]]]. clear IH H.
    split; [rewrite Ham, <- app_assoc; reflexivity |].
    split; [| split; [| split]].
    + intros q D. rewrite (Hout q D).
      eapply graft_diverge; [exact H1 |]. now apply diverge_extend_l.
    + intros x rest Hx. rewrite Hoth by (intros l Hl; apply Hx; now right).
      eapply graft_diverge; [exact H1 |].
      apply diverge_heads. intros E. symmetry in E. revert E. apply Hx. now left.
    + intros ND lang d Hin. inversion ND as [| ? ? Hn ND']; subst.
      destruct Hin as [Hin | Hin].
      * injection Hin as <- <-.
        change (dir ++ [(lang0 ++ ".md")%string])
          with (dir ++ (lang0 ++ ".md")%string :: []).
        rewrite Hoth.
        -- eapply graft_same; eauto.
        -- intros l Hl E. apply append_md_injective in E. subst l. contradiction.
      * now apply Hdoc.
    + intros W. apply Hwf. eapply graft_wf; [exact W | | exact H1].
      now intros v [= <-].
Qed.

(** The first pair of [am] for the file name [f]. *)
Lemma find_media_app (f : string) (l1 l2 : list Media) :
  find (fun m => String.eqb (fst m) f) (l1 ++ l2)
  = match find (fun m => String.eqb (fst m) f) l1 with
    | Some m => Some m
    | None => find (fun m => String.eqb (fst m) f) l2
    end.
Proof.
  induction l1 as [| m l1 IH]; simpl; [reflexivity |].
  destruct (String.eqb (fst m) f); [reflexivity | exact IH].
Qed.

(** The loop that copies the media files of an item. *)
Lemma copy_loop_inv (dir : path) (am : list Media) (copied cm : list string)
    (w w' : World) :
  foldM (copyMedia false dir) copied am w = Ret cm w' ->
  (forall m, In m am -> diverge dir (snd m) = true) ->
  same_outside dir (tree w) (tree w')
  /\ (forall f rest,
        In f copied \/ ~ In f (map fst am) ->
        lookup (dir ++ f :: rest) (tree w')
        = lookup (dir ++ f :: rest) (tree w))
  /\ (forall f src,
        ~ In f copied ->
        find (fun m => String.eqb (fst m) f) am = Some (f, src) ->
        exists b, lookup src (tree w) = Some (File b)
                  /\ lookup (dir ++ [f]) (tree w') = Some (File b))
  /\ (wf (tree w) = true -> wf (tree w') = true).
Proof.
  revert copied w. induction am as [| [f0 src0] am IH]; intros copied w; simpl.
  - intros [= <- <-] _. repeat split; auto. intros f src _. discriminate.
  - intros H Hsrc. apply bind_Ret_inv in H. destruct H as [c1 [w1 [H1 H]]].
    assert (Hsrc' : forall m, In m am -> diverge dir (snd m) = true)
      by (intros m Hm; apply Hsrc; now right).
    destruct (IH _ _ H Hsrc') as [Hout [Hkeep [Hcopy Hwf]]]. clear IH H.
    unfold copyMedia in H1. destruct (includes copied f0) eqn:Inc.
    + injection H1 as <- <-. apply includes_In in Inc.
      split; [exact Hout |]. split; [| split; [| exact Hwf]].
      * intros f rest [Hf | Hf]; apply Hkeep; [now left |].
        right. intros Hin. apply Hf. now right.
      * intros f src Hf. simpl.
        destruct (String.eqb f0 f) eqn:E.
        { apply eqb_true in E. subst f0. contradiction. }
        now apply Hcopy.
    + apply includes_false in Inc. simpl when in H1.
      apply bind_Ret_inv in H1. destruct H1 as [[] [w2 [H1 H2]]].
      injection H2 as <- <-.
      apply copyFileSync_inv in H1.
      destruct H1 as [w3 [b [Hmk [Hb Hg]]]]. unfold path_join in Hg.
      pose proof (Hsrc (f0, src0) (or_introl eq_refl)) as D0. simpl in D0.
      assert (Hb0 : lookup src0 (tree w) = Some (File b)).
      { now rewrite <- (mkdirSync_diverge _ _ _ _ _ Hmk D0). }
      assert (Step : forall q,
                 diverge (dir ++ [f0]) q = true ->
                 (diverge dir q = true \/ exists r, r <> [] /\ q = dir ++ r) ->
                 lookup q (tree w2) = lookup q (tree w)).
      { intros q Dq Hq. rewrite (graft_diverge _ _ _ _ _ Hg Dq).
        destruct Hq as [Hq | [r [Hr ->]]].
        - eapply mkdirSync_diverge; eauto.
        - eapply mkdirSync_below; eauto. }
      split; [| split; [| split]].
      * intros q D. rewrite (Hout q D). apply Step; [| now left].
        now apply diverge_extend_l.
      * intros f rest Hf.
        assert (Nf : f <> f0).
        { destruct Hf as [Hf | Hf]; [congruence |].
          intros ->. apply Hf. now left. }
        rewrite Hkeep.
        -- apply Step; [apply diverge_heads; congruence |].
           right. exists (f :: rest). split; [discriminate | reflexivity].
        -- destruct Hf as [Hf | Hf]; [left; apply in_or_app; now left |].
           right. intros Hin. apply Hf. now right.
      * intros f src Hf. simpl.
        destruct (String.eqb f0 f) eqn:E.
        -- apply eqb_true in E. subst f0. intros [= <-].
           exists b. split; [exact Hb0 |].
           change (dir ++ [f]) with (dir ++ f :: []).
           rewrite Hkeep by (left; apply in_or_app; right; now left).
           eapply graft_same; eauto.
        -- apply eqb_false in E. intros Hfind.
           destruct (Hcopy f src) as [b' [Hb' Hc']]; [| exact Hfind |].
           { intros Hin. apply in_app_or in Hin.
             destruct Hin as [Hin | [Hin | []]]; congruence. }
           exists b'. split; [| exact Hc'].
           rewrite <- Hb'. symmetry. apply Step.
           ++ apply diverge_extend_l. apply find_some in Hfind.
              destruct Hfind as [Hfind _]. apply (Hsrc' _ Hfind).
           ++ left. apply find_some in Hfind.
              destruct Hfind as [Hfind _]. apply (Hsrc' _ Hfind).
      * intros W. apply Hwf. eapply graft_wf; [| | exact Hg].
        -- eapply mkdirSync_wf; eauto.
        -- now intros v [= <-].
Qed.

Lemma find_media_pairs (f : string) (v : string * ProjectData) :
  find (fun m => String.eqb (fst m) f) (media_pairs v)
  = if includes (files (snd v)) f
    then Some (f, path_join (sourcePath (snd v)) f)
    else None.
Proof.
  unfold media_pairs, includes.
  induction (files (snd v)) as [| x l IH]; simpl; [reflexivity |].
  rewrite (String.eqb_sym f x).
  destruct (String.eqb x f) eqn:E; simpl; [| exact IH].
  apply eqb_true in E. now subst.
Qed.

Lemma find_media_first_source (f : string) (vs : alist ProjectData) :
  find (fun m => String.eqb (fst m) f) (flat_map media_pairs vs)
  = match first_source f vs with
    | Some v => Some (f, path_join (sourcePath (snd v)) f)
    | None => None
    end.
Proof.
  unfold first_source. induction vs as [| v vs IH]; simpl; [reflexivity |].
  rewrite find_media_app, find_media_pairs.
  destruct (includes (files (snd v)) f); [reflexivity | exact IH].
Qed.

Lemma map_fst_media_pairs (vs : alist ProjectData) :
  map fst (flat_map media_pairs vs) = media_of vs.
Proof.
  unfold media_of. induction vs as [| v vs IH]; simpl; [reflexivity |].
  rewrite map_app, IH. f_equal. unfold media_pairs. rewrite map_map.
  simpl. apply map_id.
Qed.

Lemma first_source_media (f : string) (vs : alist ProjectData) :
  In f (media_of vs) -> exists v, first_source f vs = Some v /\ In v vs.
Proof.
  unfold media_of, first_source. intros H. apply in_flat_map in H.
  destruct H as [v [Hv Hf]].
  destruct (find (fun v0 => includes (files (snd v0)) f) vs) as [v1 |] eqn:E.
  - exists v1. split; [reflexivity |]. now apply find_some in E.
  - exfalso. apply (find_none _ _ E) in Hv.
    apply includes_In in Hf. congruence.
Qed.

Lemma lookup_join_Some (d : path) (y : string) (t v : node) :
  lookup (d ++ [y]) t = Some v ->
  exists es, lookup d t = Some (Dir es) /\ aget y es = Some v.
Proof.
  rewrite lookup_app. destruct (lookup d t) as [[b | es] |]; try discriminate.
  simpl. destruct (aget y es) as [c |] eqn:E; [| discriminate].
  intros [= <-]. eauto.
Qed.

(** After [stageProject] the staging directory of the item holds its
    documents and media files. *)
Lemma stageProject_inv (tempDir : path) (slug : string)
    (vs : alist ProjectData) (w w' : World) :
  stageProject false tempDir (slug, vs) w = Ret tt w' ->
  NoDup (keys vs) -> vs <> [] ->
  (forall lang d, In (lang, d) vs -> diverge tempDir (sourcePath d) = true) ->
  same_outside (tempDir ++ [slug]) (tree w) (tree w')
  /\ (exists n,
        lookup (tempDir ++ [slug]) (tree w') = Some n
        /\ isDirectory n = true
        /\ staged_item (tree w) (lookup (tempDir ++ [slug]) (tree w)) vs n)
  /\ (wf (tree w) = true -> wf (tree w') = true).
Proof.
  intros H ND Hne Hsrc. unfold stageProject in H. simpl when in H.
  unfold path_join in H. set (dir := tempDir ++ [slug]) in *.
  apply bind_Ret_inv in H. destruct H as [[] [w1 [Hmk H]]].
  apply bind_Ret_inv in H. destruct H as [am [w2 [Hwr H]]].
  apply bind_Ret_inv in H. destruct H as [cm [w3 [Hcp H]]].
  injection H as <-.
  destruct (write_loop_inv _ _ _ _ _ _ Hwr) as [Ham [Wout [Woth [Wdoc Wwf]]]].
  simpl in Ham. subst am. specialize (Wdoc ND).
  assert (Dsrc : forall m, In m (flat_map media_pairs vs) ->
                           diverge dir (snd m) = true).
  { intros m Hm. apply in_flat_map in Hm. destruct Hm as [[lang d] [Hv Hm]].
    unfold media_pairs in Hm. apply in_map_iff in Hm.
    destruct Hm as [f [<- _]]. simpl. unfold path_join, dir.
    apply diverge_extend_l, diverge_extend_r. eapply Hsrc; eauto. }
  destruct (copy_loop_inv _ _ _ _ _ _ Hcp Dsrc) as [Cout [Ckeep [Ccopy Cwf]]].
  rewrite map_fst_media_pairs in Ckeep.
  assert (Before : forall q, diverge dir q = true ->
                             lookup q (tree w2) = lookup q (tree w)).
  { intros q D. rewrite (Wout q D). eapply mkdirSync_diverge; eauto. }
  assert (Media : forall f, In f (media_of vs) ->
             exists lang d b,
               first_source f vs = Some (lang, d)
               /\ lookup (path_join (sourcePath d) f) (tree w) = Some (File b)
               /\ lookup (dir ++ [f]) (tree w3) = Some (File b)).
  { intros f Hf. destruct (first_source_media _ _ Hf) as [[lang d] [Hfs Hin]].
    destruct (Ccopy f (path_join (sourcePath d) f)) as [b [Hb Hc]];
      [intros [] | now rewrite find_media_first_source, Hfs |].
    exists lang, d, b. split; [exact Hfs |]. split; [| exact Hc].
    rewrite <- Hb. symmetry. apply Before. unfold path_join, dir.
    apply diverge_extend_l, diverge_extend_r. eapply Hsrc; eauto. }
  assert (Docs : forall lang d, In (lang, d) vs ->
             ~ In (lang ++ ".md")%string (media_of vs) ->
             lookup (dir ++ [(lang ++ ".md")%string]) (tree w3)
             = Some (File (utf8_encode (content d)))).
  { intros lang d Hin Hn.
    change (dir ++ [(lang ++ ".md")%string])
      with (dir ++ (lang ++ ".md")%string :: []).
    rewrite Ckeep by (now right). now apply Wdoc. }
  assert (Others : forall x, ~ In x (media_of vs) ->
             (forall lang, In lang (keys vs) -> x <> (lang ++ ".md")%string) ->
             lookup (dir ++ [x]) (tree w3) = lookup (dir ++ [x]) (tree w)).
  { intros x Hx Hl. change (dir ++ [x]) with (dir ++ x :: []).
    rewrite Ckeep by (now right). rewrite Woth by exact Hl.
    eapply mkdirSync_below; [exact Hmk | discriminate]. }
  assert (Ex : exists y v, lookup (dir ++ [y]) (tree w3) = Some v).
  { destruct vs as [| [lang d] vs]; [congruence |].
    destruct (in_dec string_dec (lang ++ ".md")%string
                (media_of ((lang, d) :: vs))) as [Hi | Hi].
    - destruct (Media _ Hi) as [l [d' [b [_ [_ H]]]]]. eauto.
    - eexists. eexists. apply (Docs lang d); [now left | exact Hi]. }
  destruct Ex as [y [v Hy]]. apply lookup_join_Some in Hy.
  destruct Hy as [es [Hes _]].
  split; [| split].
  - intros q D. rewrite (Cout q D). now apply Before.
  - exists (Dir es). split; [exact Hes |]. split; [reflexivity |].
    assert (L : forall x, lookup [x] (Dir es) = lookup (dir ++ [x]) (tree w3))
      by (intros x; now rewrite lookup_app, Hes).
    split; [| split].
    + intros f Hf. destruct (Media f Hf) as [lang [d [b [H1 [H2 H3]]]]].
      exists lang, d, b. now rewrite L.
    + intros lang d Hin Hn. rewrite L. now apply Docs.
    + intros x Hx Hl. rewrite L, (Others x Hx Hl), lookup_app.
      now destruct (lookup dir (tree w)).
  - intros W. apply Cwf, Wwf. eapply mkdirSync_wf; eauto.
Qed.

(** ** The staging phase *)

Lemma staged_item_transport (t0 t1 : node) (old : option node)
    (vs : alist ProjectData) (n : node) :
  (forall lang d f, In (lang, d) vs ->
     lookup (path_join (sourcePath d) f) t1
     = lookup (path_join (sourcePath d) f) t0) ->
  staged_item t1 old vs n -> staged_item t0 old vs n.
Proof.
  intros Hsame [H1 [H2 H3]]. split; [| split]; [| exact H2 | exact H3].
  intros f Hf. destruct (H1 f Hf) as [lang [d [b [Hfs [Hb Hn]]]]].
  exists lang, d, b. split; [exact Hfs |]. split; [| exact Hn].
  rewrite <- Hb. symmetry. eapply Hsame.
  unfold first_source in Hfs. apply find_some in Hfs. apply Hfs.
Qed.

Lemma stage_loop_inv (tempDir : path) (projects : Projects) (w w' : World) :
  forM_ projects (stageProject false tempDir) w = Ret tt w' ->
  NoDup (keys projects) ->
  (forall slug vs, In (slug, vs) projects ->
     NoDup (keys vs) /\ vs <> []
     /\ forall lang d, In (lang, d) vs ->
          diverge tempDir (sourcePath d) = true) ->
  same_outside tempDir (tree w) (tree w')
  /\ (forall slug vs, In (slug, vs) projects ->
        exists n,
          lookup (tempDir ++ [slug]) (tree w') = Some n
          /\ isDirectory n = true
          /\ staged_item (tree w) (lookup (tempDir ++ [slug]) (tree w)) vs n)
  /\ (forall x rest, ~ In x (keys projects) ->
        lookup (tempDir ++ x :: rest) (tree w')
        = lookup (tempDir ++ x :: rest) (tree w))
  /\ (wf (tree w) = true -> wf (tree w') = true).
Proof.
  revert w. induction projects as [| [s0 vs0] projects IH]; intros w H ND Hall.
  - injection H as <-. repeat split; auto. intros slug vs [].
  - apply forM__Ret_inv in H. destruct H as [w1 [H0 H]].
    inversion ND as [| ? ? Hn ND']; subst.
    destruct (Hall s0 vs0 (or_introl eq_refl)) as [ND0 [Ne0 Src0]].
    destruct (stageProject_inv _ _ _ _ _ H0 ND0 Ne0 Src0)
      as [Out0 [[n0 [Hn0 [Dn0 St0]]] Wf0]].
    destruct (IH _ H ND' (fun s vs Hin => Hall s vs (or_intror Hin)))
      as [Out [Items [Others Wf]]].
    split; [| split; [| split]].
    + intros q D. rewrite (Out q D). apply Out0. now apply diverge_extend_l.
    + intros slug vs [Hin | Hin].
      * injection Hin as <- <-. exists n0.
        change (tempDir ++ [s0]) with (tempDir ++ s0 :: []).
        rewrite (Others s0 [] Hn). auto.
      * destruct (Items _ _ Hin) as [n [Hl [Dn St]]].
        assert (Ns : s0 <> slug).
        { intros ->. apply Hn. now apply (in_map fst) in Hin. }
        exists n. split; [exact Hl |]. split; [exact Dn |].
        rewrite (Out0 (tempDir ++ [slug])) in St
          by (apply diverge_heads; exact Ns).
        apply staged_item_transport with (t1 := tree w1); [| exact St].
        intros lang d f Hd. apply Out0. unfold path_join.
        apply diverge_extend_l, diverge_extend_r.
        destruct (Hall _ _ (or_intror Hin)) as [_ [_ Src]]. eapply Src; eauto.
    + intros x rest Hx. rewrite Others by (intros Hi; apply Hx; now right).
      apply Out0. apply diverge_heads. intros ->. apply Hx. now left.
    + intros W. auto.
Qed.

Lemma staging_inv (projectsDir : path) (projects : Projects) (w w' : World) :
  staging false projectsDir projects w = Ret tt w' ->
  NoDup (keys projects) ->
  (forall slug vs, In (slug, vs) projects ->
     NoDup (keys vs) /\ vs <> []
     /\ forall lang d, In (lang, d) vs ->
          diverge (projectsDir ++ [tempName]) (sourcePath d) = true) ->
  same_outside (projectsDir ++ [tempName]) (tree w) (tree w')
  /\ lookup (projectsDir ++ [tempName]) (tree w') <> None
  /\ (forall slug vs, In (slug, vs) projects ->
        exists n,
          lookup (projectsDir ++ [tempName; slug]) (tree w') = Some n
          /\ isDirectory n = true
          /\ staged_item (tree w)
               (lookup (projectsDir ++ [tempName; slug]) (tree w)) vs n)
  /\ (wf (tree w) = true -> wf (tree w') = true).
Proof.
  intros H ND Hall. unfold staging in H. simpl when in H.
  unfold path_join in H. set (tempDir := projectsDir ++ [tempName]) in *.
  apply bind_Ret_inv in H. destruct H as [[] [w1 [Hmk H]]].
  destruct (stage_loop_inv _ _ _ _ H ND Hall) as [Out [Items [Others Wf]]].
  split; [| split; [| split]].
  - intros q D. rewrite (Out q D). eapply mkdirSync_diverge; eauto.
  - pose proof (mkdirSync_lookup _ _ _ _ Hmk) as L.
    destruct projects as [| [s vs] projects].
    + injection H as <-. congruence.
    + destruct (Items s vs (or_introl eq_refl)) as [n [Hn _]].
      rewrite lookup_app in Hn.
      destruct (lookup tempDir (tree w')); [discriminate | discriminate].
  - intros slug vs Hin. destruct (Items _ _ Hin) as [n [Hl [Dn St]]].
    exists n. unfold tempDir in *. rewrite <- app_assoc in Hl. simpl in Hl.
    split; [exact Hl |]. split; [exact Dn |].
    rewrite <- app_assoc in St. simpl in St.
    assert (E : lookup (projectsDir ++ [tempName; slug]) (tree w1)
                = lookup (projectsDir ++ [tempName; slug]) (tree w)).
    { change (projectsDir ++ [tempName; slug])
        with (projectsDir ++ [tempName] ++ [slug]).
      rewrite app_assoc.
      eapply mkdirSync_below; [exact Hmk | discriminate]. }
    rewrite E in St.
    apply staged_item_transport with (t1 := tree w1); [| exact St].
    intros lang d f Hd. eapply mkdirSync_diverge; [exact Hmk |].
    unfold path_join. apply diverge_extend_r.
    destruct (Hall _ _ Hin) as [_ [_ Src]]. eapply Src; eauto.
  - intros W. apply Wf. eapply mkdirSync_wf; eauto.
Qed.

(** ** The destructive phase *)

Lemma backupLang_inv (projectsDir : path) (lang : string) (w w' : World) :
  backupLang projectsDir (path_join projectsDir backupName) lang w = Ret tt w' ->
  (lookup (projectsDir ++ [lang]) (tree w) = None /\ tree w' = tree w)
  \/ (lookup (projectsDir ++ [lang]) (tree w) <> None
      /\ exists w1,
           mkdirSync (projectsDir ++ [backupName]) w = Ret tt w1
           /\ rename (projectsDir ++ [lang]) (projectsDir ++ [backupName; lang])
                (tree w1) = Some (tree w')).
Proof.
  unfold backupLang. intros H.
  apply bind_Ret_inv in H. destruct H as [e [w1 [H1 H]]].
  apply existsSync_inv in H1. destruct H1 as [-> He]. unfold path_join in He.
  destruct e.
  - right. split; [now apply He |].
    apply moveSync_inv in H. destruct H as [w1 [Hmk Hr]].
    exists w1. split; [exact Hmk |]. revert Hr. now norm_paths.
  - injection H as <-. left. split; [| reflexivity].
    destruct (lookup _ (tree w)); [| reflexivity].
    assert (false = true) by (apply He; discriminate). discriminate.
Qed.

Lemma path_split (b : path) (x y : string) (rest : path) :
  b ++ x :: y :: rest = (b ++ [x]) ++ y :: rest.
Proof. now rewrite <- app_assoc. Qed.

Lemma length_app_neq (b : path) (p q : path) :
  List.length p <> List.length q ->
  List.length (b ++ p) <> List.length (b ++ q).
Proof. rewrite !length_app. lia. Qed.

Lemma diverge_cons_inv (b : path) (x y : string) (p q : path) :
  diverge (b ++ x :: p) (b ++ y :: q) = true -> x <> y \/ diverge p q = true.
Proof.
  rewrite diverge_app_same. simpl. destruct (String.eqb x y) eqn:E.
  - auto.
  - apply eqb_false in E. auto.
Qed.

Lemma backup_loop_inv (projectsDir : path) (langs : list string) (w w' : World) :
  forM_ langs (backupLang projectsDir (path_join projectsDir backupName)) w
  = Ret tt w' ->
  (forall lang, In lang langs ->
     lookup (projectsDir ++ [lang]) (tree w) <> None -> lang <> backupName)
  /\ (forall lang v, In lang langs ->
        lookup (projectsDir ++ [lang]) (tree w) = Some v ->
        lookup (projectsDir ++ [backupName; lang]) (tree w') = Some v)
  /\ (forall lang, In lang langs -> lang <> backupName ->
        lookup (projectsDir ++ [lang]) (tree w') = None)
  /\ (forall x rest, ~ In x langs -> x <> backupName ->
        lookup (projectsDir ++ x :: rest) (tree w')
        = lookup (projectsDir ++ x :: rest) (tree w))
  /\ (forall lang rest, lang <> backupName ->
        lookup (projectsDir ++ [lang]) (tree w) = None ->
        lookup (projectsDir ++ backupName :: lang :: rest) (tree w')
        = lookup (projectsDir ++ backupName :: lang :: rest) (tree w))
  /\ (wf (tree w) = true -> wf (tree w') = true).
Proof.
  revert w. induction langs as [| l0 langs IH]; intros w H.
  - injection H as <-.
    split; [intros ? [] |]. split; [intros ? ? [] |]. split; [intros ? [] |].
    repeat split; auto.
  - apply forM__Ret_inv in H. destruct H as [w1 [H0 H]].
    destruct (IH _ H) as [B1 [B2 [B3 [B4 [B6 Bwf]]]]]. clear IH H.
    apply backupLang_inv in H0. destruct H0 as [[Hnone Ht] | [Hsome [wm [Hmk Hr]]]].
    + (* the folder does not exist: skipped *)
      rewrite Ht in *.
      split; [| split; [| split; [| split; [| split]]]].
      * intros lang [<- | Hin] Hl; [congruence | auto].
      * intros lang v [<- | Hin] Hl; [congruence | auto].
      * intros lang [<- | Hin] Hb; [| auto].
        destruct (in_dec string_dec l0 langs) as [Hi | Hi]; [auto |].
        change (projectsDir ++ [l0]) with (projectsDir ++ l0 :: []).
        now rewrite B4.
      * intros x rest Hx Hb. apply B4; [| exact Hb]. intros Hi. apply Hx. now right.
      * exact B6.
      * exact Bwf.
    + (* the folder is moved into the backup directory *)
      destruct (rename_spec _ _ _ _ Hr (length_app_neq _ [l0] [backupName; l0]
                                           ltac:(simpl; lia)))
        as [D [Rdst [_ [Rsrc [Rout [_ Rwf]]]]]].
      assert (Nb : l0 <> backupName).
      { change (projectsDir ++ [l0]) with (projectsDir ++ l0 :: []) in D.
        change (projectsDir ++ [backupName; l0])
          with (projectsDir ++ backupName :: [l0]) in D.
        apply diverge_cons_inv in D. destruct D as [D | D]; [exact D |].
        discriminate. }
      assert (Dmk : forall x rest, x <> backupName ->
                 lookup (projectsDir ++ x :: rest) (tree wm)
                 = lookup (projectsDir ++ x :: rest) (tree w)).
      { intros x rest Hx. eapply mkdirSync_diverge; [exact Hmk |].
        change (projectsDir ++ [backupName])
          with (projectsDir ++ backupName :: []).
        apply diverge_heads. congruence. }
      assert (F3 : forall x rest, x <> l0 -> x <> backupName ->
                 lookup (projectsDir ++ x :: rest) (tree w1)
                 = lookup (projectsDir ++ x :: rest) (tree w)).
      { intros x rest Hx Hb. rewrite Rout.
        - now apply Dmk.
        - change (projectsDir ++ [l0]) with (projectsDir ++ l0 :: []).
          apply diverge_heads. congruence.
        - change (projectsDir ++ [backupName; l0])
            with (projectsDir ++ backupName :: [l0]).
          apply diverge_heads. congruence. }
      assert (F4 : forall lang rest, lang <> l0 ->
                 lookup (projectsDir ++ backupName :: lang :: rest) (tree w1)
                 = lookup (projectsDir ++ backupName :: lang :: rest) (tree w)).
      { intros lang rest Hl. rewrite Rout.
        - change (projectsDir ++ backupName :: lang :: rest)
            with (projectsDir ++ [backupName] ++ lang :: rest).
          rewrite app_assoc.
          eapply mkdirSync_below; [exact Hmk | discriminate].
        - change (projectsDir ++ [l0]) with (projectsDir ++ l0 :: []).
          apply diverge_heads. exact Nb.
        - rewrite (path_split projectsDir backupName l0 []),
            (path_split projectsDir backupName lang rest).
          apply diverge_heads. congruence. }
      assert (F1 : lookup (projectsDir ++ [backupName; l0]) (tree w1)
                   = lookup (projectsDir ++ [l0]) (tree w)).
      { rewrite Rdst. change (projectsDir ++ [l0])
          with (projectsDir ++ l0 :: []). now apply Dmk. }
      assert (F5 : lookup (projectsDir ++ [backupName]) (tree w1) <> None).
      { destruct (lookup (projectsDir ++ [l0]) (tree w)) as [v |] eqn:E;
          [| congruence].
        change (projectsDir ++ [backupName; l0])
          with (projectsDir ++ [backupName] ++ [l0]) in F1.
        rewrite app_assoc, lookup_app in F1.
        destruct (lookup (projectsDir ++ [backupName]) (tree w1));
          [discriminate | discriminate]. }
      assert (C1 : forall lang, In lang (l0 :: langs) ->
                 lookup (projectsDir ++ [lang]) (tree w) <> None ->
                 lang <> backupName).
      { intros lang [<- | Hin] Hl; [exact Nb |]. intros ->.
        now apply (B1 backupName Hin F5). }
      split; [exact C1 |]. split; [| split; [| split; [| split]]].
      * intros lang v Hin Hl.
        assert (Hb : lang <> backupName) by (apply C1; [exact Hin | congruence]).
        destruct (string_dec lang l0) as [-> | Hne].
        -- change (projectsDir ++ [backupName; l0])
             with (projectsDir ++ backupName :: l0 :: []).
           rewrite B6; [| exact Nb | exact Rsrc].
           change (projectsDir ++ backupName :: [l0])
             with (projectsDir ++ [backupName; l0]). congruence.
        -- destruct Hin as [-> | Hin]; [congruence |].
           apply B2; [exact Hin |].
           change (projectsDir ++ [lang]) with (projectsDir ++ lang :: []).
           rewrite F3; assumption.
      * intros lang [<- | Hin] Hb; [| auto].
        destruct (in_dec string_dec l0 langs) as [Hi | Hi]; [auto |].
        change (projectsDir ++ [l0]) with (projectsDir ++ l0 :: []).
        rewrite B4; assumption.
      * intros x rest Hx Hb. rewrite B4; [| intros Hi; apply Hx; now right | exact Hb].
        apply F3; [| exact Hb]. intros ->. apply Hx. now left.
      * intros lang rest Hb Hl.
        assert (Hne : lang <> l0) by (intros ->; congruence).
        rewrite B6; [now apply F4 | exact Hb |].
        change (projectsDir ++ [lang]) with (projectsDir ++ lang :: []).
        rewrite F3; assumption.
      * intros W. apply Bwf, Rwf. eapply mkdirSync_wf; eauto.
Qed.

Lemma promote_inv (projectsDir : path) (slug : string) (w w' : World) :
  promote projectsDir (path_join projectsDir tempName) slug w = Ret tt w' ->
  rename (projectsDir ++ [tempName; slug]) (projectsDir ++ [slug]) (tree w)
  = Some (tree w').
Proof.
  unfold promote. intros H. apply moveSync_inv in H.
  destruct H as [w1 [Hmk Hr]]. revert Hr. norm_paths. intros Hr.
  pose proof (mkdirSync_lookup _ _ _ _ Hmk) as L.
  apply mkdirSync_inv in Hmk. destruct Hmk as [[_ E] | [N _]].
  - now rewrite <- E.
  - exfalso. rewrite N in L. unfold rename in Hr.
    now rewrite lookup_app, L in Hr.
Qed.

Lemma promote_loop_inv (projectsDir : path) (slugs : list string)
    (w w' : World) :
  forM_ slugs (promote projectsDir (path_join projectsDir tempName)) w
  = Ret tt w' ->
  NoDup slugs ->
  (forall s, In s slugs -> s <> tempName)
  /\ (forall s n, In s slugs ->
        lookup (projectsDir ++ [tempName; s]) (tree w) = Some n ->
        lookup (projectsDir ++ [s]) (tree w') = Some n)
  /\ (forall x rest, ~ In x slugs -> x <> tempName ->
        lookup (projectsDir ++ x :: rest) (tree w')
        = lookup (projectsDir ++ x :: rest) (tree w))
  /\ (forall s y rest, In s slugs ->
        lookup (projectsDir ++ s :: y :: rest) (tree w) = None)
  /\ (wf (tree w) = true -> wf (tree w') = true).
Proof.
  revert w. induction slugs as [| s0 slugs IH]; intros w H ND.
  - injection H as <-.
    split; [intros ? [] |]. split; [intros ? ? [] |].
    split; [auto |]. split; [intros ? ? ? [] | auto].
  - apply forM__Ret_inv in H. destruct H as [w1 [H0 H]].
    inversion ND as [| ? ? Hn ND']; subst.
    destruct (IH _ H ND') as [P0 [P1 [P2 [P3 Pwf]]]]. clear IH H.
    apply promote_inv in H0.
    destruct (rename_spec _ _ _ _ H0 (length_app_neq _ [tempName; s0] [s0]
                                         ltac:(simpl; lia)))
      as [D [Rdst [_ [_ [Rout [Rempty Rwf]]]]]].
    assert (Nt : s0 <> tempName).
    { change (projectsDir ++ [tempName; s0])
        with (projectsDir ++ tempName :: [s0]) in D.
      change (projectsDir ++ [s0]) with (projectsDir ++ s0 :: []) in D.
      apply diverge_cons_inv in D. destruct D as [D | D];
        [congruence | discriminate]. }
    assert (G2 : forall x rest, x <> tempName -> x <> s0 ->
               lookup (projectsDir ++ x :: rest) (tree w1)
               = lookup (projectsDir ++ x :: rest) (tree w)).
    { intros x rest Hx Hs. apply Rout.
      - change (projectsDir ++ [tempName; s0])
          with (projectsDir ++ tempName :: [s0]).
        apply diverge_heads. congruence.
      - change (projectsDir ++ [s0]) with (projectsDir ++ s0 :: []).
        apply diverge_heads. congruence. }
    assert (G3 : forall s rest, s <> s0 ->
               lookup (projectsDir ++ tempName :: s :: rest) (tree w1)
               = lookup (projectsDir ++ tempName :: s :: rest) (tree w)).
    { intros s rest Hs. apply Rout.
      - rewrite (path_split projectsDir tempName s0 []),
          (path_split projectsDir tempName s rest).
        apply diverge_heads. congruence.
      - change (projectsDir ++ [s0]) with (projectsDir ++ s0 :: []).
        apply diverge_heads. exact Nt. }
    split; [| split; [| split; [| split]]].
    + intros s [<- | Hin]; auto.
    + intros s n [<- | Hin] Hl.
      * change (projectsDir ++ [s0]) with (projectsDir ++ s0 :: []).
        rewrite P2 by assumption.
        change (projectsDir ++ s0 :: []) with (projectsDir ++ [s0]). congruence.
      * apply P1; [exact Hin |].
        change (projectsDir ++ [tempName; s])
          with (projectsDir ++ tempName :: s :: []).
        rewrite G3; [exact Hl |]. intros ->. contradiction.
    + intros x rest Hx Ht.
      rewrite P2; [| intros Hi; apply Hx; now right | exact Ht].
      apply G2; [exact Ht |]. intros ->. apply Hx. now left.
    + intros s y rest [<- | Hin].
      * specialize (Rempty y rest). revert Rempty.
        now rewrite <- app_assoc.
      * rewrite <- G2; [now apply P3 | now apply P0 |].
        intros ->. contradiction.
    + auto.
Qed.

Lemma removeSync_inv (dir : path) (w w' : World) (u : unit) :
  removeSync dir w = Ret u w' ->
  tree w' = tree w \/ graft dir None (tree w) = Some (tree w').
Proof.
  unfold removeSync. intros H.
  apply bind_Ret_inv in H. destruct H as [e [w1 [H1 H]]].
  apply existsSync_inv in H1. destruct H1 as [-> _]. destruct e.
  - apply mutate_Ret_inv in H. destruct H as [H _]. now right.
  - injection H as _ <-. now left.
Qed.

(** The script never finishes when [_new_structure] is one of the
    language folders: the backup moves the staging directory away. *)
Lemma destructive_temp_not_language (projectsDir : path)
    (languages : list string) (w w' : World) :
  destructive projectsDir languages w = Ret tt w' ->
  ~ In tempName languages.
Proof.
  unfold destructive. intros H Hin.
  apply bind_Ret_inv in H. destruct H as [[] [wb [Hb H]]].
  apply bind_Ret_inv in H. destruct H as [ents [w1 [Hr _]]].
  apply readdirSync_withFileTypes_inv in Hr. destruct Hr as [_ [es [Hes _]]].
  destruct (backup_loop_inv _ _ _ _ Hb) as [_ [_ [B3 _]]].
  unfold path_join in Hes. rewrite (B3 tempName Hin) in Hes; discriminate.
Qed.

Lemma destructive_inv (projectsDir : path) (languages : list string)
    (w w' : World) :
  destructive projectsDir languages w = Ret tt w' ->
  wf (tree w) = true ->
  (forall lang v, In lang languages ->
     lookup (projectsDir ++ [lang]) (tree w) = Some v ->
     lookup (projectsDir ++ [backupName; lang]) (tree w') = Some v)
  /\ (forall s n,
        lookup (projectsDir ++ [tempName; s]) (tree w) = Some n ->
        isDirectory n = true ->
        lookup (projectsDir ++ [s]) (tree w') = Some n)
  /\ wf (tree w') = true.
Proof.
  intros H W. pose proof (destructive_temp_not_language _ _ _ _ H) as Nt.
  unfold destructive in H.
  apply bind_Ret_inv in H. destruct H as [[] [wb [Hb H]]].
  apply bind_Ret_inv in H. destruct H as [ents [w1 [Hr H]]].
  apply readdirSync_withFileTypes_inv in Hr. destruct Hr as [-> [es [Hes ->]]].
  apply bind_Ret_inv in H. destruct H as [[] [wp [Hp Hrm]]].
  destruct (backup_loop_inv _ _ _ _ Hb) as [_ [B2 [_ [B4 [_ Bwf]]]]].
  specialize (Bwf W).
  rewrite filter_isDirectory_dirents, map_d_name_dirents in Hp.
  unfold path_join in Hes.
  assert (NDs : NoDup (keys (filter (fun e => isDirectory (snd e)) es))).
  { apply NoDup_keys_filter. eapply wf_lookup_NoDup; eauto. }
  destruct (promote_loop_inv _ _ _ _ Hp NDs) as [P0 [P1 [P2 [P3 Pwf]]]].
  assert (Rm : forall x rest, x <> tempName ->
             lookup (projectsDir ++ x :: rest) (tree w')
             = lookup (projectsDir ++ x :: rest) (tree wp)).
  { intros x rest Hx. apply removeSync_inv in Hrm.
    destruct Hrm as [-> | Hg]; [reflexivity |].
    eapply graft_diverge; [exact Hg |]. unfold path_join.
    apply diverge_heads. congruence. }
  split; [| split].
  - intros lang v Hin Hl.
    pose proof (B2 lang v Hin Hl) as Hb2.
    change (projectsDir ++ [backupName; lang])
      with (projectsDir ++ backupName :: [lang]) in *.
    rewrite Rm by discriminate. rewrite P2; [exact Hb2 | | discriminate].
    intros Hi. rewrite (P3 backupName lang [] Hi) in Hb2. discriminate.
  - intros s n Hs Dn.
    assert (Hs' : lookup (projectsDir ++ [tempName; s]) (tree wb) = Some n).
    { change (projectsDir ++ [tempName; s])
        with (projectsDir ++ tempName :: [s]) in *.
      rewrite B4; [exact Hs | exact Nt | discriminate]. }
    assert (Hin : In s (keys (filter (fun e => isDirectory (snd e)) es))).
    { rewrite (path_split projectsDir tempName s []) in Hs'.
      apply lookup_join_Some in Hs'. destruct Hs' as [es' [H1 H2]].
      rewrite Hes in H1. injection H1 as <-. apply aget_In in H2.
      unfold keys. apply in_map_iff. exists (s, n). split; [reflexivity |].
      apply filter_In. auto. }
    change (projectsDir ++ [s]) with (projectsDir ++ s :: []).
    rewrite Rm by (now apply P0).
    now apply P1.
  - apply removeSync_inv in Hrm. destruct Hrm as [-> | Hg]; [auto |].
    eapply graft_wf; [| | exact Hg]; [auto | discriminate].
Qed.

(** ** A successful live migration *)

Lemma main_inv (projectsDir : path) (w w' : World) :
  main false projectsDir w = Ret tt w' ->
  exists languages projects w1,
    detectLanguages projectsDir w = Ret languages w
    /\ languages <> []
    /\ collectProjects projectsDir languages w = Ret projects w
    /\ staging false projectsDir projects w = Ret tt w1
    /\ destructive projectsDir languages w1 = Ret tt w'.
Proof.
  unfold main, catch. intros H.
  destruct (bind (detectLanguages projectsDir) _ w) as [[] w2 | w2 | c w2] eqn:E;
    try discriminate.
  injection H as ->.
  apply bind_Ret_inv in E. destruct E as [languages [w1 [Hd E]]].
  pose proof (readonly_Ret _ _ _ _ (detectLanguages_readonly projectsDir) Hd).
  subst w1.
  destruct languages as [| l0 languages]; [discriminate |]. simpl Nat.eqb in E.
  cbv iota in E.
  apply bind_Ret_inv in E. destruct E as [projects [w1 [Hc E]]].
  pose proof (readonly_Ret _ _ _ _ (collectProjects_readonly projectsDir _) Hc).
  subst w1.
  unfold migrate in E.
  apply bind_Ret_inv in E. destruct E as [[] [w1 [Hs E]]].
  exists (l0 :: languages), projects, w1. repeat split; auto. discriminate.
Qed.

Lemma detected_exists (projectsDir : path) (w w' : World)
    (languages : list string) :
  wf (tree w) = true ->
  detectLanguages projectsDir w = Ret languages w' ->
  forall lang, In lang languages ->
    exists n, lookup (projectsDir ++ [lang]) (tree w) = Some n
              /\ is_language_folder n = true.
Proof.
  intros W Hd lang Hin.
  assert (Hes : exists es, lookup projectsDir (tree w) = Some (Dir es)).
  { unfold detectLanguages in Hd.
    apply bind_Ret_inv in Hd. destruct Hd as [e [w2 [He Hd]]].
    apply existsSync_inv in He. destruct He as [-> He].
    destruct e; [| discriminate]. simpl in Hd.
    apply bind_Ret_inv in Hd. destruct Hd as [ents [w2 [Hr Hd]]].
    apply readdirSync_withFileTypes_inv in Hr.
    destruct Hr as [_ [es [Hes _]]]. eauto. }
  destruct Hes as [es Hes].
  rewrite (detectLanguages_spec _ _ _ W Hes) in Hd. injection Hd as <- _.
  unfold keys in Hin. apply in_map_iff in Hin.
  destruct Hin as [[x n] [Ex Hin]]. apply filter_In in Hin.
  destruct Hin as [Hin Hq]. simpl in Ex, Hq. subst x.
  exists n. split; [| exact Hq].
  apply (lookup_entry _ _ _ _ _ W Hes Hin).
Qed.

(** What a successful live run leaves: for the languages and items it
    detected and collected, every language folder sits unchanged in the
    backup directory and every item directory is the staged item. *)
Lemma migration_inv (projectsDir : path) (w w' : World) :
  wf (tree w) = true ->
  main false projectsDir w = Ret tt w' ->
  exists languages projects,
    detectLanguages projectsDir w = Ret languages w
    /\ collectProjects projectsDir languages w = Ret projects w
    /\ collection_of projectsDir (tree w) languages projects
    /\ ~ In tempName languages
    /\ (forall lang,
          In lang languages ->
          lookup (projectsDir ++ [lang]) (tree w) <> None
          /\ lookup (projectsDir ++ [backupName; lang]) (tree w')
             = lookup (projectsDir ++ [lang]) (tree w))
    /\ (forall slug vs,
          In (slug, vs) projects ->
          exists n,
            lookup (projectsDir ++ [slug]) (tree w') = Some n
            /\ isDirectory n = true
            /\ staged_item (tree w)
                 (lookup (projectsDir ++ [tempName; slug]) (tree w)) vs n)
    /\ wf (tree w') = true.
Proof.
  intros W H. apply main_inv in H.
  destruct H as [languages [projects [w1 [Hd [Hne [Hc [Hs Hx]]]]]]].
  exists languages, projects.
  destruct (collectProjects_inv _ _ _ _ _ Hc) as [_ Hcol].
  pose proof (destructive_temp_not_language _ _ _ _ Hx) as Nt.
  pose proof Hcol as [ND Hall].
  assert (Hst : forall slug vs, In (slug, vs) projects ->
            NoDup (keys vs) /\ vs <> []
            /\ forall lang d, In (lang, d) vs ->
                 diverge (projectsDir ++ [tempName]) (sourcePath d) = true).
  { intros slug vs Hin. destruct (Hall _ _ Hin) as [H1 [H2 H3]].
    split; [exact H1 |]. split; [exact H2 |].
    intros lang d Hd'. destruct (H3 _ _ Hd') as [Hl [Hsp _]]. rewrite Hsp.
    change (projectsDir ++ [tempName]) with (projectsDir ++ tempName :: []).
    change (projectsDir ++ [lang; slug]) with (projectsDir ++ lang :: [slug]).
    apply diverge_heads. intros E. apply Nt. now rewrite E. }
  destruct (staging_inv _ _ _ _ Hs ND Hst) as [Out [_ [Items Swf]]].
  destruct (destructive_inv _ _ _ _ Hx (Swf W)) as [D1 [D2 Dwf]].
  split; [exact Hd |]. split; [exact Hc |]. split; [exact Hcol |].
  split; [exact Nt |]. split; [| split; [| exact Dwf]].
  - intros lang Hin.
    destruct (detected_exists _ _ _ _ W Hd lang Hin) as [n [Hn _]].
    split; [congruence |]. rewrite Hn. apply D1; [exact Hin |].
    change (projectsDir ++ [lang]) with (projectsDir ++ lang :: []) in *.
    rewrite Out; [exact Hn |].
    change (projectsDir ++ [tempName]) with (projectsDir ++ tempName :: []).
    apply diverge_heads. intros Et. apply Nt. now rewrite Et.
  - intros slug vs Hin. destruct (Items _ _ Hin) as [n [Hn [Dn St]]].
    exists n. split; [| split; [exact Dn | exact St]].
    now apply D2.
Qed.

Lemma lookup_under (d p : path) (t : node) (n : node) :
  lookup d t = Some n -> lookup (d ++ p) t = lookup p n.
Proof. intros H. now rewrite lookup_app, H. Qed.

(** The media files of the collected items: for every collected item and
    every media file name recorded for it, the item directory has
    exactly one entry of that name; it is a regular file whose bytes are
    those of the file of that name in the first language version that
    has one, which is the version of the first language, in the order in
    which the languages were detected, that has one. *)
Lemma collected_media_once (projectsDir : path) (w w' : World) :
  wf (tree w) = true ->
  main false projectsDir w = Ret tt w' ->
  exists languages projects,
    detectLanguages projectsDir w = Ret languages w
    /\ collectProjects projectsDir languages w = Ret projects w
    /\ forall slug versions file,
         In (slug, versions) projects ->
         In file (media_of versions) ->
         exists lang d b es,
           first_source file versions = Some (lang, d)
           /\ first_language file versions languages = Some lang
           /\ lookup (projectsDir ++ [lang; slug; file]) (tree w)
              = Some (File b)
           /\ lookup (projectsDir ++ [slug]) (tree w') = Some (Dir es)
           /\ aget file es = Some (File b)
           /\ count_occ string_dec (keys es) file = 1.
Proof.
  intros W H.
  destruct (migration_inv _ _ _ W H)
    as [languages [projects [Hd [Hc [[ND Hall] [Nt [_ [Items W']]]]]]]].
  exists languages, projects. split; [exact Hd |]. split; [exact Hc |].
  intros slug versions file Hin Hf.
  destruct (Items _ _ Hin) as [n [Hn [Dn [Media _]]]].
  destruct (Media file Hf) as [lang [d [b [Hfs [Hsrc Hdst]]]]].
  destruct n as [bn | es]; [discriminate |].
  exists lang, d, b, es. split; [exact Hfs |].
  assert (Hv : In (lang, d) versions).
  { unfold first_source in Hfs. now apply find_some in Hfs. }
  destruct (Hall _ _ Hin) as [NDv [_ Hcol]].
  destruct (Hcol _ _ Hv) as [_ [Hsp _]].
  rewrite Hsp in Hsrc. unfold path_join in Hsrc.
  rewrite <- app_assoc in Hsrc. simpl in Hsrc.
  split.
  { apply first_source_first_language with (d := d); [exact NDv | | exact Hfs].
    eapply collectProjects_order; [| exact Hc | exact Hin].
    exact (detectLanguages_NoDup _ _ _ _ W Hd). }
  split; [exact Hsrc |]. split; [exact Hn |].
  assert (Ha : aget file es = Some (File b)).
  { simpl in Hdst. destruct (aget file es); [exact Hdst | discriminate]. }
  split; [exact Ha |].
  apply NoDup_count_occ'.
  - eapply wf_lookup_NoDup; eauto.
  - apply aget_Some_keys. eauto.
Qed.

(** ** UTF-8: decoding inverts encoding on scalar values *)

Ltac Zify.zify_post_hook ::= Z.to_euclidean_division_equations.

Section Utf8.
Local Open Scope N_scope.

Lemma lor_shiftl_small (m x : N) :
  x < 64 -> N.lor (N.shiftl m 6) x = m * 64 + x.
Proof.
  intros Hx.
  assert (L : N.land (N.shiftl m 6) x = 0).
  { apply N.bits_inj_0. intros i. rewrite N.land_spec.
    destruct (N.lt_ge_cases i 6) as [Hi | Hi].
    - now rewrite N.shiftl_spec_low.
    - rewrite <- (N.mod_small x (2 ^ 6)) by (simpl; lia).
      rewrite N.mod_pow2_bits_high by exact Hi. apply andb_false_r. }
  rewrite <- N.lxor_lor by exact L.
  rewrite <- N.add_nocarry_lxor by exact L.
  rewrite N.shiftl_mul_pow2. reflexivity.
Qed.

Lemma lor_lead (h x k : N) :
  x < 2 ^ k -> h mod 2 ^ k = 0 -> N.lor h x = h + x.
Proof.
  intros Hx Hh.
  assert (E : h = N.shiftl (h / 2 ^ k) k).
  { rewrite N.shiftl_mul_pow2.
    rewrite (N.div_mod h (2 ^ k)) at 1 by (apply N.pow_nonzero; lia).
    rewrite Hh. lia. }
  assert (L : N.land h x = 0).
  { rewrite E. apply N.bits_inj_0. intros i. rewrite N.land_spec.
    destruct (N.lt_ge_cases i k) as [Hi | Hi].
    - now rewrite N.shiftl_spec_low.
    - rewrite <- (N.mod_small x (2 ^ k)) by exact Hx.
      rewrite N.mod_pow2_bits_high by exact Hi. apply andb_false_r. }
  rewrite <- N.lxor_lor by exact L.
  now rewrite <- N.add_nocarry_lxor by exact L.
Qed.

Lemma lead_value (h a k : N) :
  a < 2 ^ k -> h mod 2 ^ k = 0 -> N.land (h + a) (N.ones k) = a.
Proof.
  intros Hx Hh. rewrite N.land_ones.
  rewrite N.Div0.add_mod by lia. rewrite Hh. simpl.
  rewrite N.Div0.mod_mod. now apply N.mod_small.
Qed.

Lemma land_mod64 (c : N) : N.land c 63 = c mod 64.
Proof. change 63 with (N.ones 6). now rewrite N.land_ones. Qed.

Lemma cont_value (cp x : N) :
  x < 64 -> N.lor (N.shiftl cp 6) (N.land (128 + x) 63) = cp * 64 + x.
Proof.
  intros H. change 63 with (N.ones 6).
  rewrite (lead_value 128 x 6) by (simpl; auto; lia).
  now apply lor_shiftl_small.
Qed.

Lemma is_scalar_value_spec (c : N) :
  is_scalar_value c = true <-> c < 55296 \/ (57344 <= c /\ c < 1114112).
Proof.
  unfold is_scalar_value.
  rewrite orb_true_iff, andb_true_iff, !N.ltb_lt, N.leb_le. reflexivity.
Qed.

(** The bytes of a code point, written with division instead of shifts
    and masks. *)
Lemma utf8_encode_cp_arith (c : N) :
  c < 1114112 ->
  utf8_encode_cp c =
  if c <? 128 then [c]
  else if c <? 2048 then [192 + c / 64; 128 + c mod 64]
  else if c <? 65536 then
    [224 + c / 4096; 128 + (c / 64) mod 64; 128 + c mod 64]
  else [240 + c / 262144; 128 + (c / 4096) mod 64;
        128 + (c / 64) mod 64; 128 + c mod 64].
Proof.
  intros B. unfold utf8_encode_cp.
  rewrite !land_mod64, !N.shiftr_div_pow2.
  change (2 ^ 6) with 64. change (2 ^ 12) with 4096.
  change (2 ^ 18) with 262144.
  assert (C : forall x, N.lor 128 (x mod 64) = 128 + x mod 64).
  { intros x. apply (lor_lead 128 (x mod 64) 6); [| reflexivity].
    change (2 ^ 6) with 64. lia. }
  rewrite !C.
  destruct (N.ltb_spec c 128) as [L1 | L1]; [reflexivity |].
  destruct (N.ltb_spec c 2048) as [L2 | L2].
  { rewrite (lor_lead 192 (c / 64) 5); [reflexivity | | reflexivity].
    change (2 ^ 5) with 32. lia. }
  destruct (N.ltb_spec c 65536) as [L3 | L3].
  { rewrite (lor_lead 224 (c / 4096) 4); [reflexivity | | reflexivity].
    change (2 ^ 4) with 16. lia. }
  rewrite (lor_lead 240 (c / 262144) 3); [reflexivity | | reflexivity].
  change (2 ^ 3) with 8. lia.
Qed.

Lemma utf8_encode_cp_bytes (c : N) :
  c < 1114112 -> Forall (fun b => b < 256) (utf8_encode_cp c).
Proof.
  intros B. rewrite (utf8_encode_cp_arith c B).
  destruct (N.ltb_spec c 128) as [L1 | L1];
    [| destruct (N.ltb_spec c 2048) as [L2 | L2];
       [| destruct (N.ltb_spec c 65536) as [L3 | L3]]];
    repeat constructor; lia.
Qed.

(** One step of the decoder, for each state and class of byte. *)
Lemma decode_unfold (needed : nat) (cp lower upper b : N) (bs' : list N) :
  utf8_decode_from needed cp lower upper (b :: bs') =
  let start :=
    if b <=? 127 then b :: utf8_decode_from 0 0 128 191 bs'
    else if (194 <=? b) && (b <=? 223) then
      utf8_decode_from 1 (N.land b 31) 128 191 bs'
    else if (224 <=? b) && (b <=? 239) then
      utf8_decode_from 2 (N.land b 15)
        (if b =? 224 then 160 else 128)
        (if b =? 237 then 159 else 191) bs'
    else if (240 <=? b) && (b <=? 244) then
      utf8_decode_from 3 (N.land b 7)
        (if b =? 240 then 144 else 128)
        (if b =? 244 then 143 else 191) bs'
    else 65533 :: utf8_decode_from 0 0 128 191 bs' in
  match needed with
  | O => start
  | S n =>
      if (lower <=? b) && (b <=? upper) then
        let cp' := N.lor (N.shiftl cp 6) (N.land b 63) in
        match n with
        | O => cp' :: utf8_decode_from 0 0 128 191 bs'
        | S _ => utf8_decode_from n cp' 128 191 bs'
        end
      else 65533 :: start
  end.
Proof. reflexivity. Qed.

Lemma leb_true (a b : N) : a <= b -> (a <=? b) = true.
Proof. apply N.leb_le. Qed.

Lemma leb_false (a b : N) : b < a -> (a <=? b) = false.
Proof. apply N.leb_gt. Qed.

Lemma decode_start_1 (c : N) (rest : list N) :
  c < 128 ->
  utf8_decode_from 0 0 128 191 (c :: rest)
  = c :: utf8_decode_from 0 0 128 191 rest.
Proof.
  intros H. rewrite decode_unfold. cbv zeta.
  rewrite (leb_true c 127) by lia. reflexivity.
Qed.

Lemma decode_start_2 (b : N) (rest : list N) :
  194 <= b <= 223 ->
  utf8_decode_from 0 0 128 191 (b :: rest)
  = utf8_decode_from 1 (N.land b 31) 128 191 rest.
Proof.
  intros H. rewrite decode_unfold. cbv zeta.
  rewrite (leb_false b 127), (leb_true 194 b), (leb_true b 223) by lia.
  reflexivity.
Qed.

Lemma decode_start_3 (b : N) (rest : list N) :
  224 <= b <= 239 ->
  utf8_decode_from 0 0 128 191 (b :: rest)
  = utf8_decode_from 2 (N.land b 15) (if b =? 224 then 160 else 128)
      (if b =? 237 then 159 else 191) rest.
Proof.
  intros H. rewrite decode_unfold. cbv zeta.
  rewrite (leb_false b 127), (leb_false b 223), (leb_true 224 b),
    (leb_true b 239) by lia.
  rewrite andb_false_r. reflexivity.
Qed.

Lemma decode_start_4 (b : N) (rest : list N) :
  240 <= b <= 244 ->
  utf8_decode_from 0 0 128 191 (b :: rest)
  = utf8_decode_from 3 (N.land b 7) (if b =? 240 then 144 else 128)
      (if b =? 244 then 143 else 191) rest.
Proof.
  intros H. rewrite decode_unfold. cbv zeta.
  rewrite (leb_false b 127), (leb_false b 223), (leb_false b 239),
    (leb_true 240 b), (leb_true b 244) by lia.
  rewrite !andb_false_r. reflexivity.
Qed.

Lemma decode_cont_last (cp lower upper b : N) (rest : list N) :
  lower <= b <= upper ->
  utf8_decode_from 1 cp lower upper (b :: rest)
  = N.lor (N.shiftl cp 6) (N.land b 63) :: utf8_decode_from 0 0 128 191 rest.
Proof.
  intros H. rewrite decode_unfold. cbv zeta.
  rewrite (leb_true lower b), (leb_true b upper) by lia. reflexivity.
Qed.

Lemma decode_cont_more (n : nat) (cp lower upper b : N) (rest : list N) :
  lower <= b <= upper ->
  utf8_decode_from (S (S n)) cp lower upper (b :: rest)
  = utf8_decode_from (S n) (N.lor (N.shiftl cp 6) (N.land b 63)) 128 191 rest.
Proof.
  intros H. rewrite decode_unfold. cbv zeta.
  rewrite (leb_true lower b), (leb_true b upper) by lia. reflexivity.
Qed.

(** The decoder reads the bytes of a scalar value back as that value. *)
Lemma decode_encode_cp (c : N) (rest : list N) :
  is_scalar_value c = true ->
  utf8_decode_from 0 0 128 191 (utf8_encode_cp c ++ rest)
  = c :: utf8_decode_from 0 0 128 191 rest.
Proof.
  intros S. apply is_scalar_value_spec in S.
  assert (B : c < 1114112) by lia.
  rewrite (utf8_encode_cp_arith c B).
  destruct (N.ltb_spec c 128) as [L1 | L1].
  { apply decode_start_1. exact L1. }
  destruct (N.ltb_spec c 2048) as [L2 | L2].
  { cbn [app]. rewrite decode_start_2 by lia.
    rewrite decode_cont_last by lia.
    change 31 with (N.ones 5).
    rewrite (lead_value 192 (c / 64) 5);
      [| change (2 ^ 5) with 32; lia | reflexivity].
    rewrite cont_value by lia. f_equal. lia. }
  destruct (N.ltb_spec c 65536) as [L3 | L3].
  { cbn [app]. rewrite decode_start_3 by lia.
    change 15 with (N.ones 4).
    rewrite (lead_value 224 (c / 4096) 4);
      [| change (2 ^ 4) with 16; lia | reflexivity].
    rewrite decode_cont_more.
    2:{ destruct (N.eqb_spec (224 + c / 4096) 224);
        destruct (N.eqb_spec (224 + c / 4096) 237); lia. }
    rewrite decode_cont_last by lia.
    rewrite !cont_value by lia. f_equal. lia. }
  cbn [app]. rewrite decode_start_4 by lia.
  change 7 with (N.ones 3).
  rewrite (lead_value 240 (c / 262144) 3);
    [| change (2 ^ 3) with 8; lia | reflexivity].
  rewrite decode_cont_more.
  2:{ destruct (N.eqb_spec (240 + c / 262144) 240);
      destruct (N.eqb_spec (240 + c / 262144) 244); lia. }
  rewrite decode_cont_more by lia.
  rewrite decode_cont_last by lia.
  rewrite !cont_value by lia. f_equal. lia.
Qed.

Lemma decode_encode_bytes (text : jsstring) :
  forallb is_scalar_value text = true ->
  utf8_decode_from 0 0 128 191 (flat_map utf8_encode_cp text) = text.
Proof.
  induction text as [| c text IH]; intros H; [reflexivity |].
  simpl in H. apply andb_true_iff in H. destruct H as [Hc Ht].
  cbn [flat_map]. rewrite decode_encode_cp by exact Hc.
  now rewrite IH.
Qed.

Lemma encode_bytes_bound (text : jsstring) :
  forallb is_scalar_value text = true ->
  Forall (fun b => b < 256) (flat_map utf8_encode_cp text).
Proof.
  induction text as [| c text IH]; intros H; [constructor |].
  simpl in H. apply andb_true_iff in H. destruct H as [Hc Ht].
  cbn [flat_map]. apply Forall_app. split; [| now apply IH].
  apply utf8_encode_cp_bytes. apply is_scalar_value_spec in Hc. lia.
Qed.

Lemma bytes_of_string_of_bytes (bs : list N) :
  Forall (fun b => b < 256) bs -> bytes_of_string (string_of_bytes bs) = bs.
Proof.
  intros H. unfold bytes_of_string, string_of_bytes.
  rewrite list_ascii_of_string_of_list_ascii.
  induction H as [| b bs Hb _ IH]; [reflexivity |].
  cbn [map]. rewrite IH. f_equal. now apply N_ascii_embedding.
Qed.

Lemma utf8_decode_encode (text : jsstring) :
  forallb is_scalar_value text = true ->
  utf8_decode (utf8_encode text) = text.
Proof.
  intros H. unfold utf8_decode, utf8_encode.
  rewrite bytes_of_string_of_bytes by now apply encode_bytes_bound.
  now apply decode_encode_bytes.
Qed.

(** Reading a well-formed UTF-8 document as text and writing it back
    gives the same bytes. *)
Lemma utf8_recode_well_formed (b : string) :
  well_formed_utf8 b -> utf8_recode b = b.
Proof.
  intros [text [H ->]]. unfold utf8_recode.
  now rewrite utf8_decode_encode.
Qed.

End Utf8.

Ltac Zify.zify_post_hook ::= idtac.

(** The collected documents: after a successful live migration every
    collected document whose new name [{lang}.md] is not also the name
    of a media file of its item is a regular file [{slug}/{lang}.md]
    holding the bytes of its legacy source [{lang}/{slug}/index.md]
    decoded as UTF-8 and encoded again (the same bytes when the source is
    well-formed UTF-8); and every path below a detected language folder
    leads, below [_old_structure_backup], to what it led to before the
    run. *)
Lemma collected_documents_preserved (projectsDir : path) (w w' : World) :
  wf (tree w) = true ->
  main false projectsDir w = Ret tt w' ->
  exists languages projects,
    detectLanguages projectsDir w = Ret languages w
    /\ collectProjects projectsDir languages w = Ret projects w
    /\ (forall slug versions lang d,
          In (slug, versions) projects ->
          In (lang, d) versions ->
          ~ In (lang ++ ".md")%string (media_of versions) ->
          exists b,
            lookup (projectsDir ++ [lang; slug; "index.md"]) (tree w)
            = Some (File b)
            /\ lookup (projectsDir ++ [slug; (lang ++ ".md")%string]) (tree w')
               = Some (File (utf8_recode b))
            /\ (well_formed_utf8 b ->
                lookup (projectsDir ++ [slug; (lang ++ ".md")%string]) (tree w')
                = lookup (projectsDir ++ [lang; slug; "index.md"]) (tree w)))
    /\ (forall lang,
          In lang languages ->
          lookup (projectsDir ++ [lang]) (tree w) <> None
          /\ forall rest,
               lookup (projectsDir ++ backupName :: lang :: rest) (tree w')
               = lookup (projectsDir ++ lang :: rest) (tree w)).
Proof.
  intros W H.
  destruct (migration_inv _ _ _ W H)
    as [languages [projects [Hd [Hc [[ND Hall] [Nt [Backup [Items W']]]]]]]].
  exists languages, projects. split; [exact Hd |]. split; [exact Hc |].
  split.
  - intros slug versions lang d Hin Hv Hn.
    destruct (Items _ _ Hin) as [n [Hl [Dn [_ [Docs _]]]]].
    destruct (Hall _ _ Hin) as [_ [_ Hcol]].
    destruct (Hcol _ _ Hv) as [_ [_ [b [fs [Hb [Hcont _]]]]]].
    exists b. split; [exact Hb |].
    assert (E : lookup (projectsDir ++ [slug; (lang ++ ".md")%string]) (tree w')
                = Some (File (utf8_recode b))).
    { change (projectsDir ++ [slug; (lang ++ ".md")%string])
        with (projectsDir ++ [slug] ++ [(lang ++ ".md")%string]).
      rewrite app_assoc, (lookup_under _ _ _ _ Hl), (Docs _ _ Hv Hn), Hcont.
      reflexivity. }
    split; [exact E |]. intros Hu. rewrite E, Hb.
    now rewrite (utf8_recode_well_formed b Hu).
  - intros lang Hin. destruct (Backup lang Hin) as [Hex Hb].
    split; [exact Hex |]. intros rest.
    change (projectsDir ++ backupName :: lang :: rest)
      with (projectsDir ++ [backupName; lang] ++ rest).
    change (projectsDir ++ lang :: rest) with (projectsDir ++ [lang] ++ rest).
    rewrite !app_assoc.
    rewrite (lookup_app (projectsDir ++ [backupName; lang])),
      (lookup_app (projectsDir ++ [lang])), Hb.
    reflexivity.
Qed.

(** The entries of a migrated item directory that are not media files:
    when the content root had no staging directory, they are the
    documents [{lang}.md] of the languages of the item. *)
Lemma migrated_item_documents (projectsDir : path) (w w' : World) :
  wf (tree w) = true ->
  main false projectsDir w = Ret tt w' ->
  lookup (projectsDir ++ [tempName]) (tree w) = None ->
  exists languages projects,
    detectLanguages projectsDir w = Ret languages w
    /\ collectProjects projectsDir languages w = Ret projects w
    /\ forall slug versions,
         In (slug, versions) projects ->
         exists es,
           lookup (projectsDir ++ [slug]) (tree w') = Some (Dir es)
           /\ forall lang,
                ~ In (lang ++ ".md")%string (media_of versions) ->
                (In (lang ++ ".md")%string (keys es) <-> In lang (keys versions)).
Proof.
  intros W H Hfresh.
  destruct (migration_inv _ _ _ W H)
    as [languages [projects [Hd [Hc [[ND Hall] [Nt [_ [Items W']]]]]]]].
  exists languages, projects. split; [exact Hd |]. split; [exact Hc |].
  intros slug versions Hin.
  destruct (Items _ _ Hin) as [n [Hl [Dn [_ [Docs Others]]]]].
  destruct n as [bn | es]; [discriminate |].
  assert (Hold : lookup (projectsDir ++ [tempName; slug]) (tree w) = None).
  { change (projectsDir ++ [tempName; slug])
      with (projectsDir ++ [tempName] ++ [slug]).
    now rewrite app_assoc, lookup_app, Hfresh. }
  rewrite Hold in Others.
  exists es. split; [exact Hl |]. intros lang Hmedia. split.
  - intros H1.
    destruct (in_dec string_dec lang (keys versions)) as [Hi | Hi];
      [exact Hi | exfalso].
    apply aget_Some_keys in H1. destruct H1 as [v Hv].
    specialize (Others (lang ++ ".md")%string Hmedia).
    simpl in Others. rewrite Hv in Others.
    assert (Some v = None); [| discriminate].
    destruct v; apply Others; intros l Hl' E;
      apply append_md_injective in E; subst l; contradiction.
  - intros Hv. unfold keys in Hv. apply in_map_iff in Hv.
    destruct Hv as [[l d] [El Hv]]. simpl in El. subst l.
    specialize (Docs _ _ Hv Hmedia). simpl in Docs.
    apply aget_Some_keys.
    destruct (aget (lang ++ ".md")%string es); [eauto | discriminate].
Qed.

(* ================================================================== *)
(** * Part II, continued: the migration script *)
(* ================================================================== *)

(** ** Detection *)

(** X1.  On a content root that is a directory, [detectLanguages]
    returns, in directory order, the names of the entries that are
    language folders (directories with a subdirectory that holds an
    entry [index.md]), and changes nothing. *)
Theorem detect_languages_listing (projectsDir : path) (w : World)
    (es : alist node) :
  wf (tree w) = true ->
  lookup projectsDir (tree w) = Some (Dir es) ->
  detectLanguages projectsDir w
  = Ret (keys (filter (fun e => is_language_folder (snd e)) es)) w.
Proof. apply detectLanguages_spec. Qed.

(** ** Collection *)

(** A loop whose body only reads reaches a property that the body
    establishes at one element and keeps afterwards. *)
Lemma foldM_reach {A B} (Q : B -> Prop) (body : B -> A -> M B) (l : list A)
    (x0 : A) (w : World) :
  (forall acc x w1 acc' w1',
      body acc x w1 = Ret acc' w1' -> w1' = w1 /\ (Q acc -> Q acc')) ->
  (forall acc acc' w1, body acc x0 w = Ret acc' w1 -> Q acc') ->
  In x0 l ->
  forall acc acc' w', foldM body acc l w = Ret acc' w' -> Q acc'.
Proof.
  intros Hmono Hhit. induction l as [| x l IH]; intros Hin acc acc' w' H;
    [destruct Hin |].
  simpl in H. apply bind_Ret_inv in H. destruct H as [a [w1 [H1 H2]]].
  destruct (Hmono _ _ _ _ _ H1) as [-> _].
  destruct Hin as [-> | Hin].
  - refine (foldM_invariant Q body l _ _ _ _ _ _ H2).
    + intros acc0 y w0 acc0' w0' HQ Hb. now apply (Hmono _ _ _ _ _ Hb).
    + eapply Hhit; eauto.
  - eapply IH; eauto.
Qed.

(** The item [slug] has a version in the language [lang]. *)
Lemma collectSlug_keeps_version (lang' : string) (langDir : path)
    (acc acc' : Projects) (slug' : string) (w w' : World)
    (slug lang : string) :
  collectSlug lang' langDir acc slug' w = Ret acc' w' ->
  w' = w
  /\ ((exists vs, aget slug acc = Some vs /\ In lang (keys vs)) ->
      exists vs, aget slug acc' = Some vs /\ In lang (keys vs)).
Proof.
  unfold collectSlug. intros H.
  apply bind_Ret_inv in H. destruct H as [e [w1 [H1 H]]].
  apply existsSync_inv in H1. destruct H1 as [-> _].
  destruct (negb e); [injection H as <- <-; auto |].
  apply bind_Ret_inv in H. destruct H as [names [w1 [H1 H]]].
  apply readdirSync_inv in H1. destruct H1 as [-> _].
  apply bind_Ret_inv in H. destruct H as [txt [w1 [H1 H]]].
  apply readFileSync_inv in H1. destruct H1 as [-> _].
  injection H as <- <-. split; [reflexivity |].
  intros [vs [Hvs Hl]].
  destruct (String.eqb slug slug') eqn:E.
  - apply eqb_true in E. subst slug'. rewrite aget_aset_same.
    eexists. split; [reflexivity |].
    assert (Hh : has slug acc = true) by (unfold has; now rewrite Hvs).
    rewrite Hh. cbv beta iota delta [negb].
    assert (Hvs' : @aget (list (string * ProjectData)) slug acc = Some vs)
      by exact Hvs.
    rewrite Hvs'. apply keys_aset_In. now right.
  - apply eqb_false in E. rewrite aget_aset_other by exact E.
    destruct (negb (has slug' acc)).
    + rewrite aget_aset_other by exact E. eauto.
    + eauto.
Qed.

Lemma collectSlug_adds_version (lang : string) (langDir : path)
    (acc acc' : Projects) (slug : string) (w w' : World) :
  lookup (path_join (path_join langDir slug) "index.md") (tree w) <> None ->
  collectSlug lang langDir acc slug w = Ret acc' w' ->
  exists vs, aget slug acc' = Some vs /\ In lang (keys vs).
Proof.
  unfold collectSlug. intros Hi H.
  apply bind_Ret_inv in H. destruct H as [e [w1 [H1 H]]].
  apply existsSync_inv in H1. destruct H1 as [-> He].
  apply He in Hi. subst e. cbv beta iota delta [negb] in H.
  apply bind_Ret_inv in H. destruct H as [names [w1 [H1 H]]].
  apply readdirSync_inv in H1. destruct H1 as [-> _].
  apply bind_Ret_inv in H. destruct H as [txt [w1 [H1 H]]].
  apply readFileSync_inv in H1. destruct H1 as [-> _].
  injection H as <- <-. rewrite aget_aset_same.
  eexists. split; [reflexivity |]. apply keys_aset_In. now left.
Qed.

Lemma collectLang_keeps_version (projectsDir : path) (acc acc' : Projects)
    (lang' : string) (w w' : World) (slug lang : string) :
  collectLang projectsDir acc lang' w = Ret acc' w' ->
  w' = w
  /\ ((exists vs, aget slug acc = Some vs /\ In lang (keys vs)) ->
      exists vs, aget slug acc' = Some vs /\ In lang (keys vs)).
Proof.
  unfold collectLang. intros H.
  apply bind_Ret_inv in H. destruct H as [e [w1 [H1 H]]].
  apply existsSync_inv in H1. destruct H1 as [-> _].
  destruct (negb e); [injection H as <- <-; auto |].
  apply bind_Ret_inv in H. destruct H as [ents [w1 [H1 H]]].
  apply readdirSync_withFileTypes_inv in H1. destruct H1 as [-> _].
  refine (foldM_inv
            (fun ps w0 =>
               w0 = w
               /\ ((exists vs, aget slug acc = Some vs /\ In lang (keys vs)) ->
                   exists vs, aget slug ps = Some vs /\ In lang (keys vs)))
            _ _ _ _ _ _ _ _ H); [| auto].
  intros ps s w0 ps' w0' _ [-> Hps] Hb.
  destruct (collectSlug_keeps_version _ _ _ _ _ _ _ slug lang Hb) as [-> K].
  auto.
Qed.

Lemma collectLang_adds_version (projectsDir : path) (acc acc' : Projects)
    (lang slug : string) (fs : alist node) (w w' : World) :
  lookup (projectsDir ++ [lang; slug]) (tree w) = Some (Dir fs) ->
  has "index.md" fs = true ->
  collectLang projectsDir acc lang w = Ret acc' w' ->
  exists vs, aget slug acc' = Some vs /\ In lang (keys vs).
Proof.
  intros Hs Hi. unfold collectLang. intros H.
  rewrite (path_split projectsDir lang slug []) in Hs.
  destruct (lookup_join_Some _ _ _ _ Hs) as [subs [Hl Hsub]].
  rewrite (bind_Ret _ _ _ _ _ (existsSync_Some _ _ _ Hl)) in H.
  cbv beta iota delta [negb] in H.
  rewrite (bind_Ret _ _ _ _ _ (readdirSync_withFileTypes_Dir _ _ _ Hl)) in H.
  rewrite filter_isDirectory_dirents, map_d_name_dirents in H.
  refine (foldM_reach
            (fun ps => exists vs, aget slug ps = Some vs /\ In lang (keys vs))
            _ _ slug w _ _ _ _ _ _ H).
  - intros ps s w1 ps' w1' Hb.
    apply (collectSlug_keeps_version _ _ _ _ _ _ _ slug lang Hb).
  - intros ps ps' w1 Hb. eapply collectSlug_adds_version; [| exact Hb].
    unfold path_join. rewrite lookup_app, Hs. simpl.
    unfold has in Hi. destruct (aget "index.md" fs); discriminate.
  - apply aget_In in Hsub. unfold keys. apply in_map_iff.
    exists (slug, Dir fs). split; [reflexivity |].
    apply filter_In. split; [exact Hsub | reflexivity].
Qed.

Lemma collectProjects_complete (projectsDir : path) (languages : list string)
    (projects : Projects) (w w' : World) (lang slug : string)
    (fs : alist node) :
  collectProjects projectsDir languages w = Ret projects w' ->
  In lang languages ->
  lookup (projectsDir ++ [lang; slug]) (tree w) = Some (Dir fs) ->
  has "index.md" fs = true ->
  exists vs, aget slug projects = Some vs /\ In lang (keys vs).
Proof.
  unfold collectProjects. intros H Hin Hs Hi.
  refine (foldM_reach
            (fun ps => exists vs, aget slug ps = Some vs /\ In lang (keys vs))
            _ _ lang w _ _ Hin _ _ _ H).
  - intros ps l w1 ps' w1' Hb.
    apply (collectLang_keeps_version _ _ _ _ _ _ slug lang Hb).
  - intros ps ps' w1 Hb. eapply collectLang_adds_version; eauto.
Qed.

(** X2.  [collectProjects] changes nothing and records exactly the
    versions the legacy tree holds: for every language of the list and
    every subdirectory of its folder with an entry [index.md] there is a
    version, and every version recorded is the one read from the
    tree. *)
Theorem collection_complete (projectsDir : path) (languages : list string)
    (projects : Projects) (w w' : World) :
  collectProjects projectsDir languages w = Ret projects w' ->
  w' = w
  /\ (forall lang slug fs,
        In lang languages ->
        lookup (projectsDir ++ [lang; slug]) (tree w) = Some (Dir fs) ->
        has "index.md" fs = true ->
        exists versions d,
          aget slug projects = Some versions
          /\ aget lang versions = Some d
          /\ collected projectsDir (tree w) slug lang d)
  /\ (forall slug versions lang d,
        In (slug, versions) projects -> In (lang, d) versions ->
        In lang languages /\ collected projectsDir (tree w) slug lang d).
Proof.
  intros H. destruct (collectProjects_inv _ _ _ _ _ H) as [-> [ND Hall]].
  split; [reflexivity |]. split.
  - intros lang slug fs Hin Hs Hi.
    destruct (collectProjects_complete _ _ _ _ _ _ _ _ H Hin Hs Hi)
      as [vs [Hvs Hl]].
    apply aget_Some_keys in Hl. destruct Hl as [d Hd].
    exists vs, d. split; [exact Hvs |]. split; [exact Hd |].
    apply aget_In in Hvs. apply aget_In in Hd.
    destruct (Hall _ _ Hvs) as [_ [_ Hc]]. now apply Hc.
  - intros slug versions lang d Hin Hv.
    destruct (Hall _ _ Hin) as [_ [_ Hc]]. now apply Hc.
Qed.

(** *** An [index.md] that cannot be read *)

Lemma foldM_returns_or_throws {A B} (body : B -> A -> M B) (l : list A)
    (w : World) :
  (forall acc x, In x l ->
     (exists acc', body acc x w = Ret acc' w) \/ body acc x w = Throw w) ->
  forall acc,
    (exists acc', foldM body acc l w = Ret acc' w)
    \/ foldM body acc l w = Throw w.
Proof.
  induction l as [| x l IH]; intros Hb acc; simpl; [left; eauto |].
  destruct (Hb acc x (or_introl eq_refl)) as [[a Ha] | Ht].
  - rewrite (bind_Ret _ _ _ _ _ Ha). apply IH.
    intros acc0 y Hy. apply Hb. now right.
  - right. now rewrite (bind_Throw _ _ _ _ Ht).
Qed.

Lemma foldM_throws {A B} (body : B -> A -> M B) (l : list A) (x0 : A)
    (w : World) :
  (forall acc x, In x l ->
     (exists acc', body acc x w = Ret acc' w) \/ body acc x w = Throw w) ->
  In x0 l ->
  (forall acc, body acc x0 w = Throw w) ->
  forall acc, foldM body acc l w = Throw w.
Proof.
  induction l as [| x l IH]; intros Hb Hin Hx acc; [destruct Hin |]. simpl.
  destruct (Hb acc x (or_introl eq_refl)) as [[a Ha] | Ht].
  - rewrite (bind_Ret _ _ _ _ _ Ha). destruct Hin as [-> | Hin].
    + rewrite Hx in Ha. discriminate.
    + apply IH; auto. intros acc0 y Hy. apply Hb. now right.
  - now rewrite (bind_Throw _ _ _ _ Ht).
Qed.

Lemma collectSlug_returns_or_throws (lang : string) (langDir : path)
    (acc : Projects) (slug : string) (w : World) :
  (exists acc', collectSlug lang langDir acc slug w = Ret acc' w)
  \/ collectSlug lang langDir acc slug w = Throw w.
Proof.
  unfold collectSlug, bind, fs_existsSync, fs_readdirSync, fs_readFileSync, ret.
  destruct (lookup (path_join (path_join langDir slug) "index.md") (tree w))
    as [[b | ds] |] eqn:Ei; cbv beta iota delta [negb]; eauto;
    destruct (lookup (path_join langDir slug) (tree w)) as [[b' | fs] |];
    rewrite ?Ei; eauto.
Qed.

Lemma collectLang_returns_or_throws (projectsDir : path) (acc : Projects)
    (lang : string) (w : World) :
  (exists acc', collectLang projectsDir acc lang w = Ret acc' w)
  \/ collectLang projectsDir acc lang w = Throw w.
Proof.
  unfold collectLang.
  destruct (lookup (path_join projectsDir lang) (tree w)) as [n |] eqn:E.
  - rewrite (bind_Ret _ _ _ _ _ (existsSync_Some _ _ _ E)).
    cbv beta iota delta [negb].
    destruct n as [b | subs].
    + right. unfold bind, fs_readdirSync_withFileTypes. now rewrite E.
    + rewrite (bind_Ret _ _ _ _ _ (readdirSync_withFileTypes_Dir _ _ _ E)).
      apply foldM_returns_or_throws. intros ps s _.
      apply collectSlug_returns_or_throws.
  - rewrite (bind_Ret _ _ _ _ _ (existsSync_None _ _ E)).
    cbv beta iota delta [negb]. left. eexists. reflexivity.
Qed.

Lemma collectSlug_throws (lang : string) (langDir : path) (acc : Projects)
    (slug : string) (w : World) (ds : alist node) :
  lookup (langDir ++ [slug; "index.md"]) (tree w) = Some (Dir ds) ->
  collectSlug lang langDir acc slug w = Throw w.
Proof.
  intros Hi. rewrite (path_split langDir slug "index.md" []) in Hi.
  destruct (lookup_join_Some _ _ _ _ Hi) as [fs [Hs _]].
  unfold collectSlug, path_join.
  rewrite (bind_Ret _ _ _ _ _ (existsSync_Some _ _ _ Hi)).
  cbv beta iota delta [negb].
  rewrite (bind_Ret _ _ _ _ _ (readdirSync_Dir _ _ _ Hs)).
  unfold bind, fs_readFileSync. now rewrite Hi.
Qed.

Lemma collectProjects_throws (projectsDir : path) (languages : list string)
    (lang slug : string) (ds : alist node) (w : World) :
  In lang languages ->
  lookup (projectsDir ++ [lang; slug; "index.md"]) (tree w) = Some (Dir ds) ->
  collectProjects projectsDir languages w = Throw w.
Proof.
  intros Hin Hi. unfold collectProjects.
  apply foldM_throws with (x0 := lang); [| exact Hin |].
  { intros ps l _. apply collectLang_returns_or_throws. }
  intros ps. unfold collectLang.
  assert (Hi' : lookup ((projectsDir ++ [lang]) ++ [slug; "index.md"]) (tree w)
                = Some (Dir ds)) by (now rewrite <- app_assoc).
  pose proof Hi' as Hs. rewrite (path_split _ slug "index.md" []) in Hs.
  destruct (lookup_join_Some _ _ _ _ Hs) as [fs [Hs' _]].
  destruct (lookup_join_Some _ _ _ _ Hs') as [subs [Hl Hsub]].
  unfold path_join.
  rewrite (bind_Ret _ _ _ _ _ (existsSync_Some _ _ _ Hl)).
  cbv beta iota delta [negb].
  rewrite (bind_Ret _ _ _ _ _ (readdirSync_withFileTypes_Dir _ _ _ Hl)).
  rewrite filter_isDirectory_dirents, map_d_name_dirents.
  apply foldM_throws with (x0 := slug).
  - intros ps' s _. apply collectSlug_returns_or_throws.
  - apply aget_In in Hsub. unfold keys. apply in_map_iff.
    exists (slug, Dir fs). split; [reflexivity |].
    apply filter_In. split; [exact Hsub | reflexivity].
  - intros ps'. eapply collectSlug_throws. exact Hi'.
Qed.

(** X3.  A legacy item whose [index.md] is a directory is not skipped:
    reading it throws, and the run, dry or live, ends with exit code 1
    before anything is written. *)
Theorem unreadable_index_aborts (dryRun : bool) (projectsDir : path)
    (w : World) (lang slug : string) (ds : alist node) :
  wf (tree w) = true ->
  lookup (projectsDir ++ [lang; slug; "index.md"]) (tree w) = Some (Dir ds) ->
  main dryRun projectsDir w = Exit 1 w.
Proof.
  intros W Hi.
  assert (Hi' : lookup (((projectsDir ++ [lang]) ++ [slug]) ++ ["index.md"])
                  (tree w) = Some (Dir ds)) by (now rewrite <- !app_assoc).
  destruct (lookup_join_Some _ _ _ _ Hi') as [fs [Hs Hidx]].
  destruct (lookup_join_Some _ _ _ _ Hs) as [subs [Hl Hsub]].
  destruct (lookup_join_Some _ _ _ _ Hl) as [es [Hr Hlang]].
  assert (Hin : In lang (keys (filter (fun e => is_language_folder (snd e)) es))).
  { unfold keys. apply in_map_iff. exists (lang, Dir subs).
    split; [reflexivity |]. apply filter_In.
    split; [now apply aget_In |]. simpl. apply existsb_exists.
    exists (slug, Dir fs). split; [now apply aget_In |].
    simpl. unfold has. now rewrite Hidx. }
  unfold main, catch.
  rewrite (bind_Ret _ _ _ _ _ (detectLanguages_spec _ _ _ W Hr)).
  destruct (keys (filter (fun e => is_language_folder (snd e)) es))
    as [| l0 ls] eqn:El; [destruct Hin |].
  change (Nat.eqb (List.length (l0 :: ls)) 0) with false. cbv iota.
  rewrite (bind_Throw _ _ _ _
             (collectProjects_throws _ _ _ _ _ _ Hin Hi)).
  reflexivity.
Qed.

(** ** Nothing outside the content root is touched *)

Lemma readonly_keeps {A} (R : node -> node -> Prop) (m : M A) :
  (forall t, R t t) -> readonly m -> keeps R m.
Proof. intros Rr H w. rewrite H. apply Rr. Qed.

Lemma keeps_weaken {A} (R R' : node -> node -> Prop) (m : M A) :
  (forall t t', R t t' -> R' t t') -> keeps R m -> keeps R' m.
Proof. intros H K w. apply H, K. Qed.

Lemma rename_diverge (src dest q : path) (t t' : node) :
  rename src dest t = Some t' ->
  diverge src q = true -> diverge dest q = true ->
  lookup q t' = lookup q t.
Proof.
  unfold rename. intros H D1 D2.
  destruct (lookup src t) as [v |]; [| discriminate].
  destruct (is_prefix src dest).
  { destruct (is_prefix dest src); [now injection H as <- | discriminate]. }
  destruct (graft src None t) as [t1 |] eqn:G1.
  - assert (G2 : graft dest (Some v) t1 = Some t').
    { destruct (lookup dest t) as [[b | [| e es]] |]; destruct v;
        try discriminate; exact H. }
    rewrite (graft_diverge _ _ _ _ _ G2 D2).
    exact (graft_diverge _ _ _ _ _ G1 D1).
  - destruct (lookup dest t) as [[b | [| e es]] |]; destruct v; discriminate.
Qed.

Lemma keeps_moveSync (d : path) (src dest : path) (x : string) :
  keeps (same_outside d) (moveSync (d ++ src) (path_join (d ++ dest) x)).
Proof.
  pose proof (same_outside_refl d) as Rr.
  pose proof (same_outside_trans d) as Rt.
  unfold moveSync. rewrite dirname_path_join.
  apply keeps_bind; trivial; [now apply keeps_mkdirSync with (r := dest) |].
  intros _. apply keeps_mutate; trivial. intros t t' H q D.
  eapply rename_diverge; [exact H | |].
  - now apply diverge_extend_l.
  - unfold path_join. rewrite <- app_assoc. now apply diverge_extend_l.
Qed.

Lemma keeps_destructive (projectsDir : path) (languages : list string) :
  keeps (same_outside projectsDir) (destructive projectsDir languages).
Proof.
  pose proof (same_outside_refl projectsDir) as Rr.
  pose proof (same_outside_trans projectsDir) as Rt.
  unfold destructive. apply keeps_bind; trivial.
  { apply keeps_forM_; trivial. intros lang. unfold backupLang.
    apply keeps_bind; trivial; [now apply keeps_existsSync | intros e].
    destruct e; [| now apply keeps_ret].
    unfold path_join at 1 2. apply keeps_moveSync. }
  intros _. apply keeps_bind; trivial.
  { now apply keeps_readdirSync_withFileTypes. }
  intros ents. apply keeps_bind; trivial.
  { apply keeps_forM_; trivial. intros slug. unfold promote.
    unfold path_join at 1 2. rewrite <- app_assoc.
    rewrite <- (app_nil_r projectsDir) at 3. apply keeps_moveSync. }
  intros _. unfold removeSync.
  apply keeps_bind; trivial; [now apply keeps_existsSync | intros e].
  destruct e; [| now apply keeps_ret].
  apply keeps_mutate; trivial. intros t t' H q D.
  eapply graft_diverge; [exact H |]. unfold path_join.
  now apply diverge_extend_l.
Qed.

Lemma keeps_main (dryRun : bool) (projectsDir : path) :
  keeps (same_outside projectsDir) (main dryRun projectsDir).
Proof.
  pose proof (same_outside_refl projectsDir) as Rr.
  pose proof (same_outside_trans projectsDir) as Rt.
  unfold main. apply keeps_catch; trivial; [| now apply keeps_exit].
  apply keeps_bind; trivial.
  { apply readonly_keeps; trivial. apply detectLanguages_readonly. }
  intros languages. destruct (Nat.eqb _ 0); [now apply keeps_exit |].
  apply keeps_bind; trivial.
  { apply readonly_keeps; trivial. apply collectProjects_readonly. }
  intros projects. unfold migrate. destruct dryRun.
  - apply readonly_keeps; trivial. intros w.
    now rewrite (bind_Ret _ _ _ _ _ (staging_dry projectsDir projects w)).
  - apply keeps_bind; trivial.
    + eapply keeps_weaken; [| apply keeps_staging].
      intros t t'. apply same_outside_extend.
    + intros _. apply keeps_destructive.
Qed.

(** X4.  However a run of [main] ends, in either mode and with any
    fault of the environment, every path that leaves the content root
    leads to what it led to before. *)
Theorem main_stays_in_root (dryRun : bool) (projectsDir : path) (w : World)
    (q : path) :
  diverge projectsDir q = true ->
  lookup q (tree (world_of (main dryRun projectsDir w))) = lookup q (tree w).
Proof. intros D. now apply keeps_main. Qed.

(** ** A successful live migration, phase by phase *)

Lemma removeSync_absent (dir : path) (w w' : World) (u : unit) :
  removeSync dir w = Ret u w' -> lookup dir (tree w') = None.
Proof.
  unfold removeSync. intros H.
  apply bind_Ret_inv in H. destruct H as [e [w1 [H1 H]]].
  apply existsSync_inv in H1. destruct H1 as [-> He]. destruct e.
  - apply mutate_Ret_inv in H. destruct H as [H _].
    eapply graft_same; eauto.
  - injection H as _ <-.
    destruct (lookup dir (tree w)); [| reflexivity].
    assert (false = true) by (apply He; discriminate). discriminate.
Qed.

Lemma migration_trace (projectsDir : path) (w w' : World) :
  wf (tree w) = true ->
  main false projectsDir w = Ret tt w' ->
  exists languages projects w0 w1 wb wp est,
    detectLanguages projectsDir w = Ret languages w
    /\ languages <> []
    /\ NoDup languages
    /\ collectProjects projectsDir languages w = Ret projects w
    /\ collection_of projectsDir (tree w) languages projects
    /\ ~ In tempName languages
    /\ (forall slug vs, In (slug, vs) projects ->
          NoDup (keys vs) /\ vs <> []
          /\ forall lang d, In (lang, d) vs ->
               diverge (projectsDir ++ [tempName]) (sourcePath d) = true)
    /\ mkdirSync (projectsDir ++ [tempName]) w = Ret tt w0
    /\ forM_ projects (stageProject false (projectsDir ++ [tempName])) w0
       = Ret tt w1
    /\ forM_ languages (backupLang projectsDir (path_join projectsDir backupName))
         w1 = Ret tt wb
    /\ lookup (projectsDir ++ [tempName]) (tree wb) = Some (Dir est)
    /\ forM_ (keys (filter (fun e => isDirectory (snd e)) est))
         (promote projectsDir (path_join projectsDir tempName)) wb = Ret tt wp
    /\ removeSync (projectsDir ++ [tempName]) wp = Ret tt w'
    /\ wf (tree w0) = true /\ wf (tree w1) = true /\ wf (tree wb) = true.
Proof.
  intros W H. apply main_inv in H.
  destruct H as [languages [projects [w1 [Hd [Hne [Hc [Hs Hx]]]]]]].
  destruct (collectProjects_inv _ _ _ _ _ Hc) as [_ Hcol].
  pose proof (destructive_temp_not_language _ _ _ _ Hx) as Nt.
  pose proof Hcol as [ND Hall].
  assert (Hst : forall slug vs, In (slug, vs) projects ->
            NoDup (keys vs) /\ vs <> []
            /\ forall lang d, In (lang, d) vs ->
                 diverge (projectsDir ++ [tempName]) (sourcePath d) = true).
  { intros slug vs Hin. destruct (Hall _ _ Hin) as [H1 [H2 H3]].
    split; [exact H1 |]. split; [exact H2 |].
    intros lang d Hd'. destruct (H3 _ _ Hd') as [Hl [Hsp _]]. rewrite Hsp.
    change (projectsDir ++ [tempName]) with (projectsDir ++ tempName :: []).
    change (projectsDir ++ [lang; slug]) with (projectsDir ++ lang :: [slug]).
    apply diverge_heads. intros E. apply Nt. now rewrite E. }
  unfold staging in Hs. simpl when in Hs. unfold path_join in Hs.
  apply bind_Ret_inv in Hs. destruct Hs as [[] [w0 [Hmk Hloop]]].
  pose proof (mkdirSync_wf _ _ _ _ Hmk W) as W0.
  destruct (stage_loop_inv _ _ _ _ Hloop ND Hst) as [_ [_ [_ Swf]]].
  specialize (Swf W0).
  unfold destructive in Hx.
  apply bind_Ret_inv in Hx. destruct Hx as [[] [wb [Hb Hx]]].
  apply bind_Ret_inv in Hx. destruct Hx as [ents [w2 [Hr Hx]]].
  apply readdirSync_withFileTypes_inv in Hr. destruct Hr as [-> [est [Hes ->]]].
  apply bind_Ret_inv in Hx. destruct Hx as [[] [wp [Hp Hrm]]].
  rewrite filter_isDirectory_dirents, map_d_name_dirents in Hp.
  destruct (backup_loop_inv _ _ _ _ Hb) as [_ [_ [_ [_ [_ Bwf]]]]].
  exists languages, projects, w0, w1, wb, wp, est.
  split; [exact Hd |]. split; [exact Hne |].
  split; [exact (detectLanguages_NoDup _ _ _ _ W Hd) |].
  split; [exact Hc |]. split; [exact Hcol |]. split; [exact Nt |].
  split; [exact Hst |]. split; [exact Hmk |]. split; [exact Hloop |].
  split; [exact Hb |]. split; [exact Hes |]. split; [exact Hp |].
  split; [exact Hrm |]. split; [exact W0 |]. split; [exact Swf |].
  exact (Bwf Swf).
Qed.

(** What the staging directory holds when the promotion starts are the
    staged items and what it held before the run. *)
Lemma staged_names (projectsDir : path) (projects : Projects)
    (languages : list string) (w w0 w1 wb : World) (x : string) :
  mkdirSync (projectsDir ++ [tempName]) w = Ret tt w0 ->
  forM_ projects (stageProject false (projectsDir ++ [tempName])) w0
  = Ret tt w1 ->
  NoDup (keys projects) ->
  (forall slug vs, In (slug, vs) projects ->
     NoDup (keys vs) /\ vs <> []
     /\ forall lang d, In (lang, d) vs ->
          diverge (projectsDir ++ [tempName]) (sourcePath d) = true) ->
  forM_ languages (backupLang projectsDir (path_join projectsDir backupName))
    w1 = Ret tt wb ->
  ~ In tempName languages ->
  ~ In x (keys projects) ->
  lookup (projectsDir ++ [tempName; x]) (tree w) = None ->
  lookup (projectsDir ++ [tempName; x]) (tree wb) = None.
Proof.
  intros Hmk Hloop ND Hst Hb Nt Hx Hold.
  destruct (stage_loop_inv _ _ _ _ Hloop ND Hst) as [_ [_ [Others _]]].
  destruct (backup_loop_inv _ _ _ _ Hb) as [_ [_ [_ [B4 _]]]].
  change (projectsDir ++ [tempName; x])
    with (projectsDir ++ tempName :: [x]) in *.
  rewrite (B4 tempName [x] Nt) by discriminate.
  rewrite (path_split projectsDir tempName x []), (Others x [] Hx).
  rewrite (mkdirSync_below _ [x] _ _ _ Hmk) by discriminate.
  now rewrite <- (path_split projectsDir tempName x []).
Qed.

Lemma migration_frame_core (projectsDir : path) (w w' : World) :
  wf (tree w) = true ->
  main false projectsDir w = Ret tt w' ->
  lookup (projectsDir ++ [tempName]) (tree w') = None
  /\ exists languages projects,
       detectLanguages projectsDir w = Ret languages w
       /\ collectProjects projectsDir languages w = Ret projects w
       /\ (forall x rest,
             ~ In x languages -> ~ In x (keys projects) ->
             x <> backupName -> x <> tempName ->
             lookup (projectsDir ++ [tempName; x]) (tree w) = None ->
             lookup (projectsDir ++ x :: rest) (tree w')
             = lookup (projectsDir ++ x :: rest) (tree w))
       /\ (forall lang,
             In lang languages -> ~ In lang (keys projects) ->
             lookup (projectsDir ++ [tempName; lang]) (tree w) = None ->
             lookup (projectsDir ++ [lang]) (tree w') = None).
Proof.
  intros W H.
  destruct (migration_trace _ _ _ W H)
    as (languages & projects & w0 & w1 & wb & wp & est & Hd & Hne & NDl & Hc
        & [ND Hall] & Nt & Hst & Hmk & Hloop & Hb & Hes & Hp & Hrm
        & W0 & W1 & Wb).
  split; [exact (removeSync_absent _ _ _ _ Hrm) |].
  exists languages, projects. split; [exact Hd |]. split; [exact Hc |].
  destruct (stage_loop_inv _ _ _ _ Hloop ND Hst) as [Out _].
  destruct (backup_loop_inv _ _ _ _ Hb) as [B1 [_ [B3 [B4 _]]]].
  assert (NDs : NoDup (keys (filter (fun e => isDirectory (snd e)) est))).
  { apply NoDup_keys_filter. eapply wf_lookup_NoDup; eauto. }
  destruct (promote_loop_inv _ _ _ _ Hp NDs) as [_ [_ [P2 _]]].
  assert (Rm : forall x rest, x <> tempName ->
             lookup (projectsDir ++ x :: rest) (tree w')
             = lookup (projectsDir ++ x :: rest) (tree wp)).
  { intros x rest Hx. apply removeSync_inv in Hrm.
    destruct Hrm as [-> | Hg]; [reflexivity |].
    eapply graft_diverge; [exact Hg |].
    apply diverge_heads. congruence. }
  assert (St : forall x rest, x <> tempName ->
             lookup (projectsDir ++ x :: rest) (tree w1)
             = lookup (projectsDir ++ x :: rest) (tree w)).
  { intros x rest Hx.
    assert (D : diverge (projectsDir ++ [tempName]) (projectsDir ++ x :: rest)
                = true) by (apply diverge_heads; congruence).
    rewrite (Out _ D). exact (mkdirSync_diverge _ _ _ _ _ Hmk D). }
  assert (Ns : forall x, ~ In x (keys projects) ->
             lookup (projectsDir ++ [tempName; x]) (tree w) = None ->
             ~ In x (keys (filter (fun e => isDirectory (snd e)) est))).
  { intros x Hx Hold Hi.
    pose proof (staged_names _ _ _ _ _ _ _ _ Hmk Hloop ND Hst Hb Nt Hx Hold)
      as Hn.
    rewrite (path_split projectsDir tempName x []), lookup_app, Hes in Hn.
    simpl in Hn.
    assert (Hk : In x (keys est)).
    { unfold keys in *. apply in_map_iff in Hi.
      destruct Hi as [e [He Hi]]. apply filter_In in Hi.
      apply in_map_iff. exists e. tauto. }
    apply aget_Some_keys in Hk. destruct Hk as [v Hv].
    rewrite Hv in Hn. discriminate. }
  split.
  - intros x rest Hl Hx Hb' Ht Hold.
    rewrite (Rm _ _ Ht), (P2 x rest (Ns x Hx Hold) Ht), (B4 x rest Hl Hb').
    now apply St.
  - intros lang Hl Hx Hold.
    change (projectsDir ++ [lang]) with (projectsDir ++ lang :: []).
    assert (Ht : lang <> tempName) by (intros ->; contradiction).
    rewrite (Rm _ _ Ht), (P2 lang [] (Ns lang Hx Hold) Ht).
    apply B3; [exact Hl |]. apply B1; [exact Hl |].
    change (projectsDir ++ [lang]) with (projectsDir ++ lang :: []).
    rewrite (St _ _ Ht).
    destruct (detected_exists _ _ _ _ W Hd lang Hl) as [n [Hn _]].
    change (projectsDir ++ lang :: []) with (projectsDir ++ [lang]).
    congruence.
Qed.

(** X5.  After a successful live migration the staging directory is
    gone.  Every entry of the content root that is neither a language
    folder, nor named like a collected item, nor the backup or staging
    directory, and whose name was not the name of an entry of a staging
    directory left from before the run, is what it was; and a language
    folder whose name is neither the name of a collected item nor the
    name of an entry of such a left-over staging directory is gone from
    the content root. *)
Theorem migration_frame (projectsDir : path) (w w' : World) :
  wf (tree w) = true ->
  main false projectsDir w = Ret tt w' ->
  lookup (projectsDir ++ [tempName]) (tree w') = None
  /\ exists languages projects,
       detectLanguages projectsDir w = Ret languages w
       /\ collectProjects projectsDir languages w = Ret projects w
       /\ (forall x rest,
             ~ In x languages -> ~ In x (keys projects) ->
             x <> backupName -> x <> tempName ->
             lookup (projectsDir ++ [tempName; x]) (tree w) = None ->
             lookup (projectsDir ++ x :: rest) (tree w')
             = lookup (projectsDir ++ x :: rest) (tree w))
       /\ (forall lang,
             In lang languages -> ~ In lang (keys projects) ->
             lookup (projectsDir ++ [tempName; lang]) (tree w) = None ->
             lookup (projectsDir ++ [lang]) (tree w') = None).
Proof. apply migration_frame_core. Qed.

(** X6.  After a successful live migration of a content root that had
    no staging directory, the directory of every collected item lists
    its documents [{lang}.md] and its media files, all of them regular
    files, and nothing else. *)
Theorem migrated_item_listing (projectsDir : path) (w w' : World) :
  wf (tree w) = true ->
  main false projectsDir w = Ret tt w' ->
  lookup (projectsDir ++ [tempName]) (tree w) = None ->
  exists languages projects,
    detectLanguages projectsDir w = Ret languages w
    /\ collectProjects projectsDir languages w = Ret projects w
    /\ forall slug versions x,
         In (slug, versions) projects ->
         (lookup (projectsDir ++ [slug; x]) (tree w') <> None
          <-> In x (media_of versions)
              \/ exists lang, In lang (keys versions)
                              /\ x = (lang ++ ".md")%string)
         /\ forall n, lookup (projectsDir ++ [slug; x]) (tree w') = Some n ->
                      isDirectory n = false.
Proof.
  intros W H Hfresh.
  destruct (migration_inv _ _ _ W H)
    as [languages [projects [Hd [Hc [[ND Hall] [Nt [_ [Items W']]]]]]]].
  exists languages, projects. split; [exact Hd |]. split; [exact Hc |].
  intros slug versions x Hin.
  destruct (Items _ _ Hin) as [n [Hl [Dn [Media [Docs Others]]]]].
  assert (Hold : lookup (projectsDir ++ [tempName; slug]) (tree w) = None).
  { change (projectsDir ++ [tempName; slug])
      with (projectsDir ++ [tempName] ++ [slug]).
    now rewrite app_assoc, lookup_app, Hfresh. }
  rewrite Hold in Others.
  change (projectsDir ++ [slug; x]) with (projectsDir ++ [slug] ++ [x]).
  rewrite app_assoc, (lookup_under _ [x] _ _ Hl).
  assert (Cases : In x (media_of versions)
                  \/ (~ In x (media_of versions)
                      /\ exists lang d, In (lang, d) versions
                                        /\ x = (lang ++ ".md")%string)
                  \/ (~ In x (media_of versions)
                      /\ forall lang, In lang (keys versions) ->
                                      x <> (lang ++ ".md")%string)).
  { destruct (in_dec string_dec x (media_of versions)) as [Hm | Hm];
      [now left | right].
    destruct (in_dec string_dec x
                (map (fun lang => (lang ++ ".md")%string) (keys versions)))
      as [Hk | Hk].
    - left. split; [exact Hm |]. apply in_map_iff in Hk.
      destruct Hk as [lang [<- Hk]]. unfold keys in Hk.
      apply in_map_iff in Hk. destruct Hk as [[l d] [El Hk]].
      simpl in El. subst l. eauto.
    - right. split; [exact Hm |]. intros lang Hk' ->. apply Hk.
      apply in_map_iff. eauto. }
  destruct Cases as [Hm | [[Hm [lang [d [Hv ->]]]] | [Hm Hk]]].
  - destruct (Media _ Hm) as [l [d [b [_ [_ Hb]]]]]. rewrite Hb.
    split; [split; [auto | discriminate] |]. now intros n0 [= <-].
  - rewrite (Docs _ _ Hv Hm).
    split; [split; [| discriminate] |]; [| now intros n0 [= <-]].
    intros _. right. exists lang. split; [| reflexivity].
    unfold keys. apply in_map_iff. exists (lang, d). auto.
  - rewrite (Others x Hm Hk). split; [split |]; [congruence | | discriminate].
    intros [Hm' | [lang [Hl' ->]]]; [contradiction |].
    exfalso. now apply (Hk lang).
Qed.

(** ** The helpers of the script *)

Lemma mkdirSync_same (dir : path) (w w' : World) (u : unit) :
  mkdirSync dir w = Ret u w' -> lookup dir (tree w) <> None -> w' = w.
Proof.
  unfold mkdirSync. intros H N.
  apply bind_Ret_inv in H. destruct H as [e [w1 [H1 H]]].
  apply existsSync_inv in H1. destruct H1 as [-> He].
  apply He in N. subst e. now injection H as _ <-.
Qed.

(** X7.  [mkdirSync] leaves the world as it is when something exists at
    [dir], a regular file included; otherwise [dir] is a new empty
    directory.  Nothing is removed, and nothing changes at the paths
    that leave [dir]. *)
Theorem mkdirSync_creates (dir : path) (w w' : World) :
  mkdirSync dir w = Ret tt w' ->
  lookup dir (tree w')
  = Some (match lookup dir (tree w) with Some n => n | None => Dir [] end)
  /\ (lookup dir (tree w) <> None -> w' = w)
  /\ persists (tree w) (tree w')
  /\ (forall q, diverge dir q = true ->
                lookup q (tree w') = lookup q (tree w)).
Proof.
  intros H. split; [exact (mkdirSync_lookup _ _ _ _ H) |].
  split; [exact (mkdirSync_same _ _ _ _ H) |]. split.
  - pose proof (keeps_persists_mkdirSync dir w) as K. now rewrite H in K.
  - intros q D. exact (mkdirSync_diverge _ _ _ _ _ H D).
Qed.

(** Creating the parent of [dest] changes nothing at the paths that
    leave [dest]. *)
Lemma mkdirSync_dirname_frame (dest q : path) (w w1 : World) (u : unit) :
  mkdirSync (dirname dest) w = Ret u w1 ->
  diverge dest q = true ->
  lookup q (tree w1) = lookup q (tree w).
Proof.
  intros H D.
  induction dest as [| x0 dd _] using rev_ind; [discriminate |].
  unfold dirname in H. rewrite removelast_last in H.
  destruct (diverge dd q) eqn:D0.
  - exact (mkdirSync_diverge _ _ _ _ _ H D0).
  - apply related_paths in D0. destruct D0 as [[r ->] | [r [Hr ->]]].
    + destruct r as [| y r].
      * rewrite app_nil_r in D. rewrite diverge_sym, diverge_self_app in D.
        discriminate.
      * apply (mkdirSync_below _ (y :: r) _ _ _ H). discriminate.
    + rewrite <- app_assoc, diverge_sym, diverge_self_app in D. discriminate.
Qed.

Lemma rename_moves (src dest : path) (t t' : node) :
  rename src dest t = Some t' -> src <> dest ->
  diverge src dest = true
  /\ lookup dest t' = lookup src t
  /\ lookup src t <> None
  /\ lookup src t' = None.
Proof.
  unfold rename. intros H Hne.
  destruct (lookup src t) as [v |] eqn:Hs; [| discriminate].
  destruct (is_prefix src dest) eqn:P1.
  { destruct (is_prefix dest src) eqn:P2; [| discriminate].
    exfalso. apply Hne. now apply is_prefix_antisym. }
  assert (P2 : is_prefix dest src = false).
  { destruct (is_prefix dest src) eqn:P2; [| reflexivity]. exfalso.
    apply is_prefix_spec in P2. destruct P2 as [r ->].
    destruct r as [| y r].
    - apply Hne. now rewrite app_nil_r.
    - rewrite lookup_app in Hs.
      destruct (lookup dest t) as [[b | [| e es]] |]; simpl in Hs;
        discriminate. }
  pose proof (not_prefix_diverge _ _ P1 P2) as D.
  destruct (graft src None t) as [t1 |] eqn:G1.
  - assert (G2 : graft dest (Some v) t1 = Some t').
    { destruct (lookup dest t) as [[b | [| e es]] |]; destruct v;
        try discriminate; exact H. }
    split; [exact D |]. split; [| split].
    + eapply graft_same; eauto.
    + discriminate.
    + rewrite (graft_diverge _ _ _ _ _ G2) by (now rewrite diverge_sym).
      eapply graft_same; eauto.
  - exfalso. destruct (lookup dest t) as [[b | [| e es]] |]; destruct v;
      discriminate.
Qed.

(** X8.  A successful [moveSync] to another path moves the whole
    subtree: [dest] leads to what [src] led to, nothing is left at
    [src], and the paths that leave both are as they were.  The two
    paths cannot lie one inside the other. *)
Theorem moveSync_moves (src dest : path) (w w' : World) :
  moveSync src dest w = Ret tt w' ->
  src <> dest ->
  diverge src dest = true
  /\ lookup dest (tree w') = lookup src (tree w)
  /\ lookup src (tree w) <> None
  /\ lookup src (tree w') = None
  /\ (forall q, diverge src q = true -> diverge dest q = true ->
                lookup q (tree w') = lookup q (tree w)).
Proof.
  unfold moveSync. intros H Hne.
  apply bind_Ret_inv in H. destruct H as [[] [w1 [Hmk H]]].
  unfold fs_renameSync in H. apply mutate_Ret_inv in H. destruct H as [H _].
  destruct (rename_moves _ _ _ _ H Hne) as [D [H1 [H2 H3]]].
  assert (Es : lookup src (tree w1) = lookup src (tree w)).
  { apply (mkdirSync_dirname_frame dest src _ _ _ Hmk).
    now rewrite diverge_sym. }
  rewrite Es in *.
  split; [exact D |]. split; [exact H1 |]. split; [exact H2 |].
  split; [exact H3 |].
  intros q D1 D2. rewrite (rename_diverge _ _ _ _ _ H D1 D2).
  exact (mkdirSync_dirname_frame dest q _ _ _ Hmk D2).
Qed.

Lemma mkdirSync_File_back (dir p : path) (w w1 : World) (u : unit)
    (b : string) :
  mkdirSync dir w = Ret u w1 ->
  lookup p (tree w1) = Some (File b) -> lookup p (tree w) = Some (File b).
Proof.
  intros H Hp. pose proof (mkdirSync_lookup _ _ _ _ H) as L.
  destruct (lookup dir (tree w)) as [n |] eqn:E.
  - assert (w1 = w) by (apply (mkdirSync_same _ _ _ _ H); congruence).
    now subst.
  - destruct (diverge dir p) eqn:D.
    + now rewrite <- (mkdirSync_diverge _ _ _ _ _ H D).
    + exfalso. apply related_paths in D. destruct D as [[r ->] | [r [Hr ->]]].
      * rewrite lookup_app, L in Hp. destruct r as [| y r]; discriminate.
      * rewrite (lookup_File_app _ _ _ _ Hp Hr) in L. discriminate.
Qed.

Lemma copy_file_not_dir (src dest : path) (t t' : node) :
  copy_file src dest t = Some t' ->
  forall es, lookup dest t <> Some (Dir es).
Proof.
  unfold copy_file. destruct (lookup src t) as [[b | es0] |]; try discriminate.
  destruct (lookup dest t) as [[b' | es'] |]; congruence.
Qed.

(** X9.  A successful [copyFileSync] copies a regular file: [dest] is a
    regular file with the bytes of [src].  Nothing is removed (a regular
    file at [dest] is overwritten), and the paths that leave [dest] are
    as they were. *)
Theorem copyFileSync_copies (src dest : path) (w w' : World) :
  copyFileSync src dest w = Ret tt w' ->
  exists b,
    lookup src (tree w) = Some (File b)
    /\ lookup dest (tree w') = Some (File b)
    /\ persists (tree w) (tree w')
    /\ (forall q, diverge dest q = true ->
                  lookup q (tree w') = lookup q (tree w)).
Proof.
  unfold copyFileSync. intros H.
  apply bind_Ret_inv in H. destruct H as [[] [w1 [Hmk H]]].
  unfold fs_copyFileSync in H. apply mutate_Ret_inv in H. destruct H as [H _].
  pose proof (copy_file_not_dir _ _ _ _ H) as Nd.
  apply copy_file_inv in H. destruct H as [b [Hb Hg]].
  exists b. split; [exact (mkdirSync_File_back _ _ _ _ _ _ Hmk Hb) |].
  split; [eapply graft_same; eauto |]. split.
  - apply persists_trans with (t2 := tree w1).
    + pose proof (keeps_persists_mkdirSync (dirname dest) w) as K.
      now rewrite Hmk in K.
    + eapply graft_file_persists; eauto.
  - intros q D. rewrite (graft_diverge _ _ _ _ _ Hg D).
    exact (mkdirSync_dirname_frame dest q _ _ _ Hmk D).
Qed.

(** X10.  After a successful [removeSync] nothing exists at [dir], and
    the paths that leave [dir] are as they were; when nothing existed at
    [dir] the world is unchanged. *)
Theorem removeSync_removes (dir : path) (w w' : World) :
  removeSync dir w = Ret tt w' ->
  lookup dir (tree w') = None
  /\ (forall q, diverge dir q = true ->
                lookup q (tree w') = lookup q (tree w))
  /\ (lookup dir (tree w) = None -> w' = w).
Proof.
  intros H. split; [exact (removeSync_absent _ _ _ _ H) |].
  unfold removeSync in H.
  apply bind_Ret_inv in H. destruct H as [e [w1 [H1 H]]].
  apply existsSync_inv in H1. destruct H1 as [-> He]. destruct e.
  - apply mutate_Ret_inv in H. destruct H as [H _]. split.
    + intros q D. eapply graft_diverge; eauto.
    + intros N. exfalso. now apply (proj1 He).
  - injection H as <-. split; [reflexivity | reflexivity].
Qed.

(** ** Running the script again *)

Lemma backup_loop_others (projectsDir : path) (langs : list string)
    (w w' : World) :
  forM_ langs (backupLang projectsDir (path_join projectsDir backupName)) w
  = Ret tt w' ->
  forall y rest, ~ In y langs ->
    lookup (projectsDir ++ backupName :: y :: rest) (tree w')
    = lookup (projectsDir ++ backupName :: y :: rest) (tree w).
Proof.
  revert w. induction langs as [| l0 langs IH]; intros w H y rest Hy.
  - now injection H as <-.
  - destruct (backup_loop_inv _ _ _ _ H) as [B1 _].
    apply forM__Ret_inv in H. destruct H as [w1 [H0 H]].
    rewrite (IH _ H) by (intros Hi; apply Hy; now right).
    apply backupLang_inv in H0.
    destruct H0 as [[_ ->] | [Hsome [wm [Hmk Hr]]]]; [reflexivity |].
    assert (N0 : l0 <> backupName) by (apply B1; [now left | exact Hsome]).
    rewrite (rename_diverge _ _ (projectsDir ++ backupName :: y :: rest)
               _ _ Hr).
    + rewrite (path_split projectsDir backupName y rest).
      apply (mkdirSync_below _ (y :: rest) _ _ _ Hmk). discriminate.
    + apply diverge_heads. exact N0.
    + rewrite (path_split projectsDir backupName l0 []),
        (path_split projectsDir backupName y rest).
      apply diverge_heads. intros ->. apply Hy. now left.
Qed.

Lemma migration_backup_others (projectsDir : path) (w w' : World) :
  wf (tree w) = true ->
  main false projectsDir w = Ret tt w' ->
  lookup (projectsDir ++ [backupName]) (tree w) = None ->
  exists languages,
    detectLanguages projectsDir w = Ret languages w
    /\ languages <> []
    /\ forall y rest, ~ In y languages ->
         lookup (projectsDir ++ backupName :: y :: rest) (tree w') = None.
Proof.
  intros W H Hbk.
  destruct (migration_trace _ _ _ W H)
    as (languages & projects & w0 & w1 & wb & wp & est & Hd & Hne & NDl & Hc
        & [ND Hall] & Nt & Hst & Hmk & Hloop & Hb & Hes & Hp & Hrm
        & W0 & W1 & Wb).
  exists languages. split; [exact Hd |]. split; [exact Hne |].
  intros y rest Hy.
  destruct (stage_loop_inv _ _ _ _ Hloop ND Hst) as [Out _].
  destruct (backup_loop_inv _ _ _ _ Hb) as [_ [B2 _]].
  assert (NDs : NoDup (keys (filter (fun e => isDirectory (snd e)) est))).
  { apply NoDup_keys_filter. eapply wf_lookup_NoDup; eauto. }
  destruct (promote_loop_inv _ _ _ _ Hp NDs) as [_ [_ [P2 [P3 _]]]].
  assert (Nbs : ~ In backupName
                  (keys (filter (fun e => isDirectory (snd e)) est))).
  { intros Hi. destruct languages as [| l0 ls]; [congruence |].
    destruct (detected_exists _ _ _ _ W Hd l0 (or_introl eq_refl))
      as [n [Hn _]].
    assert (Hn1 : lookup (projectsDir ++ [l0]) (tree w1) = Some n).
    { assert (D : diverge (projectsDir ++ [tempName]) (projectsDir ++ [l0])
                  = true).
      { apply diverge_heads. intros E. apply Nt. rewrite E. now left. }
      rewrite (Out _ D). now rewrite (mkdirSync_diverge _ _ _ _ _ Hmk D). }
    pose proof (B2 l0 n (or_introl eq_refl) Hn1) as Hb2.
    change (projectsDir ++ [backupName; l0])
      with (projectsDir ++ backupName :: l0 :: []) in Hb2.
    rewrite (P3 backupName l0 [] Hi) in Hb2. discriminate. }
  assert (Rm : lookup (projectsDir ++ backupName :: y :: rest) (tree w')
               = lookup (projectsDir ++ backupName :: y :: rest) (tree wp)).
  { apply removeSync_inv in Hrm. destruct Hrm as [-> | Hg]; [reflexivity |].
    eapply graft_diverge; [exact Hg |]. apply diverge_heads. discriminate. }
  rewrite Rm, (P2 backupName (y :: rest) Nbs) by discriminate.
  rewrite (backup_loop_others _ _ _ _ Hb y rest Hy).
  assert (D : diverge (projectsDir ++ [tempName])
                (projectsDir ++ backupName :: y :: rest) = true)
    by (apply diverge_heads; discriminate).
  rewrite (Out _ D), (mkdirSync_diverge _ _ _ _ _ Hmk D).
  rewrite (path_split projectsDir backupName y rest), lookup_app, Hbk.
  reflexivity.
Qed.

Lemma staged_item_files (t0 : node) (vs : alist ProjectData) (n : node)
    (x : string) (m : node) :
  staged_item t0 None vs n -> lookup [x] n = Some m -> isDirectory m = false.
Proof.
  intros [Media [Docs Others]] Hx.
  destruct (in_dec string_dec x (media_of vs)) as [Hm | Hm].
  - destruct (Media _ Hm) as [l [d [b [_ [_ Hb]]]]].
    rewrite Hb in Hx. now injection Hx as <-.
  - destruct (in_dec string_dec x
                (map (fun lang => (lang ++ ".md")%string) (keys vs)))
      as [Hk | Hk].
    + apply in_map_iff in Hk. destruct Hk as [lang [<- Hk]].
      unfold keys in Hk. apply in_map_iff in Hk.
      destruct Hk as [[l d] [El Hk]]. simpl in El. subst l.
      rewrite (Docs _ _ Hk Hm) in Hx. now injection Hx as <-.
    + rewrite (Others x Hm) in Hx; [discriminate |].
      intros lang Hl ->. apply Hk. apply in_map_iff. eauto.
Qed.

Lemma filter_none {A} (f : A -> bool) (l : list A) :
  (forall x, In x l -> f x = false) -> filter f l = [].
Proof.
  induction l as [| a l IH]; intros H; simpl; [reflexivity |].
  rewrite (H a (or_introl eq_refl)). apply IH. intros x Hx. apply H. now right.
Qed.

Lemma existsb_none {A} (f : A -> bool) (l : list A) :
  (forall x, In x l -> f x = false) -> existsb f l = false.
Proof.
  induction l as [| a l IH]; intros H; simpl; [reflexivity |].
  rewrite (H a (or_introl eq_refl)). apply IH. intros x Hx. apply H. now right.
Qed.

(** X11.  A second run finds nothing to do.  After a successful live
    migration of a content root that had no staging and no backup
    directory, and whose language folders hold no entry [index.md] of
    their own, [detectLanguages] returns no language, and [main], dry or
    live, exits with code 0 in the world it started from. *)
Theorem second_run_is_noop (dryRun : bool) (projectsDir : path)
    (w w' : World) :
  wf (tree w) = true ->
  main false projectsDir w = Ret tt w' ->
  lookup (projectsDir ++ [tempName]) (tree w) = None ->
  lookup (projectsDir ++ [backupName]) (tree w) = None ->
  (forall lang n,
     lookup (projectsDir ++ [lang]) (tree w) = Some n ->
     is_language_folder n = true ->
     lookup (projectsDir ++ [lang; "index.md"]) (tree w) = None) ->
  detectLanguages projectsDir w' = Ret [] w'
  /\ main dryRun projectsDir w' = Exit 0 w'.
Proof.
  intros W H Htmp Hbk Hidx.
  destruct (migration_inv _ _ _ W H)
    as [languages [projects [Hd [Hc [[ND Hall] [Nt [Backup [Items W']]]]]]]].
  destruct (migration_frame_core _ _ _ W H)
    as [Gone [languages1 [projects1 [Hd1 [Hc1 [Others Moved]]]]]].
  rewrite Hd in Hd1. injection Hd1 as <-.
  rewrite Hc in Hc1. injection Hc1 as <-.
  destruct (migration_backup_others _ _ _ W H Hbk)
    as [languages2 [Hd2 [Hne Bothers]]].
  rewrite Hd in Hd2. injection Hd2 as <-.
  assert (Hold : forall x, lookup (projectsDir ++ [tempName; x]) (tree w)
                           = None).
  { intros x. change (projectsDir ++ [tempName; x])
      with (projectsDir ++ [tempName] ++ [x]).
    now rewrite app_assoc, lookup_app, Htmp. }
  (* the content root before and after *)
  assert (Hr : exists es, lookup projectsDir (tree w) = Some (Dir es)).
  { destruct languages as [| l0 ls]; [congruence |].
    destruct (detected_exists _ _ _ _ W Hd l0 (or_introl eq_refl))
      as [n [Hn _]].
    destruct (lookup_join_Some _ _ _ _ Hn) as [es [Hr _]]. eauto. }
  destruct Hr as [es Hr].
  pose proof (detectLanguages_spec _ _ _ W Hr) as Hspec.
  rewrite Hd in Hspec. injection Hspec as El.
  assert (Hr' : exists es', lookup projectsDir (tree w') = Some (Dir es')).
  { destruct languages as [| l0 ls]; [congruence |].
    destruct (Backup l0 (or_introl eq_refl)) as [Hex Hb].
    rewrite (path_split projectsDir backupName l0 []) in Hb.
    destruct (lookup (projectsDir ++ [l0]) (tree w)) as [v |]; [| congruence].
    destruct (lookup_join_Some _ _ _ _ Hb) as [bs [Hb' _]].
    destruct (lookup_join_Some _ _ _ _ Hb') as [es' [Hr' _]]. eauto. }
  destruct Hr' as [es' Hr'].
  assert (Hnone : filter (fun e => is_language_folder (snd e)) es' = []).
  { apply filter_none. intros [x n] Hin. simpl.
    pose proof (lookup_entry _ _ _ _ _ W' Hr' Hin) as Hx.
    unfold path_join in Hx.
    destruct (string_dec x backupName) as [-> | Nb].
    { (* the backup directory *)
      destruct n as [b | bs]; [reflexivity |]. simpl.
      apply existsb_none. intros [l m] Hl. simpl.
      destruct m as [b | fs]; [reflexivity |].
      assert (Wn : wf (Dir bs) = true) by (eapply wf_lookup; eauto).
      pose proof (lookup_entry _ _ _ _ _ W' Hx Hl) as Hm.
      unfold path_join in Hm. rewrite <- app_assoc in Hm. simpl in Hm.
      destruct (in_dec string_dec l languages) as [Hin' | Hin'].
      - destruct (Backup l Hin') as [_ Hb]. rewrite Hm in Hb. symmetry in Hb.
        destruct (detected_exists _ _ _ _ W Hd l Hin') as [n0 [Hn0 Hl0]].
        rewrite Hn0 in Hb. injection Hb as ->.
        pose proof (Hidx _ _ Hn0 Hl0) as Hi.
        change (projectsDir ++ [l; "index.md"])
          with (projectsDir ++ [l] ++ ["index.md"]) in Hi.
        rewrite app_assoc, lookup_app, Hn0 in Hi. simpl in Hi.
        unfold has. now destruct (aget "index.md" fs).
      - rewrite (Bothers l [] Hin') in Hm. discriminate. }
    destruct (string_dec x tempName) as [-> | Ntm].
    { rewrite Gone in Hx. discriminate. }
    destruct (in_dec string_dec x (keys projects)) as [Hp | Hp].
    { (* an item *)
      unfold keys in Hp. apply in_map_iff in Hp.
      destruct Hp as [[s vs] [E Hp]]. simpl in E. subst s.
      destruct (Items _ _ Hp) as [n0 [Hn0 [Dn0 St]]].
      rewrite Hx in Hn0. injection Hn0 as <-. rewrite Hold in St.
      destruct n as [b | fs]; [reflexivity |]. simpl.
      apply existsb_none. intros [y m] Hy. simpl.
      assert (Wn : wf (Dir fs) = true) by (eapply wf_lookup; eauto).
      assert (Hm : lookup [y] (Dir fs) = Some m).
      { simpl.
        rewrite (In_aget _ _ _ (proj1 (proj1 (wf_Dir _) Wn)) Hy).
        reflexivity. }
      pose proof (staged_item_files _ _ _ _ _ St Hm) as Dm.
      now destruct m. }
    destruct (in_dec string_dec x languages) as [Hl | Hl].
    { rewrite (Moved x Hl Hp (Hold x)) in Hx. discriminate. }
    (* an entry that the run left alone *)
    change (projectsDir ++ [x]) with (projectsDir ++ x :: []) in Hx.
    rewrite (Others x [] Hl Hp Nb Ntm (Hold x)) in Hx.
    change (projectsDir ++ x :: []) with (path_join projectsDir x) in Hx.
    rewrite (lookup_child _ _ _ _ Hr) in Hx. apply aget_In in Hx.
    destruct (is_language_folder n) eqn:En; [exfalso | reflexivity].
    apply Hl. rewrite El. unfold keys. apply in_map_iff. exists (x, n).
    split; [reflexivity |]. apply filter_In. auto. }
  assert (Hd' : detectLanguages projectsDir w' = Ret [] w').
  { rewrite (detectLanguages_spec _ _ _ W' Hr'). now rewrite Hnone. }
  split; [exact Hd' |].
  unfold main, catch. now rewrite (bind_Ret _ _ _ _ _ Hd').
Qed.

(** ** An existing backup is never overwritten *)

Lemma dir_kept_refl (d : path) (t : node) : dir_kept d t t.
Proof. intros _ rest. reflexivity. Qed.

Lemma dir_kept_trans (d : path) (t1 t2 t3 : node) :
  dir_kept d t1 t2 -> dir_kept d t2 t3 -> dir_kept d t1 t3.
Proof.
  intros H1 H2 Hd rest. pose proof (H1 Hd) as E1.
  rewrite H2, E1; [reflexivity |].
  destruct Hd as [e [es Hd]]. exists e, es.
  rewrite <- (app_nil_r d), E1, app_nil_r. exact Hd.
Qed.

Lemma dir_kept_outside (p d : path) (t t' : node) :
  diverge p d = true -> same_outside p t t' -> dir_kept d t t'.
Proof. intros D H _ rest. apply H. now apply diverge_extend_r. Qed.

Lemma keeps_kept_mkdirSync (d p r : path) :
  d = p ++ r -> keeps (dir_kept d) (mkdirSync p).
Proof.
  intros ->. pose proof (dir_kept_refl (p ++ r)) as Rr.
  pose proof (dir_kept_trans (p ++ r)) as Rt.
  unfold mkdirSync.
  apply keeps_bind; trivial; [now apply keeps_existsSync | intros e].
  destruct (negb e); [| now apply keeps_ret].
  apply keeps_mutate; trivial. intros t t' H [e0 [es Hd]] rest.
  pose proof (mkdirp_lookup _ _ _ H) as L.
  rewrite lookup_app in Hd.
  destruct (lookup p t) as [n |] eqn:E; [| discriminate].
  now rewrite <- app_assoc, !(lookup_app p), L, E.
Qed.

Lemma rename_kept (d src dest : path) (t t' : node) :
  rename src dest t = Some t' ->
  diverge src d = true \/ is_prefix src dest = true ->
  diverge dest d = true \/ (exists r, d = dest ++ r) ->
  dir_kept d t t'.
Proof.
  unfold rename. intros H Hs Hdst [e [es Hd]] rest.
  destruct (lookup src t) as [v |]; [| discriminate].
  destruct (is_prefix src dest) eqn:P.
  { destruct (is_prefix dest src); [now injection H as <- | discriminate]. }
  destruct Hs as [Ds | Ds]; [| discriminate].
  destruct Hdst as [Dd | [r ->]].
  - destruct (graft src None t) as [t1 |] eqn:G1.
    + assert (G2 : graft dest (Some v) t1 = Some t').
      { destruct (lookup dest t) as [[b | [| e0 es0]] |]; destruct v;
          try discriminate; exact H. }
      rewrite (graft_diverge _ _ _ _ _ G2) by (now apply diverge_extend_r).
      apply (graft_diverge _ _ _ _ _ G1). now apply diverge_extend_r.
    + destruct (lookup dest t) as [[b | [| e0 es0]] |]; destruct v;
        discriminate.
  - exfalso. rewrite lookup_app in Hd.
    destruct (lookup dest t) as [[b | [| e0 es0]] |]; destruct r;
      simpl in Hd; discriminate.
Qed.

Lemma keeps_kept_main (dryRun : bool) (projectsDir : path) (lang : string) :
  keeps (dir_kept (projectsDir ++ [backupName; lang]))
        (main dryRun projectsDir).
Proof.
  set (d := projectsDir ++ [backupName; lang]).
  pose proof (dir_kept_refl d) as Rr. pose proof (dir_kept_trans d) as Rt.
  assert (Dt : diverge (projectsDir ++ [tempName]) d = true)
    by (apply diverge_heads; discriminate).
  unfold main. apply keeps_catch; trivial; [| now apply keeps_exit].
  apply keeps_bind; trivial.
  { apply readonly_keeps; trivial. apply detectLanguages_readonly. }
  intros languages. destruct (Nat.eqb _ 0); [now apply keeps_exit |].
  apply keeps_bind; trivial.
  { apply readonly_keeps; trivial. apply collectProjects_readonly. }
  intros projects. unfold migrate. destruct dryRun.
  { apply readonly_keeps; trivial. intros w.
    now rewrite (bind_Ret _ _ _ _ _ (staging_dry projectsDir projects w)). }
  apply keeps_bind; trivial.
  { eapply keeps_weaken; [| apply keeps_staging].
    intros t t'. now apply dir_kept_outside. }
  intros _. unfold destructive. apply keeps_bind; trivial.
  { apply keeps_forM_; trivial. intros l. unfold backupLang.
    apply keeps_bind; trivial; [now apply keeps_existsSync | intros e].
    destruct e; [| now apply keeps_ret].
    unfold moveSync. rewrite dirname_path_join. unfold path_join.
    apply keeps_bind; trivial.
    { apply keeps_kept_mkdirSync with (r := [lang]).
      unfold d. now rewrite <- app_assoc. }
    intros _. apply keeps_mutate; trivial. intros t t' H.
    eapply rename_kept; [exact H | |].
    - destruct (String.eqb l backupName) eqn:E.
      + right. apply eqb_true in E. subst l. apply is_prefix_spec.
        exists [backupName]. reflexivity.
      + left. apply diverge_heads. now apply eqb_false.
    - destruct (String.eqb l lang) eqn:E.
      + right. apply eqb_true in E. subst l. exists [].
        unfold d. now rewrite app_nil_r, <- app_assoc.
      + left. unfold d. rewrite <- app_assoc. simpl.
        rewrite (path_split projectsDir backupName l []),
          (path_split projectsDir backupName lang []).
        apply diverge_heads. now apply eqb_false. }
  intros _. apply keeps_bind; trivial.
  { now apply keeps_readdirSync_withFileTypes. }
  intros ents. apply keeps_bind; trivial.
  { apply keeps_forM_; trivial. intros s. unfold promote, moveSync.
    rewrite dirname_path_join. unfold path_join.
    apply keeps_bind; trivial.
    { apply keeps_kept_mkdirSync with (r := [backupName; lang]). reflexivity. }
    intros _. apply keeps_mutate; trivial. intros t t' H.
    eapply rename_kept; [exact H | |].
    - left. rewrite <- app_assoc. apply diverge_heads. discriminate.
    - destruct (String.eqb s backupName) eqn:E.
      + right. apply eqb_true in E. subst s. exists [lang].
        unfold d. now rewrite <- app_assoc.
      + left. apply diverge_heads. now apply eqb_false. }
  intros _. unfold removeSync.
  apply keeps_bind; trivial; [now apply keeps_existsSync | intros e].
  destruct e; [| now apply keeps_ret].
  apply keeps_mutate; trivial. intros t t' H.
  apply dir_kept_outside with (p := projectsDir ++ [tempName]); [exact Dt |].
  intros q D. eapply graft_diverge; eauto.
Qed.

(** X12.  A non-empty backup of a language is never touched: when
    [_old_structure_backup/{lang}] is a non-empty directory, every path
    through it leads to what it led to before, however the run of
    [main] ends, in either mode and with any fault of the
    environment. *)
Theorem existing_backup_kept (dryRun : bool) (projectsDir : path)
    (lang : string) (w : World) (e : string * node) (es : alist node)
    (rest : path) :
  lookup (projectsDir ++ [backupName; lang]) (tree w) = Some (Dir (e :: es)) ->
  lookup (projectsDir ++ backupName :: lang :: rest)
    (tree (world_of (main dryRun projectsDir w)))
  = lookup (projectsDir ++ backupName :: lang :: rest) (tree w).
Proof.
  intros Hd.
  change (projectsDir ++ backupName :: lang :: rest)
    with (projectsDir ++ [backupName; lang] ++ rest).
  rewrite app_assoc. apply (keeps_kept_main dryRun projectsDir lang w). eauto.
Qed.

(** ** How a run ends *)

Lemma no_exit_ret {A} (a : A) : no_exit (ret a).
Proof. intros w c w'. discriminate. Qed.

Lemma no_exit_throw {A} : no_exit (@throw A).
Proof. intros w c w'. discriminate. Qed.

Lemma no_exit_bind {A B} (m : M A) (f : A -> M B) :
  no_exit m -> (forall a, no_exit (f a)) -> no_exit (bind m f).
Proof.
  intros Hm Hf w c w'. unfold bind.
  destruct (m w) as [a w1 | w1 | c1 w1] eqn:E.
  - apply Hf.
  - discriminate.
  - exfalso. exact (Hm _ _ _ E).
Qed.

Lemma no_exit_when (c : bool) (m : M unit) : no_exit m -> no_exit (when c m).
Proof. destruct c; simpl; [trivial | intros _; apply no_exit_ret]. Qed.

Lemma no_exit_forM_ {A} (body : A -> M unit) (l : list A) :
  (forall x, no_exit (body x)) -> no_exit (forM_ l body).
Proof.
  intros H. induction l as [| x l IH]; simpl.
  - apply no_exit_ret.
  - apply no_exit_bind; auto.
Qed.

Lemma no_exit_foldM {A B} (body : B -> A -> M B) (acc : B) (l : list A) :
  (forall acc x, no_exit (body acc x)) -> no_exit (foldM body acc l).
Proof.
  intros H. revert acc. induction l as [| x l IH]; intros acc; simpl.
  - apply no_exit_ret.
  - apply no_exit_bind; auto.
Qed.

Lemma no_exit_filterM {A} (pred : A -> M bool) (l : list A) :
  (forall x, no_exit (pred x)) -> no_exit (filterM pred l).
Proof.
  intros H. induction l as [| x l IH]; simpl.
  - apply no_exit_ret.
  - apply no_exit_bind; [auto | intros k].
    apply no_exit_bind; [auto | intros r]. apply no_exit_ret.
Qed.

Lemma no_exit_someM {A} (pred : A -> M bool) (l : list A) :
  (forall x, no_exit (pred x)) -> no_exit (someM pred l).
Proof.
  intros H. induction l as [| x l IH]; simpl.
  - apply no_exit_ret.
  - apply no_exit_bind; [auto | intros [|]]; [apply no_exit_ret | assumption].
Qed.

Lemma no_exit_mutate (op : node -> option node) : no_exit (mutate op).
Proof.
  intros w c w'. unfold mutate.
  destruct (faults w) as [| [|] rest]; try discriminate;
    destruct (op (tree w)); discriminate.
Qed.

Lemma no_exit_existsSync (p : path) : no_exit (fs_existsSync p).
Proof. intros w c w'. discriminate. Qed.

Lemma no_exit_readdirSync_withFileTypes (p : path) :
  no_exit (fs_readdirSync_withFileTypes p).
Proof.
  intros w c w'. unfold fs_readdirSync_withFileTypes.
  destruct (lookup p (tree w)) as [[|] |]; discriminate.
Qed.

Lemma no_exit_readdirSync (p : path) : no_exit (fs_readdirSync p).
Proof.
  intros w c w'. unfold fs_readdirSync.
  destruct (lookup p (tree w)) as [[|] |]; discriminate.
Qed.

Lemma no_exit_readFileSync (p : path) : no_exit (fs_readFileSync p).
Proof.
  intros w c w'. unfold fs_readFileSync.
  destruct (lookup p (tree w)) as [[|] |]; discriminate.
Qed.

Create HintDb nx discriminated.
#[export] Hint Resolve no_exit_ret no_exit_throw no_exit_mutate
  no_exit_existsSync no_exit_readdirSync_withFileTypes no_exit_readdirSync
  no_exit_readFileSync : nx.

Ltac nx :=
  repeat first
    [ apply no_exit_bind; [| intro]
    | apply no_exit_when
    | apply no_exit_foldM; intros
    | apply no_exit_forM_; intros
    | apply no_exit_filterM; intros
    | apply no_exit_someM; intros
    | solve [auto with nx]
    | match goal with
      | |- no_exit (if ?c then _ else _) => destruct c
      | |- no_exit (match ?x with Some _ => _ | None => _ end) => destruct x
      | |- no_exit (let (_, _) := ?x in _) => destruct x
      end ].

Lemma no_exit_mkdirSync (dir : path) : no_exit (mkdirSync dir).
Proof. unfold mkdirSync, fs_mkdirSync_recursive. nx. Qed.

Lemma no_exit_collectProjects (projectsDir : path) (languages : list string) :
  no_exit (collectProjects projectsDir languages).
Proof. unfold collectProjects, collectLang, collectSlug. nx. Qed.

Lemma no_exit_migrate (dryRun : bool) (projectsDir : path)
    (languages : list string) (projects : Projects) :
  no_exit (migrate dryRun projectsDir languages projects).
Proof.
  unfold migrate, staging, stageProject, stageVersion, copyMedia, destructive,
    backupLang, promote, removeSync, moveSync, copyFileSync, mkdirSync,
    fs_writeFileSync, fs_copyFileSync, fs_renameSync, fs_mkdirSync_recursive,
    fs_rmSync_recursive_force.
  nx.
Qed.

Lemma detectLanguages_exit (projectsDir : path) (w w' : World) (c : nat) :
  detectLanguages projectsDir w = Exit c w' ->
  c = 1 /\ w' = w /\ lookup projectsDir (tree w) = None.
Proof.
  unfold detectLanguages. unfold bind at 1. unfold fs_existsSync at 1.
  destruct (lookup projectsDir (tree w)) as [n |]; cbv beta iota delta [negb].
  - intros H. exfalso. revert H.
    assert (N : no_exit
                  (entries <- fs_readdirSync_withFileTypes projectsDir ;;
                   langs <- filterM (looksLikeLanguage projectsDir)
                              (filter d_isDirectory entries) ;;
                   ret (map d_name langs))).
    { unfold looksLikeLanguage. nx. }
    apply N.
  - unfold exit. intros [= <- <-]. auto.
Qed.

Lemma bind_Exit {A B} (m : M A) (f : A -> M B) (w w1 : World) (c : nat) :
  m w = Exit c w1 -> bind m f w = Exit c w1.
Proof. unfold bind. now intros ->. Qed.

Lemma main_outcome (dryRun : bool) (projectsDir : path) (w : World) :
  (exists w', main dryRun projectsDir w = Ret tt w')
  \/ (exists w', main dryRun projectsDir w = Exit 1 w')
  \/ (main dryRun projectsDir w = Exit 0 w
      /\ detectLanguages projectsDir w = Ret [] w).
Proof.
  unfold main, catch.
  destruct (detectLanguages projectsDir w) as [languages w1 | w1 | c w1] eqn:Hd.
  - pose proof (readonly_Ret _ _ _ _ (detectLanguages_readonly projectsDir) Hd).
    subst w1. rewrite (bind_Ret _ _ _ _ _ Hd).
    destruct languages as [| l0 ls].
    + right. right. simpl. auto.
    + change (Nat.eqb (List.length (l0 :: ls)) 0) with false. cbv iota.
      destruct ((projects <- collectProjects projectsDir (l0 :: ls) ;;
                 migrate dryRun projectsDir (l0 :: ls) projects) w)
        as [[] w2 | w2 | c w2] eqn:E.
      * left. eauto.
      * right. left. eauto.
      * exfalso. revert E. apply no_exit_bind.
        -- apply no_exit_collectProjects.
        -- intros projects. apply no_exit_migrate.
  - rewrite (bind_Throw _ _ _ _ Hd). right. left. eauto.
  - rewrite (bind_Exit _ _ _ _ _ Hd).
    apply detectLanguages_exit in Hd. destruct Hd as [-> _].
    right. left. eauto.
Qed.

(** X13.  A run of [main] never ends with an uncaught exception: it
    returns normally, or exits with code 1, or exits with code 0 in the
    world it started from; and it exits with code 0 exactly when
    [detectLanguages] returns no language. *)
Theorem main_ends (dryRun : bool) (projectsDir : path) (w : World) :
  ((exists w', main dryRun projectsDir w = Ret tt w')
   \/ (exists w', main dryRun projectsDir w = Exit 1 w')
   \/ main dryRun projectsDir w = Exit 0 w)
  /\ (forall w', main dryRun projectsDir w = Exit 0 w'
                 <-> w' = w /\ detectLanguages projectsDir w = Ret [] w).
Proof.
  split.
  - destruct (main_outcome dryRun projectsDir w) as [H | [H | [H _]]]; auto.
  - intros w'. split.
    + intros E.
      destruct (main_outcome dryRun projectsDir w)
        as [[w1 H] | [[w1 H] | [H Hd]]]; rewrite H in E; try discriminate.
      injection E as <-. auto.
    + intros [-> Hd]. unfold main, catch.
      now rewrite (bind_Ret _ _ _ _ _ Hd).
Qed.

(** When the backup loop succeeds, no language folder was moved onto an
    entry that had content. *)
Lemma backup_loop_dest_empty (projectsDir : path) (langs : list string)
    (w w' : World) :
  forM_ langs (backupLang projectsDir (path_join projectsDir backupName)) w
  = Ret tt w' ->
  NoDup langs ->
  forall lang y rest,
    In lang langs ->
    lookup (projectsDir ++ [lang]) (tree w) <> None ->
    lookup (projectsDir ++ backupName :: lang :: y :: rest) (tree w) = None.
Proof.
  revert w. induction langs as [| l0 langs IH];
    intros w H ND lang y rest Hin Hl; [destruct Hin |].
  destruct (backup_loop_inv _ _ _ _ H) as [B1 _].
  assert (Nlb : lang <> backupName) by (now apply B1).
  inversion ND as [| ? ? Hn ND']; subst.
  apply forM__Ret_inv in H. destruct H as [w1 [H0 H]].
  apply backupLang_inv in H0.
  destruct H0 as [[Hnone Ht] | [Hsome [wm [Hmk Hr]]]].
  - destruct Hin as [-> | Hin]; [contradiction |].
    rewrite <- Ht. apply (IH _ H ND'); [exact Hin | now rewrite Ht].
  - assert (N0 : l0 <> backupName) by (apply B1; [now left | exact Hsome]).
    assert (Below : lookup (projectsDir ++ backupName :: lang :: y :: rest)
                      (tree wm)
                    = lookup (projectsDir ++ backupName :: lang :: y :: rest)
                        (tree w)).
    { rewrite (path_split projectsDir backupName lang (y :: rest)).
      apply (mkdirSync_below _ (lang :: y :: rest) _ _ _ Hmk). discriminate. }
    rewrite <- Below.
    destruct Hin as [-> | Hin].
    + destruct (rename_spec _ _ _ _ Hr) as [_ [_ [_ [_ [_ [E _]]]]]].
      { apply length_app_neq. simpl. lia. }
      specialize (E y rest). rewrite <- app_assoc in E. exact E.
    + assert (Nl : l0 <> lang) by (intros ->; contradiction).
      assert (D1 : diverge (projectsDir ++ [l0])
                     (projectsDir ++ backupName :: lang :: y :: rest) = true)
        by (apply diverge_heads; exact N0).
      assert (D2 : diverge (projectsDir ++ [backupName; l0])
                     (projectsDir ++ backupName :: lang :: y :: rest) = true).
      { rewrite (path_split projectsDir backupName l0 []),
          (path_split projectsDir backupName lang (y :: rest)).
        apply diverge_heads. exact Nl. }
      rewrite <- (rename_diverge _ _ _ _ _ Hr D1 D2).
      apply (IH _ H ND'); [exact Hin |].
      rewrite (rename_diverge _ _ (projectsDir ++ [lang]) _ _ Hr).
      * rewrite (mkdirSync_diverge _ _ _ _ _ Hmk); [exact Hl |].
        apply diverge_heads. congruence.
      * apply diverge_heads. exact Nl.
      * apply diverge_heads. congruence.
Qed.

(** X14.  A live run does not overwrite an existing backup: when
    [_old_structure_backup/{lang}] has an entry for a detected language
    [lang], the run ends with exit code 1. *)
Theorem existing_backup_blocks (projectsDir : path) (w : World)
    (es : alist node) (lang : string) (n : node) (y : string) (m : node) :
  wf (tree w) = true ->
  lookup projectsDir (tree w) = Some (Dir es) ->
  In (lang, n) es -> is_language_folder n = true ->
  lookup (projectsDir ++ [backupName; lang; y]) (tree w) = Some m ->
  exists w', main false projectsDir w = Exit 1 w'.
Proof.
  intros W Hr Hin Hl Hy.
  pose proof (detectLanguages_spec _ _ _ W Hr) as Hspec.
  assert (Hdet : In lang (keys (filter (fun e => is_language_folder (snd e))
                                  es))).
  { unfold keys. apply in_map_iff. exists (lang, n).
    split; [reflexivity |]. apply filter_In. auto. }
  destruct (main_outcome false projectsDir w) as [[w' H] | [H | [_ Hd0]]].
  - exfalso.
    destruct (migration_trace _ _ _ W H)
      as (languages & projects & w0 & w1 & wb & wp & est & Hd & Hne & NDl & Hc
          & [ND Hall] & Nt & Hst & Hmk & Hloop & Hb & Hes & Hp & Hrm
          & W0 & W1 & Wb).
    rewrite Hspec in Hd. injection Hd as <-.
    destruct (stage_loop_inv _ _ _ _ Hloop ND Hst) as [Out _].
    assert (St : forall x rest, x <> tempName ->
               lookup (projectsDir ++ x :: rest) (tree w1)
               = lookup (projectsDir ++ x :: rest) (tree w)).
    { intros x rest Hx.
      assert (D : diverge (projectsDir ++ [tempName])
                    (projectsDir ++ x :: rest) = true)
        by (apply diverge_heads; congruence).
      rewrite (Out _ D). exact (mkdirSync_diverge _ _ _ _ _ Hmk D). }
    assert (E : lookup (projectsDir ++ backupName :: lang :: [y]) (tree w1)
                = None).
    { apply (backup_loop_dest_empty _ _ _ _ Hb NDl lang y [] Hdet).
      change (projectsDir ++ [lang]) with (projectsDir ++ lang :: []).
      rewrite St by (intros ->; contradiction).
      change (projectsDir ++ lang :: []) with (path_join projectsDir lang).
      rewrite (lookup_entry _ _ _ _ _ W Hr Hin). discriminate. }
    rewrite St in E by discriminate.
    change (projectsDir ++ backupName :: lang :: [y])
      with (projectsDir ++ [backupName; lang; y]) in E.
    congruence.
  - exact H.
  - exfalso. rewrite Hspec in Hd0. injection Hd0 as E.
    rewrite E in Hdet. destruct Hdet.
Qed.

(** ** A directory among the media files *)

(** X15.  A directory inside an item folder stops a live run: when the
    folder of an item holds a subdirectory [x], and no language version
    of the item has a regular file of that name, copying the media files
    fails and the run ends with exit code 1; a dry run of the same tree
    returns normally as soon as the collection does. *)
Theorem nested_directory_aborts (projectsDir : path) (w : World)
    (es : alist node) (lang : string) (n : node) (slug x : string)
    (ds : alist node) :
  wf (tree w) = true ->
  lookup projectsDir (tree w) = Some (Dir es) ->
  In (lang, n) es -> is_language_folder n = true ->
  lookup (projectsDir ++ [lang; slug; "index.md"]) (tree w) <> None ->
  x <> "index.md" ->
  lookup (projectsDir ++ [lang; slug; x]) (tree w) = Some (Dir ds) ->
  (forall lang' b,
     lookup (projectsDir ++ [lang'; slug; x]) (tree w) <> Some (File b)) ->
  (exists w', main false projectsDir w = Exit 1 w')
  /\ (forall languages projects,
        detectLanguages projectsDir w = Ret languages w ->
        languages <> [] ->
        collectProjects projectsDir languages w = Ret projects w ->
        main true projectsDir w = Ret tt w).
Proof.
  intros W Hr Hin Hl Hidx Hx Hdir Hnofile.
  pose proof (detectLanguages_spec _ _ _ W Hr) as Hspec.
  assert (Hdet : In lang (keys (filter (fun e => is_language_folder (snd e))
                                  es))).
  { unfold keys. apply in_map_iff. exists (lang, n).
    split; [reflexivity |]. apply filter_In. auto. }
  split.
  - destruct (main_outcome false projectsDir w) as [[w' H] | [H | [_ Hd0]]].
    + exfalso.
      destruct (migration_inv _ _ _ W H)
        as [languages [projects [Hd [Hc [[ND Hall] [_ [_ [Items _]]]]]]]].
      rewrite Hspec in Hd. injection Hd as <-.
      assert (Hdir' : lookup ((projectsDir ++ [lang; slug]) ++ [x]) (tree w)
                      = Some (Dir ds)) by (now rewrite <- app_assoc).
      destruct (lookup_join_Some _ _ _ _ Hdir') as [fs [Hfs Hxfs]].
      assert (Hi : has "index.md" fs = true).
      { change (projectsDir ++ [lang; slug; "index.md"])
          with (projectsDir ++ [lang; slug] ++ ["index.md"]) in Hidx.
        rewrite app_assoc, lookup_app, Hfs in Hidx. simpl in Hidx.
        unfold has. destruct (aget "index.md" fs); congruence. }
      destruct (collectProjects_complete _ _ _ _ _ _ _ _ Hc Hdet Hfs Hi)
        as [vs [Hvs Hk]].
      apply aget_In in Hvs.
      unfold keys in Hk. apply in_map_iff in Hk.
      destruct Hk as [[l d] [E Hd]]. simpl in E. subst l.
      destruct (Hall _ _ Hvs) as [_ [_ Hcol]].
      destruct (Hcol _ _ Hd) as [_ [_ [b [fs' [_ [_ [Hfs' Hfiles]]]]]]].
      rewrite Hfs in Hfs'. injection Hfs' as <-.
      assert (Hm : In x (media_of vs)).
      { unfold media_of. apply in_flat_map. exists (lang, d).
        split; [exact Hd |]. simpl. rewrite Hfiles. apply filter_In.
        split; [apply aget_Some_keys; eauto |].
        now rewrite (neq_eqb _ _ Hx). }
      destruct (Items _ _ Hvs) as [n0 [_ [_ [Media _]]]].
      destruct (Media _ Hm) as [l1 [d1 [b1 [Hfirst [Hsrc _]]]]].
      unfold first_source in Hfirst. apply find_some in Hfirst.
      destruct Hfirst as [Hin1 _].
      destruct (Hcol _ _ Hin1) as [_ [Hsp _]].
      rewrite Hsp in Hsrc. unfold path_join in Hsrc.
      rewrite <- app_assoc in Hsrc. simpl in Hsrc.
      exact (Hnofile _ _ Hsrc).
    + exact H.
    + exfalso. rewrite Hspec in Hd0. injection Hd0 as E.
      rewrite E in Hdet. destruct Hdet.
  - intros languages projects Hd Hne Hc. unfold main, catch.
    rewrite (bind_Ret _ _ _ _ _ Hd).
    destruct languages as [| l0 ls]; [congruence |].
    change (Nat.eqb (List.length (l0 :: ls)) 0) with false. cbv iota.
    rewrite (bind_Ret _ _ _ _ _ Hc). unfold migrate.
    now rewrite (bind_Ret _ _ _ _ _ (staging_dry projectsDir projects w)).
Qed.

(** ** A live migration that meets no obstacle succeeds *)

(** *** System calls that succeed *)

Lemma mutate_ok (op : node -> option node) (w : World) (t' : node) :
  faults w = [] -> op (tree w) = Some t' ->
  mutate op w = Ret tt (mkWorld t' []).
Proof. unfold mutate. intros -> ->. reflexivity. Qed.

Lemma graft_ok (d : path) (x : string) (ov : option node) (t : node)
    (es : alist node) :
  lookup d t = Some (Dir es) -> exists t', graft (d ++ [x]) ov t = Some t'.
Proof.
  revert t. induction d as [| y d IH]; intros t.
  - simpl lookup. intros [= ->]. simpl. eauto.
  - destruct t as [b | es0]; [discriminate |]. simpl lookup.
    destruct (aget y es0) as [c |] eqn:E; [| discriminate]. intros Hc.
    destruct (IH _ Hc) as [c' Hc'].
    change ((y :: d) ++ [x]) with (y :: (d ++ [x])). rewrite graft_cons.
    destruct (d ++ [x]) as [| z r] eqn:Er.
    + destruct d; discriminate.
    + rewrite E, Hc'. eauto.
Qed.

Lemma mkdirp_ok (d : path) (x : string) (t : node) (es : alist node) :
  lookup d t = Some (Dir es) -> aget x es = None ->
  exists t', mkdirp (d ++ [x]) t = Some t'.
Proof.
  revert t. induction d as [| y d IH]; intros t.
  - simpl lookup. intros [= ->] Hx. simpl. rewrite Hx. eauto.
  - destruct t as [b | es0]; [discriminate |]. simpl lookup.
    destruct (aget y es0) as [c |] eqn:E; [| discriminate]. intros Hc Hx.
    destruct (IH _ Hc Hx) as [c' Hc'].
    change ((y :: d) ++ [x]) with (y :: (d ++ [x])). simpl mkdirp.
    rewrite E, Hc'. eauto.
Qed.

Lemma mkdirSync_ok (d : path) (x : string) (w : World) (es : alist node) :
  faults w = [] -> lookup d (tree w) = Some (Dir es) ->
  exists w', mkdirSync (d ++ [x]) w = Ret tt w' /\ faults w' = [].
Proof.
  intros F Hd. unfold mkdirSync.
  destruct (lookup (d ++ [x]) (tree w)) as [n |] eqn:E.
  - rewrite (bind_Ret _ _ _ _ _ (existsSync_Some _ _ _ E)). simpl. eauto.
  - rewrite (bind_Ret _ _ _ _ _ (existsSync_None _ _ E)). simpl.
    assert (Hx : aget x es = None).
    { change (d ++ [x]) with (path_join d x) in E.
      now rewrite (lookup_child _ _ _ _ Hd) in E. }
    destruct (mkdirp_ok _ _ _ _ Hd Hx) as [t' Ht'].
    unfold fs_mkdirSync_recursive. rewrite (mutate_ok _ _ _ F Ht'). eauto.
Qed.

Lemma mkdirSync_exists (dir : path) (w : World) (n : node) :
  lookup dir (tree w) = Some n -> mkdirSync dir w = Ret tt w.
Proof.
  intros E. unfold mkdirSync.
  now rewrite (bind_Ret _ _ _ _ _ (existsSync_Some _ _ _ E)).
Qed.

Lemma diverge_not_prefix (p q : path) :
  diverge p q = true -> is_prefix p q = false.
Proof.
  intros D. destruct (is_prefix p q) eqn:P; [| reflexivity].
  apply is_prefix_spec in P. destruct P as [r ->].
  now rewrite diverge_self_app in D.
Qed.

(** A directory above the place of a [graft] is still a directory. *)
Lemma graft_keeps_dir (p q : path) (ov : option node) (t t' : node)
    (es : alist node) :
  graft p ov t = Some t' -> lookup q t = Some (Dir es) ->
  diverge p q = true \/ (exists r, r <> [] /\ p = q ++ r) ->
  exists es', lookup q t' = Some (Dir es').
Proof.
  intros G Hq [D | [r [Hr ->]]].
  - rewrite (graft_diverge _ _ _ _ _ G D). eauto.
  - destruct (graft_ancestor _ _ _ _ _ Hr G) as [n [n' [H1 [H2 H3]]]].
    apply graft_Dir in H2. destruct H2 as [_ H2].
    destruct n' as [b | es']; [discriminate |]. eauto.
Qed.

Lemma rename_ok (ds : path) (x : string) (dd : path) (y : string)
    (t v : node) (es : alist node) :
  lookup (ds ++ [x]) t = Some v ->
  diverge (ds ++ [x]) (dd ++ [y]) = true ->
  lookup (dd ++ [y]) t = None ->
  lookup dd t = Some (Dir es) ->
  exists t', rename (ds ++ [x]) (dd ++ [y]) t = Some t'.
Proof.
  intros Hs D Hd Hp. unfold rename.
  rewrite Hs, (diverge_not_prefix _ _ D), Hd.
  destruct (lookup_join_Some _ _ _ _ Hs) as [ses [Hds _]].
  destruct (graft_ok ds x None t ses Hds) as [t1 G1]. rewrite G1.
  assert (Hp1 : exists es', lookup dd t1 = Some (Dir es')).
  { eapply graft_keeps_dir; [exact G1 | exact Hp |].
    destruct (diverge (ds ++ [x]) dd) eqn:D1; [now left | right].
    apply related_paths in D1. destruct D1 as [[r ->] | [r [Hr E]]].
    - rewrite <- app_assoc, diverge_self_app in D. discriminate.
    - eauto. }
  destruct Hp1 as [es' Hp1].
  destruct (graft_ok dd y (Some v) t1 es' Hp1) as [t' G2].
  exists t'. now destruct v.
Qed.

(** *** Directories of regular files *)

Lemma flat_aget (fs : alist node) (x : string) (n : node) :
  flat (Dir fs) = true -> aget x fs = Some n -> isDirectory n = false.
Proof.
  simpl. intros F H. apply aget_In in H.
  rewrite forallb_forall in F. specialize (F _ H). simpl in F.
  now destruct (isDirectory n).
Qed.

Lemma flat_aset (fs : alist node) (x : string) (b : string) :
  flat (Dir fs) = true -> flat (Dir (aset x (File b) fs)) = true.
Proof.
  simpl. induction fs as [| [k v] fs IH]; simpl; [reflexivity |].
  intros F. apply andb_true_iff in F. destruct F as [F1 F2].
  destruct (String.eqb x k); simpl.
  - now rewrite F2.
  - now rewrite F1, IH.
Qed.

Lemma writeFileSync_ok (d : path) (x : string) (data : jsstring) (w : World)
    (fs : alist node) :
  faults w = [] -> lookup d (tree w) = Some (Dir fs) ->
  flat (Dir fs) = true ->
  exists w',
    fs_writeFileSync (d ++ [x]) data w = Ret tt w'
    /\ faults w' = []
    /\ lookup d (tree w') = Some (Dir (aset x (File (utf8_encode data)) fs)).
Proof.
  intros F Hd Hf.
  destruct (graft_ok d x (Some (File (utf8_encode data))) _ _ Hd) as [t' G].
  assert (Hw : write_file (d ++ [x]) (utf8_encode data) (tree w) = Some t').
  { unfold write_file. change (d ++ [x]) with (path_join d x).
    rewrite (lookup_child _ _ _ _ Hd).
    destruct (aget x fs) as [[b | es'] |] eqn:E; try exact G.
    pose proof (flat_aget _ _ _ Hf E). discriminate. }
  exists (mkWorld t' []). unfold fs_writeFileSync.
  rewrite (mutate_ok _ _ _ F Hw). split; [reflexivity |].
  split; [reflexivity |]. simpl.
  destruct (graft_parent _ _ _ _ _ G) as [es0 [H0 H1]].
  rewrite Hd in H0. injection H0 as <-. exact H1.
Qed.

Lemma copyFileSync_ok (src d : path) (x : string) (w : World)
    (fs : alist node) (b : string) :
  faults w = [] -> lookup d (tree w) = Some (Dir fs) ->
  flat (Dir fs) = true ->
  lookup src (tree w) = Some (File b) ->
  exists w',
    copyFileSync src (path_join d x) w = Ret tt w'
    /\ faults w' = []
    /\ lookup d (tree w') = Some (Dir (aset x (File b) fs))
    /\ graft (d ++ [x]) (Some (File b)) (tree w) = Some (tree w').
Proof.
  intros F Hd Hf Hs. unfold copyFileSync. rewrite dirname_path_join.
  rewrite (bind_Ret _ _ _ _ _ (mkdirSync_exists _ _ _ Hd)).
  destruct (graft_ok d x (Some (File b)) _ _ Hd) as [t' G].
  assert (Hc : copy_file src (path_join d x) (tree w) = Some t').
  { unfold copy_file. rewrite Hs, (lookup_child _ _ _ _ Hd).
    destruct (aget x fs) as [[b' | es'] |] eqn:E; try exact G.
    pose proof (flat_aget _ _ _ Hf E). discriminate. }
  exists (mkWorld t' []). unfold fs_copyFileSync.
  rewrite (mutate_ok _ _ _ F Hc). split; [reflexivity |].
  split; [reflexivity |]. simpl. split; [| exact G].
  destruct (graft_parent _ _ _ _ _ G) as [es0 [H0 H1]].
  rewrite Hd in H0. injection H0 as <-. exact H1.
Qed.

(** *** Collection succeeds *)

Lemma foldM_ok {A B} (body : B -> A -> M B) (l : list A) (w : World) :
  (forall acc x, In x l -> exists acc', body acc x w = Ret acc' w) ->
  forall acc, exists acc', foldM body acc l w = Ret acc' w.
Proof.
  induction l as [| x l IH]; intros Hb acc; simpl; [eexists; reflexivity |].
  destruct (Hb acc x (or_introl eq_refl)) as [a Ha].
  rewrite (bind_Ret _ _ _ _ _ Ha). apply IH.
  intros acc0 y Hy. apply Hb. now right.
Qed.

Lemma collectSlug_ok (lang : string) (langDir : path) (acc : Projects)
    (slug : string) (w : World) (n : node) :
  lookup (path_join langDir slug) (tree w) = Some n ->
  isDirectory n = true ->
  (is_item_folder n = true -> flat n = true) ->
  exists acc', collectSlug lang langDir acc slug w = Ret acc' w.
Proof.
  intros Hn Dn Hflat. destruct n as [b | fs]; [discriminate |].
  unfold collectSlug.
  destruct (aget "index.md" fs) as [m |] eqn:Ei.
  - assert (Hi : lookup (path_join (path_join langDir slug) "index.md")
                   (tree w) = Some m)
      by (now rewrite (lookup_child _ _ _ _ Hn)).
    rewrite (bind_Ret _ _ _ _ _ (existsSync_Some _ _ _ Hi)).
    cbv beta iota delta [negb].
    rewrite (bind_Ret _ _ _ _ _ (readdirSync_Dir _ _ _ Hn)).
    assert (Fl : flat (Dir fs) = true).
    { apply Hflat. simpl. unfold has. now rewrite Ei. }
    pose proof (flat_aget _ _ _ Fl Ei) as Dm.
    destruct m as [b | ds]; [| discriminate].
    rewrite (bind_Ret _ _ _ _ _ (readFileSync_File _ _ _ Hi)).
    eexists. reflexivity.
  - assert (Hi : lookup (path_join (path_join langDir slug) "index.md")
                   (tree w) = None)
      by (now rewrite (lookup_child _ _ _ _ Hn)).
    rewrite (bind_Ret _ _ _ _ _ (existsSync_None _ _ Hi)).
    eexists. reflexivity.
Qed.

Lemma collectLang_ok (projectsDir : path) (acc : Projects) (lang : string)
    (w : World) (n : node) :
  wf (tree w) = true ->
  lookup (path_join projectsDir lang) (tree w) = Some n ->
  is_language_folder n = true ->
  items_flat n = true ->
  exists acc', collectLang projectsDir acc lang w = Ret acc' w.
Proof.
  intros W Hl Hlang Hflat. destruct n as [b | subs]; [discriminate |].
  unfold collectLang.
  rewrite (bind_Ret _ _ _ _ _ (existsSync_Some _ _ _ Hl)).
  cbv beta iota delta [negb].
  rewrite (bind_Ret _ _ _ _ _ (readdirSync_withFileTypes_Dir _ _ _ Hl)).
  rewrite filter_isDirectory_dirents, map_d_name_dirents.
  apply foldM_ok. intros ps slug Hin.
  unfold keys in Hin. apply in_map_iff in Hin.
  destruct Hin as [[s n] [Es Hin]]. simpl in Es. subst s.
  apply filter_In in Hin. destruct Hin as [Hin Dn]. simpl in Dn.
  apply collectSlug_ok with (n := n); [| exact Dn |].
  - exact (lookup_entry _ _ _ _ _ W Hl Hin).
  - intros Hitem. simpl in Hflat. rewrite forallb_forall in Hflat.
    specialize (Hflat _ Hin). simpl in Hflat. now rewrite Hitem in Hflat.
Qed.

Lemma collectProjects_ok (projectsDir : path) (languages : list string)
    (w : World) :
  wf (tree w) = true ->
  (forall lang, In lang languages ->
     exists n, lookup (path_join projectsDir lang) (tree w) = Some n
               /\ is_language_folder n = true /\ items_flat n = true) ->
  exists projects, collectProjects projectsDir languages w = Ret projects w.
Proof.
  intros W Hl. unfold collectProjects. apply foldM_ok.
  intros ps lang Hin. destruct (Hl _ Hin) as [n [Hn [H1 H2]]].
  eapply collectLang_ok; eauto.
Qed.

(** *** Staging succeeds *)

Lemma write_loop_ok (dir : path) (vs : alist ProjectData) (acc : list Media)
    (w : World) (fs : alist node) :
  faults w = [] -> lookup dir (tree w) = Some (Dir fs) ->
  flat (Dir fs) = true ->
  exists am w' fs',
    foldM (stageVersion false dir) acc vs w = Ret am w'
    /\ faults w' = []
    /\ lookup dir (tree w') = Some (Dir fs')
    /\ flat (Dir fs') = true.
Proof.
  revert acc w fs. induction vs as [| [lang data] vs IH]; intros acc w fs F Hd Hf.
  - exists acc, w, fs. simpl. auto.
  - destruct (writeFileSync_ok dir (lang ++ ".md")%string (content data)
                w fs F Hd Hf) as [w1 [H1 [F1 Hd1]]].
    assert (Hb : stageVersion false dir acc (lang, data) w
                 = Ret (acc ++ map (fun file =>
                                      (file, path_join (sourcePath data) file))
                                   (files data)) w1).
    { unfold stageVersion. simpl when. unfold path_join at 1.
      now rewrite (bind_Ret _ _ _ _ _ H1). }
    simpl foldM. rewrite (bind_Ret _ _ _ _ _ Hb).
    eapply IH; eauto. now apply flat_aset.
Qed.

Lemma copy_loop_ok (dir : path) (am : list Media) (copied : list string)
    (w : World) (fs : alist node) :
  faults w = [] -> lookup dir (tree w) = Some (Dir fs) ->
  flat (Dir fs) = true ->
  (forall m, In m am -> exists b, lookup (snd m) (tree w) = Some (File b)) ->
  (forall m, In m am -> diverge dir (snd m) = true) ->
  exists cm w',
    foldM (copyMedia false dir) copied am w = Ret cm w' /\ faults w' = [].
Proof.
  revert copied w fs.
  induction am as [| [file source] am IH]; intros copied w fs F Hd Hf Hsrc Hdiv.
  - exists copied, w. simpl. auto.
  - simpl foldM. unfold copyMedia at 1.
    assert (Hsrc' : forall m, In m am ->
              exists b, lookup (snd m) (tree w) = Some (File b))
      by (intros m Hm; apply Hsrc; now right).
    assert (Hdiv' : forall m, In m am -> diverge dir (snd m) = true)
      by (intros m Hm; apply Hdiv; now right).
    destruct (includes copied file).
    + unfold bind at 1. unfold ret at 1. eapply IH; eauto.
    + destruct (Hsrc (file, source) (or_introl eq_refl)) as [b Hb].
      simpl in Hb.
      destruct (copyFileSync_ok source dir file w fs b F Hd Hf Hb)
        as [w1 [H1 [F1 [Hd1 G]]]].
      simpl when.
      assert (Hstep : (copyFileSync source (path_join dir file) ;;
                    ret (copied ++ [file])) w = Ret (copied ++ [file]) w1)
        by (now rewrite (bind_Ret _ _ _ _ _ H1)).
      rewrite (bind_Ret _ _ _ _ _ Hstep).
      eapply IH; eauto; [now apply flat_aset |].
      intros m Hm. destruct (Hsrc' m Hm) as [b' Hb'].
      exists b'. rewrite <- Hb'. eapply graft_diverge; [exact G |].
      apply diverge_extend_l. now apply Hdiv'.
Qed.

Lemma stageProject_ok (tempDir : path) (slug : string)
    (vs : alist ProjectData) (w : World) (tes : alist node) :
  faults w = [] ->
  lookup tempDir (tree w) = Some (Dir tes) ->
  lookup (tempDir ++ [slug]) (tree w) = None ->
  (forall lang d f, In (lang, d) vs -> In f (files d) ->
     exists b, lookup (path_join (sourcePath d) f) (tree w) = Some (File b)) ->
  (forall lang d, In (lang, d) vs -> diverge tempDir (sourcePath d) = true) ->
  exists w', stageProject false tempDir (slug, vs) w = Ret tt w'
             /\ faults w' = [].
Proof.
  intros F Ht Hnew Hsrc Hdiv. unfold stageProject. simpl when.
  unfold path_join at 1 2 3. set (dir := tempDir ++ [slug]) in *.
  destruct (mkdirSync_ok tempDir slug w tes F Ht) as [w1 [Hmk F1]].
  fold dir in Hmk. rewrite (bind_Ret _ _ _ _ _ Hmk).
  pose proof (mkdirSync_lookup _ _ _ _ Hmk) as L1. rewrite Hnew in L1.
  destruct (write_loop_ok dir vs [] w1 [] F1 L1 eq_refl)
    as [am [w2 [fs2 [Hwr [F2 [L2 Fl2]]]]]].
  rewrite (bind_Ret _ _ _ _ _ Hwr).
  destruct (write_loop_inv _ _ _ _ _ _ Hwr) as [Ham [Wout _]].
  simpl in Ham. subst am.
  assert (Dsrc : forall m, In m (flat_map media_pairs vs) ->
                           diverge dir (snd m) = true).
  { intros m Hm. apply in_flat_map in Hm. destruct Hm as [[lang d] [Hv Hm]].
    unfold media_pairs in Hm. apply in_map_iff in Hm.
    destruct Hm as [f [<- Hf]]. simpl. unfold path_join, dir.
    apply diverge_extend_l, diverge_extend_r. eapply Hdiv; eauto. }
  assert (Fsrc : forall m, In m (flat_map media_pairs vs) ->
                   exists b, lookup (snd m) (tree w2) = Some (File b)).
  { intros m Hm. pose proof (Dsrc m Hm) as D.
    apply in_flat_map in Hm. destruct Hm as [[lang d] [Hv Hm]].
    unfold media_pairs in Hm. apply in_map_iff in Hm.
    destruct Hm as [f [<- Hf]]. simpl in *.
    destruct (Hsrc _ _ _ Hv Hf) as [b Hb]. exists b.
    rewrite (Wout _ D), (mkdirSync_diverge _ _ _ _ _ Hmk D). exact Hb. }
  destruct (copy_loop_ok dir _ [] w2 fs2 F2 L2 Fl2 Fsrc Dsrc)
    as [cm [w3 [Hcp F3]]].
  rewrite (bind_Ret _ _ _ _ _ Hcp). exists w3. auto.
Qed.

Lemma stage_loop_ok (tempDir : path) (projects : Projects) (w : World)
    (tes : alist node) :
  faults w = [] ->
  lookup tempDir (tree w) = Some (Dir tes) ->
  NoDup (keys projects) ->
  (forall slug, In slug (keys projects) ->
                lookup (tempDir ++ [slug]) (tree w) = None) ->
  (forall slug vs lang d f, In (slug, vs) projects ->
     In (lang, d) vs -> In f (files d) ->
     exists b, lookup (path_join (sourcePath d) f) (tree w) = Some (File b)) ->
  (forall slug vs, In (slug, vs) projects ->
     NoDup (keys vs) /\ vs <> []
     /\ forall lang d, In (lang, d) vs ->
          diverge tempDir (sourcePath d) = true) ->
  exists w', forM_ projects (stageProject false tempDir) w = Ret tt w'
             /\ faults w' = []
             /\ exists tes', lookup tempDir (tree w') = Some (Dir tes').
Proof.
  revert w tes.
  induction projects as [| [s0 vs0] projects IH];
    intros w tes F Ht ND Hnew Hsrc Hall.
  - exists w. simpl. eauto.
  - inversion ND as [| ? ? Hn ND']; subst.
    destruct (Hall s0 vs0 (or_introl eq_refl)) as [ND0 [Ne0 Src0]].
    destruct (stageProject_ok tempDir s0 vs0 w tes F Ht
                (Hnew s0 (or_introl eq_refl))
                (fun lang d f => Hsrc s0 vs0 lang d f (or_introl eq_refl))
                Src0)
      as [w1 [H1 F1]].
    simpl forM_. rewrite (bind_Ret _ _ _ _ _ H1).
    destruct (stageProject_inv _ _ _ _ _ H1 ND0 Ne0 Src0)
      as [Out0 [[n0 [Hn0 _]] _]].
    destruct (lookup_join_Some _ _ _ _ Hn0) as [tes1 [Ht1 _]].
    apply IH with (tes := tes1); auto.
    + intros slug Hin. rewrite Out0.
      * apply Hnew. now right.
      * apply diverge_heads. intros ->. contradiction.
    + intros slug vs lang d f Hin Hv Hf.
      destruct (Hsrc slug vs lang d f (or_intror Hin) Hv Hf) as [b Hb].
      exists b. rewrite Out0; [exact Hb |].
      unfold path_join. apply diverge_extend_l, diverge_extend_r.
      destruct (Hall _ _ (or_intror Hin)) as [_ [_ Src]]. eapply Src; eauto.
    + intros slug vs Hin. apply (Hall slug vs). now right.
Qed.

(** *** The destructive phase succeeds *)

Lemma rename_keeps_dir (src dest q : path) (t t' : node) (es : alist node) :
  rename src dest t = Some t' ->
  lookup q t = Some (Dir es) ->
  diverge src q = true \/ (exists r, r <> [] /\ src = q ++ r) ->
  diverge dest q = true \/ (exists r, r <> [] /\ dest = q ++ r) ->
  exists es', lookup q t' = Some (Dir es').
Proof.
  unfold rename. intros H Hq Hs Hd.
  destruct (lookup src t) as [v |]; [| discriminate].
  destruct (is_prefix src dest).
  { destruct (is_prefix dest src); [| discriminate].
    injection H as <-. eauto. }
  destruct (graft src None t) as [t1 |] eqn:G1.
  - assert (G2 : graft dest (Some v) t1 = Some t').
    { destruct (lookup dest t) as [[b | [| e es0]] |]; destruct v;
        try discriminate; exact H. }
    destruct (graft_keeps_dir _ _ _ _ _ _ G1 Hq Hs) as [es1 H1].
    exact (graft_keeps_dir _ _ _ _ _ _ G2 H1 Hd).
  - destruct (lookup dest t) as [[b | [| e es0]] |]; destruct v; discriminate.
Qed.

Lemma backup_loop_ok (projectsDir : path) (langs : list string) (w : World) :
  faults w = [] -> NoDup langs -> ~ In backupName langs ->
  (exists es, lookup projectsDir (tree w) = Some (Dir es)) ->
  (forall b, lookup (projectsDir ++ [backupName]) (tree w) <> Some (File b)) ->
  (forall l, In l langs ->
             lookup (projectsDir ++ [backupName; l]) (tree w) = None) ->
  exists w',
    forM_ langs (backupLang projectsDir (path_join projectsDir backupName)) w
    = Ret tt w'
    /\ faults w' = [].
Proof.
  revert w. induction langs as [| l0 langs IH]; intros w F ND Nb [es Hr] Hb Hn.
  - exists w. simpl. auto.
  - inversion ND as [| ? ? Hl0 ND']; subst.
    assert (Nb' : ~ In backupName langs) by (intros Hi; apply Nb; now right).
    assert (N0 : l0 <> backupName) by (intros ->; apply Nb; now left).
    simpl forM_.
    destruct (lookup (projectsDir ++ [l0]) (tree w)) as [v |] eqn:Hs.
    + destruct (mkdirSync_ok projectsDir backupName w es F Hr)
        as [w1 [Hmk F1]].
      assert (Hb1 : exists bs, lookup (projectsDir ++ [backupName]) (tree w1)
                               = Some (Dir bs)).
      { rewrite (mkdirSync_lookup _ _ _ _ Hmk).
        destruct (lookup (projectsDir ++ [backupName]) (tree w))
          as [[b | bs] |] eqn:E; eauto.
        exfalso. now apply (Hb b). }
      destruct Hb1 as [bs Hb1].
      assert (D0 : diverge (projectsDir ++ [backupName]) (projectsDir ++ [l0])
                   = true) by (apply diverge_heads; congruence).
      assert (Hs1 : lookup (projectsDir ++ [l0]) (tree w1) = Some v).
      { now rewrite (mkdirSync_diverge _ _ _ _ _ Hmk D0). }
      assert (Below : forall l, lookup ((projectsDir ++ [backupName]) ++ [l])
                                  (tree w1)
                                = lookup (projectsDir ++ [backupName; l])
                                    (tree w)).
      { intros l. rewrite (mkdirSync_below _ [l] _ _ _ Hmk) by discriminate.
        now rewrite <- app_assoc. }
      assert (D : diverge (projectsDir ++ [l0])
                    ((projectsDir ++ [backupName]) ++ [l0]) = true).
      { rewrite <- app_assoc. apply diverge_heads. exact N0. }
      assert (Hd1 : lookup ((projectsDir ++ [backupName]) ++ [l0]) (tree w1)
                    = None).
      { rewrite Below. apply Hn. now left. }
      destruct (rename_ok projectsDir l0 (projectsDir ++ [backupName]) l0
                  (tree w1) v bs Hs1 D Hd1 Hb1) as [t' Hren].
      assert (Hbl : backupLang projectsDir (path_join projectsDir backupName)
                      l0 w = Ret tt (mkWorld t' [])).
      { unfold backupLang. unfold path_join at 1.
        rewrite (bind_Ret _ _ _ _ _ (existsSync_Some _ _ _ Hs)). cbv iota.
        unfold moveSync. rewrite dirname_path_join. unfold path_join.
        rewrite (bind_Ret _ _ _ _ _ Hmk). unfold fs_renameSync.
        exact (mutate_ok _ _ _ F1 Hren). }
      rewrite (bind_Ret _ _ _ _ _ Hbl).
      assert (Hr1 : exists es1, lookup projectsDir (tree w1) = Some (Dir es1)).
      { destruct (lookup_join_Some _ _ _ _ Hs1) as [es1 [H1 _]]. eauto. }
      destruct Hr1 as [es1 Hr1].
      apply IH; auto.
      * simpl. eapply rename_keeps_dir; [exact Hren | exact Hr1 | |].
        -- right. exists [l0]. split; [discriminate | reflexivity].
        -- right. exists [backupName; l0].
           split; [discriminate | now rewrite <- app_assoc].
      * simpl. intros b Hf.
        destruct (rename_keeps_dir _ _ (projectsDir ++ [backupName]) _ _ _
                    Hren Hb1) as [es' He'].
        -- left. now rewrite diverge_sym.
        -- right. exists [l0]. split; [discriminate | reflexivity].
        -- congruence.
      * simpl. intros l Hl.
        assert (Nl : l0 <> l) by (intros ->; contradiction).
        assert (E : projectsDir ++ [backupName; l]
                    = (projectsDir ++ [backupName]) ++ [l])
          by (now rewrite <- app_assoc).
        rewrite (rename_diverge _ _ (projectsDir ++ [backupName; l]) _ _ Hren).
        -- rewrite E, Below. apply Hn. now right.
        -- apply diverge_heads. exact N0.
        -- rewrite E. apply diverge_heads. exact Nl.
    + assert (Hbl : backupLang projectsDir (path_join projectsDir backupName)
                      l0 w = Ret tt w).
      { unfold backupLang. unfold path_join at 1.
        now rewrite (bind_Ret _ _ _ _ _ (existsSync_None _ _ Hs)). }
      rewrite (bind_Ret _ _ _ _ _ Hbl). apply IH; eauto.
      intros l Hl. apply Hn. now right.
Qed.

Lemma promote_loop_ok (projectsDir : path) (slugs : list string) (w : World) :
  faults w = [] -> NoDup slugs ->
  (forall s, In s slugs ->
     lookup (projectsDir ++ [tempName; s]) (tree w) <> None
     /\ lookup (projectsDir ++ [s]) (tree w) = None
     /\ s <> tempName) ->
  (exists es, lookup projectsDir (tree w) = Some (Dir es)) ->
  exists w',
    forM_ slugs (promote projectsDir (path_join projectsDir tempName)) w
    = Ret tt w'
    /\ faults w' = []
    /\ exists es', lookup projectsDir (tree w') = Some (Dir es').
Proof.
  revert w. induction slugs as [| s0 slugs IH]; intros w F ND Hs [es Hr].
  - exists w. simpl. eauto.
  - inversion ND as [| ? ? Hn ND']; subst.
    destruct (Hs s0 (or_introl eq_refl)) as [Hsrc [Hdst Nt]].
    destruct (lookup (projectsDir ++ [tempName; s0]) (tree w)) as [v |] eqn:Ev;
      [clear Hsrc | congruence].
    assert (Ev' : lookup ((projectsDir ++ [tempName]) ++ [s0]) (tree w)
                  = Some v) by (now rewrite <- app_assoc).
    assert (D : diverge ((projectsDir ++ [tempName]) ++ [s0])
                  (projectsDir ++ [s0]) = true).
    { rewrite <- app_assoc. apply diverge_heads. congruence. }
    destruct (rename_ok (projectsDir ++ [tempName]) s0 projectsDir s0
                (tree w) v es Ev' D Hdst Hr) as [t' Hren].
    assert (Hpr : promote projectsDir (path_join projectsDir tempName) s0 w
                  = Ret tt (mkWorld t' [])).
    { unfold promote, moveSync. rewrite dirname_path_join. unfold path_join.
      rewrite (bind_Ret _ _ _ _ _ (mkdirSync_exists _ _ _ Hr)).
      unfold fs_renameSync. exact (mutate_ok _ _ _ F Hren). }
    simpl forM_. rewrite (bind_Ret _ _ _ _ _ Hpr).
    apply IH; auto.
    + simpl. intros s Hin.
      assert (Ns : s0 <> s) by (intros ->; contradiction).
      destruct (Hs s (or_intror Hin)) as [H1 [H2 H3]].
      assert (E : projectsDir ++ [tempName; s]
                  = (projectsDir ++ [tempName]) ++ [s])
        by (now rewrite <- app_assoc).
      split; [| split; [| exact H3]].
      * rewrite (rename_diverge _ _ (projectsDir ++ [tempName; s]) _ _ Hren);
          [exact H1 | |].
        -- rewrite E. apply diverge_heads. exact Ns.
        -- apply diverge_heads. exact Nt.
      * rewrite (rename_diverge _ _ (projectsDir ++ [s]) _ _ Hren);
          [exact H2 | |].
        -- rewrite <- app_assoc. apply diverge_heads. congruence.
        -- apply diverge_heads. exact Ns.
    + simpl. eapply rename_keeps_dir; [exact Hren | exact Hr | |].
      * right. exists [tempName; s0].
        split; [discriminate | now rewrite <- app_assoc].
      * right. exists [s0]. split; [discriminate | reflexivity].
Qed.

Lemma removeSync_ok (d : path) (x : string) (w : World) (es : alist node) :
  faults w = [] -> lookup d (tree w) = Some (Dir es) ->
  exists w', removeSync (d ++ [x]) w = Ret tt w'.
Proof.
  intros F Hd. unfold removeSync.
  destruct (lookup (d ++ [x]) (tree w)) as [n |] eqn:E.
  - rewrite (bind_Ret _ _ _ _ _ (existsSync_Some _ _ _ E)). cbv iota.
    destruct (graft_ok d x None _ _ Hd) as [t' G].
    assert (G' : rm_rf (d ++ [x]) (tree w) = Some t') by exact G.
    unfold fs_rmSync_recursive_force.
    rewrite (mutate_ok _ _ _ F G'). eauto.
  - rewrite (bind_Ret _ _ _ _ _ (existsSync_None _ _ E)). cbv iota.
    eexists. reflexivity.
Qed.

Lemma destructive_ok (projectsDir : path) (languages : list string)
    (w : World) (est : alist node) :
  faults w = [] -> wf (tree w) = true ->
  NoDup languages ->
  ~ In backupName languages -> ~ In tempName languages ->
  lookup (projectsDir ++ [backupName]) (tree w) = None ->
  lookup (projectsDir ++ [tempName]) (tree w) = Some (Dir est) ->
  (forall s, In s (keys est) ->
     (lookup (projectsDir ++ [s]) (tree w) = None \/ In s languages)
     /\ s <> tempName /\ s <> backupName) ->
  exists w', destructive projectsDir languages w = Ret tt w'.
Proof.
  intros F W ND Nb Nt Hbk Htmp Hs.
  destruct (lookup_join_Some _ _ _ _ Htmp) as [es [Hr _]].
  destruct (backup_loop_ok projectsDir languages w F ND Nb
              (ex_intro _ es Hr)) as [wb [Hb Fb]].
  { intros b. congruence. }
  { intros l _. change (projectsDir ++ [backupName; l])
      with (projectsDir ++ [backupName] ++ [l]).
    now rewrite app_assoc, lookup_app, Hbk. }
  destruct (backup_loop_inv _ _ _ _ Hb) as [_ [_ [B3 [B4 [_ Bwf]]]]].
  assert (Htb : lookup (projectsDir ++ [tempName]) (tree wb) = Some (Dir est)).
  { change (projectsDir ++ [tempName]) with (projectsDir ++ tempName :: []).
    rewrite (B4 tempName [] Nt) by discriminate. exact Htmp. }
  destruct (lookup_join_Some _ _ _ _ Htb) as [esb [Hrb _]].
  assert (NDs : NoDup (keys (filter (fun e => isDirectory (snd e)) est))).
  { apply NoDup_keys_filter. eapply wf_lookup_NoDup; eauto. }
  destruct (promote_loop_ok projectsDir
              (keys (filter (fun e => isDirectory (snd e)) est)) wb Fb NDs)
    as [wp [Hp [Fp [esp Hrp]]]].
  { intros s Hin.
    assert (Hk : In s (keys est)).
    { unfold keys in *. apply in_map_iff in Hin.
      destruct Hin as [e [He Hin]]. apply filter_In in Hin.
      apply in_map_iff. exists e. tauto. }
    destruct (Hs s Hk) as [H1 [H2 H3]].
    split; [| split; [| exact H2]].
    - rewrite (path_split projectsDir tempName s []), lookup_app, Htb.
      simpl. apply aget_Some_keys in Hk. destruct Hk as [v ->]. discriminate.
    - change (projectsDir ++ [s]) with (projectsDir ++ s :: []).
      destruct (in_dec string_dec s languages) as [Hl | Hl].
      + now apply B3.
      + rewrite (B4 s [] Hl H3). destruct H1 as [H1 | H1];
          [exact H1 | contradiction]. }
  { eauto. }
  destruct (removeSync_ok projectsDir tempName wp esp Fp Hrp) as [w' Hrm].
  exists w'. unfold destructive.
  rewrite (bind_Ret _ _ _ _ _ Hb). unfold path_join at 1.
  rewrite (bind_Ret _ _ _ _ _ (readdirSync_withFileTypes_Dir _ _ _ Htb)).
  rewrite filter_isDirectory_dirents, map_d_name_dirents.
  rewrite (bind_Ret _ _ _ _ _ Hp). exact Hrm.
Qed.

(** *** The whole run *)

Lemma ready_parts (es : alist node) :
  ready_to_migrate es = true ->
  keys (filter (fun e => is_language_folder (snd e)) es) <> []
  /\ aget tempName es = None
  /\ aget backupName es = None
  /\ (forall lang n, In (lang, n) es -> is_language_folder n = true ->
                     items_flat n = true)
  /\ (forall lang n slug,
        In (lang, n) es -> is_language_folder n = true ->
        In slug (item_names n) ->
        ~ In slug (keys (filter (fun e => negb (is_language_folder (snd e)))
                           es))
        /\ slug <> tempName /\ slug <> backupName).
Proof.
  unfold ready_to_migrate. intros H.
  apply andb_true_iff in H. destruct H as [H H5].
  apply andb_true_iff in H. destruct H as [H H4].
  apply andb_true_iff in H. destruct H as [H H3].
  apply andb_true_iff in H. destruct H as [H1 H2].
  split; [| split; [| split; [| split]]].
  - intros E. unfold keys in E. apply map_eq_nil in E. rewrite E in H1.
    discriminate.
  - unfold has in H2. now destruct (aget tempName es).
  - unfold has in H3. now destruct (aget backupName es).
  - intros lang n Hin Hl. rewrite forallb_forall in H4.
    apply (H4 (lang, n)). apply filter_In. auto.
  - intros lang n slug Hin Hl Hs. rewrite forallb_forall in H5.
    assert (Hf : In (lang, n) (filter (fun e => is_language_folder (snd e)) es))
      by (apply filter_In; auto).
    specialize (H5 _ Hf). simpl in H5. rewrite forallb_forall in H5.
    specialize (H5 _ Hs).
    apply andb_true_iff in H5. destruct H5 as [H5 Hb].
    apply andb_true_iff in H5. destruct H5 as [Ho Ht].
    split; [| split].
    + intros Hi. apply includes_In in Hi. rewrite Hi in Ho. discriminate.
    + intros ->. rewrite eqb_refl' in Ht. discriminate.
    + intros ->. rewrite eqb_refl' in Hb. discriminate.
Qed.

Lemma language_item (projectsDir : path) (es : alist node) (t : node)
    (lang slug : string) (fs : alist node) :
  lookup projectsDir t = Some (Dir es) ->
  lookup (projectsDir ++ [lang; slug]) t = Some (Dir fs) ->
  exists subs,
    In (lang, Dir subs) es /\ In (slug, Dir fs) subs
    /\ lookup (projectsDir ++ [lang]) t = Some (Dir subs).
Proof.
  intros Hr Hs. rewrite (path_split projectsDir lang slug []) in Hs.
  destruct (lookup_join_Some _ _ _ _ Hs) as [subs [Hl Hsub]].
  destruct (lookup_join_Some _ _ _ _ Hl) as [es' [Hr' Hlang]].
  rewrite Hr in Hr'. injection Hr' as <-.
  exists subs. split; [now apply aget_In |]. split; [now apply aget_In |].
  exact Hl.
Qed.

(** X16.  On a content root that is ready to migrate, in a well-formed
    tree and without faults of the environment, the live run of [main]
    returns normally: detection, collection, staging, backup, promotion
    and the removal of the staging directory all succeed. *)
Theorem clean_migration_succeeds (projectsDir : path) (w : World)
    (es : alist node) :
  wf (tree w) = true ->
  faults w = [] ->
  lookup projectsDir (tree w) = Some (Dir es) ->
  ready_to_migrate es = true ->
  exists w', main false projectsDir w = Ret tt w'.
Proof.
  intros W F Hr Hready.
  destruct (ready_parts _ Hready) as (Hne & Ht & Hbk & Hflat & Hnames).
  pose proof (detectLanguages_spec _ _ _ W Hr) as Hd.
  remember (keys (filter (fun e => is_language_folder (snd e)) es))
    as languages eqn:El.
  assert (Hlang : forall lang, In lang languages ->
            exists n, In (lang, n) es /\ is_language_folder n = true
                      /\ lookup (path_join projectsDir lang) (tree w) = Some n).
  { intros lang Hin. subst languages. unfold keys in Hin.
    apply in_map_iff in Hin. destruct Hin as [[l n] [E Hin]].
    simpl in E. subst l. apply filter_In in Hin. destruct Hin as [Hin Hl].
    exists n. split; [exact Hin |]. split; [exact Hl |].
    exact (lookup_entry _ _ _ _ _ W Hr Hin). }
  assert (Hkeys : forall lang, In lang languages -> In lang (keys es)).
  { intros lang Hin. destruct (Hlang _ Hin) as [n [Hn _]].
    unfold keys. apply in_map_iff. exists (lang, n). auto. }
  assert (Nt : ~ In tempName languages).
  { intros Hi. apply Hkeys in Hi. now apply aget_None_keys in Ht. }
  assert (Nb : ~ In backupName languages).
  { intros Hi. apply Hkeys in Hi. now apply aget_None_keys in Hbk. }
  assert (NDl : NoDup languages).
  { subst languages. apply NoDup_keys_filter. eapply wf_lookup_NoDup; eauto. }
  destruct (collectProjects_ok projectsDir languages w W) as [projects Hc].
  { intros lang Hin. destruct (Hlang _ Hin) as [n [Hn [Hl Hlk]]].
    exists n. split; [exact Hlk |]. split; [exact Hl |]. eapply Hflat; eauto. }
  destruct (collectProjects_inv _ _ _ _ _ Hc) as [_ [ND Hall]].
  assert (Hst : forall slug vs, In (slug, vs) projects ->
            NoDup (keys vs) /\ vs <> []
            /\ forall lang d, In (lang, d) vs ->
                 diverge (projectsDir ++ [tempName]) (sourcePath d) = true).
  { intros slug vs Hin. destruct (Hall _ _ Hin) as [H1 [H2 H3]].
    split; [exact H1 |]. split; [exact H2 |].
    intros lang d Hd'. destruct (H3 _ _ Hd') as [Hl [Hsp _]]. rewrite Hsp.
    change (projectsDir ++ [tempName]) with (projectsDir ++ tempName :: []).
    change (projectsDir ++ [lang; slug]) with (projectsDir ++ lang :: [slug]).
    apply diverge_heads. intros E. apply Nt. now rewrite E. }
  (* what an item of the collection is in the tree *)
  assert (Item : forall slug vs lang d,
            In (slug, vs) projects -> In (lang, d) vs ->
            exists n fs,
              In lang languages
              /\ In (lang, n) es /\ is_language_folder n = true
              /\ In slug (item_names n)
              /\ sourcePath d = projectsDir ++ [lang; slug]
              /\ lookup (projectsDir ++ [lang; slug]) (tree w) = Some (Dir fs)
              /\ flat (Dir fs) = true
              /\ files d = filter (fun f => negb (String.eqb f "index.md"))
                             (keys fs)).
  { intros slug vs lang d Hin Hv.
    destruct (Hall _ _ Hin) as [_ [_ Hcol]].
    destruct (Hcol _ _ Hv) as [Hl [Hsp [b [fs [Hb [_ [Hfs Hfiles]]]]]]].
    destruct (language_item _ _ _ _ _ _ Hr Hfs) as [subs [H1 [H2 H3]]].
    destruct (Hlang _ Hl) as [n [Hn [Hln Hlk]]].
    unfold path_join in Hlk. rewrite H3 in Hlk. injection Hlk as <-.
    assert (Hitem : is_item_folder (Dir fs) = true).
    { simpl. unfold has.
      change (projectsDir ++ [lang; slug; "index.md"])
        with (projectsDir ++ [lang; slug] ++ ["index.md"]) in Hb.
      rewrite app_assoc, lookup_app, Hfs in Hb. simpl in Hb.
      now destruct (aget "index.md" fs). }
    exists (Dir subs), fs. split; [exact Hl |].
    split; [exact H1 |]. split; [exact Hln |].
    split; [| split; [exact Hsp | split; [exact Hfs | split; [| exact Hfiles]]]].
    - simpl. unfold keys. apply in_map_iff. exists (slug, Dir fs).
      split; [reflexivity |]. apply filter_In. auto.
    - pose proof (Hflat _ _ H1 Hln) as Hif.
      change (forallb (fun e => implb (is_item_folder (snd e)) (flat (snd e)))
                subs = true) in Hif.
      rewrite forallb_forall in Hif. specialize (Hif _ H2). cbn [snd] in Hif.
      rewrite Hitem in Hif. exact Hif. }
  (* staging *)
  destruct (mkdirSync_ok projectsDir tempName w es F Hr) as [w0 [Hmk F0]].
  assert (Htw : lookup (projectsDir ++ [tempName]) (tree w) = None).
  { change (projectsDir ++ [tempName]) with (path_join projectsDir tempName).
    now rewrite (lookup_child _ _ _ _ Hr). }
  assert (L0 : lookup (projectsDir ++ [tempName]) (tree w0) = Some (Dir [])).
  { rewrite (mkdirSync_lookup _ _ _ _ Hmk). now rewrite Htw. }
  assert (St0 : forall x rest, x <> tempName ->
             lookup (projectsDir ++ x :: rest) (tree w0)
             = lookup (projectsDir ++ x :: rest) (tree w)).
  { intros x rest Hx. apply (mkdirSync_diverge _ _ _ _ _ Hmk).
    apply diverge_heads. congruence. }
  destruct (stage_loop_ok (projectsDir ++ [tempName]) projects w0 [] F0 L0 ND)
    as [w1 [Hloop [F1 [tes1 Ht1]]]].
  { intros slug _.
    now rewrite (lookup_app (projectsDir ++ [tempName]) [slug]), L0. }
  { intros slug vs lang d f Hin Hv Hf.
    destruct (Item _ _ _ _ Hin Hv)
      as [n [fs [Hl [Hn [Hln [_ [Hsp [Hfs [Hfl Hfiles]]]]]]]]].
    rewrite Hfiles in Hf. apply filter_In in Hf. destruct Hf as [Hf _].
    apply aget_Some_keys in Hf. destruct Hf as [m Hm].
    pose proof (flat_aget _ _ _ Hfl Hm) as Dm.
    destruct m as [b | ds]; [| discriminate]. exists b.
    rewrite Hsp. unfold path_join. rewrite <- app_assoc. simpl.
    rewrite St0 by (intros E; apply Nt; now rewrite <- E).
    change (projectsDir ++ lang :: slug :: [f])
      with (projectsDir ++ [lang; slug] ++ [f]).
    rewrite app_assoc. change ((projectsDir ++ [lang; slug]) ++ [f])
      with (path_join (projectsDir ++ [lang; slug]) f).
    now rewrite (lookup_child _ _ _ _ Hfs). }
  { exact Hst. }
  assert (Hs : staging false projectsDir projects w = Ret tt w1).
  { unfold staging. simpl when. unfold path_join.
    now rewrite (bind_Ret _ _ _ _ _ Hmk). }
  destruct (stage_loop_inv _ _ _ _ Hloop ND Hst) as [Out [_ [Others Swf]]].
  assert (St1 : forall x rest, x <> tempName ->
             lookup (projectsDir ++ x :: rest) (tree w1)
             = lookup (projectsDir ++ x :: rest) (tree w)).
  { intros x rest Hx. rewrite Out by (apply diverge_heads; congruence).
    now apply St0. }
  (* the destructive phase *)
  destruct (destructive_ok projectsDir languages w1 tes1 F1) as [w' Hx];
    auto.
  { apply Swf. exact (mkdirSync_wf _ _ _ _ Hmk W). }
  { change (projectsDir ++ [backupName])
      with (projectsDir ++ backupName :: []).
    rewrite St1 by discriminate.
    change (projectsDir ++ backupName :: [])
      with (path_join projectsDir backupName).
    now rewrite (lookup_child _ _ _ _ Hr). }
  { intros s Hk.
    assert (Hp : In s (keys projects)).
    { destruct (in_dec string_dec s (keys projects)) as [Hp | Hp];
        [exact Hp | exfalso].
      pose proof (Others s [] Hp) as E.
      rewrite (lookup_app (projectsDir ++ [tempName]) [s] (tree w1)),
        (lookup_app (projectsDir ++ [tempName]) [s] (tree w0)), Ht1, L0 in E.
      simpl in E.
      apply aget_Some_keys in Hk. destruct Hk as [v Hv].
      rewrite Hv in E. discriminate. }
    unfold keys in Hp. apply in_map_iff in Hp.
    destruct Hp as [[s' vs] [E Hin]]. simpl in E. subst s'.
    destruct (Hall _ _ Hin) as [_ [Hvs _]].
    destruct vs as [| [lang d] vs']; [congruence |].
    destruct (Item _ _ _ _ Hin (or_introl eq_refl))
      as [n [fs [_ [Hn [Hln [Hnm _]]]]]].
    destruct (Hnames _ _ _ Hn Hln Hnm) as [Ho [Hnt Hnb]].
    split; [| split; [exact Hnt | exact Hnb]].
    change (projectsDir ++ [s]) with (projectsDir ++ s :: []).
    rewrite (St1 s [] Hnt).
    change (projectsDir ++ s :: []) with (path_join projectsDir s).
    rewrite (lookup_child _ _ _ _ Hr).
    destruct (aget s es) as [m |] eqn:Em; [right | now left].
    apply aget_In in Em. subst languages.
    destruct (is_language_folder m) eqn:Hm.
    - unfold keys. apply in_map_iff. exists (s, m).
      split; [reflexivity |]. apply filter_In. auto.
    - exfalso. apply Ho. unfold keys. apply in_map_iff. exists (s, m).
      split; [reflexivity |]. apply filter_In. simpl. now rewrite Hm. }
  exists w'. unfold main, catch.
  rewrite (bind_Ret _ _ _ _ _ Hd).
  destruct languages as [| l0 ls]; [congruence |].
  change (Nat.eqb (List.length (l0 :: ls)) 0) with false. cbv iota.
  rewrite (bind_Ret _ _ _ _ _ Hc). unfold migrate.
  rewrite (bind_Ret _ _ _ _ _ Hs). cbv iota. now rewrite Hx.
Qed.

(** ** A successful live migration, read off the legacy tree *)

Lemma find_ext_in {A} (f g : A -> bool) (l : list A) :
  (forall x, In x l -> f x = g x) -> find f l = find g l.
Proof.
  induction l as [| x l IH]; intros H; simpl; [reflexivity |].
  rewrite (H x (or_introl eq_refl)).
  destruct (g x); [reflexivity |]. apply IH. intros y Hy. apply H. now right.
Qed.

Lemma includes_filter (p : string -> bool) (l : list string) (x : string) :
  includes (filter p l) x = (p x && includes l x).
Proof.
  apply eq_true_iff_eq. rewrite andb_true_iff, !includes_In, filter_In. tauto.
Qed.

Lemma has_includes {V} (k : string) (m : alist V) :
  has k m = includes (keys m) k.
Proof. apply eq_true_iff_eq. now rewrite has_keys, includes_In. Qed.

(** The languages [detectLanguages] returns are the language folders of
    the content root. *)
Lemma detected_legacy_languages (projectsDir : path) (w w' : World)
    (languages : list string) :
  wf (tree w) = true ->
  detectLanguages projectsDir w = Ret languages w' ->
  languages = legacy_languages projectsDir (tree w).
Proof.
  intros W Hd.
  assert (Hes : exists es, lookup projectsDir (tree w) = Some (Dir es)).
  { unfold detectLanguages in Hd.
    apply bind_Ret_inv in Hd. destruct Hd as [e [w2 [He Hd]]].
    apply existsSync_inv in He. destruct He as [-> He].
    destruct e; [| discriminate]. simpl in Hd.
    apply bind_Ret_inv in Hd. destruct Hd as [ents [w2 [Hr Hd]]].
    apply readdirSync_withFileTypes_inv in Hr.
    destruct Hr as [_ [es [Hes _]]]. eauto. }
  destruct Hes as [es Hes].
  rewrite (detectLanguages_spec _ _ _ W Hes) in Hd. injection Hd as <- _.
  unfold legacy_languages. now rewrite Hes.
Qed.

Lemma collected_has_version (projectsDir : path) (t : node)
    (slug lang : string) (d : ProjectData) :
  collected projectsDir t slug lang d ->
  has_version projectsDir t slug lang = true
  /\ forall file,
       includes (files d) file = has_media projectsDir t slug file lang.
Proof.
  intros [_ [b [fs [Hb [_ [Hfs Hf]]]]]].
  assert (Hi : aget "index.md" fs = Some (File b)).
  { change (projectsDir ++ [lang; slug; "index.md"])
      with (projectsDir ++ [lang; slug] ++ ["index.md"]) in Hb.
    rewrite app_assoc, (lookup_under _ _ _ _ Hfs) in Hb. simpl in Hb.
    destruct (aget "index.md" fs); [exact Hb | discriminate]. }
  unfold has_version, has_media. rewrite Hfs. unfold has at 1 2. rewrite Hi.
  split; [reflexivity |]. intros file.
  rewrite Hf, includes_filter, has_includes. simpl. apply andb_comm.
Qed.

Lemma has_media_version (projectsDir : path) (t : node)
    (slug file lang : string) :
  has_media projectsDir t slug file lang = true ->
  has_version projectsDir t slug lang = true.
Proof.
  unfold has_media, has_version.
  destruct (lookup _ t) as [[b | fs] |]; try discriminate.
  intros H. apply andb_true_iff in H. destruct H as [H _].
  apply andb_true_iff in H. tauto.
Qed.

Section Collected.

Variable projectsDir : path.
Variable languages : list string.
Variable projects : Projects.
Variable w : World.
Hypothesis Hc : collectProjects projectsDir languages w = Ret projects w.

Lemma projects_unique (slug : string) (vs vs' : alist ProjectData) :
  In (slug, vs) projects -> In (slug, vs') projects -> vs = vs'.
Proof.
  destruct (collectProjects_inv _ _ _ _ _ Hc) as [_ [ND _]].
  intros H1 H2. apply (In_aget _ _ _ ND) in H1. apply (In_aget _ _ _ ND) in H2.
  congruence.
Qed.

(** A version of the legacy tree is a version collected. *)
Lemma version_is_collected (slug lang : string) :
  In lang languages ->
  has_version projectsDir (tree w) slug lang = true ->
  exists vs d,
    In (slug, vs) projects /\ In (lang, d) vs
    /\ collected projectsDir (tree w) slug lang d.
Proof.
  intros Hl Hv. unfold has_version in Hv.
  destruct (lookup (projectsDir ++ [lang; slug]) (tree w)) as [[b | fs] |] eqn:E;
    try discriminate.
  destruct (collectProjects_complete _ _ _ _ _ _ _ _ Hc Hl E Hv)
    as [vs [Hvs Hk]].
  apply aget_In in Hvs. apply aget_Some_keys in Hk. destruct Hk as [d Hd].
  apply aget_In in Hd. exists vs, d. split; [exact Hvs |]. split; [exact Hd |].
  destruct (collectProjects_inv _ _ _ _ _ Hc) as [_ [_ Hall]].
  destruct (Hall _ _ Hvs) as [_ [_ H3]]. now apply H3.
Qed.

(** A version collected is a version of the legacy tree. *)
Lemma collected_is_version (slug : string) (vs : alist ProjectData)
    (lang : string) (d : ProjectData) :
  In (slug, vs) projects -> In (lang, d) vs ->
  In lang languages
  /\ has_version projectsDir (tree w) slug lang = true
  /\ (forall file,
        includes (files d) file
        = has_media projectsDir (tree w) slug file lang).
Proof.
  intros Hs Hd.
  destruct (collectProjects_inv _ _ _ _ _ Hc) as [_ [_ Hall]].
  destruct (Hall _ _ Hs) as [_ [_ H3]]. destruct (H3 _ _ Hd) as [Hl Hcol].
  split; [exact Hl |]. now apply collected_has_version.
Qed.

Lemma versions_of_item (slug : string) (vs : alist ProjectData)
    (lang : string) :
  In (slug, vs) projects ->
  (In lang (keys vs)
   <-> In lang languages /\ has_version projectsDir (tree w) slug lang = true).
Proof.
  intros Hs. split.
  - intros Hk. apply aget_Some_keys in Hk. destruct Hk as [d Hd].
    apply aget_In in Hd.
    destruct (collected_is_version _ _ _ _ Hs Hd) as [H1 [H2 _]]. auto.
  - intros [Hl Hv].
    destruct (version_is_collected _ _ Hl Hv) as [vs' [d [H1 [H2 _]]]].
    rewrite (projects_unique _ _ _ Hs H1).
    unfold keys. now apply (in_map fst) in H2.
Qed.

(** The media files recorded for an item are the media files of its
    versions in the legacy tree. *)
Lemma media_of_item (slug : string) (vs : alist ProjectData) (file : string) :
  In (slug, vs) projects ->
  (In file (media_of vs)
   <-> exists lang, In lang languages
                    /\ has_media projectsDir (tree w) slug file lang = true).
Proof.
  intros Hs. unfold media_of. rewrite in_flat_map. split.
  - intros [[lang d] [Hd Hf]]. simpl in Hf.
    destruct (collected_is_version _ _ _ _ Hs Hd) as [Hl [_ Hm]].
    exists lang. split; [exact Hl |]. rewrite <- Hm. now apply includes_In.
  - intros [lang [Hl Hm]].
    destruct (version_is_collected _ _ Hl (has_media_version _ _ _ _ _ Hm))
      as [vs' [d [H1 [H2 _]]]].
    rewrite <- (projects_unique _ _ _ Hs H1) in H2.
    exists (lang, d). split; [exact H2 |]. simpl.
    destruct (collected_is_version _ _ _ _ Hs H2) as [_ [_ Hm']].
    apply includes_In. now rewrite Hm'.
Qed.

(** The first language that has a version with the media file is the
    first language folder whose item folder holds it. *)
Lemma first_language_of_item (slug : string) (vs : alist ProjectData)
    (file : string) :
  In (slug, vs) projects ->
  first_language file vs languages
  = find (has_media projectsDir (tree w) slug file) languages.
Proof.
  intros Hs. unfold first_language. apply find_ext_in. intros lang Hl.
  destruct (collectProjects_inv _ _ _ _ _ Hc) as [_ [_ Hall]].
  destruct (Hall _ _ Hs) as [NDv _].
  destruct (aget lang vs) as [d |] eqn:E.
  - apply aget_In in E.
    now destruct (collected_is_version _ _ _ _ Hs E) as [_ [_ Hm]].
  - destruct (has_media projectsDir (tree w) slug file lang) eqn:Hm;
      [exfalso | reflexivity].
    apply aget_None_keys in E. apply E.
    apply (versions_of_item _ _ _ Hs). split; [exact Hl |].
    now apply has_media_version in Hm.
Qed.

End Collected.

(** C2.  After a successful live migration, for every item folder of a
    language folder of the legacy tree and every media file in it (an
    entry other than [index.md]), the migrated item directory has
    exactly one entry of that name; it is a regular file with the bytes
    of the file of that name in the first language folder, in directory
    order, whose folder of the item holds one. *)
Theorem media_materialized_once (projectsDir : path) (w w' : World) :
  wf (tree w) = true ->
  main false projectsDir w = Ret tt w' ->
  forall slug file lang,
    In lang (legacy_languages projectsDir (tree w)) ->
    has_media projectsDir (tree w) slug file lang = true ->
    exists first b es,
      find (has_media projectsDir (tree w) slug file)
        (legacy_languages projectsDir (tree w)) = Some first
      /\ lookup (projectsDir ++ [first; slug; file]) (tree w) = Some (File b)
      /\ lookup (projectsDir ++ [slug]) (tree w') = Some (Dir es)
      /\ aget file es = Some (File b)
      /\ count_occ string_dec (keys es) file = 1.
Proof.
  intros W H slug file lang Hl Hm.
  destruct (collected_media_once _ _ _ W H)
    as [languages [projects [Hd [Hc HM]]]].
  rewrite <- (detected_legacy_languages _ _ _ _ W Hd) in *.
  destruct (version_is_collected _ _ _ _ Hc _ _ Hl
              (has_media_version _ _ _ _ _ Hm)) as [vs [d [Hs _]]].
  assert (Hf : In file (media_of vs)).
  { apply (media_of_item _ _ _ _ Hc _ _ _ Hs). eauto. }
  destruct (HM _ _ _ Hs Hf) as [first [d0 [b [es [_ [H2 [H3 [H4 [H5 H6]]]]]]]]].
  exists first, b, es.
  rewrite <- (first_language_of_item _ _ _ _ Hc _ _ _ Hs). auto.
Qed.

(** C3, as amended.  After a successful live migration, every document
    [index.md] of an item folder of a language folder of the legacy
    tree, when none of the folders of that item holds a media file named
    [{lang}.md], is migrated to a regular file [{slug}/{lang}.md] holding
    its bytes decoded as UTF-8 and encoded again (the same bytes when the
    source is well-formed UTF-8); and every path below a language folder
    leads, below [_old_structure_backup], to what it led to before the
    run. *)
Theorem migration_preserves_data (projectsDir : path) (w w' : World) :
  wf (tree w) = true ->
  main false projectsDir w = Ret tt w' ->
  (forall lang slug,
      In lang (legacy_languages projectsDir (tree w)) ->
      has_version projectsDir (tree w) slug lang = true ->
      (forall l, In l (legacy_languages projectsDir (tree w)) ->
                 has_media projectsDir (tree w) slug (lang ++ ".md") l = false) ->
      exists b,
        lookup (projectsDir ++ [lang; slug; "index.md"]) (tree w)
        = Some (File b)
        /\ lookup (projectsDir ++ [slug; (lang ++ ".md")%string]) (tree w')
           = Some (File (utf8_recode b))
        /\ (well_formed_utf8 b ->
            lookup (projectsDir ++ [slug; (lang ++ ".md")%string]) (tree w')
            = lookup (projectsDir ++ [lang; slug; "index.md"]) (tree w)))
  /\ (forall lang,
        In lang (legacy_languages projectsDir (tree w)) ->
        lookup (projectsDir ++ [lang]) (tree w) <> None
        /\ forall rest,
             lookup (projectsDir ++ backupName :: lang :: rest) (tree w')
             = lookup (projectsDir ++ lang :: rest) (tree w)).
Proof.
  intros W H.
  destruct (collected_documents_preserved _ _ _ W H)
    as [languages [projects [Hd [Hc [Docs Backup]]]]].
  rewrite <- (detected_legacy_languages _ _ _ _ W Hd).
  split; [| exact Backup].
  intros lang slug Hl Hv Hmedia.
  destruct (version_is_collected _ _ _ _ Hc _ _ Hl Hv) as [vs [d [Hs [Hd' _]]]].
  apply (Docs _ _ _ _ Hs Hd').
  intros Hin. apply (media_of_item _ _ _ _ Hc _ _ _ Hs) in Hin.
  destruct Hin as [l [Hl' Hm]]. rewrite (Hmedia _ Hl') in Hm. discriminate.
Qed.

(** C4, as amended.  After a successful live migration of a content root
    that had no staging directory, resolving an item of the legacy tree
    yields a table whose keys are the languages of the item that are
    configured, [__proto__] excepted: all the languages of the item when
    each of them is configured and none is [__proto__].  The name of the
    item is a single path component, no configured language code
    contains [.md], and no folder of the item holds a media file named
    [{lang}.md] for a configured language. *)
Theorem migrate_then_resolve (config : Config)
    (frontMatter : jsstring -> option Attributes) (section : string)
    (w w' : World) :
  let projectsDir := path_join (sourceDir config) section in
  wf (tree w) = true ->
  main false projectsDir w = Ret tt w' ->
  lookup (projectsDir ++ [tempName]) (tree w) = None ->
  (forall lang, In lang (configured_languages config) ->
                occurs ".md" lang = false) ->
  forall slug,
    plain_name slug = true ->
    item_languages projectsDir (tree w) slug <> [] ->
    (forall lang l,
        In lang (configured_languages config) ->
        In l (legacy_languages projectsDir (tree w)) ->
        has_media projectsDir (tree w) slug (lang ++ ".md") l = false) ->
    exists T,
      getTranslations config frontMatter section slug w' = Ret T w'
      /\ (forall lang,
            In lang (keys T)
            <-> In lang (item_languages projectsDir (tree w) slug)
                /\ In lang (configured_languages config)
                /\ lang <> "__proto__")
      /\ ((forall lang,
              In lang (item_languages projectsDir (tree w) slug) ->
              In lang (configured_languages config) /\ lang <> "__proto__") ->
          forall lang,
            In lang (keys T)
            <-> In lang (item_languages projectsDir (tree w) slug)).
Proof.
  intros projectsDir W H Hfresh Hocc slug Hplain Hitem Hmedia.
  destruct (migrated_item_documents _ _ _ W H Hfresh)
    as [languages [projects [Hd [Hc Items]]]].
  pose proof (detected_legacy_languages _ _ _ _ W Hd) as EL.
  rewrite <- EL in Hmedia.
  assert (IL : forall lang,
             In lang (item_languages projectsDir (tree w) slug)
             <-> In lang languages
                 /\ has_version projectsDir (tree w) slug lang = true).
  { intros lang. unfold item_languages. rewrite <- EL. apply filter_In. }
  destruct (item_languages projectsDir (tree w) slug) as [| l0 ls] eqn:EI;
    [congruence |].
  assert (H0 : In l0 (l0 :: ls)) by now left.
  apply IL in H0. destruct H0 as [Hl0 Hv0].
  destruct (version_is_collected _ _ _ _ Hc _ _ Hl0 Hv0) as [vs [d0 [Hs _]]].
  destruct (Items _ _ Hs) as [es [Hes Hdocs]].
  assert (Hstat : stat (path_join_str (path_join (sourceDir config) section)
                          slug) (tree w') = Some (Dir es)).
  { rewrite (path_join_str_plain _ _ Hplain), stat_plain. exact Hes. }
  eexists. split; [apply getTranslations_Dir; exact Hstat |].
  assert (K : forall lang,
             In lang (keys (if Nat.eqb (List.length (configured_languages config)) 0
                            then []
                            else fold_left
                                   (translation_step frontMatter
                                      (configured_languages config) es slug)
                                   (keys es) []))
             <-> In lang (l0 :: ls)
                 /\ In lang (configured_languages config)
                 /\ lang <> "__proto__").
  { intros lang.
    assert (Hm : In lang (configured_languages config) ->
                 ~ In (lang ++ ".md")%string (media_of vs)).
    { intros Hcfg Hin. apply (media_of_item _ _ _ _ Hc _ _ _ Hs) in Hin.
      destruct Hin as [l [Hl Hin]]. rewrite (Hmedia _ _ Hcfg Hl) in Hin.
      discriminate. }
    destruct (Nat.eqb (List.length (configured_languages config)) 0) eqn:E0.
    { apply Nat.eqb_eq in E0.
      destruct (configured_languages config); [| discriminate].
      simpl. tauto. }
    rewrite translation_fold_keys, IL,
      <- (versions_of_item _ _ _ _ Hc _ _ lang Hs). split.
    - intros [[] | [file [H1 [H2 [H3 [H4 H5]]]]]].
      apply includes_In in H4. split; [| split; [exact H4 | exact H5]].
      pose proof (lang_file_unique _ _ (Hocc _ H4) H2 H3) as ->.
      now apply (Hdocs lang (Hm H4)).
    - intros [Hv [Hcfg Hp]]. right. exists (lang ++ ".md")%string.
      split; [now apply (Hdocs lang (Hm Hcfg)) |].
      split; [apply endsWith_md_append |].
      split; [apply str_replace_md_append; auto |].
      split; [now apply includes_In | exact Hp]. }
  split; [exact K |].
  intros Hall' lang. rewrite K. split; [tauto |]. intros Hi.
  destruct (Hall' _ Hi). auto.
Qed.

(* ================================================================== *)
(** * Part II, continued: the site generator *)
(* ================================================================== *)

(** ** The languages of a post *)

Lemma getPostLanguages_readonly (config : Config) (folderSlug : string) :
  readonly (getPostLanguages config folderSlug).
Proof. unfold getPostLanguages. ro. Qed.

Lemma existsSync_md (d : path) (lang : string) (w : World) :
  occurs "/" lang = false ->
  fs_existsSync_joined (path_join_str d (lang ++ ".md")) w
  = Ret (match lookup (d ++ [(lang ++ ".md")%string]) (tree w) with
         | Some _ => true
         | None => false
         end) w.
Proof.
  intros H. rewrite (path_join_str_plain _ _ (plain_name_md _ H)).
  unfold fs_existsSync_joined. now rewrite stat_plain.
Qed.

Lemma getPostLanguages_Dir (config : Config) (folderSlug : string)
    (es : alist node) (w : World) :
  stat (path_join_str (path_join (sourceDir config) "posts") folderSlug) (tree w)
  = Some (Dir es) ->
  (forall lang, In lang (configured_languages config) ->
                occurs "/" lang = false) ->
  getPostLanguages config folderSlug w
  = Ret (filter (fun lang => has (lang ++ ".md")%string es)
           (configured_languages config)) w.
Proof.
  intros Hs Hsl. pose proof (stat_lookup _ _ _ Hs) as Hd.
  unfold getPostLanguages.
  destruct (Nat.eqb (List.length (configured_languages config)) 0) eqn:E0.
  { apply Nat.eqb_eq in E0.
    destruct (configured_languages config); [reflexivity | discriminate]. }
  rewrite (bind_Ret _ _ _ _ _ (existsSync_joined_Some _ _ _ Hs)).
  cbv beta iota delta [negb].
  apply filterM_pure. intros lang Hl.
  rewrite (existsSync_md _ _ _ (Hsl _ Hl)). unfold has.
  change (jpath (path_join_str (path_join (sourceDir config) "posts")
                   folderSlug) ++ [(lang ++ ".md")%string])
    with (path_join (jpath (path_join_str (path_join (sourceDir config) "posts")
                              folderSlug)) (lang ++ ".md")).
  now rewrite (lookup_child _ _ _ _ Hd).
Qed.

(** X17.  For an item directory, [getPostLanguages] returns the
    configured languages, in configured order, that have an entry
    [{lang}.md]; they are the keys of the table [getPostTranslations]
    returns, except that [__proto__] is never a key of the table
    (language codes are taken to contain neither [.md] nor a slash). *)
Theorem post_languages_agree (config : Config)
    (frontMatter : jsstring -> option Attributes) (folderSlug : string)
    (w : World) (es : alist node) :
  stat (path_join_str (path_join (sourceDir config) "posts") folderSlug) (tree w)
  = Some (Dir es) ->
  (forall lang, In lang (configured_languages config) ->
                occurs ".md" lang = false /\ occurs "/" lang = false) ->
  exists T,
    getPostTranslations config frontMatter folderSlug w = Ret T w
    /\ getPostLanguages config folderSlug w
       = Ret (filter (fun lang => has (lang ++ ".md")%string es)
                (configured_languages config)) w
    /\ forall lang,
         In lang (keys T)
         <-> In lang (filter (fun lang => has (lang ++ ".md")%string es)
                        (configured_languages config))
             /\ lang <> "__proto__".
Proof.
  intros Hd Hocc. eexists.
  split; [apply getTranslations_Dir; exact Hd |].
  split; [apply getPostLanguages_Dir; [exact Hd | intros l Hl; apply Hocc, Hl] |].
  intros lang. rewrite filter_In.
  destruct (Nat.eqb (List.length (configured_languages config)) 0) eqn:E0.
  { apply Nat.eqb_eq in E0.
    destruct (configured_languages config); [| discriminate].
    simpl. tauto. }
  rewrite translation_fold_keys. rewrite has_keys. split.
  - intros [[] | [file [H1 [H2 [H3 [H4 H5]]]]]].
    apply includes_In in H4. split; [| exact H5]. split; [exact H4 |].
    now rewrite <- (lang_file_unique _ _ (proj1 (Hocc _ H4)) H2 H3).
  - intros [[Hl Hk] Hp]. right. exists (lang ++ ".md")%string.
    split; [exact Hk |]. split; [apply endsWith_md_append |].
    split; [apply str_replace_md_append; now apply Hocc |].
    split; [now apply includes_In | exact Hp].
Qed.

(** X18.  When the item path is a regular file, the resolver throws,
    and with it the switcher of a post, while [getPostLanguages] returns
    no language (language codes are taken not to contain a slash). *)
Theorem item_path_regular_file (config : Config)
    (frontMatter : jsstring -> option Attributes)
    (toUpperCase : string -> string) (currentLang folderSlug : string)
    (w : World) (b : string) :
  stat (path_join_str (path_join (sourceDir config) "posts") folderSlug) (tree w)
  = Some (File b) ->
  2 <= List.length (configured_languages config) ->
  ((forall lang, In lang (configured_languages config) ->
                 occurs "/" lang = false) ->
   getPostLanguages config folderSlug w = Ret [] w)
  /\ getPostTranslations config frontMatter folderSlug w = Throw w
  /\ generateLanguageSwitcher config frontMatter toUpperCase currentLang
       folderSlug "post" None w = Throw w.
Proof.
  intros Hs Hlen. pose proof (stat_lookup _ _ _ Hs) as Hd.
  assert (E0 : Nat.eqb (List.length (configured_languages config)) 0 = false)
    by (apply Nat.eqb_neq; lia).
  assert (E1 : Nat.leb (List.length (configured_languages config)) 1 = false)
    by (apply Nat.leb_gt; lia).
  assert (T : getPostTranslations config frontMatter folderSlug w = Throw w).
  { apply getTranslations_File with (b := b); [| exact Hs].
    intros E. rewrite E in Hlen. simpl in Hlen. lia. }
  split; [| split; [exact T |]].
  - intros Hsl. unfold getPostLanguages. rewrite E0.
    rewrite (bind_Ret _ _ _ _ _ (existsSync_joined_Some _ _ _ Hs)).
    cbv beta iota delta [negb].
    rewrite (filterM_pure _ (fun _ => false)).
    + f_equal.
      assert (F : forall l : list string, filter (fun _ => false) l = [])
        by (induction l; auto).
      apply F.
    + intros lang Hl. rewrite (existsSync_md _ _ _ (Hsl _ Hl)).
      now rewrite (lookup_File_app _ _ _ _ Hd).
  - unfold generateLanguageSwitcher. rewrite E1.
    change (String.eqb "post" "post") with true. cbv iota.
    unfold opt_or. unfold bind at 1. unfold bind at 1. now rewrite T.
Qed.

(** ** The switcher of a page *)

(** X19.  For a page, with at least two configured languages, the
    switcher lists every configured language, in configured order,
    without looking at the file system: the current language as plain
    text, the first configured language with the link [/], every other
    language with the link [/{lang}/]. *)
Theorem switcher_page_links (config : Config)
    (frontMatter : jsstring -> option Attributes)
    (toUpperCase : string -> string)
    (currentLang slug : string) (folderSlug : option string) (w : World) :
  2 <= List.length (configured_languages config) ->
  generateLanguageSwitcher config frontMatter toUpperCase currentLang slug
    "page" folderSlug w
  = Ret ("<div class=" ++ dq ++ "lang-switcher" ++ dq ++ ">"
           ++ String.concat " | "
                (map (expected_page_entry toUpperCase
                        (hd EmptyString (configured_languages config))
                        currentLang)
                     (configured_languages config))
           ++ "</div>")%string w.
Proof.
  intros Hlen. unfold generateLanguageSwitcher.
  assert (E1 : Nat.leb (List.length (configured_languages config)) 1 = false)
    by (apply Nat.leb_gt; lia).
  rewrite E1.
  change (String.eqb "page" "post") with false.
  change (String.eqb "page" "project") with false. cbv iota.
  unfold bind at 1. unfold ret at 1. cbn [fst snd]. rewrite E1.
  change (obj_get_or "page" typeToPath EmptyString) with EmptyString.
  assert (Mp : map (switcherLink toUpperCase
                      (hd EmptyString (configured_languages config))
                      currentLang slug EmptyString [])
                 (configured_languages config)
               = map (expected_page_entry toUpperCase
                        (hd EmptyString (configured_languages config))
                        currentLang)
                     (configured_languages config)).
  { apply map_ext. intros lang.
    unfold switcherLink, expected_page_entry, display_name, url_prefix.
    change (String.eqb EmptyString EmptyString) with true.
    reflexivity. }
  unfold ret. now rewrite Mp.
Qed.

(** ** Templates *)

Lemma loadPartial_readonly (cwd moduleDir : path) (partialName : string) :
  readonly (loadPartial cwd moduleDir partialName).
Proof. unfold loadPartial. ro. Qed.

Lemma getTemplatePath_readonly (cwd moduleDir : path) (templatePath : path) :
  readonly (getTemplatePath cwd moduleDir templatePath).
Proof. unfold getTemplatePath. ro. Qed.

(** X20.  A local [templates/{name}.html] always wins: when it is a
    regular file its text is returned; when it is a directory the result
    is the empty string, and the template of the module is not
    consulted. *)
Theorem loadPartial_local_first (cwd moduleDir : path) (partialName : string)
    (w : World) (n : node) :
  lookup (cwd ++ ["templates"; (partialName ++ ".html")%string]) (tree w)
  = Some n ->
  loadPartial cwd moduleDir partialName w
  = Ret (match n with File b => utf8_decode b | Dir _ => [] end) w.
Proof.
  intros Hl. unfold loadPartial.
  rewrite (bind_Ret _ _ _ _ _ (existsSync_Some _ _ _ Hl)). cbv iota.
  unfold catch, fs_readFileSync. rewrite Hl. now destruct n.
Qed.

(** X21.  [loadPartial] reads the file [getTemplatePath] picks for
    [templates/{name}.html], and gives the empty string when that file
    cannot be read; it always returns, and in the world it started
    from. *)
Theorem loadPartial_reads_template_path (cwd moduleDir : path)
    (partialName : string) (w : World) :
  loadPartial cwd moduleDir partialName w
  = (p <- getTemplatePath cwd moduleDir
            ["templates"; (partialName ++ ".html")%string] ;;
     catch (fs_readFileSync p) (ret [])) w
  /\ exists text, loadPartial cwd moduleDir partialName w = Ret text w.
Proof.
  unfold loadPartial, getTemplatePath, bind, fs_existsSync, catch,
    fs_readFileSync, ret.
  destruct (lookup (cwd ++ _) (tree w)) as [[b | es] |] eqn:E.
  - rewrite E. split; eauto.
  - rewrite E. split; eauto.
  - destruct (lookup (modulePath moduleDir _) (tree w)) as [[b | es] |];
      split; eauto.
Qed.

(** X22.  The resolver, the switcher, [getPostLanguages], [loadPartial]
    and [getTemplatePath] only read: however they end, the world is the
    one they started from. *)
Theorem site_reads_only (config : Config)
    (frontMatter : jsstring -> option Attributes)
    (toUpperCase : string -> string) (cwd moduleDir : path) :
  (forall section folderSlug,
      readonly (getTranslations config frontMatter section folderSlug))
  /\ (forall currentLang slug type folderSlug,
        readonly (generateLanguageSwitcher config frontMatter toUpperCase
                    currentLang slug type folderSlug))
  /\ (forall folderSlug, readonly (getPostLanguages config folderSlug))
  /\ (forall partialName, readonly (loadPartial cwd moduleDir partialName))
  /\ (forall templatePath,
        readonly (getTemplatePath cwd moduleDir templatePath)).
Proof.
  split; [intros; apply getTranslations_readonly |].
  split; [| split; [intros; apply getPostLanguages_readonly |
                    split; [intros; apply loadPartial_readonly
                           | intros; apply getTemplatePath_readonly]]].
  intros currentLang slug type folderSlug.
  unfold generateLanguageSwitcher, getPostTranslations, getProjectTranslations.
  pose proof (getTranslations_readonly config frontMatter) as G.
  destruct (Nat.leb _ 1); [apply readonly_ret |].
  apply readonly_bind.
  - destruct (String.eqb type "post");
      [| destruct (String.eqb type "project")];
      try (apply readonly_bind; [apply G | intros; apply readonly_ret]).
    apply readonly_ret.
  - intros ta. destruct (Nat.leb _ 1); apply readonly_ret.
Qed.

(** ** Links *)

Lemma append_nil_r (s : string) : (s ++ EmptyString)%string = s.
Proof. induction s as [| c s IH]; simpl; [reflexivity | now rewrite IH]. Qed.

Lemma endsWith_length (s suffix : string) :
  endsWith s suffix = true -> String.length suffix <= String.length s.
Proof.
  induction s as [| c s IH].
  - destruct suffix; simpl; [lia | discriminate].
  - rewrite endsWith_cons. intros H. apply orb_true_iff in H.
    destruct H as [H | H].
    + apply eqb_true in H. now subst.
    + apply IH in H. simpl. lia.
Qed.

Lemma endsWith_split (s suffix : string) :
  endsWith s suffix = true ->
  s = (slice_end s (String.length suffix) ++ suffix)%string.
Proof.
  unfold slice_end. induction s as [| c s IH].
  - destruct suffix; [reflexivity | discriminate].
  - rewrite endsWith_cons. intros H.
    destruct (String.eqb (String c s) suffix) eqn:E.
    + apply eqb_true in E. rewrite <- E. rewrite Nat.sub_diag. reflexivity.
    + simpl in H. pose proof (endsWith_length _ _ H) as L.
      change (String.length (String c s)) with (S (String.length s)).
      replace (S (String.length s) - String.length suffix)
        with (S (String.length s - String.length suffix)) by lia.
      simpl. f_equal. now apply IH.
Qed.

Lemma endsWith_append (s suffix : string) :
  endsWith (s ++ suffix) suffix = true.
Proof.
  induction s as [| c s IH].
  - destruct suffix as [| a suffix]; [reflexivity |].
    change ((EmptyString ++ String a suffix)%string) with (String a suffix).
    now rewrite endsWith_cons, eqb_refl'.
  - change ((String c s ++ suffix)%string) with (String c (s ++ suffix)).
    rewrite endsWith_cons, IH. apply orb_true_r.
Qed.

Lemma slice_end_append (s suffix : string) :
  slice_end (s ++ suffix) (String.length suffix) = s.
Proof.
  unfold slice_end. induction s as [| c s IH].
  - simpl. rewrite Nat.sub_diag. destruct suffix; reflexivity.
  - change ((String c s ++ suffix)%string) with (String c (s ++ suffix)).
    change (String.length (String c (s ++ suffix)))
      with (S (String.length (s ++ suffix))).
    assert (L : String.length suffix <= String.length (s ++ suffix)).
    { apply endsWith_length, endsWith_append. }
    replace (S (String.length (s ++ suffix)) - String.length suffix)
      with (S (String.length (s ++ suffix) - String.length suffix)) by lia.
    simpl. f_equal. exact IH.
Qed.

(** X23.  The link renderer cuts one leading slash and one trailing
    [index.html] off the link, and nothing else: a link
    [/{s}index.html] becomes [{s}]. *)
Theorem link_href_cuts (href : string) :
  (exists suffix,
     href = ((if String.prefix "/" href then "/" else EmptyString)
               ++ link_href href ++ suffix)%string
     /\ (suffix = EmptyString \/ suffix = "index.html"))
  /\ link_href ("/" ++ href ++ "index.html") = href.
Proof.
  split.
  - unfold link_href.
    set (h := if String.prefix "/" href then drop 1 href else href).
    assert (E : href = ((if String.prefix "/" href then "/" else EmptyString)
                          ++ h)%string).
    { subst h. destruct (String.prefix "/" href) eqn:P; [| reflexivity].
      now apply prefix_split in P. }
    destruct (endsWith h "index.html") eqn:Eh.
    + exists "index.html". split; [| now right].
      rewrite <- (endsWith_split _ _ Eh). exact E.
    + exists EmptyString. split; [| now left]. now rewrite append_nil_r.
  - unfold link_href.
    assert (P : String.prefix "/" (String "/" (href ++ "index.html")) = true).
    { rewrite prefix_cons, Ascii.eqb_refl.
      destruct (href ++ "index.html")%string; reflexivity. }
    change ("/" ++ href ++ "index.html")%string
      with (String "/" (href ++ "index.html")).
    rewrite P.
    change (drop 1 (String "/" (href ++ "index.html")))
      with ((href ++ "index.html")%string).
    rewrite endsWith_append. apply slice_end_append.
Qed.

(* ================================================================== *)
(** * Part III: the properties on the example inputs *)
(* ================================================================== *)

Example legacy_migration :
  main false content_root legacy_world = Ret tt migrated_world
  /\ tree migrated_world
     = Dir [("content", Dir [("projects", Dir [
         ("_old_structure_backup", Dir [
            ("en", Dir [("setup-ssh", Dir [
               ("index.md", File "Setting up SSH");
               ("diagram.png", File "PNG-en")])]);
            ("ru", Dir [("setup-ssh", Dir [
               ("diagram.png", File "PNG-ru");
               ("index.md", File ru_document);
               ("notes.txt", File "notes")])])]);
         ("setup-ssh", Dir [
            ("en.md", File "Setting up SSH");
            ("ru.md", File ru_document);
            ("diagram.png", File "PNG-en");
            ("notes.txt", File "notes")])])])].
Proof. split; vm_compute; reflexivity. Qed.

(** Witness of C1: the item folder holds a subdirectory, so the copy of
    the media files throws during staging. *)
Lemma staging_failure_witness :
  staging false content_root nested_projects nested_world = Throw nested_failure
  /\ (migrate false content_root ["en"] nested_projects nested_world
      = Throw nested_failure
      /\ (forall p n, lookup p (tree nested_world) = Some n ->
            exists n', lookup p (tree nested_failure) = Some n'
                       /\ isDirectory n' = isDirectory n)
      /\ (forall q, diverge (path_join content_root tempName) q = true ->
                    lookup q (tree nested_failure) = lookup q (tree nested_world))
      /\ (forall name rest, name <> tempName ->
            lookup (content_root ++ name :: rest) (tree nested_failure)
            = lookup (content_root ++ name :: rest) (tree nested_world))).
Proof.
  split; [vm_compute; reflexivity |].
  apply (staging_failure_leaves_original content_root ["en"] nested_projects
           nested_world nested_failure).
  vm_compute. reflexivity.
Defined.

(** Witness of C2: the file [diagram.png] of the Russian folder. *)
Lemma media_materialized_once_witness :
  wf (tree legacy_world) = true
  /\ main false content_root legacy_world = Ret tt migrated_world
  /\ legacy_languages content_root (tree legacy_world) = ["en"; "ru"]
  /\ has_media content_root (tree legacy_world) "setup-ssh" "diagram.png" "ru"
     = true
  /\ exists first b es,
       find (has_media content_root (tree legacy_world) "setup-ssh"
               "diagram.png")
         (legacy_languages content_root (tree legacy_world)) = Some first
       /\ lookup (content_root ++ [first; "setup-ssh"; "diagram.png"])
            (tree legacy_world) = Some (File b)
       /\ lookup (content_root ++ ["setup-ssh"]) (tree migrated_world)
          = Some (Dir es)
       /\ aget "diagram.png" es = Some (File b)
       /\ count_occ string_dec (keys es) "diagram.png" = 1.
Proof.
  split; [vm_compute; reflexivity |].
  split; [vm_compute; reflexivity |].
  split; [vm_compute; reflexivity |].
  split; [vm_compute; reflexivity |].
  apply (media_materialized_once content_root legacy_world migrated_world)
    with (lang := "ru").
  - vm_compute. reflexivity.
  - vm_compute. reflexivity.
  - right. left. reflexivity.
  - vm_compute. reflexivity.
Defined.

(** The media file of the example: one [diagram.png], with the bytes of
    the English folder, the first in enumeration order. *)
Example media_dedup_example :
  lookup (content_root ++ ["setup-ssh"; "diagram.png"]) (tree migrated_world)
  = lookup (content_root ++ ["en"; "setup-ssh"; "diagram.png"]) (tree legacy_world)
  /\ lookup (content_root ++ ["setup-ssh"; "diagram.png"]) (tree migrated_world)
     = Some (File "PNG-en").
Proof. split; vm_compute; reflexivity. Qed.

(** Counterexample to C3 as stated: the legacy document is not UTF-8; the
    run succeeds and the migrated document has other bytes. *)
Lemma migrated_document_bytes_differ :
  main false content_root cp1251_world
  = Ret tt (world_of (main false content_root cp1251_world))
  /\ lookup (content_root ++ ["ru"; "privet"; "index.md"]) (tree cp1251_world)
     = Some (File cp1251_bytes)
  /\ lookup (content_root ++ ["privet"; "ru.md"])
       (tree (world_of (main false content_root cp1251_world)))
     = Some (File (string_of_bytes
                     [239; 191; 189; 239; 191; 189; 239; 191; 189;
                      239; 191; 189; 239; 191; 189; 239; 191; 189]%N))
  /\ String.eqb cp1251_bytes
       (string_of_bytes
          [239; 191; 189; 239; 191; 189; 239; 191; 189;
           239; 191; 189; 239; 191; 189; 239; 191; 189]%N) = false.
Proof. repeat split; vm_compute; reflexivity. Qed.

(** A document that is well-formed UTF-8 (three Cyrillic letters and an
    emoji) is read and written back with the same bytes. *)
Example utf8_round_trip_example :
  well_formed_utf8
    (string_of_bytes [208; 159; 209; 128; 208; 184; 240; 159; 153; 130]%N)
  /\ utf8_decode
       (string_of_bytes [208; 159; 209; 128; 208; 184; 240; 159; 153; 130]%N)
     = [1055; 1088; 1080; 128578]%N
  /\ utf8_recode
       (string_of_bytes [208; 159; 209; 128; 208; 184; 240; 159; 153; 130]%N)
     = string_of_bytes [208; 159; 209; 128; 208; 184; 240; 159; 153; 130]%N.
Proof.
  split; [| split; vm_compute; reflexivity].
  exists [1055; 1088; 1080; 128578]%N. split; vm_compute; reflexivity.
Qed.

(** Witness of C3 as amended: the Russian document of the example. *)
Lemma migration_preserves_data_witness :
  wf (tree legacy_world) = true
  /\ main false content_root legacy_world = Ret tt migrated_world
  /\ (exists b,
        lookup (content_root ++ ["ru"; "setup-ssh"; "index.md"])
          (tree legacy_world) = Some (File b)
        /\ lookup (content_root ++ ["setup-ssh"; "ru.md"]) (tree migrated_world)
           = Some (File (utf8_recode b))
        /\ (well_formed_utf8 b ->
            lookup (content_root ++ ["setup-ssh"; "ru.md"])
              (tree migrated_world)
            = lookup (content_root ++ ["ru"; "setup-ssh"; "index.md"])
                (tree legacy_world)))
  /\ (forall lang,
        In lang (legacy_languages content_root (tree legacy_world)) ->
        lookup (content_root ++ [lang]) (tree legacy_world) <> None
        /\ forall rest,
             lookup (content_root ++ backupName :: lang :: rest)
               (tree migrated_world)
             = lookup (content_root ++ lang :: rest) (tree legacy_world)).
Proof.
  assert (W : wf (tree legacy_world) = true) by (vm_compute; reflexivity).
  assert (H : main false content_root legacy_world = Ret tt migrated_world)
    by (vm_compute; reflexivity).
  split; [exact W |]. split; [exact H |].
  split;
    [| exact (proj2 (migration_preserves_data content_root legacy_world
                       migrated_world W H))].
  apply (proj1 (migration_preserves_data content_root legacy_world
                  migrated_world W H) "ru" "setup-ssh").
  - right. left. reflexivity.
  - vm_compute. reflexivity.
  - intros l [<- | [<- | []]]; vm_compute; reflexivity.
Defined.

(** A media file named [en.md] takes the place of the English document:
    the media files are copied after the documents are written. *)
Example media_file_named_like_a_document :
  main false content_root
    (mkWorld (Dir [("content", Dir [("projects", Dir [
        ("en", Dir [("setup-ssh", Dir [
           ("index.md", File "Setting up SSH");
           ("en.md", File "notes")])])])])]) [])
  = Ret tt
      (mkWorld (Dir [("content", Dir [("projects", Dir [
          ("_old_structure_backup", Dir [
             ("en", Dir [("setup-ssh", Dir [
                ("index.md", File "Setting up SSH");
                ("en.md", File "notes")])])]);
          ("setup-ssh", Dir [("en.md", File "notes")])])])]) []).
Proof. vm_compute. reflexivity. Qed.

(** Counterexample to C4 as stated: the item has documents in three
    languages, [de] is not configured, and the table has two keys. *)
Lemma unconfigured_language_not_resolved :
  item_languages content_root (tree three_language_world) "setup-ssh"
  = ["en"; "ru"; "de"]
  /\ main false (path_join (sourceDir two_language_config) "projects")
       three_language_world
     = Ret tt (world_of (main false content_root three_language_world))
  /\ getTranslations two_language_config example_frontMatter "projects"
       "setup-ssh" (world_of (main false content_root three_language_world))
     = Ret [("en", "setup-ssh"); ("ru", "nastroyka-ssh")]
         (world_of (main false content_root three_language_world)).
Proof. repeat split; vm_compute; reflexivity. Qed.

(** Witness of C4 as amended. *)
Lemma migrate_then_resolve_witness :
  wf (tree three_language_world) = true
  /\ main false (path_join (sourceDir two_language_config) "projects")
       three_language_world
     = Ret tt (world_of (main false content_root three_language_world))
  /\ lookup (path_join (sourceDir two_language_config) "projects" ++ [tempName])
       (tree three_language_world) = None
  /\ item_languages (path_join (sourceDir two_language_config) "projects")
       (tree three_language_world) "setup-ssh" = ["en"; "ru"; "de"]
  /\ exists T,
       getTranslations two_language_config example_frontMatter "projects"
         "setup-ssh" (world_of (main false content_root three_language_world))
       = Ret T (world_of (main false content_root three_language_world))
       /\ (forall lang,
             In lang (keys T)
             <-> In lang
                   (item_languages
                      (path_join (sourceDir two_language_config) "projects")
                      (tree three_language_world) "setup-ssh")
                 /\ In lang (configured_languages two_language_config)
                 /\ lang <> "__proto__")
       /\ ((forall lang,
              In lang
                (item_languages
                   (path_join (sourceDir two_language_config) "projects")
                   (tree three_language_world) "setup-ssh") ->
              In lang (configured_languages two_language_config)
              /\ lang <> "__proto__") ->
           forall lang,
             In lang (keys T)
             <-> In lang
                   (item_languages
                      (path_join (sourceDir two_language_config) "projects")
                      (tree three_language_world) "setup-ssh")).
Proof.
  split; [vm_compute; reflexivity |].
  split; [vm_compute; reflexivity |].
  split; [vm_compute; reflexivity |].
  split; [vm_compute; reflexivity |].
  apply (migrate_then_resolve two_language_config example_frontMatter
           "projects" three_language_world
           (world_of (main false content_root three_language_world))).
  - vm_compute. reflexivity.
  - vm_compute. reflexivity.
  - vm_compute. reflexivity.
  - intros lang [<- | [<- | []]]; reflexivity.
  - vm_compute. reflexivity.
  - vm_compute. discriminate.
  - intros lang l [<- | [<- | []]] [<- | [<- | [<- | []]]];
      vm_compute; reflexivity.
Defined.

(** Witness of C5. *)
Lemma dry_run_no_mutation_witness :
  (forall languages projects,
      migrate true content_root languages projects legacy_world
      = Ret tt legacy_world)
  /\ world_of (main true content_root legacy_world) = legacy_world.
Proof. exact (dry_run_no_mutation content_root legacy_world). Defined.



Example resolver_example :
  getTranslations two_language_config example_frontMatter "posts" "setup-ssh"
    site_world
  = Ret [("en", "setup-ssh"); ("ru", "nastroyka-ssh")] site_world.
Proof. vm_compute. reflexivity. Qed.

(** The keys of a plain object: the array indices in ascending order,
    then the other keys in the order of their creation; an assignment to
    an existing key keeps its place, and one to [__proto__] creates
    nothing. *)
Example object_keys_order :
  fold_left (fun o kv => obj_set (fst kv) (snd kv) o)
    [("b", "1"); ("10", "2"); ("9", "3"); ("01", "4"); ("__proto__", "5");
     ("4294967295", "6"); ("0", "7"); ("b", "8")] []
  = [("0", "7"); ("9", "3"); ("10", "2"); ("b", "8"); ("01", "4");
     ("4294967295", "6")].
Proof. vm_compute. reflexivity. Qed.

(** [path.join] on strings: empty segments and [.] are dropped, [..]
    steps back, and a trailing separator is kept. *)
Example path_join_str_example :
  path_join_str ["content"; "posts"] "a//./b/../c/"
  = mkJoined ["content"; "posts"; "a"; "c"] true
  /\ path_join_str ["content"; "posts"] "../../../x"
     = mkJoined ["x"] false
  /\ path_join_str ["content"; "posts"] EmptyString
     = mkJoined ["content"; "posts"] false.
Proof. repeat split; vm_compute; reflexivity. Qed.

(** Unusual language codes.  The table has no key [__proto__], although
    the document exists and [getPostLanguages] lists the language; its
    keys are in the order of [Object.keys], the array indices first; and
    the file [x.mdy.md] gives the key [xy.md]. *)
Example resolver_odd_codes :
  getPostTranslations odd_config example_frontMatter "setup-ssh" odd_site_world
  = Ret [("3", "setup-ssh"); ("7", "setup-ssh"); ("en", "setup-ssh");
         ("xy.md", "setup-ssh")] odd_site_world
  /\ getPostLanguages odd_config "setup-ssh" odd_site_world
     = Ret ["en"; "__proto__"; "7"; "3"] odd_site_world.
Proof. split; vm_compute; reflexivity. Qed.

(** The folder slug is joined as [path.join] joins it: the empty slug
    and [setup-ssh/..] lead to the directory of the posts, [./setup-ssh/]
    to the post, and [broken/] to nothing, since [broken] is a regular
    file. *)
Example resolver_joined_paths :
  getPostTranslations odd_config example_frontMatter EmptyString odd_site_world
  = Ret [("en", EmptyString)] odd_site_world
  /\ getPostTranslations odd_config example_frontMatter "setup-ssh/.."
       odd_site_world
     = Ret [("en", "setup-ssh/..")] odd_site_world
  /\ getPostTranslations two_language_config example_frontMatter
       "./setup-ssh/" site_world
     = Ret [("en", "./setup-ssh/"); ("ru", "nastroyka-ssh")] site_world
  /\ getPostTranslations two_language_config example_frontMatter "broken/"
       broken_site_world
     = Ret [] broken_site_world.
Proof. repeat split; vm_compute; reflexivity. Qed.

(** A language code that is the name of a property of
    [Object.prototype] is displayed as the text of that property. *)
Example switcher_inherited_name :
  generateLanguageSwitcher (mkConfig (Some ["en"; "constructor"]) ["content"])
    example_frontMatter (fun s => s) "en" EmptyString "page" None no_root_world
  = Ret ("<div class=" ++ dq ++ "lang-switcher" ++ dq ++ ">"
           ++ "<span class=" ++ dq ++ "lang-current" ++ dq ++ ">English</span>"
           ++ " | "
           ++ "<a href=" ++ dq ++ "/constructor/" ++ dq
           ++ " class=" ++ dq ++ "lang-link" ++ dq
           ++ ">function Object() { [native code] }</a>"
           ++ "</div>")%string no_root_world.
Proof. vm_compute. reflexivity. Qed.

(** Witness of C7: the navigation example of the specification. *)
Lemma switcher_links_witness :
  cfg_languages two_language_config = Some ["en"; "ru"]
  /\ opt_or (Some "setup-ssh") "nastroyka-ssh" <> EmptyString
  /\ getTranslations two_language_config example_frontMatter "posts"
       (opt_or (Some "setup-ssh") "nastroyka-ssh") site_world
     = Ret [("en", "setup-ssh"); ("ru", "nastroyka-ssh")] site_world
  /\ 2 <= List.length (keys [("en", "setup-ssh"); ("ru", "nastroyka-ssh")])
  /\ generateLanguageSwitcher two_language_config example_frontMatter
       (fun s => s) "ru" "nastroyka-ssh" "post" (Some "setup-ssh") site_world
     = Ret (expected_switcher (fun s => s) "en" "ru" "posts"
              [("en", "setup-ssh"); ("ru", "nastroyka-ssh")]) site_world.
Proof.
  split; [reflexivity |]. split; [discriminate |].
  split; [vm_compute; reflexivity |]. split; [simpl; lia |].
  apply (switcher_links two_language_config example_frontMatter (fun s => s)
           "ru" "nastroyka-ssh" "post" "posts" (Some "setup-ssh") site_world
           [("en", "setup-ssh"); ("ru", "nastroyka-ssh")] "en" ["ru"]).
  - reflexivity.
  - left. split; reflexivity.
  - discriminate.
  - vm_compute. reflexivity.
  - simpl. lia.
Defined.

(** Navigation correctness: with the translations
    [{en: setup-ssh, ru: nastroyka-ssh}] and the current language [ru],
    the link of [en] goes to [/posts/setup-ssh/] and [ru] is plain
    text. *)
Example switcher_navigation_example :
  generateLanguageSwitcher two_language_config example_frontMatter
    (fun s => s) "ru" "nastroyka-ssh" "post" (Some "setup-ssh") site_world
  = Ret ("<div class=" ++ dq ++ "lang-switcher" ++ dq ++ ">"
           ++ "<a href=" ++ dq ++ "/posts/setup-ssh/" ++ dq
           ++ " class=" ++ dq ++ "lang-link" ++ dq ++ ">English</a>"
           ++ " | "
           ++ "<span class=" ++ dq ++ "lang-current" ++ dq ++ ">Русский</span>"
           ++ "</div>")%string site_world.
Proof. vm_compute. reflexivity. Qed.

(** The link of a language that is not the default one carries its
    prefix and its own slug. *)
Example switcher_prefix_example :
  generateLanguageSwitcher two_language_config example_frontMatter
    (fun s => s) "en" "setup-ssh" "post" (Some "setup-ssh") site_world
  = Ret ("<div class=" ++ dq ++ "lang-switcher" ++ dq ++ ">"
           ++ "<span class=" ++ dq ++ "lang-current" ++ dq ++ ">English</span>"
           ++ " | "
           ++ "<a href=" ++ dq ++ "/ru/posts/nastroyka-ssh/" ++ dq
           ++ " class=" ++ dq ++ "lang-link" ++ dq ++ ">Русский</a>"
           ++ "</div>")%string site_world.
Proof. vm_compute. reflexivity. Qed.

(** Witness of C8: an absent content root, and a content root that is
    already in the current layout. *)
Lemma detect_absent_or_empty_witness :
  (lookup content_root (tree no_root_world) = None
   /\ detectLanguages content_root no_root_world = Exit 1 no_root_world
   /\ main false content_root no_root_world = Exit 1 no_root_world)
  /\ (wf (tree migrated_world) = true
      /\ lookup content_root (tree migrated_world)
         = Some (Dir [("_old_structure_backup", Dir [
                         ("en", Dir [("setup-ssh", Dir [
                            ("index.md", File "Setting up SSH");
                            ("diagram.png", File "PNG-en")])]);
                         ("ru", Dir [("setup-ssh", Dir [
                            ("diagram.png", File "PNG-ru");
                            ("index.md", File ru_document);
                            ("notes.txt", File "notes")])])]);
                      ("setup-ssh", Dir [
                         ("en.md", File "Setting up SSH");
                         ("ru.md", File ru_document);
                         ("diagram.png", File "PNG-en");
                         ("notes.txt", File "notes")])])
      /\ detectLanguages content_root migrated_world = Ret [] migrated_world
      /\ main false content_root migrated_world = Exit 0 migrated_world).
Proof.
  split.
  - split; [reflexivity |].
    apply (proj1 (detect_absent_or_empty false content_root no_root_world)).
    reflexivity.
  - split; [vm_compute; reflexivity |]. split; [vm_compute; reflexivity |].
    apply (proj2 (detect_absent_or_empty false content_root migrated_world)
             [("_old_structure_backup", Dir [
                 ("en", Dir [("setup-ssh", Dir [
                    ("index.md", File "Setting up SSH");
                    ("diagram.png", File "PNG-en")])]);
                 ("ru", Dir [("setup-ssh", Dir [
                    ("diagram.png", File "PNG-ru");
                    ("index.md", File ru_document);
                    ("notes.txt", File "notes")])])]);
              ("setup-ssh", Dir [
                 ("en.md", File "Setting up SSH");
                 ("ru.md", File ru_document);
                 ("diagram.png", File "PNG-en");
                 ("notes.txt", File "notes")])]).
    + vm_compute. reflexivity.
    + vm_compute. reflexivity.
    + intros x n [H | [H | []]]; injection H as <- <-; reflexivity.
Defined.

(** Witness of C9: the single-language guard. *)
Lemma switcher_empty_below_two_witness :
  getTranslations two_language_config example_frontMatter "posts"
    (opt_or (Some "only-one") "only-one") site_world
  = Ret [("en", "only-one")] site_world
  /\ List.length (keys [("en", "only-one")]) < 2
  /\ generateLanguageSwitcher two_language_config example_frontMatter
       (fun s => s) "en" "only-one" "post" (Some "only-one") site_world
     = Ret EmptyString site_world.
Proof.
  split; [vm_compute; reflexivity |]. split; [simpl; lia |].
  apply (switcher_empty_below_two two_language_config example_frontMatter
           (fun s => s) "en" "only-one" "post" "posts" (Some "only-one")
           site_world [("en", "only-one")]).
  - left. split; reflexivity.
  - vm_compute. reflexivity.
  - simpl. lia.
Defined.

(** Witness of C10: [draft.md] and [de.md] are ignored. *)
Lemma resolver_keys_configured_witness :
  getTranslations two_language_config example_frontMatter "posts" "setup-ssh"
    site_world
  = Ret [("en", "setup-ssh"); ("ru", "nastroyka-ssh")] site_world
  /\ (forall lang,
        In lang (keys [("en", "setup-ssh"); ("ru", "nastroyka-ssh")]) ->
        In lang (configured_languages two_language_config))
  /\ (forall file,
        ~ In (str_replace file ".md" EmptyString)
            (configured_languages two_language_config) ->
        ~ In (str_replace file ".md" EmptyString)
            (keys [("en", "setup-ssh"); ("ru", "nastroyka-ssh")])).
Proof.
  split; [vm_compute; reflexivity |].
  apply (resolver_keys_configured two_language_config example_frontMatter
           "posts" "setup-ssh" site_world site_world
           [("en", "setup-ssh"); ("ru", "nastroyka-ssh")]).
  vm_compute. reflexivity.
Defined.

(** ** The migration script on the example inputs *)

(** Witness of X1. *)
Lemma detect_languages_listing_witness :
  detectLanguages content_root neighbours_world = Ret ["en"] neighbours_world.
Proof.
  apply (detect_languages_listing content_root neighbours_world
           [("en", Dir [("setup-ssh", Dir [("index.md", File "Setting up SSH")])]);
            ("drafts", Dir [("todo.txt", File "todo")])]);
    vm_compute; reflexivity.
Defined.

(** Witness of X2. *)
Lemma collection_complete_witness :
  collectProjects content_root ["en"; "ru"] legacy_world
  = Ret (match collectProjects content_root ["en"; "ru"] legacy_world with
         | Ret projects _ => projects
         | _ => []
         end) legacy_world
  /\ (legacy_world = legacy_world
      /\ (forall lang slug fs,
            In lang ["en"; "ru"] ->
            lookup (content_root ++ [lang; slug]) (tree legacy_world)
            = Some (Dir fs) ->
            has "index.md" fs = true ->
            exists versions d,
              aget slug (match collectProjects content_root ["en"; "ru"]
                                 legacy_world with
                         | Ret projects _ => projects
                         | _ => []
                         end) = Some versions
              /\ aget lang versions = Some d
              /\ collected content_root (tree legacy_world) slug lang d)
      /\ (forall slug versions lang d,
            In (slug, versions)
               (match collectProjects content_root ["en"; "ru"]
                        legacy_world with
                | Ret projects _ => projects
                | _ => []
                end) ->
            In (lang, d) versions ->
            In lang ["en"; "ru"]
            /\ collected content_root (tree legacy_world) slug lang d)).
Proof.
  split; [vm_compute; reflexivity |].
  apply (collection_complete content_root ["en"; "ru"]).
  vm_compute. reflexivity.
Defined.

(** Witness of X3. *)
Lemma unreadable_index_aborts_witness :
  main false content_root dir_index_world = Exit 1 dir_index_world.
Proof.
  apply (unreadable_index_aborts false content_root dir_index_world
           "en" "broken" []); vm_compute; reflexivity.
Defined.

(** Witness of X4: the pages next to the content root. *)
Lemma main_stays_in_root_witness :
  lookup ["content"; "pages"]
    (tree (world_of (main false content_root neighbours_world)))
  = lookup ["content"; "pages"] (tree neighbours_world).
Proof.
  apply (main_stays_in_root false content_root neighbours_world
           ["content"; "pages"]).
  vm_compute. reflexivity.
Defined.

(** Witness of X5. *)
Lemma migration_frame_witness :
  main false content_root neighbours_world
  = Ret tt (world_of (main false content_root neighbours_world))
  /\ lookup (content_root ++ [tempName])
       (tree (world_of (main false content_root neighbours_world))) = None
  /\ exists languages projects,
       detectLanguages content_root neighbours_world
       = Ret languages neighbours_world
       /\ collectProjects content_root languages neighbours_world
          = Ret projects neighbours_world
       /\ (forall x rest,
             ~ In x languages -> ~ In x (keys projects) ->
             x <> backupName -> x <> tempName ->
             lookup (content_root ++ [tempName; x]) (tree neighbours_world)
             = None ->
             lookup (content_root ++ x :: rest)
               (tree (world_of (main false content_root neighbours_world)))
             = lookup (content_root ++ x :: rest) (tree neighbours_world))
       /\ (forall lang,
             In lang languages -> ~ In lang (keys projects) ->
             lookup (content_root ++ [tempName; lang]) (tree neighbours_world)
             = None ->
             lookup (content_root ++ [lang])
               (tree (world_of (main false content_root neighbours_world)))
             = None).
Proof.
  split; [vm_compute; reflexivity |].
  apply (migration_frame content_root neighbours_world
           (world_of (main false content_root neighbours_world)));
    vm_compute; reflexivity.
Defined.

(** The folder [drafts], which is no language folder, stays where it is,
    and the language folder [en] is gone from the content root. *)
Example migration_frame_example :
  lookup (content_root ++ ["drafts"; "todo.txt"])
    (tree (world_of (main false content_root neighbours_world)))
  = Some (File "todo")
  /\ lookup (content_root ++ ["en"])
       (tree (world_of (main false content_root neighbours_world))) = None
  /\ lookup (content_root ++ [backupName; "en"; "setup-ssh"; "index.md"])
       (tree (world_of (main false content_root neighbours_world)))
     = Some (File "Setting up SSH").
Proof. repeat split; vm_compute; reflexivity. Qed.

(** Witness of X6. *)
Lemma migrated_item_listing_witness :
  main false content_root legacy_world = Ret tt migrated_world
  /\ exists languages projects,
       detectLanguages content_root legacy_world = Ret languages legacy_world
       /\ collectProjects content_root languages legacy_world
          = Ret projects legacy_world
       /\ forall slug versions x,
            In (slug, versions) projects ->
            (lookup (content_root ++ [slug; x]) (tree migrated_world) <> None
             <-> In x (media_of versions)
                 \/ exists lang, In lang (keys versions)
                                 /\ x = (lang ++ ".md")%string)
            /\ forall n,
                 lookup (content_root ++ [slug; x]) (tree migrated_world)
                 = Some n ->
                 isDirectory n = false.
Proof.
  split; [vm_compute; reflexivity |].
  apply (migrated_item_listing content_root legacy_world migrated_world);
    vm_compute; reflexivity.
Defined.

(** Witness of X7: a new directory, and a path where a regular file
    exists. *)
Lemma mkdirSync_creates_witness :
  mkdirSync ["a"; "new"] helpers_world
  = Ret tt (world_of (mkdirSync ["a"; "new"] helpers_world))
  /\ lookup ["a"; "new"] (tree (world_of (mkdirSync ["a"; "new"] helpers_world)))
     = Some (match lookup ["a"; "new"] (tree helpers_world) with
             | Some n => n
             | None => Dir []
             end)
  /\ (lookup ["a"; "new"] (tree helpers_world) <> None ->
      world_of (mkdirSync ["a"; "new"] helpers_world) = helpers_world)
  /\ persists (tree helpers_world)
       (tree (world_of (mkdirSync ["a"; "new"] helpers_world)))
  /\ (forall q, diverge ["a"; "new"] q = true ->
                lookup q (tree (world_of (mkdirSync ["a"; "new"] helpers_world)))
                = lookup q (tree helpers_world)).
Proof.
  split; [vm_compute; reflexivity |].
  apply (mkdirSync_creates ["a"; "new"] helpers_world).
  vm_compute. reflexivity.
Defined.

Example mkdirSync_file_example :
  mkdirSync ["b"] helpers_world = Ret tt helpers_world
  /\ lookup ["b"] (tree helpers_world) = Some (File "b").
Proof. split; vm_compute; reflexivity. Qed.

(** Witness of X8. *)
Lemma moveSync_moves_witness :
  moveSync ["a"] ["c"; "a"] helpers_world
  = Ret tt (world_of (moveSync ["a"] ["c"; "a"] helpers_world))
  /\ (diverge ["a"] ["c"; "a"] = true
      /\ lookup ["c"; "a"]
           (tree (world_of (moveSync ["a"] ["c"; "a"] helpers_world)))
         = lookup ["a"] (tree helpers_world)
      /\ lookup ["a"] (tree helpers_world) <> None
      /\ lookup ["a"]
           (tree (world_of (moveSync ["a"] ["c"; "a"] helpers_world))) = None
      /\ (forall q, diverge ["a"] q = true -> diverge ["c"; "a"] q = true ->
                    lookup q
                      (tree (world_of (moveSync ["a"] ["c"; "a"] helpers_world)))
                    = lookup q (tree helpers_world))).
Proof.
  split; [vm_compute; reflexivity |].
  apply (moveSync_moves ["a"] ["c"; "a"] helpers_world).
  - vm_compute. reflexivity.
  - discriminate.
Defined.

(** Witness of X9. *)
Lemma copyFileSync_copies_witness :
  copyFileSync ["a"; "x.txt"] ["c"; "y.txt"] helpers_world
  = Ret tt (world_of (copyFileSync ["a"; "x.txt"] ["c"; "y.txt"] helpers_world))
  /\ exists b,
       lookup ["a"; "x.txt"] (tree helpers_world) = Some (File b)
       /\ lookup ["c"; "y.txt"]
            (tree (world_of (copyFileSync ["a"; "x.txt"] ["c"; "y.txt"]
                               helpers_world)))
          = Some (File b)
       /\ persists (tree helpers_world)
            (tree (world_of (copyFileSync ["a"; "x.txt"] ["c"; "y.txt"]
                               helpers_world)))
       /\ (forall q, diverge ["c"; "y.txt"] q = true ->
                     lookup q
                       (tree (world_of (copyFileSync ["a"; "x.txt"]
                                          ["c"; "y.txt"] helpers_world)))
                     = lookup q (tree helpers_world)).
Proof.
  split; [vm_compute; reflexivity |].
  apply (copyFileSync_copies ["a"; "x.txt"] ["c"; "y.txt"] helpers_world).
  vm_compute. reflexivity.
Defined.

(** Witness of X10. *)
Lemma removeSync_removes_witness :
  removeSync ["a"] helpers_world
  = Ret tt (world_of (removeSync ["a"] helpers_world))
  /\ lookup ["a"] (tree (world_of (removeSync ["a"] helpers_world))) = None
  /\ (forall q, diverge ["a"] q = true ->
                lookup q (tree (world_of (removeSync ["a"] helpers_world)))
                = lookup q (tree helpers_world))
  /\ (lookup ["a"] (tree helpers_world) = None ->
      world_of (removeSync ["a"] helpers_world) = helpers_world).
Proof.
  split; [vm_compute; reflexivity |].
  apply (removeSync_removes ["a"] helpers_world).
  vm_compute. reflexivity.
Defined.

(** Witness of X11. *)
Lemma second_run_is_noop_witness :
  main false content_root legacy_world = Ret tt migrated_world
  /\ detectLanguages content_root migrated_world = Ret [] migrated_world
  /\ main false content_root migrated_world = Exit 0 migrated_world.
Proof.
  split; [vm_compute; reflexivity |].
  apply (second_run_is_noop false content_root legacy_world migrated_world);
    try (vm_compute; reflexivity).
  intros lang n _ _. unfold content_root, legacy_world, legacy_tree.
  cbn [app lookup tree aget String.eqb Ascii.eqb Bool.eqb].
  destruct (String.eqb lang "en"); [reflexivity |].
  destruct (String.eqb lang "ru"); reflexivity.
Defined.

(** Witness of X12. *)
Lemma existing_backup_kept_witness :
  lookup (content_root ++ [backupName; "en"]) (tree rerun_world)
  = Some (Dir [("setup-ssh", Dir [("index.md", File "first draft")])])
  /\ lookup (content_root ++ backupName :: "en" :: ["setup-ssh"; "index.md"])
       (tree (world_of (main false content_root rerun_world)))
     = lookup (content_root ++ backupName :: "en" :: ["setup-ssh"; "index.md"])
         (tree rerun_world).
Proof.
  split; [vm_compute; reflexivity |].
  apply (existing_backup_kept false content_root "en" rerun_world
           ("setup-ssh", Dir [("index.md", File "first draft")]) []
           ["setup-ssh"; "index.md"]).
  vm_compute. reflexivity.
Defined.

(** Witness of X14. *)
Lemma existing_backup_blocks_witness :
  exists w', main false content_root rerun_world = Exit 1 w'.
Proof.
  apply (existing_backup_blocks content_root rerun_world
           [("en", Dir [("setup-ssh", Dir [("index.md", File "Setting up SSH")])]);
            ("_old_structure_backup", Dir [
               ("en", Dir [("setup-ssh",
                            Dir [("index.md", File "first draft")])])])]
           "en"
           (Dir [("setup-ssh", Dir [("index.md", File "Setting up SSH")])])
           "setup-ssh"
           (Dir [("index.md", File "first draft")])).
  - vm_compute. reflexivity.
  - vm_compute. reflexivity.
  - left. reflexivity.
  - vm_compute. reflexivity.
  - vm_compute. reflexivity.
Defined.

(** The earlier backup is what it was, and the language folder is still
    in place. *)
Example existing_backup_example :
  lookup (content_root ++ [backupName; "en"; "setup-ssh"; "index.md"])
    (tree (world_of (main false content_root rerun_world)))
  = Some (File "first draft")
  /\ lookup (content_root ++ ["en"; "setup-ssh"; "index.md"])
       (tree (world_of (main false content_root rerun_world)))
     = Some (File "Setting up SSH").
Proof. split; vm_compute; reflexivity. Qed.

(** Witness of X15. *)
Lemma nested_directory_aborts_witness :
  (exists w', main false content_root nested_world = Exit 1 w')
  /\ (forall languages projects,
        detectLanguages content_root nested_world = Ret languages nested_world ->
        languages <> [] ->
        collectProjects content_root languages nested_world
        = Ret projects nested_world ->
        main true content_root nested_world = Ret tt nested_world).
Proof.
  apply (nested_directory_aborts content_root nested_world
           [("en", Dir [("setup-ssh", Dir [
               ("index.md", File "Setting up SSH");
               ("images", Dir [("diagram.png", File "PNG-en")])])])]
           "en"
           (Dir [("setup-ssh", Dir [
               ("index.md", File "Setting up SSH");
               ("images", Dir [("diagram.png", File "PNG-en")])])])
           "setup-ssh" "images" [("diagram.png", File "PNG-en")]).
  - vm_compute. reflexivity.
  - vm_compute. reflexivity.
  - left. reflexivity.
  - vm_compute. reflexivity.
  - vm_compute. discriminate.
  - discriminate.
  - vm_compute. reflexivity.
  - intros lang' b. unfold content_root, nested_world, nested_tree.
    cbn [app lookup tree aget String.eqb Ascii.eqb Bool.eqb].
    destruct (String.eqb lang' "en"); discriminate.
Defined.

(** Witness of X16. *)
Lemma clean_migration_succeeds_witness :
  exists w', main false content_root legacy_world = Ret tt w'.
Proof.
  apply (clean_migration_succeeds content_root legacy_world
           [("en", Dir [("setup-ssh", Dir [
               ("index.md", File "Setting up SSH");
               ("diagram.png", File "PNG-en")])]);
            ("ru", Dir [("setup-ssh", Dir [
               ("diagram.png", File "PNG-ru");
               ("index.md", File ru_document);
               ("notes.txt", File "notes")])])]);
    vm_compute; reflexivity.
Defined.

(** ** The rest of the site generator on the example inputs *)

(** Witness of X17. *)
Lemma post_languages_agree_witness :
  exists T,
    getPostTranslations two_language_config example_frontMatter "setup-ssh"
      site_world = Ret T site_world
    /\ getPostLanguages two_language_config "setup-ssh" site_world
       = Ret ["en"; "ru"] site_world
    /\ forall lang,
         In lang (keys T) <-> In lang ["en"; "ru"] /\ lang <> "__proto__".
Proof.
  apply (post_languages_agree two_language_config example_frontMatter
           "setup-ssh" site_world
           [("en.md", File "Setting up SSH");
            ("draft.md", File "draft");
            ("ru.md", File ru_document);
            ("de.md", File "SSH einrichten");
            ("diagram.png", File "PNG")]).
  - vm_compute. reflexivity.
  - intros lang [<- | [<- | []]]; split; vm_compute; reflexivity.
Defined.

(** Witness of X18. *)
Lemma item_path_regular_file_witness :
  getPostLanguages two_language_config "broken" broken_site_world
  = Ret [] broken_site_world
  /\ getPostTranslations two_language_config example_frontMatter "broken"
       broken_site_world = Throw broken_site_world
  /\ generateLanguageSwitcher two_language_config example_frontMatter
       (fun s => s) "en" "broken" "post" None broken_site_world
     = Throw broken_site_world.
Proof.
  assert (S : stat (path_join_str
                      (path_join (sourceDir two_language_config) "posts")
                      "broken") (tree broken_site_world)
              = Some (File "not a folder")) by (vm_compute; reflexivity).
  assert (L : 2 <= List.length (configured_languages two_language_config))
    by (vm_compute; lia).
  split.
  - apply (proj1 (item_path_regular_file two_language_config
                    example_frontMatter (fun s => s) "en" "broken"
                    broken_site_world "not a folder" S L)).
    intros lang [<- | [<- | []]]; reflexivity.
  - exact (proj2 (item_path_regular_file two_language_config
                    example_frontMatter (fun s => s) "en" "broken"
                    broken_site_world "not a folder" S L)).
Defined.

(** A language code with a slash: [getPostLanguages] joins it to the
    path of the post, which is a regular file, and finds the document
    beside the posts. *)
Example post_languages_code_with_slash :
  getPostLanguages (mkConfig (Some ["../setup-ssh/en"]) ["content"])
    "en.md" odd_site_world
  = Ret ["../setup-ssh/en"] odd_site_world.
Proof. vm_compute. reflexivity. Qed.

(** Witness of X19. *)
Lemma switcher_page_links_witness :
  generateLanguageSwitcher two_language_config example_frontMatter
    (fun s => s) "ru" EmptyString "page" None no_root_world
  = Ret ("<div class=" ++ dq ++ "lang-switcher" ++ dq ++ ">"
           ++ String.concat " | "
                (map (expected_page_entry (fun s => s) "en" "ru") ["en"; "ru"])
           ++ "</div>")%string no_root_world.
Proof.
  apply (switcher_page_links two_language_config example_frontMatter
           (fun s => s) "ru" EmptyString None no_root_world).
  vm_compute. lia.
Defined.

(** The home page in Russian links to the English home [/]. *)
Example switcher_page_example :
  generateLanguageSwitcher two_language_config example_frontMatter
    (fun s => s) "ru" EmptyString "page" None no_root_world
  = Ret ("<div class=" ++ dq ++ "lang-switcher" ++ dq ++ ">"
           ++ "<a href=" ++ dq ++ "/" ++ dq ++ " class=" ++ dq ++ "lang-link"
           ++ dq ++ ">English</a>"
           ++ " | "
           ++ "<span class=" ++ dq ++ "lang-current" ++ dq ++ ">Русский</span>"
           ++ "</div>")%string no_root_world.
Proof. vm_compute. reflexivity. Qed.

(** Witness of X20: the local [footer.html] is a directory. *)
Lemma loadPartial_local_first_witness :
  loadPartial site_cwd site_moduleDir "footer" templates_world
  = Ret [] templates_world
  /\ lookup (modulePath site_moduleDir ["templates"; "footer.html"])
       (tree templates_world) = Some (File "module footer").
Proof.
  split; [| vm_compute; reflexivity].
  apply (loadPartial_local_first site_cwd site_moduleDir "footer"
           templates_world (Dir [])).
  vm_compute. reflexivity.
Defined.

Example loadTemplate_example :
  loadTemplate site_cwd site_moduleDir templates_world
  = Ret (utf8_decode "local page") templates_world
  /\ loadPartial site_cwd site_moduleDir "header" templates_world
     = Ret (utf8_decode "module header") templates_world
  /\ loadPartial site_cwd site_moduleDir "missing" templates_world
     = Ret [] templates_world.
Proof. repeat split; vm_compute; reflexivity. Qed.
